(** * Browser agent: geometry, fusion, message history, dispatcher, step loop

    A shallow embedding of the two TypeScript code bases of the repository:
    - [IndexTs]   : src/IndexTs/src/... together with its controller,
                    agent models and message manager;
    - [TsVariant] : src/tsvariant/src/... together with its browser utils,
                    browser models, llm module and controller.

    JavaScript numbers are modelled as exact rationals ([Q], compared with
    [==]); arrays as lists; objects that are shared and mutated as cells of
    an explicit store; a function that may throw returns an [outcome]. *)

From Stdlib Require Import Ascii String QArith Qabs Qround Lqa.
From stdpp Require Import gmap list strings pretty.

Open Scope Q_scope.

(** ** Numbers *)

(** A JavaScript number is modelled by the rational it denotes: the
    arithmetic of the model is exact, where a double rounds and, beyond
    1.8e308, overflows to [Infinity]. Comparisons, [Math.max], [Math.min]
    and sums, differences and products of small multiples of a power of
    two are the same in both; where a statement needs more than that it
    carries the condition [js_exact] on the coordinates (see the
    vocabulary of the statements), and a quotient is the number the
    double division rounds. *)

(** [a < b] on numbers, as a boolean. *)
Definition Qltb (a b : Q) : bool := negb (Qle_bool b a).

(** [Math.max] and [Math.min]. *)
Definition Math_max (a b : Q) : Q := if Qle_bool a b then b else a.
Definition Math_min (a b : Q) : Q := if Qle_bool a b then a else b.

(** The ratio computed at the end of both IoU functions. *)
Definition ratio_or_zero (intersectArea unionArea : Q) : Q :=
  if Qltb 0 unionArea then intersectArea / unionArea else 0.


(** ** Arrays and the object store *)

(** [Array.prototype.sort] with a comparator: a stable sort (ES2019); [a]
    moves behind [b] only when [cmp a b > 0]. The model is the insertion
    sort. With a comparator that is a consistent order every stable sort
    returns the same array; with one that is not (the row comparator of
    the IndexTs [sortElementsByPosition] is not transitive: rows 0, 15
    and 30 with the left edges falling) the standard leaves the order to
    the engine, and the engine may return another permutation than this
    one. The statements on that function are on the elements, the
    indices and the sharing of the result; none rests on which
    permutation is returned for such a comparator. *)
Fixpoint sort_insert {A : Type} (cmp : A -> A -> Q) (a : A) (l : list A)
  : list A :=
  match l with
  | [] => [a]
  | b :: l' =>
      if Qltb 0 (cmp a b) then b :: sort_insert cmp a l' else a :: b :: l'
  end.

Definition Array_sort {A : Type} (cmp : A -> A -> Q) (l : list A) : list A :=
  foldr (sort_insert cmp) [] l.

(** Element objects and arrays are cells of a store: an array holds
    references to element objects, so that two arrays may share an object
    and a write through one reference is seen through every other. *)
Definition eref := nat.
Definition aref := nat.

Record store (E : Type) := mkStore {
  elems : list E;
  arrays : list (list eref)
}.
Arguments mkStore {E} _ _.
Arguments elems {E} _.
Arguments arrays {E} _.

Section Store.
Context {E : Type} `{!Inhabited E}.

(** Reading through a reference; a dangling reference (which a
    well-formed store never holds) reads the default object. *)
Definition get_elem (s : store E) (l : eref) : E := elems s !!! l.
Definition get_array (s : store E) (a : aref) : list eref :=
  default [] (arrays s !! a).

Definition set_elem (s : store E) (l : eref) (e : E) : store E :=
  mkStore (<[l := e]> (elems s)) (arrays s).
Definition set_array (s : store E) (a : aref) (v : list eref) : store E :=
  mkStore (elems s) (<[a := v]> (arrays s)).

Definition alloc_elem (s : store E) (e : E) : store E * eref :=
  (mkStore (elems s ++ [e]) (arrays s), length (elems s)).
Definition alloc_array (s : store E) (v : list eref) : store E * aref :=
  (mkStore (elems s) (arrays s ++ [v]), length (arrays s)).

(** No array cell holds a dangling reference. *)
Definition store_wf (s : store E) : Prop :=
  forall a v l, arrays s !! a = Some v -> l ∈ v -> (l < length (elems s))%nat.
End Store.

(** ** Values, exceptions *)

(** A thrown value: an [Error] object with its message, or any other value
    together with what [String(error)] makes of it. *)
Inductive thrown :=
  | ErrorObject (message : string)
  | OtherValue (asString : string).

(** [error instanceof Error ? error.message : String(error)] *)
Definition error_message (error : thrown) : string :=
  match error with
  | ErrorObject message => message
  | OtherValue asString => asString
  end.

(** [String(error)], as in a template string. *)
Definition error_toString (error : thrown) : string :=
  match error with
  | ErrorObject message => "Error: " +:+ message
  | OtherValue asString => asString
  end.

(** A call either returns or throws (an awaited promise either fulfils or
    rejects). *)
Inductive outcome (A : Type) :=
  | Returned (a : A)
  | Thrown (error : thrown).
Arguments Returned {A} _.
Arguments Thrown {A} _.

(** [try { body } catch (error) { handler }] *)
Definition try_catch {A : Type} (body : outcome A)
    (handler : thrown -> outcome A) : outcome A :=
  match body with
  | Returned a => Returned a
  | Thrown error => handler error
  end.

Definition bind {A B : Type} (m : outcome A) (k : A -> outcome B) : outcome B :=
  match m with
  | Returned a => k a
  | Thrown error => Thrown error
  end.

(** The line break of the template strings. *)
Definition nl : string := String "010"%char EmptyString.

(** The values that travel in [params]. *)
#[warnings="-register-all"]
Inductive JsValue :=
  | JsUndefined
  | JsNull
  | JsBoolean (b : bool)
  | JsNumber (n : Q)
  | JsString (s : string)
  | JsObject (properties : list (string * JsValue)).

(** The browser handle passed to the handlers. *)
Definition Browser := nat.

(** The object handed to a handler: the parameters, with the browser
    handle under ["browser"] when the action asked for it. *)
Record Kwargs := mkKwargs {
  kw_params : list (string * JsValue);
  kw_browser : option Browser
}.

(** ** IndexTs: src/IndexTs/src/browser/models.ts and utils.ts *)

Module IndexTs.

(** [Rect] of browser/models.ts. *)
Record Rect := mkRect {
  left : Q; top : Q; right : Q; bottom : Q; width : Q; height : Q
}.

(** The invariant the data model puts on a [Rect]. *)
Definition Rect_inv (r : Rect) : Prop :=
  left r <= right r /\ top r <= bottom r /\
  width r == right r - left r /\ height r == bottom r - top r.

Record Coordinates := mkCoordinates {
  x : Q; y : Q; coord_width : option Q; coord_height : option Q
}.

Record InteractiveElement := mkInteractiveElement {
  index : Z;
  browser_agent_id : string;
  tag_name : string;
  text : string;
  attributes : list (string * string);
  viewport : Coordinates;
  page : Coordinates;
  center : Coordinates;
  weight : Q;
  input_type : option string;
  rect : Rect;
  z_index : Z
}.

Definition set_index (e : InteractiveElement) (i : Z) : InteractiveElement :=
  mkInteractiveElement i (browser_agent_id e) (tag_name e) (text e)
    (attributes e) (viewport e) (page e) (center e) (weight e)
    (input_type e) (rect e) (z_index e).

#[global] Instance InteractiveElement_inhabited : Inhabited InteractiveElement :=
  populate (mkInteractiveElement 0 "" "" "" []
    (mkCoordinates 0 0 None None) (mkCoordinates 0 0 None None)
    (mkCoordinates 0 0 None None) 0 None (mkRect 0 0 0 0 0 0) 0).

Definition calculateIou (rect1 rect2 : Rect) : Q :=
  let intersectLeft := Math_max (left rect1) (left rect2) in
  let intersectTop := Math_max (top rect1) (top rect2) in
  let intersectRight := Math_min (right rect1) (right rect2) in
  let intersectBottom := Math_min (bottom rect1) (bottom rect2) in
  if Qltb intersectRight intersectLeft || Qltb intersectBottom intersectTop
  then 0
  else
    let intersectArea :=
      (intersectRight - intersectLeft) * (intersectBottom - intersectTop) in
    let area1 := width rect1 * height rect1 in
    let area2 := width rect2 * height rect2 in
    let unionArea := area1 + area2 - intersectArea in
    ratio_or_zero intersectArea unionArea.

Definition isFullyContained (rect1 rect2 : Rect) : bool :=
  Qle_bool (left rect2) (left rect1) &&
  Qle_bool (right rect1) (right rect2) &&
  Qle_bool (top rect2) (top rect1) &&
  Qle_bool (bottom rect1) (bottom rect2).

(** The filtering and ordering passes only read [rect] and [weight] of the
    objects they are handed; they are written once over the handle type [A]
    (an object reference under a store, or an element value). *)
Section Passes.
Context {A : Type} (rectOf : A -> Rect) (weightOf : A -> Q).

(** Comparator of the priority sort: area descending, then weight
    descending. *)
Definition priority_cmp (a b : A) : Q :=
  let areaA := width (rectOf a) * height (rectOf a) in
  let areaB := width (rectOf b) * height (rectOf b) in
  if negb (Qeq_bool areaB areaA) then areaB - areaA
  else weightOf b - weightOf a.

(** The inner loop [for (let i = finalFiltered.length - 1; i >= 0; i--)]
    of the pass whose result is returned: [scanKept current n ff] runs
    the iterations [i = n-1, ..., 0] and returns [overlapsExisting]
    together with [finalFiltered] after the splices. *)
Fixpoint scanKept (iouThreshold : Q) (current : A) (n : nat)
    (finalFiltered : list A) : bool * list A :=
  match n with
  | O => (false, finalFiltered)
  | S i =>
      match finalFiltered !! i with
      | None => scanKept iouThreshold current i finalFiltered
      | Some existing =>
          let iou := calculateIou (rectOf current) (rectOf existing) in
          if Qltb iouThreshold iou then (true, finalFiltered)
          else if isFullyContained (rectOf current) (rectOf existing)
          then (true, finalFiltered)
          else if isFullyContained (rectOf existing) (rectOf current)
          then scanKept iouThreshold current i (delete i finalFiltered)
          else scanKept iouThreshold current i finalFiltered
      end
  end.

(** Body of [elements.forEach(current => ...)]. *)
Definition keepStep (iouThreshold : Q) (finalFiltered : list A)
    (current : A) : list A :=
  let '(overlapsExisting, ff) :=
    scanKept iouThreshold current (length finalFiltered) finalFiltered in
  if overlapsExisting then ff else ff ++ [current].

(** What [filterOverlappingElements] does to the contents of the array it
    is handed (sorted in place) and what it returns. The first loop of
    the source fills [filteredElements] and [removedIndices], which are
    never read again: it has no effect on either. *)
Definition filter_sorted (elements : list A) : list A :=
  Array_sort priority_cmp elements.

Definition filter_result (elements : list A) (iouThreshold : Q) : list A :=
  match elements with
  | [] => []
  | _ => foldl (keepStep iouThreshold) [] (filter_sorted elements)
  end.

(** Comparator of [sortElementsByPosition]. *)
Definition ROW_THRESHOLD : Q := 20.

Definition position_cmp (a b : A) : Q :=
  let yDiff := top (rectOf a) - top (rectOf b) in
  if Qltb ROW_THRESHOLD (Qabs yDiff) then yDiff
  else left (rectOf a) - left (rectOf b).
End Passes.

(** The functions on element values (arrays of immutable records). *)
Definition filterOverlappingElements_pure
    (elements : list InteractiveElement) (iouThreshold : Q)
  : list InteractiveElement :=
  filter_result rect weight elements iouThreshold.

(** The functions under the store. *)
Definition st := store InteractiveElement.

Definition filterOverlappingElements (s : st) (elements : aref)
    (iouThreshold : Q) : st * aref :=
  let rectOf l := rect (get_elem s l) in
  let weightOf l := weight (get_elem s l) in
  match get_array s elements with
  | [] => alloc_array s []
  | els =>
      (* elements.sort(...) sorts the argument array in place *)
      let s1 := set_array s elements (filter_sorted rectOf weightOf els) in
      alloc_array s1 (filter_result rectOf weightOf els iouThreshold)
  end.

(** [elements.map((element, index) => ({...element, index}))]: one fresh
    object per position. *)
Fixpoint map_reindex (s : st) (els : list eref) (i : nat) : st * list eref :=
  match els with
  | [] => (s, [])
  | l :: els' =>
      let '(s1, l') := alloc_elem s (set_index (get_elem s l) (Z.of_nat i)) in
      let '(s2, r) := map_reindex s1 els' (S i) in
      (s2, l' :: r)
  end.

Definition sortElementsByPosition (s : st) (elements : aref) : st * aref :=
  let rectOf l := rect (get_elem s l) in
  match get_array s elements with
  | [] => alloc_array s []
  | els =>
      let sorted := Array_sort (position_cmp rectOf) els in
      let s1 := set_array s elements sorted in
      let '(s2, r) := map_reindex s1 sorted 0 in
      alloc_array s2 r
  end.

Definition combineAndFilterElements (s : st)
    (browserElements cvElements : aref) (iouThreshold : Q) : st * aref :=
  let '(s1, allElements) :=
    alloc_array s (get_array s browserElements ++ get_array s cvElements) in
  let '(s2, filtered) := filterOverlappingElements s1 allElements iouThreshold in
  sortElementsByPosition s2 filtered.

(** *** browser/utils.ts: the image utilities *)

(** [Math.round] *)
Definition Math_round (q : Q) : Z := Qfloor (q + (1 # 2)).

Definition colors : list (nat * nat * nat) :=
  [ (204, 0, 0); (0, 136, 0); (0, 0, 204); (204, 112, 0); (102, 0, 102);
    (0, 102, 102); (204, 51, 153); (44, 0, 102); (204, 35, 0);
    (28, 102, 66); (170, 0, 0); (36, 82, 123) ]%nat.

Record PlacedLabel := mkPlacedLabel {
  label_left : Z; label_top : Z; label_right : Z; label_bottom : Z
}.

(** The two kinds of SVG overlays that are composed onto the image. *)
Inductive Svg :=
  | BorderSvg (width height : Z) (color : nat * nat * nat)
  | LabelSvg (width height : Z) (color : nat * nat * nat) (text : string).

Record OverlayOptions := mkOverlayOptions {
  input : Svg; overlay_left : Z; overlay_top : Z
}.

Record Metadata := mkMetadata {
  metadata_width : option Z;
  metadata_height : option Z
}.

(** The image library, as far as the two utilities use it, for an image
    given by its base64 string: decoding it and reading its metadata,
    composing overlays onto it, resizing it; each renders a PNG as base64
    or throws. *)
Record Sharp := mkSharp {
  sharp_metadata : string -> outcome Metadata;
  sharp_composite : string -> list OverlayOptions -> outcome string;
  sharp_resize : string -> Z -> Z -> outcome string
}.

(** The loop over [placedLabels] that moves a label below the labels it
    overlaps. *)
Definition avoidLabel (labelX labelWidth labelHeight : Z) (labelY : Z)
    (existing : PlacedLabel) : Z :=
  let right := (labelX + labelWidth)%Z in
  let bottom := (labelY + labelHeight)%Z in
  let overlaps :=
    negb (bool_decide (right < label_left existing)%Z
          || bool_decide (labelX > label_right existing)%Z
          || bool_decide (bottom < label_top existing)%Z
          || bool_decide (labelY > label_bottom existing)%Z) in
  if overlaps then (label_bottom existing + 2)%Z else labelY.

(** One iteration of [for (const indexStr in elements)]: the state is the
    list of overlays and the list of placed labels. *)
Definition highlightStep (imageWidth imageHeight : Z)
    (acc : list OverlayOptions * list PlacedLabel)
    (entry : nat * InteractiveElement)
  : list OverlayOptions * list PlacedLabel :=
  let '(compositeOperations, placedLabels) := acc in
  let '(index, element) := entry in
  if String.prefix "row_" (browser_agent_id element)
     || String.prefix "column_" (browser_agent_id element)
  then acc
  else
    let color := colors !!! (index mod length colors)%nat in
    let rect := viewport element in
    let rectWidth := Z.max 1 (Math_round (default 1 (coord_width rect))) in
    let rectHeight := Z.max 1 (Math_round (default 1 (coord_height rect))) in
    let rectX := Math_round (x rect) in
    let rectY := Math_round (y rect) in
    let border :=
      mkOverlayOptions (BorderSvg rectWidth rectHeight color) rectX rectY in
    let text := pretty index in
    let fontSize := 14 in
    let padding := 3 in
    let estimatedCharWidth := fontSize * (6 # 10) in
    let textWidth := inject_Z (Z.of_nat (String.length text)) * estimatedCharWidth in
    let textHeight := fontSize in
    let labelWidth := Math_round (textWidth + padding * 2) in
    let labelHeight := Math_round (textHeight + padding * 2) in
    let labelX0 :=
      if bool_decide (labelWidth > rectWidth)%Z
         || bool_decide (labelHeight > rectHeight)%Z
      then (rectX + rectWidth)%Z
      else (rectX + rectWidth - labelWidth)%Z in
    let labelY0 :=
      foldl (avoidLabel labelX0 labelWidth labelHeight) rectY placedLabels in
    let labelX1 := if bool_decide (labelX0 < 0)%Z then 0%Z else labelX0 in
    let labelX :=
      if bool_decide (labelX1 + labelWidth >= imageWidth)%Z
      then (imageWidth - labelWidth - 1)%Z else labelX1 in
    let labelY1 := if bool_decide (labelY0 < 0)%Z then 0%Z else labelY0 in
    let labelY :=
      if bool_decide (labelY1 + labelHeight >= imageHeight)%Z
      then (imageHeight - labelHeight - 1)%Z else labelY1 in
    let currentLabelRect :=
      mkPlacedLabel labelX labelY (labelX + labelWidth) (labelY + labelHeight) in
    let label :=
      mkOverlayOptions (LabelSvg labelWidth labelHeight color text)
                       labelX labelY in
    (compositeOperations ++ [border; label],
     placedLabels ++ [currentLabelRect]).

Definition putHighlightElementsOnScreenshot (sharp : Sharp)
    (elements : list (nat * InteractiveElement)) (screenshotB64 : string)
  : outcome string :=
  try_catch
    (bind (sharp_metadata sharp screenshotB64) (fun metadata =>
       let imageWidth := default 0%Z (metadata_width metadata) in
       let imageHeight := default 0%Z (metadata_height metadata) in
       let '(compositeOperations, _) :=
         foldl (highlightStep imageWidth imageHeight) ([], []) elements in
       sharp_composite sharp screenshotB64 compositeOperations))
    (fun error => Returned screenshotB64).

(** A dimension is known when it is there and not 0. *)
Definition known (dimension : option Z) : option Z :=
  match dimension with
  | Some d => if bool_decide (d = 0%Z) then None else Some d
  | None => None
  end.

Definition scaleB64Image (sharp : Sharp) (imageB64 : string) (scaleFactor : Q)
  : outcome string :=
  try_catch
    (bind (sharp_metadata sharp imageB64) (fun metadata =>
       match known (metadata_width metadata),
             known (metadata_height metadata) with
       | Some width, Some height =>
           let newWidth := Math_round (inject_Z width * scaleFactor) in
           let newHeight := Math_round (inject_Z height * scaleFactor) in
           sharp_resize sharp imageB64 newWidth newHeight
       | _, _ => Returned imageB64
       end))
    (fun error => Returned imageB64).

(** *** controller/models.ts and controller/controller.ts
        (src/unnamed/part_000) *)

Record ActionResult := mkActionResult {
  is_done : bool;
  content : option string;
  error : option string;
  give_control : bool
}.

Record ActionModel := mkActionModel {
  name : string;
  params : list (string * JsValue)
}.

(** What a handler hands back, as [ActionResultSchema.parse] sees it: an
    object whose four properties have the declared types (each may be
    missing), or anything else, which the schema rejects with the given
    message. *)
Inductive HandlerValue :=
  | ResultObject (is_done : option bool) (content error : option string)
                 (give_control : option bool)
  | NotAResult (zodMessage : string).

Definition ActionResultSchema_parse (result : HandlerValue)
  : outcome ActionResult :=
  match result with
  | ResultObject d c e g =>
      Returned (mkActionResult (default false d) c e (default false g))
  | NotAResult zodMessage => Thrown (ErrorObject zodMessage)
  end.

Definition ActionFunction := Kwargs -> outcome HandlerValue.

Record Action := mkAction {
  action_name : string;
  description : string;
  function : ActionFunction;
  browserContext : bool
}.

Record Controller := mkController {
  actions : gmap string Action;
  excludeActions : list string
}.

Definition registerAction (this : Controller) (name description : string)
    (func : ActionFunction) (browserContext : bool) : Controller :=
  if bool_decide (name ∈ excludeActions this) then this
  else mkController
         (<[name := mkAction name description func browserContext]>
            (actions this))
         (excludeActions this).

Definition executeAction (this : Controller) (action : ActionModel)
    (browser : option Browser) : outcome ActionResult :=
  let actionName := name action in
  let params := params action in
  match actions this !! actionName with
  | None =>
      Thrown (ErrorObject ("Action " +:+ actionName +:+ " not found"))
  | Some actionDef =>
      try_catch
        (let kwargs :=
           mkKwargs params
             (if browserContext actionDef then browser else None) in
         bind (function actionDef kwargs) ActionResultSchema_parse)
        (fun error =>
           Thrown (ErrorObject ("Error executing action " +:+ actionName
                                +:+ ": " +:+ error_message error)))
  end.

(** *** browser/models.ts ([BrowserState]) *)

Module Models.

Record TabInfo := mkTabInfo { page_id : Z; url : string; title : string }.

Record Viewport := mkViewport {
  width : Q;
  height : Q;
  scroll_x : Q;
  scroll_y : Q;
  device_pixel_ratio : Q;
  scroll_distance_above_viewport : Q;
  scroll_distance_below_viewport : Q
}.

Record BrowserState := mkBrowserState {
  state_url : string;
  tabs : list TabInfo;
  viewport : Viewport;
  screenshot_with_highlights : option string;
  screenshot : option string;
  interactive_elements : list (Z * InteractiveElement)
}.

End Models.

(** *** llm/llm.ts *)

Module Llm.

Inductive MessageRole := SYSTEM | USER | ASSISTANT | TOOL.

#[global] Instance MessageRole_eq_dec : EqDecision MessageRole.
Proof. solve_decision. Defined.

(** A content block; a [cache_control] that is [undefined] is [None]. *)
Inductive MessageContent :=
  | TextContent (text : string) (cache_control : option bool)
  | ImageContent (source_type media_type data : string)
                 (cache_control : option bool)
  | ThinkingBlock (thinking : string) (signature : option string)
                  (cache_control : option bool).

Definition cache_control (c : MessageContent) : option bool :=
  match c with
  | TextContent _ cc | ImageContent _ _ _ cc | ThinkingBlock _ _ cc => cc
  end.

(** [content] is a string or an array of blocks. *)
Inductive Content :=
  | ContentString (s : string)
  | ContentArray (blocks : list MessageContent).

Record Message := mkMessage {
  role : MessageRole;
  content : Content;
  name : option string;
  tool_call_id : option string;
  is_state_message : bool
}.

Definition createTextMessage (role : MessageRole) (text : string) : Message :=
  mkMessage role (ContentArray [TextContent text None]) None None false.

End Llm.

(** *** agent/models.ts ([AgentLLMOutput]) *)

Record AgentLLMOutput := mkAgentLLMOutput {
  thought : string;
  action : ActionModel;
  summary : option string;
  thinking : option (string * option string)
}.

(** *** agent/message_manager.ts (src/unnamed/part_001) *)

Module MessageManager.
Import Llm.

(** The texts and images that come from outside the manager: the system
    prompt, the demo images, the renderings of a browser state and of a
    model output as text, and the image scaler. The manager is modelled
    for arbitrary such texts. *)
Record Texts := mkTexts {
  systemMessage : string;
  complexLayoutHighlight : string;
  complexLayoutClean : string;
  complexLayoutSmallElements : string;
  loading : string;
  scroll : string;
  stateDescription : Models.BrowserState -> option ActionResult -> string;
  outputJson : AgentLLMOutput -> string;
  scaleB64Image : string -> Q -> string
}.

Section Manager.
Context (texts : Texts).

Definition text_block (text : string) : MessageContent := TextContent text None.
Definition image_block (data : string) : MessageContent :=
  ImageContent "base64" "image/png" data None.

Definition addSystemMessageAndUserPrompt (messages : list Message)
    (userPrompt : string) : list Message :=
  let system := createTextMessage SYSTEM (systemMessage texts) in
  let userMessage :=
    mkMessage USER
      (ContentArray
        [ text_block userPrompt;
          image_block (complexLayoutHighlight texts);
          text_block "This is an example of highlighted elements on a complex layout. Notice the bounding boxes and labels.";
          image_block (complexLayoutClean texts);
          text_block "This is the same page but without highlights, to help you better understand the layout.";
          image_block (complexLayoutSmallElements texts);
          text_block "This shows a page with many small elements, like this navigation menu. You need to be precise in identifying the correct elements.";
          image_block (loading texts);
          text_block "This is an example of a loading page. If you see something like this, use wait_for_page_to_load action.";
          image_block (scroll texts);
          text_block "This shows a page with a scrollable element (notice the scrollbar). Use scroll_down_over_element with an element ID inside the scrollable area." ])
      None None false in
  messages ++ [system] ++ [userMessage].

(** A string is truthy when it is there and not empty. *)
Definition truthy_string (s : option string) : option string :=
  match s with
  | Some s => if String.eqb s "" then None else Some s
  | None => None
  end.

Definition addCurrentStateMessage (messages : list Message)
    (state : Models.BrowserState) (previousActionResult : option ActionResult)
  : list Message :=
  let content0 := [text_block (stateDescription texts state previousActionResult)] in
  let content1 :=
    match truthy_string (Models.screenshot state) with
    | Some shot =>
        content0 ++ [image_block shot;
                     text_block "<current_state_clean_screenshot>"]
    | None => content0
    end in
  let content2 :=
    match truthy_string (Models.screenshot_with_highlights state) with
    | Some shot => content1 ++ [image_block shot; text_block "<current_state>"]
    | None => content1
    end in
  messages ++ [mkMessage USER (ContentArray content2) None None false].

Definition is_text (c : MessageContent) : bool :=
  match c with TextContent _ _ => true | _ => false end.

(** The first loop of [addMessageFromModelOutput]: state messages keep
    their text blocks only. *)
Definition dropImages (msg : Message) : Message :=
  match content msg with
  | ContentArray blocks =>
      if bool_decide (role msg = USER) && is_state_message msg
      then mkMessage (role msg) (ContentArray (filter (fun c => is_text c = true) blocks))
                     (name msg) (tool_call_id msg) (is_state_message msg)
      else msg
  | ContentString _ => msg
  end.

Definition addMessageFromModelOutput (messages : list Message)
    (modelOutput : AgentLLMOutput) (stateScreenshot : option string)
    (thinking : option (string * option string)) : list Message :=
  let messages1 := map dropImages messages in
  let outputText :=
    "<output_step>" +:+ nl +:+ outputJson texts modelOutput +:+ nl
    +:+ "</output_step>" in
  let assistantContent :=
    match thinking with
    | Some (thinking, signature) => [ThinkingBlock thinking signature None]
    | None => []
    end ++ [text_block outputText] in
  let messages2 :=
    messages1 ++ [mkMessage ASSISTANT (ContentArray assistantContent)
                            None None false] in
  match truthy_string stateScreenshot with
  | Some shot =>
      let scaledStateScreenshot := scaleB64Image texts shot (6 # 10) in
      let stateMessage :=
        mkMessage USER
          (ContentArray
            [ ImageContent "base64" "image/png" scaledStateScreenshot
                           (Some true);
              text_block "<state_step>" ])
          None None true in
      messages2 ++ [stateMessage]
  | None => messages2
  end.

(** [msg.content.map(c => ({...c, cache_control: undefined}))] *)
Definition clear_block (c : MessageContent) : MessageContent :=
  match c with
  | TextContent text _ => TextContent text None
  | ImageContent source_type media_type data _ =>
      ImageContent source_type media_type data None
  | ThinkingBlock thinking signature _ => ThinkingBlock thinking signature None
  end.

Definition clearMessage (msg : Message) : Message :=
  match content msg with
  | ContentArray blocks =>
      mkMessage (role msg) (ContentArray (map clear_block blocks))
                (name msg) (tool_call_id msg) (is_state_message msg)
  | ContentString _ => msg
  end.

(** [msg.is_state_message && Array.isArray(msg.content)
     && msg.content.length > 0] *)
Definition eligible (msg : Message) : bool :=
  is_state_message msg &&
  match content msg with
  | ContentArray (_ :: _) => true
  | _ => false
  end.

(** The loop [for (let i = messagesToSend.length - 1; i >= 0; i--)] of
    [getMessages], run for the iterations [i = n-1, ..., 0]. The array is a
    copy but the message objects are shared, so the list the manager keeps
    changes with the list it returns. *)
Fixpoint getMessages_loop (n : nat) (lastStateMessageIndex : option nat)
    (messagesToSend : list Message) : list Message :=
  match n with
  | O => messagesToSend
  | S i =>
      match messagesToSend !! i with
      | None => getMessages_loop i lastStateMessageIndex messagesToSend
      | Some msg =>
          if eligible msg then
            match lastStateMessageIndex with
            | None => getMessages_loop i (Some i) messagesToSend
            | Some _ =>
                getMessages_loop i lastStateMessageIndex
                  (<[i := clearMessage msg]> messagesToSend)
            end
          else getMessages_loop i lastStateMessageIndex messagesToSend
      end
  end.

Definition getMessages (messages : list Message) : list Message :=
  getMessages_loop (length messages) None messages.

Definition setMessages (_old messages : list Message) : list Message :=
  messages.

End Manager.
End MessageManager.

(** *** agent/models.ts (stream chunks) and agent/agent.ts *)

Module Agent.
Import Llm MessageManager.

Definition StorageState := string.

Record AgentOutput := mkAgentOutput {
  agent_state : list Message;
  result : ActionResult;
  step_count : nat;
  storage_state : option StorageState
}.

Record TimeoutChunkContent := mkTimeoutChunkContent {
  timeout_action_result : ActionResult;
  timeout_summary : string;
  timeout_step : nat;
  timeout_agent_state : list Message;
  timeout_screenshot : option string
}.

(** The chunks the generator yields, told apart by their [type]. *)
Inductive AgentStreamChunk :=
  | StepChunk (action_result : ActionResult) (summary : string)
              (screenshot : option string)
  | TimeoutChunk (content : TimeoutChunkContent)
  | StepChunkError (content : string)
  | FinalOutputChunk (content : AgentOutput).

Definition isTimeoutChunk (chunk : AgentStreamChunk) : bool :=
  match chunk with TimeoutChunk _ => true | _ => false end.

Definition isFinalOutputChunk (chunk : AgentStreamChunk) : bool :=
  match chunk with FinalOutputChunk _ => true | _ => false end.

(** What one step meets outside the agent: the browser snapshot, the model
    call with the parsing of its answer ([generateAction]), and the
    dispatcher. *)
Record StepEnv := mkStepEnv {
  updateState : outcome Models.BrowserState;
  generateAction : list Message -> outcome AgentLLMOutput;
  executeAction : ActionModel -> outcome ActionResult
}.

(** Everything outside the agent during a run, as a state [W] that the
    steps move forward. With a timeout set, [timerFirst] tells whether
    the timer settles before the step does; the step then goes on in the
    background and [seenAtTimeout] is the history the timer callback
    reads. *)
Record Outside (W : Type) := mkOutside {
  stepEnv : W -> StepEnv;
  afterStep : W -> W;
  browserInit : W -> outcome unit;
  timerFirst : W -> Z -> bool;
  seenAtTimeout : W -> list Message -> list Message;
  browserScreenshot : W -> option string;
  getStorageState : W -> outcome StorageState;
  close : W -> outcome unit
}.
Arguments mkOutside {W} _ _ _ _ _ _ _ _.
Arguments stepEnv {W} _ _.
Arguments afterStep {W} _ _.
Arguments browserInit {W} _ _.
Arguments timerFirst {W} _ _ _.
Arguments seenAtTimeout {W} _ _ _.
Arguments browserScreenshot {W} _ _.
Arguments getStorageState {W} _ _.
Arguments close {W} _ _.

Section Agent.
Context (texts : Texts).

(** [step], once the agent is set up: the result (or what it throws) and
    the message history it leaves behind. *)
Definition step (env : StepEnv) (isSetup : bool) (messages : list Message)
    (prevActionResult : option ActionResult)
  : outcome (ActionResult * string) * list Message :=
  if negb isSetup then
    (Thrown (ErrorObject "Agent not properly set up. Call setup() first."),
     messages)
  else
    match updateState env with
    | Thrown error => (Thrown error, messages)
    | Returned state =>
        let messages1 :=
          addCurrentStateMessage texts messages state prevActionResult in
        let messagesToSend := getMessages messages1 in
        match generateAction env messagesToSend with
        | Thrown error =>
            (* nothing catches it here: the history stays as it is *)
            (Thrown error, messagesToSend)
        | Returned output =>
            let currentMessages := getMessages messagesToSend in
            (* currentMessages.pop(); setMessages(currentMessages) *)
            let messages2 := setMessages messagesToSend
                               (removelast currentMessages) in
            let messages3 :=
              addMessageFromModelOutput texts messages2 output
                (Models.screenshot state) (thinking output) in
            match executeAction env (action output) with
            | Thrown error => (Thrown error, messages3)
            | Returned actionResult =>
                (Returned (actionResult, default "" (summary output)),
                 messages3)
            end
        end
    end.

Record RunStreamOptions := mkRunStreamOptions {
  maxSteps : nat;
  prevStep : nat;
  prevActionResult : option ActionResult;
  timeout : option Z;
  agentState : option (outcome (list Message))
}.

Context {W : Type} (outside : Outside W).

Definition getState (messages : list Message) : list Message :=
  getMessages messages.

(** [setup] with [setupMessages]: a state that does not parse is logged
    and the conversation starts afresh. *)
Definition setup (w : W) (messages : list Message) (userPrompt : string)
    (agentState : option (outcome (list Message))) : outcome (list Message) :=
  bind (browserInit outside w) (fun _ =>
    match agentState with
    | Some (Returned restored) => Returned (setMessages messages restored)
    | Some (Thrown _) | None =>
        Returned (addSystemMessageAndUserPrompt texts messages userPrompt)
    end).

(** A timeout is set when the option is a number other than 0. *)
Definition truthy_timeout (timeout : option Z) : option Z :=
  match timeout with
  | Some t => if bool_decide (t = 0%Z) then None else Some t
  | None => None
  end.

Inductive StepOrTimeout :=
  | StepData (data : ActionResult * string)
  | StepTimeout (data : TimeoutChunkContent).

Definition executeStepWithTimeout (w : W) (messages : list Message)
    (prevActionResult : option ActionResult) (timeout : option Z)
  : outcome StepOrTimeout * list Message :=
  match truthy_timeout timeout with
  | Some t =>
      if timerFirst outside w t then
        let state := getState (seenAtTimeout outside w messages) in
        (Returned (StepTimeout
           (mkTimeoutChunkContent
              (mkActionResult false None
                 (Some ("Step timed out after " +:+ pretty t +:+ "ms")) false)
              "Execution timed out" (length state) state
              (browserScreenshot outside w))),
         state)
      else
        let '(out, messages1) :=
          step (stepEnv outside w) true messages prevActionResult in
        (bind out (fun data => Returned (StepData data)), messages1)
  | None =>
      let '(out, messages1) :=
        step (stepEnv outside w) true messages prevActionResult in
      (bind out (fun data => Returned (StepData data)), messages1)
  end.

Record LoopState := mkLoopState {
  ls_world : W;
  ls_messages : list Message;
  ls_stepCount : nat;
  ls_actionResult : option ActionResult
}.

(** The loop [while (stepCount < maxSteps && !isDone)]; [fuel] is
    [maxSteps - stepCount]. Returns the chunks yielded, whether the loop
    was left through the timeout [break], and the state at that point. *)
Fixpoint runStream_loop (options : RunStreamOptions) (fuel : nat)
    (st : LoopState) : list AgentStreamChunk * bool * LoopState :=
  match fuel with
  | O => ([], false, st)
  | S fuel' =>
      let '(out, messages1) :=
        executeStepWithTimeout (ls_world st) (ls_messages st)
          (ls_actionResult st) (timeout options) in
      let w1 := afterStep outside (ls_world st) in
      match out with
      | Returned (StepTimeout data) =>
          ([TimeoutChunk data], true,
           mkLoopState w1 messages1 (ls_stepCount st) (ls_actionResult st))
      | Returned (StepData (step_result, summary)) =>
          let st1 :=
            mkLoopState w1 messages1 (S (ls_stepCount st)) (Some step_result) in
          let chunk :=
            StepChunk step_result summary (browserScreenshot outside w1) in
          if is_done step_result then ([chunk], false, st1)
          else
            let '(chunks, timedOut, st2) := runStream_loop options fuel' st1 in
            (chunk :: chunks, timedOut, st2)
      | Thrown error =>
          let errorMsg :=
            "Error during step " +:+ pretty (ls_stepCount st) +:+ ": "
            +:+ error_message error in
          let st1 :=
            mkLoopState w1 messages1 (S (ls_stepCount st))
                        (ls_actionResult st) in
          let '(chunks, timedOut, st2) := runStream_loop options fuel' st1 in
          (StepChunkError errorMsg :: chunks, timedOut, st2)
      end
  end.

(** The state in which the loop is entered. *)
Definition loopStart (options : RunStreamOptions) (w : W)
    (messages0 : list Message) : LoopState :=
  mkLoopState w messages0 (prevStep options) (prevActionResult options).

(** [runStream]: the chunks the generator yields when it is drained. The
    generator itself never throws: the outer [catch] turns whatever is
    thrown into a last error chunk. *)
Definition runStream (w : W) (messages : list Message) (prompt : string)
    (options : RunStreamOptions) : list AgentStreamChunk :=
  let on_error error :=
    [StepChunkError ("Error in runStream: " +:+ error_message error)] in
  match setup w messages prompt (agentState options) with
  | Thrown error => on_error error
  | Returned messages0 =>
      let '(chunks, _, st) :=
        runStream_loop options (maxSteps options - prevStep options)
          (loopStart options w messages0) in
      let state := getState (ls_messages st) in
      match getStorageState outside (ls_world st) with
      | Thrown error => chunks ++ on_error error
      | Returned storageState =>
          match close outside (ls_world st) with
          | Thrown error => chunks ++ on_error error
          | Returned _ =>
              chunks ++
              [FinalOutputChunk
                 (mkAgentOutput state
                    (default (mkActionResult false None
                                (Some "No action result") false)
                             (ls_actionResult st))
                    (ls_stepCount st) (Some storageState))]
          end
      end
  end.

(** The loop of [run], [while (stepCount < maxSteps && !isDone)]: nothing
    around [step] catches what it throws. *)
Fixpoint run_loop (fuel : nat) (st : LoopState) : outcome LoopState :=
  match fuel with
  | O => Returned st
  | S fuel' =>
      let '(out, messages1) :=
        step (stepEnv outside (ls_world st)) true (ls_messages st)
             (ls_actionResult st) in
      let w1 := afterStep outside (ls_world st) in
      match out with
      | Thrown error => Thrown error
      | Returned (result, _) =>
          let st1 :=
            mkLoopState w1 messages1 (S (ls_stepCount st)) (Some result) in
          if is_done result then Returned st1 else run_loop fuel' st1
      end
  end.

(** [run]: the final output, or what the run throws. *)
Definition run (w : W) (messages : list Message) (prompt : string)
    (maxSteps : nat) (agentState : option (outcome (list Message)))
  : outcome AgentOutput :=
  bind (setup w messages prompt agentState) (fun messages0 =>
  bind (run_loop maxSteps (mkLoopState w messages0 0 None)) (fun st =>
    let state := getState (ls_messages st) in
    bind (getStorageState outside (ls_world st)) (fun storageState =>
    bind (close outside (ls_world st)) (fun _ =>
      Returned
        (mkAgentOutput state
           (default (mkActionResult false None (Some "No action result") false)
                    (ls_actionResult st))
           (ls_stepCount st) (Some storageState)))))).

End Agent.
End Agent.

(** *** browser/utils.ts on arrays of element values

    What [sortElementsByPosition] and [combineAndFilterElements] return,
    as functions of the elements they are handed. *)

Definition sortElementsByPosition_pure (elements : list InteractiveElement)
  : list InteractiveElement :=
  match elements with
  | [] => []
  | _ =>
      imap (fun index element => set_index element (Z.of_nat index))
           (Array_sort (position_cmp rect) elements)
  end.

Definition combineAndFilterElements_pure
    (browserElements cvElements : list InteractiveElement) (iouThreshold : Q)
  : list InteractiveElement :=
  let allElements := browserElements ++ cvElements in
  let filtered := filterOverlappingElements_pure allElements iouThreshold in
  sortElementsByPosition_pure filtered.

(** *** browser/browser.ts: the record of elements in a browser state
        (src/IndexTs/src/browser/detector.ts, second part)

    [interactiveElements[element.index] = element] for each element in
    turn, starting from the empty record. *)
Definition interactiveElementsRecord (elements : list InteractiveElement)
  : gmap Z InteractiveElement :=
  foldl (fun interactiveElements element =>
           <[index element := element]> interactiveElements)
        ∅ elements.

(** *** llm/llm.ts ([BaseLLMProvider]) and llm/providers/anthropic.ts
        (src/unnamed/part_001): the request built by [call] *)

Module AnthropicProvider.
Import Llm.

(** A content block as it is sent; [block_cache_control] tells whether
    the block has the property [cache_control: { type: 'ephemeral' }]. *)
Inductive AnthropicBlock :=
  | AnthropicText (text : string) (block_cache_control : bool)
  | AnthropicImage (source_type media_type data : string)
                   (block_cache_control : bool)
  | AnthropicThinking (thinking : string) (signature : option string)
                      (block_cache_control : bool).

Inductive AnthropicContent :=
  | AnthropicBlocks (blocks : list AnthropicBlock)
  | AnthropicString (s : string).

Record AnthropicMessage := mkAnthropicMessage {
  anthropic_role : MessageRole;
  anthropic_content : AnthropicContent
}.

(** [prepareMessages]: a string content becomes one text block. *)
Definition prepareMessages (messages : list Message) : list Message :=
  map (fun msg =>
         match content msg with
         | ContentString s =>
             mkMessage (role msg) (ContentArray [TextContent s None])
                       (name msg) (tool_call_id msg) (is_state_message msg)
         | ContentArray _ => msg
         end)
      messages.

(** [(block as any).cache_control] is truthy. *)
Definition truthy_cache_control (block : MessageContent) : bool :=
  match cache_control block with
  | Some true => true
  | _ => false
  end.

Definition toAnthropicBlock (enableCacheControl : bool)
    (block : MessageContent) : AnthropicBlock :=
  let marked := enableCacheControl && truthy_cache_control block in
  match block with
  | TextContent text _ => AnthropicText text marked
  | ImageContent source_type media_type data _ =>
      AnthropicImage source_type media_type data marked
  | ThinkingBlock thinking signature _ =>
      AnthropicThinking thinking
        (match signature with
         | Some s => if String.eqb s "" then None else Some s
         | None => None
         end)
        marked
  end.

Definition toAnthropicFormat (messages : list Message)
    (enableCacheControl : bool) : list AnthropicMessage :=
  map (fun msg =>
         mkAnthropicMessage (role msg)
           match content msg with
           | ContentArray blocks =>
               AnthropicBlocks (map (toAnthropicBlock enableCacheControl) blocks)
           | ContentString s => AnthropicString s
           end)
      messages.

Record Provider := mkProvider {
  model : string;
  enableThinking : bool;
  thinkingTokenBudget : Z
}.

Record CallOptions := mkCallOptions {
  temperature : option Q;
  max_tokens : option Z
}.

Record RequestBody := mkRequestBody {
  request_model : string;
  request_messages : list AnthropicMessage;
  request_system : option string;
  request_temperature : Q;
  request_max_tokens : Z;
  request_thinking_budget : option Z
}.

(** The first part of [call]: from the messages to the request body. *)
Definition call_requestBody (this : Provider) (messages : list Message)
    (options : CallOptions) : RequestBody :=
  let preparedMessages := prepareMessages messages in
  let '(systemMessageContent, userMessages) :=
    match preparedMessages with
    | systemMsg :: rest =>
        if bool_decide (role systemMsg = SYSTEM) then
          (match content systemMsg with
           | ContentArray (TextContent text _ :: _) => Some text
           | ContentArray _ => None
           | ContentString s => Some s
           end, rest)
        else (None, preparedMessages)
    | [] => (None, preparedMessages)
    end in
  let formattedMessages := toAnthropicFormat userMessages true in
  let max_tokens0 := default 4096%Z (max_tokens options) in
  mkRequestBody (model this) formattedMessages systemMessageContent
    (default 1 (temperature options))
    (if enableThinking this
     then Z.max (thinkingTokenBudget this + 1) max_tokens0
     else max_tokens0)
    (if enableThinking this then Some (thinkingTokenBudget this) else None).

End AnthropicProvider.

End IndexTs.

(** ** TsVariant: browser models and utils (src/unnamed/part_002) *)

Module TsVariant.

(** The four-edge record the IoU and containment functions receive. *)
Record Edges := mkEdges { left : Q; top : Q; right : Q; bottom : Q }.

Definition Edges_inv (r : Edges) : Prop :=
  left r <= right r /\ top r <= bottom r.

(** [rect] of an element: a record of numbers read at [x], [y], [width]
    and [height]. *)
Record Rect := mkRect { x : Q; y : Q; width : Q; height : Q }.

Record Coordinates := mkCoordinates {
  coord_x : Z; coord_y : Z; coord_width : option Z; coord_height : option Z
}.

Record InteractiveElement := mkInteractiveElement {
  index : Z;
  tagName : string;
  text : string;
  attributes : list (string * string);
  viewport : Coordinates;
  page : Coordinates;
  center : Coordinates;
  weight : Q;
  browserAgentId : string;
  inputType : option string;
  rect : Rect;
  zIndex : Z
}.

Definition set_index (e : InteractiveElement) (i : Z) : InteractiveElement :=
  mkInteractiveElement i (tagName e) (text e) (attributes e) (viewport e)
    (page e) (center e) (weight e) (browserAgentId e) (inputType e) (rect e)
    (zIndex e).

#[global] Instance InteractiveElement_inhabited : Inhabited InteractiveElement :=
  populate (mkInteractiveElement 0 "" "" []
    (mkCoordinates 0 0 None None) (mkCoordinates 0 0 None None)
    (mkCoordinates 0 0 None None) 0 "" None (mkRect 0 0 0 0) 0).

Definition calculateIOU (rect1 rect2 : Edges) : Q :=
  let intersectLeft := Math_max (left rect1) (left rect2) in
  let intersectTop := Math_max (top rect1) (top rect2) in
  let intersectRight := Math_min (right rect1) (right rect2) in
  let intersectBottom := Math_min (bottom rect1) (bottom rect2) in
  if Qltb intersectRight intersectLeft || Qltb intersectBottom intersectTop
  then 0
  else
    let area1 := (right rect1 - left rect1) * (bottom rect1 - top rect1) in
    let area2 := (right rect2 - left rect2) * (bottom rect2 - top rect2) in
    let intersectionArea :=
      (intersectRight - intersectLeft) * (intersectBottom - intersectTop) in
    let unionArea := area1 + area2 - intersectionArea in
    ratio_or_zero intersectionArea unionArea.

Definition isFullyContained (rect1 rect2 : Edges) : bool :=
  Qle_bool (left rect2) (left rect1) &&
  Qle_bool (right rect1) (right rect2) &&
  Qle_bool (top rect2) (top rect1) &&
  Qle_bool (bottom rect1) (bottom rect2).

(** [{left: r.x, top: r.y, right: r.x + r.width, bottom: r.y + r.height}] *)
Definition toEdges (r : Rect) : Edges :=
  mkEdges (x r) (y r) (x r + width r) (y r + height r).

Section Passes.
Context {A : Type} (rectOf : A -> Rect) (weightOf : A -> Q)
        (zIndexOf : A -> Z).

Definition priority_cmp (a b : A) : Q :=
  let areaA := width (rectOf a) * height (rectOf a) in
  let areaB := width (rectOf b) * height (rectOf b) in
  if negb (Qeq_bool areaB areaA) then areaB - areaA
  else weightOf b - weightOf a.

(** The inner loop [for (let i = 0; i < filteredElements.length; i++)]:
    [done] holds [filteredElements[0..i-1]], [rest] what is left from
    index [i] on. Returns [shouldAdd] and [filteredElements] on exit. *)
Fixpoint scanFiltered (iouThreshold : Q) (current : A)
    (done rest : list A) : bool * list A :=
  match rest with
  | [] => (true, done)
  | existing :: rest' =>
      let currentRect := toEdges (rectOf current) in
      let existingRect := toEdges (rectOf existing) in
      let iou := calculateIOU currentRect existingRect in
      if Qltb iouThreshold iou then (false, done ++ rest)
      else if isFullyContained currentRect existingRect then
        if Qle_bool (weightOf current) (weightOf existing)
           && bool_decide (zIndexOf existing = zIndexOf current)
        then (false, done ++ rest)
        else
          let currentArea := width (rectOf current) * height (rectOf current) in
          let existingArea :=
            width (rectOf existing) * height (rectOf existing) in
          if Qle_bool (existingArea * (1 # 2)) currentArea
          then (true, done ++ rest')  (* splice(i, 1); break *)
          else scanFiltered iouThreshold current (done ++ [existing]) rest'
      else scanFiltered iouThreshold current (done ++ [existing]) rest'
  end.

Definition addStep (iouThreshold : Q) (filteredElements : list A)
    (current : A) : list A :=
  let '(shouldAdd, fe) :=
    scanFiltered iouThreshold current [] filteredElements in
  if shouldAdd then fe ++ [current] else fe.

Definition filter_result (elements : list A) (iouThreshold : Q) : list A :=
  match elements with
  | [] => []
  | _ =>
      let sortedElements := Array_sort priority_cmp elements in
      foldl (addStep iouThreshold) [] sortedElements
  end.

Definition ROW_THRESHOLD : Q := 20.

(** The grouping loop over [sortedByY]: state is [(rows, currentRow)]. *)
Definition groupStep (acc : list (list A) * list A) (element : A)
  : list (list A) * list A :=
  let '(rows, currentRow) := acc in
  match last currentRow with
  | None => (rows, [element])
  | Some lastElement =>
      if Qle_bool (Qabs (y (rectOf element) - y (rectOf lastElement)))
                  ROW_THRESHOLD
      then (rows, currentRow ++ [element])
      else (rows ++ [currentRow], [element])
  end.

(** The order [sortElementsByPosition] computes (before it writes the
    indices). *)
Definition position_order (elements : list A) : list A :=
  let sortedByY :=
    Array_sort (fun a b => y (rectOf a) - y (rectOf b)) elements in
  let '(rows0, currentRow) := foldl groupStep ([], []) sortedByY in
  let rows :=
    match currentRow with [] => rows0 | _ => rows0 ++ [currentRow] end in
  let rowsSorted :=
    map (Array_sort (fun a b => x (rectOf a) - x (rectOf b))) rows in
  concat rowsSorted.
End Passes.

Definition filterOverlappingElements_pure
    (elements : list InteractiveElement) (iouThreshold : Q)
  : list InteractiveElement :=
  filter_result rect weight zIndex elements iouThreshold.

Definition st := store InteractiveElement.

(** [[...elements].sort(...)] sorts a copy: the argument array is only
    read. *)
Definition filterOverlappingElements (s : st) (elements : aref)
    (iouThreshold : Q) : st * aref :=
  let rectOf l := rect (get_elem s l) in
  let weightOf l := weight (get_elem s l) in
  let zIndexOf l := zIndex (get_elem s l) in
  alloc_array s
    (filter_result rectOf weightOf zIndexOf (get_array s elements) iouThreshold).

(** [for (let i = 0; ...) sortedElements[i].index = i]: writes through the
    references held by the array. *)
Fixpoint write_indices (s : st) (sortedElements : list eref) (i : nat) : st :=
  match sortedElements with
  | [] => s
  | l :: rest =>
      write_indices (set_elem s l (set_index (get_elem s l) (Z.of_nat i)))
        rest (S i)
  end.

Definition sortElementsByPosition (s : st) (elements : aref) : st * aref :=
  let rectOf l := rect (get_elem s l) in
  match get_array s elements with
  | [] => alloc_array s []
  | els =>
      let sortedElements := position_order rectOf els in
      let '(s1, r) := alloc_array s sortedElements in
      (write_indices s1 sortedElements 0, r)
  end.

Definition combineAndFilterElements (s : st)
    (browserElements cvElements : aref) (iouThreshold : Q) : st * aref :=
  let '(s1, allElements) :=
    alloc_array s (get_array s browserElements ++ get_array s cvElements) in
  let '(s2, filtered) := filterOverlappingElements s1 allElements iouThreshold in
  sortElementsByPosition s2 filtered.

(** *** browser utils: the image utilities (placeholders that hand the
        image back) *)

Definition putHighlightElementsOnScreenshot
    (elements : list (nat * InteractiveElement)) (screenshotB64 : string)
  : outcome string :=
  try_catch (Returned screenshotB64) (fun e => Returned screenshotB64).

Definition scaleB64Image (imageB64 : string) (scaleFactor : Q) : string :=
  imageB64.

(** *** agent/models.ts ([ActionResult], [ActionModel]) and
        controller/controller.ts (src/unnamed/part_004) *)

Record ActionResult := mkActionResult {
  isDone : bool;
  content : option string;
  error : option string;
  giveControl : bool
}.

(** [new ActionResult({isDone, content, error, giveControl})]: a missing
    [isDone] or [giveControl] defaults to [false]. *)
Definition new_ActionResult (isDone : option bool)
    (content error : option string) (giveControl : option bool)
  : ActionResult :=
  mkActionResult (default false isDone) content error
                 (default false giveControl).

Record ActionModel := mkActionModel {
  name : string;
  params : list (string * JsValue)
}.

(** What a handler hands back, as the dispatcher tells it apart: an
    [ActionResult] instance, a string, another truthy object (seen through
    the four properties that are read from it), or anything else. *)
Inductive HandlerValue :=
  | ResultInstance (result : ActionResult)
  | StringValue (s : string)
  | TruthyObject (isDone : option bool) (content error : option string)
                 (giveControl : option bool)
  | OtherResult.

Record Action := mkAction {
  action_name : string;
  description : string;
  function : Kwargs -> outcome HandlerValue;
  browserContext : bool
}.

Record Controller := mkController {
  _actions : gmap string Action;
  excludeActions : list string
}.

Definition registerAction (this : Controller) (name description : string)
    (func : Kwargs -> outcome HandlerValue) (browserContext : bool)
  : Controller :=
  if bool_decide (name ∈ excludeActions this) then this
  else mkController
         (<[name := mkAction name description func browserContext]>
            (_actions this))
         (excludeActions this).

(** [_actions] is a plain object: reading a name it does not own falls
    through to [Object.prototype]. (No action is registered under the
    name [__proto__], which would replace that prototype.) *)
Definition Object_prototype_properties : list string :=
  ["constructor"; "__proto__"; "hasOwnProperty"; "isPrototypeOf";
   "propertyIsEnumerable"; "toLocaleString"; "toString"; "valueOf";
   "__defineGetter__"; "__defineSetter__"; "__lookupGetter__";
   "__lookupSetter__"].

Inductive PropertyRead :=
  | OwnAction (registeredAction : Action)
  | Inherited   (* a truthy value that has no [function] property *)
  | Missing.    (* undefined *)

Definition read_action (this : Controller) (actionName : string)
  : PropertyRead :=
  match _actions this !! actionName with
  | Some registeredAction => OwnAction registeredAction
  | None =>
      if bool_decide (actionName ∈ Object_prototype_properties)
      then Inherited else Missing
  end.

Definition executeAction (this : Controller) (action : ActionModel)
    (browser : option Browser) : outcome ActionResult :=
  let actionName := name action in
  let params := params action in
  let on_error error :=
    let message := error_message error in
    Returned (new_ActionResult (Some false) None
      (Some ("Error executing action " +:+ actionName +:+ ": " +:+ message))
      None) in
  match read_action this actionName with
  | Missing =>
      Returned (new_ActionResult (Some false) None
        (Some ("Action " +:+ actionName +:+ " not found")) None)
  | Inherited =>
      (* registeredAction.function is undefined: the call throws inside
         the try block *)
      try_catch
        (Thrown (ErrorObject "registeredAction.function is not a function"))
        on_error
  | OwnAction registeredAction =>
      try_catch
        (let kwargs :=
           mkKwargs params
             (if browserContext registeredAction then browser else None) in
         bind (function registeredAction kwargs) (fun result =>
           match result with
           | ResultInstance r => Returned r
           | StringValue s =>
               Returned (new_ActionResult (Some false) (Some s) None None)
           | TruthyObject d c e g =>
               Returned (new_ActionResult
                 (Some (default false d)) c e g)
           | OtherResult =>
               Returned (new_ActionResult (Some false)
                 (Some "Action completed with no specific result") None None)
           end))
        on_error
  end.

(** *** browser/models.ts ([BrowserState]) *)

Module Models.

Record TabInfo := mkTabInfo { pageId : Z; tabUrl : string; title : string }.

Record Viewport := mkViewport {
  width : Z;
  height : Z;
  scrollX : Z;
  scrollY : Z;
  devicePixelRatio : Q;
  scrollDistanceAboveViewport : Z;
  scrollDistanceBelowViewport : Z
}.

Record BrowserState := mkBrowserState {
  url : string;
  tabs : list TabInfo;
  viewport : Viewport;
  screenshotWithHighlights : option string;
  screenshot : option string;
  interactiveElements : list (Z * InteractiveElement)
}.

End Models.

(** *** llm/llm.ts (src/unnamed/part_003) *)

Module Llm.

(** A content block; [cacheControl] is [None] when the object has no such
    property. *)
Inductive ContentType :=
  | TextContent (text : string) (cacheControl : option bool)
  | ImageContent (imageUrl : string) (imageB64 : string)
                 (cacheControl : option bool)
  | ThinkingBlock (thinking : string) (signature : string)
                  (cacheControl : option bool).

Definition cacheControl (c : ContentType) : option bool :=
  match c with
  | TextContent _ cc | ImageContent _ _ cc | ThinkingBlock _ _ cc => cc
  end.

Record Message := mkMessage {
  role : string;
  content : list ContentType;
  name : option string;
  toolCallId : option string;
  isStateMessage : bool
}.

(** [new Message(role, content)] *)
Definition new_Message (role : string) (content : list ContentType)
  : Message := mkMessage role content None None false.

End Llm.

(** *** agent/models.ts ([AgentLLMOutput]) *)

Record AgentLLMOutput := mkAgentLLMOutput {
  thought : string;
  action : ActionModel;
  summary : string;
  thinkingBlock : option Llm.ContentType
}.

(** *** agent/message_manager.ts *)

Module MessageManager.
Import Llm.

(** The texts and images that come from outside the manager: the system
    prompt (prompts.ts), the demo images (files), the clock, and the
    renderings of a browser state and of a model output as text. The
    manager is modelled for arbitrary such texts. *)
Record Texts := mkTexts {
  systemMessage : string;
  complexLayoutHighlight : string;
  complexLayoutSmallElements : string;
  stillLoading : string;
  stillLoading2 : string;
  scrollOverElementExample : string;
  taskText : string -> string;
  stateDescription :
    Models.BrowserState -> option ActionResult -> option string -> string;
  outputJson : AgentLLMOutput -> string
}.

Section Manager.
Context (texts : Texts).

Definition text_block (text : string) : ContentType := TextContent text None.
Definition image_block (imageB64 : string) : ContentType :=
  ImageContent "" imageB64 None.

Definition addSystemMessageAndUserPrompt (_messages : list Message)
    (prompt : string) : list Message :=
  let systemMsg :=
    mkMessage "system" [TextContent (systemMessage texts) (Some true)]
              None None false in
  let userMsg :=
    mkMessage "user"
      [ text_block "<complex_layout_example>";
        text_block "Here's an example of a complex layout. As an example, if you want to select a 'Roster' section for Colorado Rockies. Then you need to click on element with index 121.";
        image_block (complexLayoutHighlight texts);
        text_block "</complex_layout_example>";
        text_block "<small_elements_example>";
        text_block "Here's an example of small elements on the page and their functions. Element 7, represented by 'x' icon, is a 'clear text' button. Element 8 is a 'submit' button, represented by '=' icon. This clarification should help you better understand similar web pages.";
        image_block (complexLayoutSmallElements texts);
        text_block "</small_elements_example>";
        text_block "<loading_pages_example>";
        text_block "Here are some examples of loading pages. If the main content on the page is empty or if there are loading elements, such as skeleton screens, page is still loading. Then, you HAVE to perform `wait_for_page_to_load` action.";
        image_block (stillLoading texts);
        image_block (stillLoading2 texts);
        text_block "</loading_pages_example>";
        text_block "<scroll_over_element_example>";
        text_block "In some cases, to reveal more content, you need to scroll in scrollable areas of the webpage. Scrollable areas have VERTICAL scrollbars very clearly visible on their right side. In the screenshot below, you can clearly see a scrollbar on the right side of the list of search items. This indicates that the list is scrollable. To scroll over this area, you need to identify any element within the scrollable area and use its index with `scroll_down_over_element` action to scroll over it. In this example, approriate element is with index 15.";
        image_block (scrollOverElementExample texts);
        TextContent "</scroll_over_element_example>" (Some true);
        text_block (taskText texts prompt) ]
      None None false in
  _messages ++ [systemMsg] ++ [userMsg].

Definition getMessagesAsState (_messages : list Message) : list Message :=
  filter (fun msg => isStateMessage msg = true) _messages.

Definition removeLastMessage (_messages : list Message) : list Message :=
  if bool_decide (1 < length _messages)%nat
  then removelast _messages   (* pop() *)
  else _messages.

Definition addCurrentStateMessage (_messages : list Message)
    (state : Models.BrowserState) (previousResult : option ActionResult)
    (userFollowUpMessage : option string) : list Message :=
  let stateMsg :=
    mkMessage "user"
      [ text_block (stateDescription texts state previousResult
                      userFollowUpMessage);
        text_block "<current_state_clean_screenshot>";
        image_block (default "" (Models.screenshot state));
        text_block "</current_state_clean_screenshot>";
        text_block "<current_state>";
        image_block (default "" (Models.screenshotWithHighlights state));
        text_block "</current_state>" ]
      None None false in
  _messages ++ [stateMsg].

(** [if (msg.isStateMessage && msg.content.length > 1)
       msg.content = [msg.content[0]]] *)
Definition resetStateContent (msg : Message) : Message :=
  if isStateMessage msg && bool_decide (1 < length (content msg))%nat
  then mkMessage (role msg) (take 1 (content msg)) (name msg)
                 (toolCallId msg) (isStateMessage msg)
  else msg.

(** A string is truthy when it is there and not empty. *)
Definition truthy_string (s : option string) : bool :=
  match s with Some s => negb (String.eqb s "") | None => false end.

Definition tagged (tag : string) (n : Z) (body : string) : string :=
  "<" +:+ tag +:+ pretty n +:+ ">" +:+ nl +:+ body +:+ nl
  +:+ "</" +:+ tag +:+ pretty n +:+ ">".

Definition previousActionOutput (step : Z) (previousResult : ActionResult)
  : string :=
  (if truthy_string (TsVariant.content previousResult)
   then tagged "action_output_" (step - 1)
               (default "" (TsVariant.content previousResult))
   else "")
  +:+
  (if truthy_string (TsVariant.error previousResult)
   then tagged "action_error_" (step - 1)
               (default "" (TsVariant.error previousResult))
   else "").

Definition addMessageFromModelOutput (_messages : list Message) (step : Z)
    (previousResult : option ActionResult) (modelOutput : AgentLLMOutput)
    (screenshot : option string) : list Message :=
  let messages1 := map resetStateContent _messages in
  let messages2 :=
    match previousResult with
    | Some previous =>
        if truthy_string screenshot then
          let userMsg :=
            mkMessage "user"
              [ TextContent (previousActionOutput step previous) (Some true);
                text_block ("<state_" +:+ pretty step +:+ ">");
                image_block (scaleB64Image (default "" screenshot) (75 # 100));
                text_block ("</state_" +:+ pretty step +:+ ">") ]
              None None true in
          messages1 ++ [userMsg]
        else messages1
    | None => messages1
    end in
  let assistantContent :=
    match thinkingBlock modelOutput with
    | Some block => [block]
    | None => []
    end ++ [text_block (tagged "output_" step (outputJson texts modelOutput))] in
  messages2 ++ [new_Message "assistant" assistantContent].

(** [hasCacheControl]: some text block has [cacheControl === true]. *)
Definition is_marked_text (c : ContentType) : bool :=
  match c with
  | TextContent _ (Some true) => true
  | _ => false
  end.

Definition hasCacheControl (message : Message) : bool :=
  existsb is_marked_text (content message).

(** [removeCacheControl]: every text block that has a [cacheControl]
    property gets it set to [false]. *)
Definition clear_text (c : ContentType) : ContentType :=
  match c with
  | TextContent text (Some _) => TextContent text (Some false)
  | _ => c
  end.

Definition removeCacheControl (message : Message) : Message :=
  mkMessage (role message) (map clear_text (content message))
            (name message) (toolCallId message) (isStateMessage message).

(** The loop [for (let i = this._messages.length - 1; i >= 0; i--)] of
    [getMessages], run for the iterations [i = n-1, ..., 0]. The message
    objects are changed in place, so the list the manager keeps and the
    list it returns are the same. *)
Fixpoint getMessages_loop (n : nat) (foundFirstCacheControl : bool)
    (_messages : list Message) : list Message :=
  match n with
  | O => _messages
  | S i =>
      match _messages !! i with
      | None => getMessages_loop i foundFirstCacheControl _messages
      | Some msg =>
          if String.eqb (role msg) "system"
          then getMessages_loop i foundFirstCacheControl _messages
          else
            let msg1 :=
              if foundFirstCacheControl then removeCacheControl msg else msg in
            let found1 :=
              if hasCacheControl msg1 then true else foundFirstCacheControl in
            getMessages_loop i found1 (<[i := msg1]> _messages)
      end
  end.

Definition getMessages (_messages : list Message) : list Message :=
  getMessages_loop (length _messages) false _messages.

Definition setMessages (_messages messages : list Message) : list Message :=
  messages.

End Manager.
End MessageManager.

(** *** agent/models.ts (stream chunks) and agent/agent.ts *)

Module Agent.
Import Llm MessageManager.

Definition StorageState := string.

Record AgentOutput := mkAgentOutput {
  agentState : list Message;
  result : option ActionResult;
  stepCount : nat;
  storageState : StorageState;
  traceId : string
}.

Inductive AgentStreamChunk :=
  | StepChunk (actionResult : ActionResult) (summary : string)
              (traceId : string) (screenshot : option string)
  | TimeoutChunk (actionResult : ActionResult) (summary : string) (step : nat)
                 (agentState : list Message) (traceId : string)
                 (screenshot : option string)
  | StepChunkError (content : string)
  | FinalOutputChunk (content : AgentOutput).

Definition isTimeoutChunk (chunk : AgentStreamChunk) : bool :=
  match chunk with TimeoutChunk _ _ _ _ _ _ => true | _ => false end.

Definition isFinalOutputChunk (chunk : AgentStreamChunk) : bool :=
  match chunk with FinalOutputChunk _ => true | _ => false end.

(** What one step meets outside the agent: the browser snapshot, the
    model call with the parsing of its answer ([_generateAction]), and the
    dispatcher. *)
Record StepEnv := mkStepEnv {
  updateState : outcome Models.BrowserState;
  generateAction : list Message -> outcome AgentLLMOutput;
  executeAction : ActionModel -> outcome ActionResult
}.

(** Everything outside the agent during a run, as a state [W] that the
    steps move forward: the environment the next step meets, the clock
    ([Date.now()]), the browser's last screenshot, its storage state, its
    shutdown, and the trace id drawn for the run. *)
Record Outside (W : Type) := mkOutside {
  stepEnv : W -> StepEnv;
  afterStep : W -> W;
  now : W -> Z;
  browserScreenshot : W -> option string;
  getStorageState : W -> outcome StorageState;
  close : W -> outcome unit;
  uuid : string
}.
Arguments mkOutside {W} _ _ _ _ _ _ _.
Arguments stepEnv {W} _ _.
Arguments afterStep {W} _ _.
Arguments now {W} _ _.
Arguments browserScreenshot {W} _ _.
Arguments getStorageState {W} _ _.
Arguments close {W} _ _.
Arguments uuid {W} _.

Section Agent.
Context (texts : Texts).

(** [step]: the result (or what it throws) and the message history it
    leaves behind. *)
Definition step (env : StepEnv) (_messages : list Message) (step : Z)
    (previousResult : option ActionResult)
  : outcome (ActionResult * string) * list Message :=
  match updateState env with
  | Thrown error => (Thrown error, _messages)
  | Returned state =>
      let messages1 :=
        match previousResult with
        | Some previous =>
            addCurrentStateMessage texts _messages state (Some previous) None
        | None => _messages
        end in
      let inputMessages := getMessages messages1 in
      (* try *)
      match generateAction env inputMessages with
      | Thrown error =>
          (* catch: removeLastMessage(); throw error *)
          (Thrown error, removeLastMessage inputMessages)
      | Returned modelOutput =>
          let messages2 :=
            match previousResult with
            | Some _ => removeLastMessage inputMessages
            | None => inputMessages
            end in
          let messages3 :=
            addMessageFromModelOutput texts messages2 step previousResult
              modelOutput (Models.screenshot state) in
          match executeAction env (action modelOutput) with
          | Thrown error => (Thrown error, removeLastMessage messages3)
          | Returned result =>
              (Returned (result, summary modelOutput), messages3)
          end
      end
  end.

(** The options of [runStream] that shape the loop. [agentState] holds what
    [AgentState.fromJSON] makes of the serialized state. *)
Record RunStreamOptions := mkRunStreamOptions {
  prompt : option string;
  maxSteps : nat;
  agentStateOpt : option (outcome (list Message));
  closeContext : bool;
  prevActionResult : option ActionResult;
  prevStep : option nat;
  timeout : option Z;
  returnScreenshots : bool
}.

Context {W : Type} (outside : Outside W).

(** [getState()] reads the history through [getMessages]. *)
Definition getState (_messages : list Message) : list Message :=
  getMessages _messages.

(** A prompt is truthy when it is there and not empty. *)
Definition truthy_prompt (prompt : option string) : option string :=
  match prompt with
  | Some p => if String.eqb p "" then None else Some p
  | None => None
  end.

(** [_setupMessages]; a serialized state that is given is not the empty
    string. *)
Definition _setupMessages (w : W) (_messages : list Message)
    (prompt : option string) (agentState : option (outcome (list Message)))
  : outcome (list Message) :=
  match agentState with
  | Some parsed =>
      let restored :=
        bind parsed (fun messages =>
        bind (updateState (stepEnv outside w)) (fun browserState =>
          Returned (addCurrentStateMessage texts
                      (setMessages _messages messages) browserState None
                      (truthy_prompt prompt)))) in
      try_catch restored (fun error =>
        Thrown (ErrorObject ("Invalid agent state: " +:+ error_toString error)))
  | None =>
      match truthy_prompt prompt with
      | Some p =>
          (* a failing updateState() is logged and swallowed here *)
          Returned (addSystemMessageAndUserPrompt texts _messages p)
      | None =>
          Thrown (ErrorObject "Either prompt or agentState must be provided")
      end
  end.

(** How the [while] loop is left. *)
Inductive LoopExit :=
  | TimedOut               (* the timeout branch: yield, then [return] *)
  | LoopEnded (isDone : bool)
  | StepThrew (error : thrown).

Record LoopState := mkLoopState {
  ls_world : W;
  ls_messages : list Message;
  ls_step : nat;
  ls_result : option ActionResult
}.

(** The loop [while (!isDone && step < maxSteps)]; [fuel] is
    [maxSteps - step]. Returns the chunks yielded, the way the loop was
    left and the state at that point. *)
Fixpoint runStream_loop (options : RunStreamOptions) (startTime : option Z)
    (fuel : nat) (st : LoopState)
  : list AgentStreamChunk * LoopExit * LoopState :=
  match fuel with
  | O => ([], LoopEnded false, st)
  | S fuel' =>
      let '(out, messages1) :=
        step (stepEnv outside (ls_world st)) (ls_messages st)
             (Z.of_nat (ls_step st)) (ls_result st) in
      let w1 := afterStep outside (ls_world st) in
      match out with
      | Thrown error =>
          ([], StepThrew error,
           mkLoopState w1 messages1 (ls_step st) (ls_result st))
      | Returned (stepResult, summary) =>
          let step1 := S (ls_step st) in
          let isDone := isDone stepResult in
          let screenshot :=
            if returnScreenshots options then browserScreenshot outside w1
            else None in
          let timedOut :=
            match timeout options, startTime with
            | Some limit, Some start =>
                bool_decide (limit < now outside w1 - start)%Z
            | _, _ => false
            end in
          if timedOut then
            let messages2 := getState messages1 in
            ([TimeoutChunk stepResult summary step1 messages2 (uuid outside)
                           screenshot],
             TimedOut, mkLoopState w1 messages2 step1 (Some stepResult))
          else
            let chunk := StepChunk stepResult summary (uuid outside) screenshot in
            let st1 := mkLoopState w1 messages1 step1 (Some stepResult) in
            if isDone then ([chunk], LoopEnded true, st1)
            else
              let '(chunks, exit, st2) :=
                runStream_loop options startTime fuel' st1 in
              (chunk :: chunks, exit, st2)
      end
  end.

(** The [finally] block: storage state, shutdown, final chunk. *)
Definition runStream_finally (options : RunStreamOptions) (st : LoopState)
  : list AgentStreamChunk * outcome unit :=
  match getStorageState outside (ls_world st) with
  | Thrown error => ([], Thrown error)
  | Returned storageState =>
      match (if closeContext options then close outside (ls_world st)
             else Returned tt) with
      | Thrown error => ([], Thrown error)
      | Returned _ =>
          ([FinalOutputChunk
              (mkAgentOutput (getState (ls_messages st)) (ls_result st)
                 (ls_step st) storageState (uuid outside))],
           Returned tt)
      end
  end.

(** The checks of the arguments and [_setupMessages], which run before
    the [try] block. *)
Definition runStream_start (options : RunStreamOptions) (w : W)
    (_messages : list Message) : outcome (list Message) :=
  match prompt options, agentStateOpt options with
  | None, None =>
      Thrown (ErrorObject "Either prompt or agentState must be provided")
  | _, _ =>
      let badResume :=
        match prevStep options with
        | Some p =>
            match prevActionResult options, agentStateOpt options with
            | None, _ | _, None => true
            | Some _, Some _ => bool_decide (p = 0%nat)
            end
        | None => false
        end in
      if badResume then
        Thrown (ErrorObject
          "`prevActionResult` and `agentState` must be provided if `prevStep` is provided")
      else _setupMessages w _messages (prompt options) (agentStateOpt options)
  end.

Definition step0 (options : RunStreamOptions) : nat :=
  default 0%nat (prevStep options).

Definition startTime (options : RunStreamOptions) (w : W) : option Z :=
  match timeout options with
  | Some _ => Some (now outside w)
  | None => None
  end.

(** The state in which the loop is entered. *)
Definition loopStart (options : RunStreamOptions) (w : W)
    (messages0 : list Message) : LoopState :=
  mkLoopState w messages0 (step0 options) (prevActionResult options).

(** [runStream]: the chunks the generator yields when it is drained, and
    whether it then completes or throws. *)
Definition runStream (options : RunStreamOptions) (w : W)
    (_messages : list Message) : list AgentStreamChunk * outcome unit :=
  match runStream_start options w _messages with
  | Thrown error => ([], Thrown error)
  | Returned messages0 =>
      let '(chunks, exit, st) :=
        runStream_loop options (startTime options w)
          (maxSteps options - step0 options) (loopStart options w messages0) in
      let tail :=
        match exit with
        | LoopEnded false =>
            [StepChunkError ("Maximum number of steps reached: "
                             +:+ pretty (maxSteps options))]
        | _ => []
        end in
      let '(final, completion) := runStream_finally options st in
      (chunks ++ tail ++ final, completion)
  end.

(** The loop of [run], [while (!isDone && step < maxSteps)], inside its
    [try]: what a step throws is logged by the [catch] and ends the
    loop. *)
Fixpoint run_loop (fuel : nat) (st : LoopState) : LoopState :=
  match fuel with
  | O => st
  | S fuel' =>
      let '(out, messages1) :=
        step (stepEnv outside (ls_world st)) (ls_messages st)
             (Z.of_nat (ls_step st)) (ls_result st) in
      let w1 := afterStep outside (ls_world st) in
      match out with
      | Thrown _ => mkLoopState w1 messages1 (ls_step st) (ls_result st)
      | Returned (result, _) =>
          let st1 := mkLoopState w1 messages1 (S (ls_step st)) (Some result) in
          if isDone result then st1 else run_loop fuel' st1
      end
  end.

(** [run]: the final output, which the [finally] block returns, or what
    the run throws before the [try] or inside the [finally]. *)
Definition run (prompt : option string) (maxSteps : nat)
    (agentState : option (outcome (list Message))) (closeContext : bool)
    (prevActionResult : option ActionResult) (w : W)
    (_messages : list Message) : outcome AgentOutput :=
  match prompt, agentState with
  | None, None =>
      Thrown (ErrorObject "Either prompt or agentState must be provided")
  | _, _ =>
      bind (_setupMessages w _messages prompt agentState) (fun messages0 =>
        let st :=
          run_loop maxSteps (mkLoopState w messages0 0 prevActionResult) in
        bind (getStorageState outside (ls_world st)) (fun storageState =>
        bind (if closeContext then close outside (ls_world st)
              else Returned tt) (fun _ =>
          Returned
            (mkAgentOutput (getState (ls_messages st)) (ls_result st)
               (ls_step st) storageState (uuid outside)))))
  end.

End Agent.
End Agent.

(** *** browser utils on arrays of element values

    What [sortElementsByPosition] and [combineAndFilterElements] return
    when every entry of the arrays they are handed is an object of its
    own: the elements in position order, each with its position written
    into [index]. *)

Definition sortElementsByPosition_pure (elements : list InteractiveElement)
  : list InteractiveElement :=
  match elements with
  | [] => []
  | _ =>
      imap (fun i element => set_index element (Z.of_nat i))
           (position_order rect elements)
  end.

Definition combineAndFilterElements_pure
    (browserElements cvElements : list InteractiveElement) (iouThreshold : Q)
  : list InteractiveElement :=
  let allElements := browserElements ++ cvElements in
  let filtered := filterOverlappingElements_pure allElements iouThreshold in
  sortElementsByPosition_pure filtered.

(** *** browser/detector.ts (src/tsvariant/src/browser/detector.ts) *)

Module Detector.

(** The endpoints are outside the program. [callCVEndpoint k image] is
    what the call gives when [k] endpoint calls were made before it: the
    elements built from the detections, or what the call throws. *)
Record Endpoints := mkEndpoints {
  callCVEndpoint : nat -> string -> outcome (list InteractiveElement);
  callSheetsEndpoint : nat -> string -> outcome (list InteractiveElement)
}.

(** What a detection comes to: the elements it returns, the number of
    endpoint calls made by then, and the delays it waited, in order. *)
Record Detection := mkDetection {
  detected : list InteractiveElement;
  calls : nat;
  delays : list Q
}.

Section Detector.
Context (endpoints : Endpoints).

(** [detectSheets ? callSheetsEndpoint(imageB64) : callCVEndpoint(imageB64)] *)
Definition callEndpoint (detectSheets : bool) (k : nat) (imageB64 : string)
  : outcome (list InteractiveElement) :=
  if detectSheets then callSheetsEndpoint endpoints k imageB64
  else callCVEndpoint endpoints k imageB64.

(** [retryDetection]; the recursion is on [maxAttempts - attempt], which
    is 0 exactly when [attempt >= maxAttempts]. *)
Fixpoint retryDetection_loop (remaining : nat) (imageB64 : string)
    (detectSheets : bool) (attempt : nat) (k : nat) : Detection :=
  match remaining with
  | O => mkDetection [] k []
  | S remaining' =>
      let delayMs := 500 * Qpower 2 (Z.of_nat attempt - 1) in
      match callEndpoint detectSheets k imageB64 with
      | Returned elements => mkDetection elements (S k) [delayMs]
      | Thrown _ =>
          let later :=
            retryDetection_loop remaining' imageB64 detectSheets (S attempt)
              (S k) in
          mkDetection (detected later) (calls later) (delayMs :: delays later)
      end
  end.

Definition retryDetection (imageB64 : string) (detectSheets : bool)
    (attempt maxAttempts : nat) (k : nat) : Detection :=
  retryDetection_loop (maxAttempts - attempt) imageB64 detectSheets attempt k.

Definition detectFromImage (imageB64 : string) (detectSheets : bool)
    (k : nat) : Detection :=
  match callEndpoint detectSheets k imageB64 with
  | Returned elements => mkDetection elements (S k) []
  | Thrown _ => retryDetection imageB64 detectSheets 1 3 (S k)
  end.

End Detector.
End Detector.

(** *** browser/browser.ts: the state kept by the browser
        (src/unnamed/part_002) *)

Module BrowserClass.
Import Models.

(** The fields of the browser that [updateState] reads and writes, with
    the number of attempts made so far and the waits between them. *)
Record Fields := mkFields {
  _state : option BrowserState;
  attemptsMade : nat;
  waited : list Q
}.

Section BrowserClass.
(** [attemptBody k]: what the body of the [try] in the retry loop gives
    when [k] attempts were made before it: the state put together from
    the page, or what it throws. *)
Context (attemptBody : nat -> outcome BrowserState).

(** [error instanceof Error ? error : new Error(String(error))] *)
Definition asError (error : thrown) : thrown :=
  match error with
  | ErrorObject message => error
  | OtherValue asString => ErrorObject asString
  end.

(** The loop [for (let attempt = 0; attempt < maxRetries; attempt++)] of
    [retryGetStableState], with [remaining = maxRetries - attempt], and
    the [throw] after it. *)
Fixpoint retryGetStableState_loop (remaining : nat) (attempt : nat) (k : nat)
    (lastError : option thrown) : outcome BrowserState * nat * list Q :=
  match remaining with
  | O =>
      (Thrown (default (ErrorObject "Failed to get stable state after retries")
                       lastError), k, [])
  | S remaining' =>
      match attemptBody k with
      | Returned state => (Returned state, S k, [])
      | Thrown error =>
          let waitTime :=
            Math_min (500 * Qpower 2 (Z.of_nat attempt)) 2000 in
          let '(out, k', waits) :=
            retryGetStableState_loop remaining' (S attempt) (S k)
              (Some (asError error)) in
          (out, k', waitTime :: waits)
      end
  end.

Definition retryGetStableState (k : nat)
  : outcome BrowserState * nat * list Q :=
  let maxRetries := 3%nat in
  retryGetStableState_loop maxRetries 0 k None.

Definition _updateState (this : Fields) : outcome BrowserState * Fields :=
  let '(out, k', waits) := retryGetStableState (attemptsMade this) in
  let this1 := mkFields (_state this) k' (waited this ++ waits) in
  match out with
  | Returned state => (Returned state, this1)
  | Thrown error =>
      match _state this with
      | Some state => (Returned state, this1)
      | None => (Thrown error, this1)
      end
  end.

Definition updateState (this : Fields) : outcome BrowserState * Fields :=
  let '(out, this1) := _updateState this in
  match out with
  | Returned state =>
      (Returned state,
       mkFields (Some state) (attemptsMade this1) (waited this1))
  | Thrown error => (Thrown error, this1)
  end.

End BrowserClass.
End BrowserClass.

(** *** browser/browser.ts: the record of elements in a browser state

    [interactiveElements[element.index] = element] for each element in
    turn, starting from the empty record. *)
Definition interactiveElementsRecord (elements : list InteractiveElement)
  : gmap Z InteractiveElement :=
  foldl (fun interactiveElements element =>
           <[index element := element]> interactiveElements)
        ∅ elements.

End TsVariant.

(** ** Vocabulary of the statements *)

(** Two rectangles that share no point. *)
Definition IndexTs_disjoint (a b : IndexTs.Rect) : Prop :=
  IndexTs.right a < IndexTs.left b \/ IndexTs.right b < IndexTs.left a \/
  IndexTs.bottom a < IndexTs.top b \/ IndexTs.bottom b < IndexTs.top a.

(** The union area [calculateIou] computes once the intersection is
    accepted. *)
Definition IndexTs_unionArea (a b : IndexTs.Rect) : Q :=
  IndexTs.width a * IndexTs.height a + IndexTs.width b * IndexTs.height b
  - (Math_min (IndexTs.right a) (IndexTs.right b)
     - Math_max (IndexTs.left a) (IndexTs.left b))
    * (Math_min (IndexTs.bottom a) (IndexTs.bottom b)
       - Math_max (IndexTs.top a) (IndexTs.top b)).

Definition TsVariant_disjoint (a b : TsVariant.Edges) : Prop :=
  TsVariant.right a < TsVariant.left b \/ TsVariant.right b < TsVariant.left a \/
  TsVariant.bottom a < TsVariant.top b \/ TsVariant.bottom b < TsVariant.top a.

Definition TsVariant_area (a : TsVariant.Edges) : Q :=
  (TsVariant.right a - TsVariant.left a) * (TsVariant.bottom a - TsVariant.top a).

Definition TsVariant_unionArea (a b : TsVariant.Edges) : Q :=
  TsVariant_area a + TsVariant_area b
  - (Math_min (TsVariant.right a) (TsVariant.right b)
     - Math_max (TsVariant.left a) (TsVariant.left b))
    * (Math_min (TsVariant.bottom a) (TsVariant.bottom b)
       - Math_max (TsVariant.top a) (TsVariant.top b)).

(** Every element of the list stands in relation [R] to every later one. *)
Fixpoint ordered {A : Type} (R : A -> A -> Prop) (l : list A) : Prop :=
  match l with
  | [] => True
  | a :: l' => Forall (R a) l' /\ ordered R l'
  end.

(** [a] may stay in front of [b] under the comparator. *)
Definition cmp_le {A : Type} (cmp : A -> A -> Q) (a b : A) : Prop :=
  cmp a b <= 0.

(** A comparator that orders like a total preorder. *)
Record consistent_cmp {A : Type} (cmp : A -> A -> Q) : Prop := {
  cmp_total : forall a b, 0 < cmp a b -> cmp b a <= 0;
  cmp_trans : forall a b c, cmp a b <= 0 -> cmp b c <= 0 -> cmp a c <= 0
}.

(** [current] triggers none of the three tests of the IndexTs filter
    against [existing]. *)
Definition IndexTs_quiet {A : Type} (rectOf : A -> IndexTs.Rect)
    (iouThreshold : Q) (existing current : A) : Prop :=
  Qltb iouThreshold
    (IndexTs.calculateIou (rectOf current) (rectOf existing)) = false /\
  IndexTs.isFullyContained (rectOf current) (rectOf existing) = false /\
  IndexTs.isFullyContained (rectOf existing) (rectOf current) = false.

(** [s'] holds every cell of [s], unchanged, and possibly new ones. *)
Definition extends {E : Type} (s s' : store E) : Prop :=
  elems s `prefix_of` elems s' /\ arrays s `prefix_of` arrays s'.

(** *** Numbers the geometry functions compute without rounding

    A JavaScript number is modelled by the rational it denotes, and the
    arithmetic of the model does not round or overflow. [js_exact q]
    tells that [q] is a multiple of 1/64 (the layout unit of the
    browsers) of magnitude at most 2^18. On coordinates of that kind
    every difference, product and sum in [calculateIou] and
    [calculateIOU] is some [k/4096] with [|k| < 2^53], which a double
    holds exactly: there the doubles of the code compute what the model
    computes, up to the rounding of the one division at the end. Outside
    that range a product can overflow: for the identical rectangle of
    side 2^700 the areas are [Infinity], the union is [NaN] and the code
    returns 0. *)
Definition js_exact (q : Q) : bool :=
  let scaled := Qred (q * 64) in
  Pos.eqb (Qden scaled) 1 && (Z.abs (Qnum scaled) <=? 2 ^ 24)%Z.

Definition IndexTs_exact (r : IndexTs.Rect) : Prop :=
  js_exact (IndexTs.left r) = true /\ js_exact (IndexTs.top r) = true /\
  js_exact (IndexTs.right r) = true /\ js_exact (IndexTs.bottom r) = true.

Definition TsVariant_exact (r : TsVariant.Edges) : Prop :=
  js_exact (TsVariant.left r) = true /\ js_exact (TsVariant.top r) = true /\
  js_exact (TsVariant.right r) = true /\ js_exact (TsVariant.bottom r) = true.

(** [q] is [k / scale] for an integer [k] of magnitude at most [bound]. *)
Definition on_grid (scale : positive) (bound : Z) (q : Q) : Prop :=
  exists k : Z, q == k # scale /\ (Z.abs k <= bound)%Z.

(** ** Inputs used in the examples *)

(** A TsVariant element with the given [rect] and [zIndex]; index 7,
    weight 1. *)
Definition tsv_element (x y width height : Q) (zIndex : Z)
  : TsVariant.InteractiveElement :=
  TsVariant.mkInteractiveElement 7 "div" "" []
    (TsVariant.mkCoordinates 0 0 None None)
    (TsVariant.mkCoordinates 0 0 None None)
    (TsVariant.mkCoordinates 0 0 None None)
    1 "" None (TsVariant.mkRect x y width height) zIndex.

(** An IndexTs element with the given edges; index 7, weight 1. *)
Definition idx_element (left top right bottom : Q) (z_index : Z)
  : IndexTs.InteractiveElement :=
  IndexTs.mkInteractiveElement 7 "id" "div" "" []
    (IndexTs.mkCoordinates left top (Some (right - left)) (Some (bottom - top)))
    (IndexTs.mkCoordinates left top (Some (right - left)) (Some (bottom - top)))
    (IndexTs.mkCoordinates left top None None)
    1 None
    (IndexTs.mkRect left top right bottom (right - left) (bottom - top))
    z_index.

(** A 10x10 box [outer], a 10x6 box [wide] that sticks out of it at the
    top, and a 10x5 box [inner] on another layer that lies inside both. *)
Definition tsv_outer := tsv_element 0 1 10 10 1.
Definition tsv_wide := tsv_element 0 0 10 6 1.
Definition tsv_inner := tsv_element 0 1 10 5 2.

(** Two overlapping 10x10 boxes and a 5x10 box on another layer that lies in
    their intersection. *)
Definition tsv_boxA := tsv_element 0 0 10 10 1.
Definition tsv_boxB := tsv_element 5 0 10 10 1.
Definition tsv_inAB := tsv_element 5 0 5 10 2.

(** The indices read through an array of the store. *)
Definition tsv_indices (s : TsVariant.st) (a : aref) : list Z :=
  map (fun l => TsVariant.index (get_elem s l)) (get_array s a).

Definition idx_indices (s : IndexTs.st) (a : aref) : list Z :=
  map (fun l => IndexTs.index (get_elem s l)) (get_array s a).

(** ** Cache markers in a message history *)

(** TsVariant: a block carries the marker when [cacheControl] is [true]. *)
Definition tsv_marked (c : TsVariant.Llm.ContentType) : bool :=
  bool_decide (TsVariant.Llm.cacheControl c = Some true).

Definition tsv_non_system (m : TsVariant.Llm.Message) : bool :=
  negb (String.eqb (TsVariant.Llm.role m) "system").

(** Number of marked blocks of one message, and of the non-system messages
    of a history. *)
Definition tsv_marked_in (m : TsVariant.Llm.Message) : nat :=
  length (filter (fun c => tsv_marked c = true) (TsVariant.Llm.content m)).

Definition tsv_marked_blocks (msgs : list TsVariant.Llm.Message) : nat :=
  sum_list_with (fun m => if tsv_non_system m then tsv_marked_in m else 0%nat)
                msgs.

(** The histories the manager builds: a non-system message carries at most
    one marker, and carries it on a text block. *)
Definition tsv_markers_wf (msgs : list TsVariant.Llm.Message) : Prop :=
  forall m, m ∈ msgs -> tsv_non_system m = true ->
    (tsv_marked_in m <= 1)%nat /\
    forall c, c ∈ TsVariant.Llm.content m -> tsv_marked c = true ->
      TsVariant.MessageManager.is_marked_text c = true.

(** Every non-system message with its text markers cleared. *)
Definition tsv_cleared (msgs : list TsVariant.Llm.Message)
  : list TsVariant.Llm.Message :=
  map (fun m => if tsv_non_system m
                then TsVariant.MessageManager.removeCacheControl m else m)
      msgs.

(** A non-system message in which [hasCacheControl] finds a marker. *)
Definition tsv_has_marker (m : TsVariant.Llm.Message) : bool :=
  tsv_non_system m && TsVariant.MessageManager.hasCacheControl m.

(** IndexTs: a block carries the marker when [cache_control] is truthy. *)
Definition idx_marked (c : IndexTs.Llm.MessageContent) : bool :=
  bool_decide (IndexTs.Llm.cache_control c = Some true).

Definition idx_non_system (m : IndexTs.Llm.Message) : bool :=
  negb (bool_decide (IndexTs.Llm.role m = IndexTs.Llm.SYSTEM)).

Definition idx_marked_in (m : IndexTs.Llm.Message) : nat :=
  match IndexTs.Llm.content m with
  | IndexTs.Llm.ContentArray blocks =>
      length (filter (fun c => idx_marked c = true) blocks)
  | IndexTs.Llm.ContentString _ => 0%nat
  end.

Definition idx_marked_blocks (msgs : list IndexTs.Llm.Message) : nat :=
  sum_list_with (fun m => if idx_non_system m then idx_marked_in m else 0%nat)
                msgs.

(** The histories the manager builds: a non-system message carries at most
    one marker, and only a state message carries one. *)
Definition idx_markers_wf (msgs : list IndexTs.Llm.Message) : Prop :=
  forall m, m ∈ msgs -> idx_non_system m = true ->
    (idx_marked_in m <= 1)%nat /\
    ((0 < idx_marked_in m)%nat -> IndexTs.Llm.is_state_message m = true).

(** Every state message with its markers cleared. *)
Definition idx_cleared (msgs : list IndexTs.Llm.Message)
  : list IndexTs.Llm.Message :=
  map (fun m => if IndexTs.MessageManager.eligible m
                then IndexTs.MessageManager.clearMessage m else m)
      msgs.

(** Boolean forms of the two conditions on histories. *)
Definition tsv_markers_wfb (msgs : list TsVariant.Llm.Message) : bool :=
  forallb (fun m =>
    if tsv_non_system m then
      (tsv_marked_in m <=? 1)%nat &&
      forallb (fun c => implb (tsv_marked c)
                              (TsVariant.MessageManager.is_marked_text c))
              (TsVariant.Llm.content m)
    else true) msgs.

Definition idx_markers_wfb (msgs : list IndexTs.Llm.Message) : bool :=
  forallb (fun m =>
    if idx_non_system m then
      (idx_marked_in m <=? 1)%nat &&
      implb (0 <? idx_marked_in m)%nat (IndexTs.Llm.is_state_message m)
    else true) msgs.

(** Example texts for the two managers. *)
Definition tsv_texts : TsVariant.MessageManager.Texts :=
  TsVariant.MessageManager.mkTexts "You are a browser agent." "img1" "img2"
    "img3" "img4" "img5" (fun prompt => "<task>" +:+ prompt +:+ "</task>")
    (fun _ _ _ => "<viewport></viewport>") (fun _ => "{}").

Definition idx_texts : IndexTs.MessageManager.Texts :=
  IndexTs.MessageManager.mkTexts "You are a browser agent." "img1" "img2"
    "img3" "img4" "img5" (fun _ _ => "Current URL: about:blank")
    (fun _ => "{}") (fun image _ => image).

(** A TsVariant history after the bootstrap and one recorded step, and an
    IndexTs history with two recorded steps. *)
Definition tsv_history : list TsVariant.Llm.Message :=
  TsVariant.MessageManager.addMessageFromModelOutput tsv_texts
    (TsVariant.MessageManager.addSystemMessageAndUserPrompt tsv_texts []
       "find the cheapest flight")
    1 (Some (TsVariant.mkActionResult false (Some "clicked") None false))
    (TsVariant.mkAgentLLMOutput "look" (TsVariant.mkActionModel "wait" [])
       "waiting" None)
    (Some "shot").

Definition idx_output : IndexTs.AgentLLMOutput :=
  IndexTs.mkAgentLLMOutput "look" (IndexTs.mkActionModel "wait" [])
    (Some "waiting") None.

Definition idx_history : list IndexTs.Llm.Message :=
  IndexTs.MessageManager.addCurrentStateMessage idx_texts
    (IndexTs.MessageManager.addMessageFromModelOutput idx_texts
       (IndexTs.MessageManager.addSystemMessageAndUserPrompt idx_texts []
          "find the cheapest flight")
       idx_output (Some "shot1") None)
    (IndexTs.Models.mkBrowserState "about:blank" []
       (IndexTs.Models.mkViewport 1024 768 0 0 1 0 0)
       (Some "highlighted") (Some "shot2") [])
    None.


(** The histories a TsVariant manager can hold: what its operations make
    of the empty history. A thinking block handed over by the provider
    comes without marker; [setMessages] installs a history that a manager
    held before (the serialized state of an earlier run). *)
Inductive tsv_reachable (texts : TsVariant.MessageManager.Texts)
  : list TsVariant.Llm.Message -> Prop :=
  | tsv_reach_new : tsv_reachable texts []
  | tsv_reach_prompt h prompt :
      tsv_reachable texts h ->
      tsv_reachable texts
        (TsVariant.MessageManager.addSystemMessageAndUserPrompt texts h prompt)
  | tsv_reach_state h state previousResult userFollowUpMessage :
      tsv_reachable texts h ->
      tsv_reachable texts
        (TsVariant.MessageManager.addCurrentStateMessage texts h state
           previousResult userFollowUpMessage)
  | tsv_reach_output h step previousResult modelOutput screenshot :
      tsv_reachable texts h ->
      (forall block, TsVariant.thinkingBlock modelOutput = Some block ->
         tsv_marked block = false) ->
      tsv_reachable texts
        (TsVariant.MessageManager.addMessageFromModelOutput texts h step
           previousResult modelOutput screenshot)
  | tsv_reach_remove h :
      tsv_reachable texts h ->
      tsv_reachable texts (TsVariant.MessageManager.removeLastMessage h)
  | tsv_reach_get h :
      tsv_reachable texts h ->
      tsv_reachable texts (TsVariant.MessageManager.getMessages h)
  | tsv_reach_set h h' :
      tsv_reachable texts h -> tsv_reachable texts h' ->
      tsv_reachable texts (TsVariant.MessageManager.setMessages h h').

(** The histories an IndexTs manager can hold; [step] also pops the last
    message of the list [getMessages] returned and installs the rest. *)
Inductive idx_reachable (texts : IndexTs.MessageManager.Texts)
  : list IndexTs.Llm.Message -> Prop :=
  | idx_reach_new : idx_reachable texts []
  | idx_reach_prompt h userPrompt :
      idx_reachable texts h ->
      idx_reachable texts
        (IndexTs.MessageManager.addSystemMessageAndUserPrompt texts h userPrompt)
  | idx_reach_state h state previousActionResult :
      idx_reachable texts h ->
      idx_reachable texts
        (IndexTs.MessageManager.addCurrentStateMessage texts h state
           previousActionResult)
  | idx_reach_output h modelOutput stateScreenshot thinking :
      idx_reachable texts h ->
      idx_reachable texts
        (IndexTs.MessageManager.addMessageFromModelOutput texts h modelOutput
           stateScreenshot thinking)
  | idx_reach_get h :
      idx_reachable texts h ->
      idx_reachable texts (IndexTs.MessageManager.getMessages h)
  | idx_reach_pop h :
      idx_reachable texts h -> idx_reachable texts (removelast h)
  | idx_reach_set h h' :
      idx_reachable texts h -> idx_reachable texts h' ->
      idx_reachable texts (IndexTs.MessageManager.setMessages h h').



(** A blank page, and a step environment whose model call fails. *)
Definition tsv_blank_state : TsVariant.Models.BrowserState :=
  TsVariant.Models.mkBrowserState "about:blank" []
    (TsVariant.Models.mkViewport 1024 768 0 0 1 0 0)
    (Some "highlighted") (Some "shot") [].

Definition tsv_llm_fails : TsVariant.Agent.StepEnv :=
  TsVariant.Agent.mkStepEnv (Returned tsv_blank_state)
    (fun _ => Thrown (ErrorObject "Could not parse response"))
    (fun _ => Returned (TsVariant.mkActionResult false None None false)).

Definition idx_blank_state : IndexTs.Models.BrowserState :=
  IndexTs.Models.mkBrowserState "about:blank" []
    (IndexTs.Models.mkViewport 1024 768 0 0 1 0 0)
    (Some "highlighted") (Some "shot") [].

Definition idx_llm_fails : IndexTs.Agent.StepEnv :=
  IndexTs.Agent.mkStepEnv (Returned idx_blank_state)
    (fun _ => Thrown (ErrorObject "Failed to generate action"))
    (fun _ => Returned (IndexTs.mkActionResult false None None false)).

(** The histories right after the bootstrap. *)
Definition tsv_bootstrap : list TsVariant.Llm.Message :=
  TsVariant.MessageManager.addSystemMessageAndUserPrompt tsv_texts []
    "find the cheapest flight".

Definition idx_bootstrap : list IndexTs.Llm.Message :=
  IndexTs.MessageManager.addSystemMessageAndUserPrompt idx_texts []
    "find the cheapest flight".

(** ** Runs that hit the timeout *)

Definition tsv_isStepChunk (chunk : TsVariant.Agent.AgentStreamChunk) : bool :=
  match chunk with TsVariant.Agent.StepChunk _ _ _ _ => true | _ => false end.

Definition idx_isStepOrError (chunk : IndexTs.Agent.AgentStreamChunk) : bool :=
  match chunk with
  | IndexTs.Agent.StepChunk _ _ _ | IndexTs.Agent.StepChunkError _ => true
  | _ => false
  end.

(** The teardown at the end of a run succeeds whatever the state of the
    outside world. *)
Definition tsv_teardown_ok {W : Type} (outside : TsVariant.Agent.Outside W)
  : Prop :=
  (forall w, exists s, TsVariant.Agent.getStorageState outside w = Returned s)
  /\ (forall w, TsVariant.Agent.close outside w = Returned tt).

Definition idx_teardown_ok {W : Type} (outside : IndexTs.Agent.Outside W)
  : Prop :=
  (forall w, exists s, IndexTs.Agent.getStorageState outside w = Returned s)
  /\ (forall w, IndexTs.Agent.close outside w = Returned tt).



(** Example runs. The outside world is the number of steps run so far.
    TsVariant: every step succeeds and takes one second; the limit is 1.5
    seconds. IndexTs: the steps take 400 ms, 800 ms, 1200 ms, ...; the
    limit for a step is one second. *)
Definition tsv_step_ok : TsVariant.Agent.StepEnv :=
  TsVariant.Agent.mkStepEnv (Returned tsv_blank_state)
    (fun _ => Returned
       (TsVariant.mkAgentLLMOutput "look" (TsVariant.mkActionModel "wait" [])
          "waiting" None))
    (fun _ => Returned (TsVariant.mkActionResult false (Some "waited") None false)).

Definition tsv_slow_world : TsVariant.Agent.Outside nat :=
  TsVariant.Agent.mkOutside (fun _ => tsv_step_ok) S
    (fun w => 1000 * Z.of_nat w)%Z (fun _ => Some "shot")
    (fun _ => Returned "{}") (fun _ => Returned tt) "trace-1".

Definition tsv_slow_options : TsVariant.Agent.RunStreamOptions :=
  TsVariant.Agent.mkRunStreamOptions (Some "find the cheapest flight") 5 None
    true None None (Some 1500%Z) false.

Definition idx_step_ok : IndexTs.Agent.StepEnv :=
  IndexTs.Agent.mkStepEnv (Returned idx_blank_state)
    (fun _ => Returned idx_output)
    (fun _ => Returned (IndexTs.mkActionResult false (Some "waited") None false)).

Definition idx_slow_world : IndexTs.Agent.Outside nat :=
  IndexTs.Agent.mkOutside (fun _ => idx_step_ok) S (fun _ => Returned tt)
    (fun w t => bool_decide (t < 400 * (Z.of_nat w + 1))%Z)
    (fun _ messages => messages) (fun _ => Some "shot")
    (fun _ => Returned "{}") (fun _ => Returned tt).

Definition idx_slow_options : IndexTs.Agent.RunStreamOptions :=
  IndexTs.Agent.mkRunStreamOptions 5 0 None (Some 1000%Z) None.



(** ** An image library for the examples: it decodes only the string
       ["png"], a 1024x768 image, and cannot compose more than two
       overlays. *)
Definition example_sharp : IndexTs.Sharp :=
  IndexTs.mkSharp
    (fun image =>
       if String.eqb image "png"
       then Returned (IndexTs.mkMetadata (Some 1024%Z) (Some 768%Z))
       else Thrown (ErrorObject "Input buffer contains unsupported image format"))
    (fun image overlays =>
       if bool_decide (length overlays <= 2)%nat then Returned "png+boxes"
       else Thrown (ErrorObject "composite failed"))
    (fun image width height => Returned "png-scaled").

(** An element with its index blanked: what is left is every other field. *)
Definition tsv_but_index (e : TsVariant.InteractiveElement)
  : TsVariant.InteractiveElement := TsVariant.set_index e 0.

(** The store as the DOM script and the detector leave it: one object per
    list entry; array 0 holds the DOM-derived elements, array 1 the
    vision-derived ones. *)
Definition store_of_inputs {E : Type} (browserElements cvElements : list E)
  : store E :=
  mkStore (browserElements ++ cvElements)
          [seq 0 (length browserElements);
           seq (length browserElements) (length cvElements)].

(** ** Vocabulary of the further properties *)

(** The elements an array of the store holds. *)
Definition elements_of {E : Type} `{!Inhabited E} (s : store E) (a : aref)
  : list E := map (get_elem s) (get_array s a).

(** An IndexTs element with its index blanked. *)
Definition idx_but_index (e : IndexTs.InteractiveElement)
  : IndexTs.InteractiveElement := IndexTs.set_index e 0.

(** Reading order on TsVariant rectangles: [a] may come before [b] when
    it starts no further right, or lies more than a row's height above. *)
Definition tsv_reads_before (a b : TsVariant.Rect) : Prop :=
  TsVariant.x a <= TsVariant.x b \/
  TsVariant.y a + TsVariant.ROW_THRESHOLD < TsVariant.y b.

(** Two rows stand apart when everything in the first lies more than the
    row threshold above everything in the second. *)
Definition tsv_rows_apart {A : Type} (rectOf : A -> TsVariant.Rect)
    (r r' : list A) : Prop :=
  forall a b, a ∈ r -> b ∈ r' ->
    TsVariant.y (rectOf a) + TsVariant.ROW_THRESHOLD < TsVariant.y (rectOf b).

(** The state of the grouping loop of [sortElementsByPosition], with the
    elements still to come: what has been walked lies no lower than what
    is to come, the last element of the current row is its lowest, and
    the rows stand apart. *)
Definition tsv_grouping_inv {A : Type} (rectOf : A -> TsVariant.Rect)
    (acc : list (list A) * list A) (rest : list A) : Prop :=
  (forall a b, a ∈ concat acc.1 ++ acc.2 -> b ∈ rest ->
     TsVariant.y (rectOf a) <= TsVariant.y (rectOf b)) /\
  ordered (fun a b => TsVariant.y (rectOf a) <= TsVariant.y (rectOf b)) rest /\
  (forall a lastElement, a ∈ acc.2 -> last acc.2 = Some lastElement ->
     TsVariant.y (rectOf a) <= TsVariant.y (rectOf lastElement)) /\
  ordered (tsv_rows_apart rectOf) (acc.1 ++ [acc.2]) /\
  (acc.2 = [] -> acc.1 = []).

(** The overlays [putHighlightElementsOnScreenshot] composes onto an
    image of the given size. *)
Definition highlight_overlays (imageWidth imageHeight : Z)
    (elements : list (nat * IndexTs.InteractiveElement))
  : list IndexTs.OverlayOptions :=
  (foldl (IndexTs.highlightStep imageWidth imageHeight) ([], []) elements).1.

(** The elements of a spreadsheet grid, which get no highlight. *)
Definition idx_is_sheet_element (e : IndexTs.InteractiveElement) : bool :=
  String.prefix "row_" (IndexTs.browser_agent_id e)
  || String.prefix "column_" (IndexTs.browser_agent_id e).

(** A border is at least one pixel wide and high; a label that is
    narrower than the image lies between its left and right edge, one
    that is lower than the image between its top and bottom edge. *)
Definition overlay_in_image (imageWidth imageHeight : Z)
    (o : IndexTs.OverlayOptions) : Prop :=
  match IndexTs.input o with
  | IndexTs.BorderSvg width height _ => (1 <= width)%Z /\ (1 <= height)%Z
  | IndexTs.LabelSvg width height _ _ =>
      ((width < imageWidth)%Z ->
       (0 <= IndexTs.overlay_left o)%Z /\
       (IndexTs.overlay_left o + width < imageWidth)%Z) /\
      ((height < imageHeight)%Z ->
       (0 <= IndexTs.overlay_top o)%Z /\
       (IndexTs.overlay_top o + height < imageHeight)%Z)
  end.

(** A TsVariant block and message with every cache marker taken off. *)
Definition tsv_unmark_block (c : TsVariant.Llm.ContentType)
  : TsVariant.Llm.ContentType :=
  match c with
  | TsVariant.Llm.TextContent text _ => TsVariant.Llm.TextContent text None
  | TsVariant.Llm.ImageContent imageUrl imageB64 _ =>
      TsVariant.Llm.ImageContent imageUrl imageB64 None
  | TsVariant.Llm.ThinkingBlock thinking signature _ =>
      TsVariant.Llm.ThinkingBlock thinking signature None
  end.

Definition tsv_unmark (m : TsVariant.Llm.Message) : TsVariant.Llm.Message :=
  TsVariant.Llm.mkMessage (TsVariant.Llm.role m)
    (map tsv_unmark_block (TsVariant.Llm.content m)) (TsVariant.Llm.name m)
    (TsVariant.Llm.toolCallId m) (TsVariant.Llm.isStateMessage m).

(** An IndexTs message that holds no image block. *)
Definition idx_no_image (m : IndexTs.Llm.Message) : Prop :=
  match IndexTs.Llm.content m with
  | IndexTs.Llm.ContentArray blocks =>
      Forall (fun c => IndexTs.MessageManager.is_text c = true) blocks
  | IndexTs.Llm.ContentString _ => True
  end.

(** The user messages that are marked as state messages. *)
Definition idx_user_state (m : IndexTs.Llm.Message) : Prop :=
  IndexTs.Llm.role m = IndexTs.Llm.USER /\
  IndexTs.Llm.is_state_message m = true.

(** ** Chunks of a streaming run *)

Definition idx_isStepChunk (chunk : IndexTs.Agent.AgentStreamChunk) : bool :=
  match chunk with IndexTs.Agent.StepChunk _ _ _ => true | _ => false end.

Definition tsv_isStepOrTimeout (chunk : TsVariant.Agent.AgentStreamChunk)
  : bool :=
  match chunk with
  | TsVariant.Agent.StepChunk _ _ _ _
  | TsVariant.Agent.TimeoutChunk _ _ _ _ _ _ => true
  | _ => false
  end.

(** The action result reported last in a sequence of chunks, [previous]
    when none is. *)
Definition idx_last_result (previous : option IndexTs.ActionResult)
    (chunks : list IndexTs.Agent.AgentStreamChunk)
  : option IndexTs.ActionResult :=
  foldl (fun reported chunk =>
           match chunk with
           | IndexTs.Agent.StepChunk action_result _ _ => Some action_result
           | _ => reported
           end) previous chunks.

Definition tsv_last_result (previous : option TsVariant.ActionResult)
    (chunks : list TsVariant.Agent.AgentStreamChunk)
  : option TsVariant.ActionResult :=
  foldl (fun reported chunk =>
           match chunk with
           | TsVariant.Agent.StepChunk actionResult _ _ _
           | TsVariant.Agent.TimeoutChunk actionResult _ _ _ _ _ =>
               Some actionResult
           | _ => reported
           end) previous chunks.

(** A step chunk that reports the task done. *)
Definition idx_reports_done (chunk : IndexTs.Agent.AgentStreamChunk) : bool :=
  match chunk with
  | IndexTs.Agent.StepChunk action_result _ _ => IndexTs.is_done action_result
  | _ => false
  end.

Definition tsv_reports_done (chunk : TsVariant.Agent.AgentStreamChunk) : bool :=
  match chunk with
  | TsVariant.Agent.StepChunk actionResult _ _ _ =>
      TsVariant.isDone actionResult
  | _ => false
  end.

(** In [chunks], a chunk that satisfies [stops] has no chunk after it. *)
Definition only_last {A : Type} (stops : A -> bool) (chunks : list A) : Prop :=
  forall (i : nat) (chunk : A),
    chunks !! i = Some chunk -> stops chunk = true -> S i = length chunks.

(** An outside world in which the model call fails at every step. *)
Definition tsv_failing_world : TsVariant.Agent.Outside nat :=
  TsVariant.Agent.mkOutside (fun _ => tsv_llm_fails) S
    (fun w => 1000 * Z.of_nat w)%Z (fun _ => Some "shot")
    (fun _ => Returned "{}") (fun _ => Returned tt) "trace-2".

Definition tsv_no_output : TsVariant.Agent.AgentOutput :=
  TsVariant.Agent.mkAgentOutput [] None 0 "" "".

Definition idx_no_output : IndexTs.Agent.AgentOutput :=
  IndexTs.Agent.mkAgentOutput []
    (IndexTs.mkActionResult false None None false) 0 None.

(** The output carried by the last chunk, when that is a final output
    chunk. *)
Definition tsv_final_output (chunks : list TsVariant.Agent.AgentStreamChunk)
  : TsVariant.Agent.AgentOutput :=
  match last chunks with
  | Some (TsVariant.Agent.FinalOutputChunk out) => out
  | _ => tsv_no_output
  end.

Definition idx_final_output (chunks : list IndexTs.Agent.AgentStreamChunk)
  : IndexTs.Agent.AgentOutput :=
  match last chunks with
  | Some (IndexTs.Agent.FinalOutputChunk out) => out
  | _ => idx_no_output
  end.

(** ** Registries *)

(** The controller after the registrations in [registrations], made in
    this order. *)
Definition idx_register_all (this : IndexTs.Controller)
    (registrations : list IndexTs.Action) : IndexTs.Controller :=
  foldl (fun controller a =>
           IndexTs.registerAction controller (IndexTs.action_name a)
             (IndexTs.description a) (IndexTs.function a)
             (IndexTs.browserContext a))
        this registrations.

Definition tsv_register_all (this : TsVariant.Controller)
    (registrations : list TsVariant.Action) : TsVariant.Controller :=
  foldl (fun controller a =>
           TsVariant.registerAction controller (TsVariant.action_name a)
             (TsVariant.description a) (TsVariant.function a)
             (TsVariant.browserContext a))
        this registrations.

(** The last registration made under [name]. *)
Definition idx_newest (name : string) (registrations : list IndexTs.Action)
  : option IndexTs.Action :=
  last (filter (fun a => IndexTs.action_name a = name) registrations).

Definition tsv_newest (name : string) (registrations : list TsVariant.Action)
  : option TsVariant.Action :=
  last (filter (fun a => TsVariant.action_name a = name) registrations).

(** Example registrations: [wait] is registered twice, [done] once. *)
Definition idx_registrations : list IndexTs.Action :=
  [ IndexTs.mkAction "wait" "Wait for the page"
      (fun _ => Returned (IndexTs.ResultObject None (Some "waited") None None))
      false;
    IndexTs.mkAction "done" "Finish the task"
      (fun _ => Returned (IndexTs.ResultObject (Some true) None None None))
      false;
    IndexTs.mkAction "wait" "Wait three seconds"
      (fun _ => Returned (IndexTs.ResultObject None (Some "waited 3s") None
                            None))
      false ].

Definition tsv_registrations : list TsVariant.Action :=
  [ TsVariant.mkAction "wait" "Wait for the page"
      (fun _ => Returned (TsVariant.StringValue "waited")) false;
    TsVariant.mkAction "done" "Finish the task"
      (fun _ => Returned (TsVariant.StringValue "finished")) false;
    TsVariant.mkAction "wait" "Wait three seconds"
      (fun _ => Returned (TsVariant.StringValue "waited 3s")) false ].

(** A first run of two steps, to be resumed. *)
Definition idx_first_run : list IndexTs.Agent.AgentStreamChunk :=
  IndexTs.Agent.runStream idx_texts idx_slow_world 0%nat []
    "find the cheapest flight"
    (IndexTs.Agent.mkRunStreamOptions 2 0 None None None).

(** ** Requests *)

(** The number of blocks of a request that carry [cache_control]. *)
Definition anthropic_marked_block (b : IndexTs.AnthropicProvider.AnthropicBlock)
  : bool :=
  match b with
  | IndexTs.AnthropicProvider.AnthropicText _ marked
  | IndexTs.AnthropicProvider.AnthropicImage _ _ _ marked
  | IndexTs.AnthropicProvider.AnthropicThinking _ _ marked => marked
  end.

Definition anthropic_marked_in (m : IndexTs.AnthropicProvider.AnthropicMessage)
  : nat :=
  match IndexTs.AnthropicProvider.anthropic_content m with
  | IndexTs.AnthropicProvider.AnthropicBlocks blocks =>
      length (filter (fun b => anthropic_marked_block b = true) blocks)
  | IndexTs.AnthropicProvider.AnthropicString _ => 0%nat
  end.

Definition anthropic_marked_blocks
    (msgs : list IndexTs.AnthropicProvider.AnthropicMessage) : nat :=
  sum_list_with anthropic_marked_in msgs.

(** Whether a history starts with a system message. *)
Definition idx_starts_with_system (msgs : list IndexTs.Llm.Message) : bool :=
  match msgs with
  | m :: _ => bool_decide (IndexTs.Llm.role m = IndexTs.Llm.SYSTEM)
  | [] => false
  end.

(** ** The agent state carried by a chunk *)

Definition tsv_chunk_state (chunk : TsVariant.Agent.AgentStreamChunk)
  : option (list TsVariant.Llm.Message) :=
  match chunk with
  | TsVariant.Agent.FinalOutputChunk out => Some (TsVariant.Agent.agentState out)
  | TsVariant.Agent.TimeoutChunk _ _ _ agentState _ _ => Some agentState
  | _ => None
  end.

Definition idx_chunk_state (chunk : IndexTs.Agent.AgentStreamChunk)
  : option (list IndexTs.Llm.Message) :=
  match chunk with
  | IndexTs.Agent.FinalOutputChunk out => Some (IndexTs.Agent.agent_state out)
  | IndexTs.Agent.TimeoutChunk content =>
      Some (IndexTs.Agent.timeout_agent_state content)
  | _ => None
  end.

(** The thinking block that comes with a model output carries no cache
    marker. *)
Definition tsv_plain_thinking {W : Type} (outside : TsVariant.Agent.Outside W)
  : Prop :=
  forall w sent modelOutput block,
    TsVariant.Agent.generateAction (TsVariant.Agent.stepEnv outside w) sent
    = Returned modelOutput ->
    TsVariant.thinkingBlock modelOutput = Some block ->
    tsv_marked block = false.

(** * Proofs *)

(** ** Numbers *)

Lemma Qltb_lt (a b : Q) : Qltb a b = true <-> a < b.
Proof.
  unfold Qltb. rewrite negb_true_iff, <- not_true_iff_false, Qle_bool_iff.
  split; intros H; lra.
Qed.

Lemma Qltb_ge (a b : Q) : Qltb a b = false <-> b <= a.
Proof.
  unfold Qltb. rewrite negb_false_iff, Qle_bool_iff. tauto.
Qed.

#[global] Instance Qltb_proper : Proper (Qeq ==> Qeq ==> eq) Qltb.
Proof.
  intros x x' Hx y y' Hy.
  destruct (Qltb x y) eqn:E, (Qltb x' y') eqn:E'; try reflexivity.
  - apply Qltb_lt in E. apply Qltb_ge in E'. lra.
  - apply Qltb_ge in E. apply Qltb_lt in E'. lra.
Qed.

Lemma Math_max_spec (a b : Q) :
  (a <= b /\ Math_max a b = b) \/ (b < a /\ Math_max a b = a).
Proof.
  unfold Math_max. destruct (Qle_bool a b) eqn:E.
  - left. split; [by apply Qle_bool_iff | done].
  - right. split; [|done].
    apply Qnot_le_lt. intros H. apply Qle_bool_iff in H. congruence.
Qed.

Lemma Math_min_spec (a b : Q) :
  (a <= b /\ Math_min a b = a) \/ (b < a /\ Math_min a b = b).
Proof.
  unfold Math_min. destruct (Qle_bool a b) eqn:E.
  - left. split; [by apply Qle_bool_iff | done].
  - right. split; [|done].
    apply Qnot_le_lt. intros H. apply Qle_bool_iff in H. congruence.
Qed.

Lemma Math_max_comm (a b : Q) : Math_max a b == Math_max b a.
Proof.
  destruct (Math_max_spec a b) as [[? ->]|[? ->]],
           (Math_max_spec b a) as [[? ->]|[? ->]]; lra.
Qed.

Lemma Math_min_comm (a b : Q) : Math_min a b == Math_min b a.
Proof.
  destruct (Math_min_spec a b) as [[? ->]|[? ->]],
           (Math_min_spec b a) as [[? ->]|[? ->]]; lra.
Qed.

Lemma Math_max_id (a : Q) : Math_max a a = a.
Proof. unfold Math_max. by destruct (Qle_bool a a). Qed.

Lemma Math_min_id (a : Q) : Math_min a a = a.
Proof. unfold Math_min. by destruct (Qle_bool a a). Qed.

#[global] Instance ratio_or_zero_proper :
  Proper (Qeq ==> Qeq ==> Qeq) ratio_or_zero.
Proof.
  intros i i' Hi u u' Hu. unfold ratio_or_zero.
  rewrite <- Hu at 1. destruct (Qltb 0 u); [|reflexivity].
  by rewrite Hi, Hu.
Qed.


(** ** Intersection over union *)

Section IouIndexTs.
Import IndexTs.

Lemma calculateIou_disjoint (a b : Rect) :
  IndexTs_disjoint a b -> calculateIou a b = 0.
Proof.
  intros H. unfold calculateIou. cbv zeta.
  destruct (Qltb (Math_min (right a) (right b)) (Math_max (left a) (left b)))
    eqn:E1; [done|].
  destruct (Qltb (Math_min (bottom a) (bottom b)) (Math_max (top a) (top b)))
    eqn:E2; [done|].
  exfalso. apply Qltb_ge in E1, E2. revert E1 E2.
  destruct (Math_min_spec (right a) (right b)) as [[? ->]|[? ->]],
           (Math_max_spec (left a) (left b)) as [[? ->]|[? ->]],
           (Math_min_spec (bottom a) (bottom b)) as [[? ->]|[? ->]],
           (Math_max_spec (top a) (top b)) as [[? ->]|[? ->]];
    unfold IndexTs_disjoint in H; intros; lra.
Qed.

Lemma calculateIou_empty_union (a b : Rect) :
  IndexTs_unionArea a b <= 0 -> calculateIou a b = 0.
Proof.
  intros H. unfold calculateIou. cbv zeta.
  destruct (_ || _); [done|].
  fold (IndexTs_unionArea a b). unfold ratio_or_zero.
  destruct (Qltb 0 (IndexTs_unionArea a b)) eqn:E; [|done].
  apply Qltb_lt in E. lra.
Qed.

Lemma calculateIou_sym (a b : Rect) : calculateIou a b == calculateIou b a.
Proof.
  unfold calculateIou. cbv zeta.
  pose proof (Math_max_comm (left a) (left b)) as HL.
  pose proof (Math_max_comm (top a) (top b)) as HT.
  pose proof (Math_min_comm (right a) (right b)) as HR.
  pose proof (Math_min_comm (bottom a) (bottom b)) as HB.
  rewrite (Qltb_proper _ _ HR _ _ HL), (Qltb_proper _ _ HB _ _ HT).
  destruct (_ || _); [reflexivity|].
  apply ratio_or_zero_proper; rewrite HL, HT, HR, HB; ring.
Qed.

Lemma calculateIou_same (a : Rect) :
  Rect_inv a -> 0 < width a * height a -> calculateIou a a == 1.
Proof.
  intros (Hlr & Htb & Hw & Hh) Hpos. unfold calculateIou. cbv zeta.
  rewrite !Math_max_id, !Math_min_id.
  destruct (Qltb (right a) (left a)) eqn:E1.
  { apply Qltb_lt in E1. lra. }
  destruct (Qltb (bottom a) (top a)) eqn:E2.
  { apply Qltb_lt in E2. lra. }
  simpl. rewrite <- Hw, <- Hh. unfold ratio_or_zero.
  destruct (Qltb 0 _) eqn:E.
  - field. apply Qltb_lt in E. lra.
  - apply Qltb_ge in E. lra.
Qed.
End IouIndexTs.

Section IouTsVariant.
Import TsVariant.

Lemma calculateIOU_disjoint (a b : Edges) :
  TsVariant_disjoint a b -> calculateIOU a b = 0.
Proof.
  intros H. unfold calculateIOU. cbv zeta.
  destruct (Qltb (Math_min (right a) (right b)) (Math_max (left a) (left b)))
    eqn:E1; [done|].
  destruct (Qltb (Math_min (bottom a) (bottom b)) (Math_max (top a) (top b)))
    eqn:E2; [done|].
  exfalso. apply Qltb_ge in E1, E2. revert E1 E2.
  destruct (Math_min_spec (right a) (right b)) as [[? ->]|[? ->]],
           (Math_max_spec (left a) (left b)) as [[? ->]|[? ->]],
           (Math_min_spec (bottom a) (bottom b)) as [[? ->]|[? ->]],
           (Math_max_spec (top a) (top b)) as [[? ->]|[? ->]];
    unfold TsVariant_disjoint in H; intros; lra.
Qed.

Lemma calculateIOU_empty_union (a b : Edges) :
  TsVariant_unionArea a b <= 0 -> calculateIOU a b = 0.
Proof.
  intros H. unfold calculateIOU. cbv zeta.
  destruct (_ || _); [done|].
  fold (TsVariant_area a) (TsVariant_area b).
  fold (TsVariant_unionArea a b). unfold ratio_or_zero.
  destruct (Qltb 0 (TsVariant_unionArea a b)) eqn:E; [|done].
  apply Qltb_lt in E. lra.
Qed.

Lemma calculateIOU_sym (a b : Edges) : calculateIOU a b == calculateIOU b a.
Proof.
  unfold calculateIOU. cbv zeta.
  pose proof (Math_max_comm (left a) (left b)) as HL.
  pose proof (Math_max_comm (top a) (top b)) as HT.
  pose proof (Math_min_comm (right a) (right b)) as HR.
  pose proof (Math_min_comm (bottom a) (bottom b)) as HB.
  rewrite (Qltb_proper _ _ HR _ _ HL), (Qltb_proper _ _ HB _ _ HT).
  destruct (_ || _); [reflexivity|].
  apply ratio_or_zero_proper; rewrite HL, HT, HR, HB; ring.
Qed.

Lemma calculateIOU_same (a : Edges) :
  Edges_inv a -> 0 < TsVariant_area a -> calculateIOU a a == 1.
Proof.
  intros (Hlr & Htb) Hpos. unfold calculateIOU. cbv zeta.
  rewrite !Math_max_id, !Math_min_id.
  destruct (Qltb (right a) (left a)) eqn:E1.
  { apply Qltb_lt in E1. lra. }
  destruct (Qltb (bottom a) (top a)) eqn:E2.
  { apply Qltb_lt in E2. lra. }
  simpl. fold (TsVariant_area a). unfold ratio_or_zero.
  destruct (Qltb 0 _) eqn:E.
  - field. apply Qltb_lt in E. lra.
  - apply Qltb_ge in E. lra.
Qed.
End IouTsVariant.

(** ** Where the doubles compute what the model computes *)

Lemma js_exact_on_grid (q : Q) : js_exact q = true -> on_grid 64 (2 ^ 24) q.
Proof.
  unfold js_exact. cbv zeta. intros [Hden Hnum]%andb_true_iff.
  apply Pos.eqb_eq in Hden. apply Z.leb_le in Hnum.
  exists (Qnum (Qred (q * 64))). split; [|done].
  pose proof (Qred_correct (q * 64)) as Hred.
  destruct (Qred (q * 64)) as [n d]. simpl in *. subst d.
  assert (q == (n # 1) / 64) as -> by (rewrite Hred; field).
  unfold Qeq, Qdiv, Qmult, Qinv; simpl. lia.
Qed.

Lemma on_grid_proper (scale : positive) (bound : Z) (x y : Q) :
  x == y -> on_grid scale bound x -> on_grid scale bound y.
Proof. intros Hxy (k & Hk & Hb). exists k. by rewrite <- Hxy. Qed.

Lemma on_grid_weaken (scale : positive) (b b' : Z) (x : Q) :
  (b <= b')%Z -> on_grid scale b x -> on_grid scale b' x.
Proof. intros Hb (k & Hk & Hk'). exists k. split; [done|lia]. Qed.

Lemma on_grid_sub (scale : positive) (b1 b2 : Z) (x y : Q) :
  on_grid scale b1 x -> on_grid scale b2 y -> on_grid scale (b1 + b2) (x - y).
Proof.
  intros (k1 & H1 & B1) (k2 & H2 & B2). exists (k1 - k2)%Z. split; [|lia].
  rewrite H1, H2. unfold Qeq, Qminus, Qplus, Qopp; simpl.
  rewrite Pos2Z.inj_mul. ring.
Qed.

Lemma on_grid_add (scale : positive) (b1 b2 : Z) (x y : Q) :
  on_grid scale b1 x -> on_grid scale b2 y -> on_grid scale (b1 + b2) (x + y).
Proof.
  intros (k1 & H1 & B1) (k2 & H2 & B2). exists (k1 + k2)%Z. split; [|lia].
  rewrite H1, H2. unfold Qeq, Qplus; simpl.
  rewrite Pos2Z.inj_mul. ring.
Qed.

Lemma on_grid_mul (s1 s2 : positive) (b1 b2 : Z) (x y : Q) :
  on_grid s1 b1 x -> on_grid s2 b2 y -> on_grid (s1 * s2) (b1 * b2) (x * y).
Proof.
  intros (k1 & H1 & B1) (k2 & H2 & B2). exists (k1 * k2)%Z. split.
  - by rewrite H1, H2.
  - rewrite Z.abs_mul. nia.
Qed.

Lemma on_grid_max (scale : positive) (b : Z) (x y : Q) :
  on_grid scale b x -> on_grid scale b y -> on_grid scale b (Math_max x y).
Proof. intros Hx Hy. unfold Math_max. by destruct (Qle_bool x y). Qed.

Lemma on_grid_min (scale : positive) (b : Z) (x y : Q) :
  on_grid scale b x -> on_grid scale b y -> on_grid scale b (Math_min x y).
Proof. intros Hx Hy. unfold Math_min. by destruct (Qle_bool x y). Qed.

(** On exact coordinates the two areas, the intersection area and the
    union area that [calculateIou] computes are multiples of 1/4096 with
    a numerator below 2^53: no operation before the division rounds. *)
Lemma calculateIou_operands_exact (a b : IndexTs.Rect) :
  IndexTs.Rect_inv a -> IndexTs.Rect_inv b ->
  IndexTs_exact a -> IndexTs_exact b ->
  on_grid 4096 (2 ^ 50) (IndexTs.width a * IndexTs.height a) /\
  on_grid 4096 (2 ^ 50) (IndexTs.width b * IndexTs.height b) /\
  on_grid 4096 (2 ^ 50)
    ((Math_min (IndexTs.right a) (IndexTs.right b)
      - Math_max (IndexTs.left a) (IndexTs.left b))
     * (Math_min (IndexTs.bottom a) (IndexTs.bottom b)
        - Math_max (IndexTs.top a) (IndexTs.top b))) /\
  on_grid 4096 (3 * 2 ^ 50) (IndexTs_unionArea a b).
Proof.
  intros (_ & _ & Hwa & Hha) (_ & _ & Hwb & Hhb)
         (Hla%js_exact_on_grid & Hta%js_exact_on_grid
          & Hra%js_exact_on_grid & Hba%js_exact_on_grid)
         (Hlb%js_exact_on_grid & Htb%js_exact_on_grid
          & Hrb%js_exact_on_grid & Hbb%js_exact_on_grid).
  assert (on_grid 4096 (2 ^ 50) (IndexTs.width a * IndexTs.height a)) as Ha.
  { eapply on_grid_proper; [by rewrite Hwa, Hha|].
    apply (on_grid_mul 64 64 (2 ^ 25) (2 ^ 25));
      by apply (on_grid_sub 64 (2 ^ 24) (2 ^ 24)). }
  assert (on_grid 4096 (2 ^ 50) (IndexTs.width b * IndexTs.height b)) as Hb.
  { eapply on_grid_proper; [by rewrite Hwb, Hhb|].
    apply (on_grid_mul 64 64 (2 ^ 25) (2 ^ 25));
      by apply (on_grid_sub 64 (2 ^ 24) (2 ^ 24)). }
  assert (on_grid 4096 (2 ^ 50)
            ((Math_min (IndexTs.right a) (IndexTs.right b)
              - Math_max (IndexTs.left a) (IndexTs.left b))
             * (Math_min (IndexTs.bottom a) (IndexTs.bottom b)
                - Math_max (IndexTs.top a) (IndexTs.top b)))) as Hi.
  { apply (on_grid_mul 64 64 (2 ^ 25) (2 ^ 25));
      apply (on_grid_sub 64 (2 ^ 24) (2 ^ 24));
      by first [apply on_grid_min|apply on_grid_max]. }
  do 3 (split; [done|]). unfold IndexTs_unionArea.
  apply (on_grid_sub 4096 (2 * 2 ^ 50) (2 ^ 50)); [|done].
  by apply (on_grid_add 4096 (2 ^ 50) (2 ^ 50)).
Qed.

Lemma calculateIOU_operands_exact (a b : TsVariant.Edges) :
  TsVariant_exact a -> TsVariant_exact b ->
  on_grid 4096 (2 ^ 50) (TsVariant_area a) /\
  on_grid 4096 (2 ^ 50) (TsVariant_area b) /\
  on_grid 4096 (2 ^ 50)
    ((Math_min (TsVariant.right a) (TsVariant.right b)
      - Math_max (TsVariant.left a) (TsVariant.left b))
     * (Math_min (TsVariant.bottom a) (TsVariant.bottom b)
        - Math_max (TsVariant.top a) (TsVariant.top b))) /\
  on_grid 4096 (3 * 2 ^ 50) (TsVariant_unionArea a b).
Proof.
  intros (Hla%js_exact_on_grid & Hta%js_exact_on_grid
          & Hra%js_exact_on_grid & Hba%js_exact_on_grid)
         (Hlb%js_exact_on_grid & Htb%js_exact_on_grid
          & Hrb%js_exact_on_grid & Hbb%js_exact_on_grid).
  assert (on_grid 4096 (2 ^ 50) (TsVariant_area a)) as Ha.
  { apply (on_grid_mul 64 64 (2 ^ 25) (2 ^ 25));
      by apply (on_grid_sub 64 (2 ^ 24) (2 ^ 24)). }
  assert (on_grid 4096 (2 ^ 50) (TsVariant_area b)) as Hb.
  { apply (on_grid_mul 64 64 (2 ^ 25) (2 ^ 25));
      by apply (on_grid_sub 64 (2 ^ 24) (2 ^ 24)). }
  assert (on_grid 4096 (2 ^ 50)
            ((Math_min (TsVariant.right a) (TsVariant.right b)
              - Math_max (TsVariant.left a) (TsVariant.left b))
             * (Math_min (TsVariant.bottom a) (TsVariant.bottom b)
                - Math_max (TsVariant.top a) (TsVariant.top b)))) as Hi.
  { apply (on_grid_mul 64 64 (2 ^ 25) (2 ^ 25));
      apply (on_grid_sub 64 (2 ^ 24) (2 ^ 24));
      by first [apply on_grid_min|apply on_grid_max]. }
  do 3 (split; [done|]). unfold TsVariant_unionArea.
  apply (on_grid_sub 4096 (2 * 2 ^ 50) (2 ^ 50)); [|done].
  by apply (on_grid_add 4096 (2 ^ 50) (2 ^ 50)).
Qed.

(** C5 (as amended). For rectangles that satisfy the [Rect] invariant, both
    IoU functions return 0 on rectangles that do not intersect, return 0
    when the union area is not positive, are symmetric, and return 1 on two
    identical rectangles of positive area whose coordinates lie where the
    doubles compute the areas exactly ([js_exact]: multiples of 1/64 of
    magnitude at most 2^18). The first three hold of the doubles as they
    are: they rest on comparisons, on products that are exactly 0 and on
    operations that commute. *)
Theorem iou_properties (a b : IndexTs.Rect) (a' b' : TsVariant.Edges) :
  IndexTs.Rect_inv a -> IndexTs.Rect_inv b ->
  TsVariant.Edges_inv a' -> TsVariant.Edges_inv b' ->
  ( (IndexTs_disjoint a b -> IndexTs.calculateIou a b == 0) /\
    (IndexTs_exact a -> 0 < IndexTs.width a * IndexTs.height a ->
     IndexTs.calculateIou a a == 1) /\
    (IndexTs_unionArea a b <= 0 -> IndexTs.calculateIou a b == 0) /\
    IndexTs.calculateIou a b == IndexTs.calculateIou b a ) /\
  ( (TsVariant_disjoint a' b' -> TsVariant.calculateIOU a' b' == 0) /\
    (TsVariant_exact a' -> 0 < TsVariant_area a' ->
     TsVariant.calculateIOU a' a' == 1) /\
    (TsVariant_unionArea a' b' <= 0 -> TsVariant.calculateIOU a' b' == 0) /\
    TsVariant.calculateIOU a' b' == TsVariant.calculateIOU b' a' ).
Proof.
  intros Ha Hb Ha' Hb'. split; repeat split.
  - intros H. by rewrite calculateIou_disjoint.
  - intros _. by apply calculateIou_same.
  - intros H. by rewrite calculateIou_empty_union.
  - apply calculateIou_sym.
  - intros H. by rewrite calculateIOU_disjoint.
  - intros _. by apply calculateIOU_same.
  - intros H. by rewrite calculateIOU_empty_union.
  - apply calculateIOU_sym.
Qed.

Lemma iou_properties_witness :
  let a := IndexTs.mkRect 0 0 10 10 10 10 in
  let b := IndexTs.mkRect 20 0 30 10 10 10 in
  let a' := TsVariant.mkEdges 0 0 10 10 in
  let b' := TsVariant.mkEdges 5 0 15 10 in
  (IndexTs.Rect_inv a /\ IndexTs.Rect_inv b /\
   TsVariant.Edges_inv a' /\ TsVariant.Edges_inv b') /\
  IndexTs.calculateIou a b == 0 /\ IndexTs.calculateIou a a == 1 /\
  TsVariant.calculateIOU a' a' == 1 /\
  TsVariant.calculateIOU a' b' == TsVariant.calculateIOU b' a'.
Proof.
  intros a b a' b'.
  assert (Ha : IndexTs.Rect_inv a) by (unfold IndexTs.Rect_inv; simpl; lra).
  assert (Hb : IndexTs.Rect_inv b) by (unfold IndexTs.Rect_inv; simpl; lra).
  assert (Ha' : TsVariant.Edges_inv a') by (unfold TsVariant.Edges_inv; simpl; lra).
  assert (Hb' : TsVariant.Edges_inv b') by (unfold TsVariant.Edges_inv; simpl; lra).
  destruct (iou_properties a b a' b' Ha Hb Ha' Hb')
    as ((H1 & H2 & _ & _) & (_ & H3 & _ & H4)).
  split; [done|]. split; [|split; [|split]].
  - apply H1. unfold IndexTs_disjoint. simpl. lra.
  - apply H2; [by repeat split|simpl; lra].
  - apply H3; [by repeat split|unfold TsVariant_area; simpl; lra].
  - exact H4.
Defined.

(** C5 as stated fails on a rectangle of no area: it satisfies the
    invariant, its coordinates are small integers, its union with itself
    is empty, and the IoU with itself is 0, not 1. *)
Lemma iou_identical_degenerate :
  let r := IndexTs.mkRect 10 10 10 50 0 40 in
  let r' := TsVariant.mkEdges 10 10 10 50 in
  IndexTs.Rect_inv r /\ IndexTs.calculateIou r r == 0 /\
  ~ IndexTs.calculateIou r r == 1 /\
  TsVariant.Edges_inv r' /\ TsVariant.calculateIOU r' r' == 0 /\
  ~ TsVariant.calculateIOU r' r' == 1.
Proof.
  intros r r'. repeat split; try (simpl; lra); try (vm_compute; done).
Qed.

(** ** Lists in order *)

Section Ordered.
Context {A : Type} (R : A -> A -> Prop).

Lemma ordered_sublist (l k : list A) :
  l `sublist_of` k -> ordered R k -> ordered R l.
Proof.
  induction 1 as [|x l k Hs IH|x l k Hs IH]; simpl; [done| |].
  - intros [Hx Hk]. split; [|by apply IH].
    eapply Forall_forall. intros y Hy.
    eapply Forall_forall in Hx; [done|]. by eapply sublist_subseteq.
  - intros [_ Hk]. by apply IH.
Qed.

Lemma ordered_snoc (l : list A) (c : A) :
  ordered R (l ++ [c]) <-> ordered R l /\ Forall (fun e => R e c) l.
Proof.
  induction l as [|a l IH]; simpl.
  - split; [done|]. intros _. by split.
  - rewrite Forall_app, Forall_singleton, IH, Forall_cons. tauto.
Qed.

Lemma ordered_app_cons (l1 l2 : list A) (c : A) :
  ordered R (l1 ++ c :: l2) -> Forall (fun e => R e c) l1.
Proof.
  induction l1 as [|a l1 IH]; simpl; [done|].
  intros [Ha Hl]. apply Forall_cons. split; [|by apply IH].
  apply Forall_app in Ha as [_ Ha]. by apply Forall_cons in Ha as [? _].
Qed.
End Ordered.

(** ** The stable sort *)

Section Sort.
Context {A : Type} (cmp : A -> A -> Q).

Lemma sort_insert_head (a : A) (l : list A) :
  Forall (cmp_le cmp a) l -> sort_insert cmp a l = a :: l.
Proof.
  destruct l as [|b l]; simpl; [done|].
  intros [Hb _]%Forall_cons. unfold cmp_le in Hb.
  destruct (Qltb 0 (cmp a b)) eqn:E; [|done].
  apply Qltb_lt in E. lra.
Qed.

(** Sorting a list that is in order already returns it unchanged. *)
Lemma Array_sort_ordered (l : list A) :
  ordered (cmp_le cmp) l -> Array_sort cmp l = l.
Proof.
  induction l as [|a l IH]; simpl; [done|].
  intros [Ha Hl]. fold (Array_sort cmp l). rewrite IH by done.
  by apply sort_insert_head.
Qed.

Lemma sort_insert_elem_of (a x : A) (l : list A) :
  x ∈ sort_insert cmp a l <-> x = a \/ x ∈ l.
Proof.
  induction l as [|b l IH]; simpl.
  - rewrite list_elem_of_singleton, elem_of_nil. tauto.
  - destruct (Qltb 0 (cmp a b)); rewrite !elem_of_cons; [rewrite IH|];
      rewrite ?elem_of_cons; tauto.
Qed.

Lemma sort_insert_Permutation (a : A) (l : list A) :
  sort_insert cmp a l ≡ₚ a :: l.
Proof.
  induction l as [|b l IH]; simpl; [done|].
  destruct (Qltb 0 (cmp a b)); [|done].
  rewrite IH. apply Permutation_swap.
Qed.

Lemma Array_sort_Permutation (l : list A) : Array_sort cmp l ≡ₚ l.
Proof.
  induction l as [|a l IH]; simpl; [done|].
  fold (Array_sort cmp l). by rewrite sort_insert_Permutation, IH.
Qed.

Lemma Array_sort_length (l : list A) : length (Array_sort cmp l) = length l.
Proof. by rewrite Array_sort_Permutation. Qed.

Context (Hcmp : consistent_cmp cmp).

Lemma sort_insert_keeps_order (a : A) (l : list A) :
  ordered (cmp_le cmp) l -> ordered (cmp_le cmp) (sort_insert cmp a l).
Proof.
  induction l as [|b l IH]; simpl; [done|].
  intros [Hb Hl]. destruct (Qltb 0 (cmp a b)) eqn:E; simpl.
  - apply Qltb_lt in E. split; [|by apply IH].
    apply Forall_forall. intros x [->|Hx]%sort_insert_elem_of.
    + by apply (cmp_total _ Hcmp).
    + by eapply Forall_forall in Hb.
  - apply Qltb_ge in E. repeat split; [|done..].
    apply Forall_cons. split; [done|].
    eapply Forall_impl; [exact Hb|]. intros x Hx.
    by apply (cmp_trans _ Hcmp a b x).
Qed.

Lemma Array_sort_in_order (l : list A) : ordered (cmp_le cmp) (Array_sort cmp l).
Proof.
  induction l as [|a l IH]; simpl; [done|].
  by apply sort_insert_keeps_order.
Qed.
End Sort.

(** ** IndexTs: the overlap filter *)

Section IndexTsFilter.
Import IndexTs.
Context {A : Type} (rectOf : A -> Rect) (weightOf : A -> Q).
Context (iouThreshold : Q).

Abbreviation quiet := (IndexTs_quiet rectOf iouThreshold).
Abbreviation scanKept := (scanKept rectOf iouThreshold).
Abbreviation keepStep := (keepStep rectOf iouThreshold).
Abbreviation pcmp := (priority_cmp rectOf weightOf).

Lemma priority_cmp_le (a b : A) :
  cmp_le pcmp a b <->
  width (rectOf b) * height (rectOf b) < width (rectOf a) * height (rectOf a)
  \/ (width (rectOf b) * height (rectOf b)
        == width (rectOf a) * height (rectOf a)
      /\ weightOf b <= weightOf a).
Proof.
  unfold cmp_le, priority_cmp. cbv zeta.
  destruct (Qeq_bool _ _) eqn:E; simpl.
  - apply Qeq_bool_iff in E. split; [intros; right; split; [done|lra]|].
    intros [?|[_ ?]]; lra.
  - apply Qeq_bool_neq in E. split; [intros; left; lra|].
    intros [?|[? _]]; [lra|done].
Qed.

Lemma priority_cmp_consistent : consistent_cmp pcmp.
Proof.
  split.
  - intros a b Hab. apply priority_cmp_le.
    assert (~ cmp_le pcmp a b) as Hn by (unfold cmp_le; lra).
    rewrite priority_cmp_le in Hn.
    destruct (Qlt_le_dec (width (rectOf a) * height (rectOf a))
                         (width (rectOf b) * height (rectOf b)));
      [by left|right].
    destruct (Qlt_le_dec (width (rectOf b) * height (rectOf b))
                         (width (rectOf a) * height (rectOf a)));
      [exfalso; apply Hn; by left|].
    split; [lra|].
    destruct (Qlt_le_dec (weightOf a) (weightOf b)); [lra|].
    exfalso. apply Hn. right. split; lra.
  - intros a b c Hab Hbc. change (cmp_le pcmp a c).
    change (cmp_le pcmp a b) in Hab. change (cmp_le pcmp b c) in Hbc.
    rewrite priority_cmp_le in *.
    destruct Hab as [?|[? ?]], Hbc as [?|[? ?]];
      [left; lra..|right; split; lra].
Qed.

(** When nothing kept so far conflicts with [current], the scan leaves
    the kept list alone and reports no overlap. *)
Lemma scanKept_quiet (current : A) (n : nat) (ff : list A) :
  (forall i e, (i < n)%nat -> ff !! i = Some e -> quiet e current) ->
  scanKept current n ff = (false, ff).
Proof.
  induction n as [|i IH]; simpl; [done|].
  intros Hq. destruct (ff !! i) as [existing|] eqn:Ei.
  - destruct (Hq i existing) as (-> & -> & ->); [lia|done|].
    apply IH. intros j e ? ?. apply (Hq j); [lia|done].
  - apply IH. intros j e ? ?. apply (Hq j); [lia|done].
Qed.

(** The scan in general: the part of the list at and beyond index [n] is
    never touched, the part below is thinned out, and on a verdict of no
    overlap everything left below [n] is quiet against [current]. *)
Lemma scanKept_spec (current : A) (pre suf : list A) (b : bool)
    (ff' : list A) :
  scanKept current (length pre) (pre ++ suf) = (b, ff') ->
  exists pre', ff' = pre' ++ suf /\ pre' `sublist_of` pre /\
    (b = false -> Forall (fun e => quiet e current) pre').
Proof.
  revert suf b ff'.
  induction pre as [|existing pre IH] using rev_ind; intros suf b ff'.
  { simpl. intros [= <- <-]. exists []. by repeat split. }
  rewrite length_app. simpl. rewrite Nat.add_1_r. simpl.
  rewrite <- (assoc_L (++)). simpl.
  rewrite list_lookup_middle by done.
  destruct (Qltb _ _) eqn:E1.
  { intros [= <- <-]. exists (pre ++ [existing]).
    rewrite <- (assoc_L (++)). by repeat split. }
  destruct (isFullyContained (rectOf current) _) eqn:E2.
  { intros [= <- <-]. exists (pre ++ [existing]).
    rewrite <- (assoc_L (++)). by repeat split. }
  destruct (isFullyContained (rectOf existing) _) eqn:E3.
  - rewrite delete_middle. intros H.
    destruct (IH _ _ _ H) as (pre' & -> & Hs & Hq).
    exists pre'. split; [done|]. split; [|done].
    by apply sublist_inserts_r.
  - intros H. destruct (IH _ _ _ H) as (pre' & -> & Hs & Hq).
    exists (pre' ++ [existing]). rewrite <- (assoc_L (++)).
    split; [done|]. split; [by apply sublist_app|].
    intros Hb. apply Forall_app. split; [by apply Hq|].
    by apply Forall_singleton.
Qed.

Lemma keepStep_spec (ff : list A) (current : A) :
  exists ff', ff' `sublist_of` ff /\
    (keepStep ff current = ff' \/
     (keepStep ff current = ff' ++ [current] /\
      Forall (fun e => quiet e current) ff')).
Proof.
  unfold IndexTs.keepStep.
  destruct (scanKept current (length ff) ff) as [b ff'] eqn:E.
  rewrite <- (app_nil_r ff) in E at 2.
  apply scanKept_spec in E as (pre' & -> & Hs & Hq).
  rewrite app_nil_r. exists pre'. split; [done|].
  destruct b; [by left|right]. split; [done|by apply Hq].
Qed.

(** The accepted list stays pairwise quiet. *)
Lemma keepStep_quiet (ff : list A) (current : A) :
  ordered quiet ff -> ordered quiet (keepStep ff current).
Proof.
  intros Hff. destruct (keepStep_spec ff current) as (ff' & Hs & [->|[-> Hq]]).
  - by eapply ordered_sublist.
  - apply ordered_snoc. split; [by eapply ordered_sublist|done].
Qed.

Lemma foldl_keepStep_quiet (l ff : list A) :
  ordered quiet ff -> ordered quiet (foldl keepStep ff l).
Proof.
  revert ff. induction l as [|c l IH]; simpl; [done|].
  intros ff Hff. by apply IH, keepStep_quiet.
Qed.

(** The accepted list is a sub-sequence of what has been walked. *)
Lemma foldl_keepStep_sublist (l ff walked : list A) :
  ff `sublist_of` walked -> foldl keepStep ff l `sublist_of` walked ++ l.
Proof.
  revert ff walked. induction l as [|c l IH]; simpl; intros ff walked Hs.
  { by rewrite app_nil_r. }
  rewrite (cons_middle c walked l), (assoc_L (++)). apply IH.
  destruct (keepStep_spec ff c) as (ff' & Hs' & [->|[-> _]]).
  - apply sublist_inserts_r. by etrans.
  - apply sublist_app; [by etrans|done].
Qed.

(** On a list that is pairwise quiet the pass accepts everything. *)
Lemma foldl_keepStep_id (l ff : list A) :
  ordered quiet (ff ++ l) -> foldl keepStep ff l = ff ++ l.
Proof.
  revert ff. induction l as [|c l IH]; simpl; intros ff Hq.
  { by rewrite app_nil_r. }
  assert (keepStep ff c = ff ++ [c]) as ->.
  { unfold IndexTs.keepStep. rewrite scanKept_quiet; [done|].
    intros i e _ Hi. apply ordered_app_cons in Hq.
    eapply Forall_forall in Hq; [done|]. by eapply list_elem_of_lookup_2. }
  rewrite IH; rewrite <- (assoc_L (++)); done.
Qed.

Lemma filter_result_sublist (elements : list A) :
  filter_result rectOf weightOf elements iouThreshold
    `sublist_of` filter_sorted rectOf weightOf elements.
Proof.
  unfold filter_result. destruct elements as [|e els]; [apply sublist_nil_l|].
  by apply (foldl_keepStep_sublist _ [] []).
Qed.

(** Filtering the output of the filter returns it unchanged. *)
Lemma filter_result_idempotent (elements : list A) :
  let once := filter_result rectOf weightOf elements iouThreshold in
  filter_result rectOf weightOf once iouThreshold = once.
Proof.
  intros once.
  assert (ordered quiet once) as Hq.
  { unfold once, filter_result. destruct elements; [done|].
    by apply foldl_keepStep_quiet. }
  assert (ordered (cmp_le pcmp) once) as Hs.
  { eapply ordered_sublist; [apply filter_result_sublist|].
    apply Array_sort_in_order, priority_cmp_consistent. }
  unfold filter_result at 1. destruct once as [|e l] eqn:E; [done|].
  unfold filter_sorted. rewrite Array_sort_ordered by done.
  by apply (foldl_keepStep_id _ []).
Qed.
End IndexTsFilter.

(** ** The store *)

Section StoreFacts.
Context {E : Type} `{!Inhabited E}.
Implicit Types (s : store E) (v : list eref).

#[global] Instance extends_refl : Reflexive (@extends E).
Proof. by split. Qed.

#[global] Instance extends_trans : Transitive (@extends E).
Proof. intros s1 s2 s3 [??] [??]. split; by etrans. Qed.

Lemma extends_alloc_array s v : extends s (alloc_array s v).1.
Proof. split; simpl; [done|]. by apply prefix_app_r. Qed.

Lemma extends_alloc_elem s e : extends s (alloc_elem s e).1.
Proof. split; simpl; [|done]. by apply prefix_app_r. Qed.

(** Writing an array cell allocated after [s0] keeps [s0]. *)
Lemma extends_set_array s0 s a v :
  extends s0 s -> (length (arrays s0) <= a)%nat ->
  extends s0 (set_array s a v).
Proof.
  intros [He [k Ha]] Hlen. split; simpl; [done|].
  rewrite Ha, insert_app_r_alt by done. by apply prefix_app_r.
Qed.

Lemma get_array_alloc (es : list E) (arrs : list (list eref)) v :
  get_array (mkStore es (arrs ++ [v])) (length arrs) = v.
Proof.
  unfold get_array. simpl. by rewrite list_lookup_middle.
Qed.

Lemma get_array_set s a v :
  (a < length (arrays s))%nat -> get_array (set_array s a v) a = v.
Proof.
  intros Ha. unfold get_array. simpl. by rewrite list_lookup_insert_eq.
Qed.

Lemma extends_get_elem s s' l :
  extends s s' -> (l < length (elems s))%nat ->
  get_elem s' l = get_elem s l.
Proof.
  intros [[k Hk] _] Hl. unfold get_elem. rewrite Hk.
  apply list_lookup_total_correct.
  rewrite lookup_app_l by done. by apply list_lookup_lookup_total_lt.
Qed.

Lemma extends_get_array s s' a :
  extends s s' -> (a < length (arrays s))%nat ->
  get_array s' a = get_array s a.
Proof.
  intros [_ [k Hk]] Ha. unfold get_array. by rewrite Hk, lookup_app_l.
Qed.
End StoreFacts.

(** ** IndexTs: the fusion entry point under the store *)

Section IndexTsFusion.
Import IndexTs.
Implicit Types (s : st) (els : list eref).

Lemma IndexTs_filter_ref s a thr :
  (filterOverlappingElements s a thr).2 = length (arrays s).
Proof.
  unfold filterOverlappingElements.
  destruct (get_array s a); simpl; [done|]. by rewrite length_insert.
Qed.

Lemma IndexTs_filter_extends s0 s a thr :
  extends s0 s -> (length (arrays s0) <= a)%nat ->
  extends s0 (filterOverlappingElements s a thr).1.
Proof.
  intros Hext Ha. unfold filterOverlappingElements.
  destruct (get_array s a) as [|e els].
  - etrans; [done|apply extends_alloc_array].
  - etrans; [|apply extends_alloc_array]. by apply extends_set_array.
Qed.

Lemma map_reindex_spec s els i :
  let s' := (map_reindex s els i).1 in
  let r := (map_reindex s els i).2 in
  extends s s' /\
  forall k l, r !! k = Some l ->
    (l < length (elems s'))%nat /\
    index (get_elem s' l) = Z.of_nat (i + k).
Proof.
  revert s i. induction els as [|l0 els IH]; intros s i; simpl.
  { split; [done|]. intros k l. by rewrite lookup_nil. }
  destruct (map_reindex _ els (S i)) as [s2 r] eqn:E.
  specialize (IH (mkStore (elems s ++ [set_index (get_elem s l0) (Z.of_nat i)])
                          (arrays s)) (S i)).
  rewrite E in IH. simpl in IH. destruct IH as [Hext IH]. simpl.
  split.
  { etrans; [|exact Hext]. apply (extends_alloc_elem s). }
  intros [|k] l; simpl.
  - intros [= <-]. split.
    + destruct Hext as [[? ->] _]. simpl. rewrite !length_app. simpl. lia.
    + erewrite extends_get_elem; [|exact Hext|].
      * unfold get_elem. simpl.
        rewrite (list_lookup_total_middle (elems s) []) by done.
        simpl. f_equal. lia.
      * simpl. rewrite length_app. simpl. lia.
  - intros Hk. destruct (IH k l Hk) as [? ->]. split; [done|].
    f_equal. lia.
Qed.

Lemma IndexTs_sort_extends s0 s a :
  extends s0 s -> (length (arrays s0) <= a)%nat ->
  extends s0 (sortElementsByPosition s a).1.
Proof.
  intros Hext Ha. unfold sortElementsByPosition.
  destruct (get_array s a) as [|e els].
  - etrans; [done|apply extends_alloc_array].
  - destruct (map_reindex _ _ 0) as [s2 r] eqn:E.
    etrans; [|apply extends_alloc_array].
    etrans; [by apply (extends_set_array s0 s a)|].
    pose proof (map_reindex_spec
      (set_array s a (Array_sort (position_cmp (fun l => rect (get_elem s l)))
                                 (e :: els)))
      (Array_sort (position_cmp (fun l => rect (get_elem s l))) (e :: els)) 0)
      as [H _].
    by rewrite E in H.
Qed.

Lemma IndexTs_sort_indices s a k l :
  get_array (sortElementsByPosition s a).1 (sortElementsByPosition s a).2
    !! k = Some l ->
  index (get_elem (sortElementsByPosition s a).1 l) = Z.of_nat k.
Proof.
  unfold sortElementsByPosition.
  destruct (get_array s a) as [|e els].
  { simpl. by rewrite get_array_alloc, lookup_nil. }
  destruct (map_reindex _ _ 0) as [s2 r] eqn:E.
  pose proof (map_reindex_spec
    (set_array s a (Array_sort (position_cmp (fun l => rect (get_elem s l)))
                               (e :: els)))
    (Array_sort (position_cmp (fun l => rect (get_elem s l))) (e :: els)) 0)
    as [_ H].
  rewrite E in H. simpl in H.
  simpl. rewrite get_array_alloc. intros Hk.
  destruct (H k l Hk) as [Hl Hi].
  erewrite extends_get_elem; [done|apply extends_alloc_array|done].
Qed.

(** The fusion entry point leaves every cell of the store it was given
    as it was: it only allocates. *)
Lemma IndexTs_combine_extends s browserElements cvElements thr :
  extends s (combineAndFilterElements s browserElements cvElements thr).1.
Proof.
  unfold combineAndFilterElements.
  destruct (alloc_array s _) as [s1 allElements] eqn:E1.
  destruct (filterOverlappingElements s1 allElements thr)
    as [s2 filtered] eqn:E2.
  assert (extends s s1) as H1.
  { replace s1 with (alloc_array s
      (get_array s browserElements ++ get_array s cvElements)).1
      by by rewrite E1.
    apply extends_alloc_array. }
  assert (allElements = length (arrays s)) as Hall.
  { by injection E1 as _ <-. }
  assert (extends s s2) as H2.
  { replace s2 with (filterOverlappingElements s1 allElements thr).1
      by by rewrite E2.
    apply IndexTs_filter_extends; [done|lia]. }
  apply IndexTs_sort_extends; [done|].
  replace filtered with (filterOverlappingElements s1 allElements thr).2
    by by rewrite E2.
  rewrite IndexTs_filter_ref. destruct H1 as [_ [k ->]].
  rewrite length_app. lia.
Qed.

(** Every element of the returned array carries its position as index. *)
Lemma IndexTs_combine_indices s browserElements cvElements thr k l :
  get_array (combineAndFilterElements s browserElements cvElements thr).1
            (combineAndFilterElements s browserElements cvElements thr).2
    !! k = Some l ->
  index (get_elem
    (combineAndFilterElements s browserElements cvElements thr).1 l)
  = Z.of_nat k.
Proof.
  unfold combineAndFilterElements.
  destruct (alloc_array s _) as [s1 allElements].
  destruct (filterOverlappingElements s1 allElements thr) as [s2 filtered].
  apply IndexTs_sort_indices.
Qed.
End IndexTsFusion.

(** ** The claims on filtering and fusion *)

(** The IndexTs filter is idempotent, on element values and on any handle
    type: filtering its own output removes nothing. *)
Lemma IndexTs_filter_idempotent (elements : list IndexTs.InteractiveElement)
    (iouThreshold : Q) :
  IndexTs.filterOverlappingElements_pure
    (IndexTs.filterOverlappingElements_pure elements iouThreshold) iouThreshold
  = IndexTs.filterOverlappingElements_pure elements iouThreshold.
Proof. apply filter_result_idempotent. Qed.

(** C6 fails on the TsVariant filter. On [outer; wide; inner] it drops
    [outer] when [inner] arrives (the splice is followed by [break], so
    [inner] is never compared with [wide]) and returns [wide; inner]; run
    on that output it drops [inner], whose IoU with [wide] is 5/6 > 0.7. *)
Theorem TsVariant_filter_not_idempotent :
  let once :=
    TsVariant.filterOverlappingElements_pure
      [tsv_outer; tsv_wide; tsv_inner] (7 # 10) in
  once = [tsv_wide; tsv_inner] /\
  TsVariant.filterOverlappingElements_pure once (7 # 10) = [tsv_wide] /\
  TsVariant.filterOverlappingElements_pure once (7 # 10) <> once.
Proof. vm_compute. by repeat split. Qed.

(** C8 fails on the TsVariant entry point: the index loop of
    [sortElementsByPosition] writes through the references of the input
    arrays. Two DOM-derived elements that came in with the indices 0
    (the right one) and 1 (the left one) are left with the indices 1
    and 0; the input array itself still holds the same references. *)
Theorem TsVariant_combine_mutates_input :
  let right := TsVariant.set_index (tsv_element 200 10 50 20 1) 0 in
  let left := TsVariant.set_index (tsv_element 0 10 50 20 1) 1 in
  let s := store_of_inputs [right; left] [] in
  let out := TsVariant.combineAndFilterElements s 0%nat 1%nat (7 # 10) in
  tsv_indices s 0%nat = [0; 1]%Z /\
  get_array out.1 0%nat = get_array s 0%nat /\
  tsv_indices out.1 0%nat = [1; 0]%Z /\
  get_elem out.1 0%nat <> get_elem s 0%nat.
Proof. vm_compute. by repeat split. Qed.

(** The IndexTs passes sort the array they are handed in place. The
    entry point hands them an array of its own; a caller of the filter
    finds its array reordered, here with the larger box moved to the
    front. *)
Lemma IndexTs_filter_sorts_argument :
  let small := idx_element 0 0 10 10 1 in
  let big := idx_element 100 0 150 50 1 in
  let s := store_of_inputs [small; big] [] in
  let out := IndexTs.filterOverlappingElements s 0%nat (7 # 10) in
  get_array s 0%nat = [0; 1]%nat /\ get_array out.1 0%nat = [1; 0]%nat.
Proof. vm_compute. by split. Qed.

(** The in-place index loop also shows when one object is handed in
    twice and both references survive the filter: it writes 0 and then 1
    into the same object, and both positions of the returned array read
    index 1. *)
Lemma TsVariant_combine_duplicate_index :
  let s := mkStore [tsv_boxA; tsv_boxB; tsv_inAB] [[0; 1; 2]; [2]]%nat in
  let out := TsVariant.combineAndFilterElements s 0%nat 1%nat (7 # 10) in
  get_array out.1 out.2 = [2; 2]%nat /\
  tsv_indices out.1 out.2 = [1; 1]%Z.
Proof. vm_compute. by split. Qed.

(** ** The dispatchers *)

(** The TsVariant dispatcher always returns a result. *)
Lemma TsVariant_executeAction_returns (this : TsVariant.Controller)
    (action : TsVariant.ActionModel) (browser : option Browser) :
  exists result, TsVariant.executeAction this action browser = Returned result.
Proof.
  unfold TsVariant.executeAction. cbv zeta.
  destruct (TsVariant.read_action this _) as [registeredAction| |];
    simpl; [|by eexists..].
  destruct (TsVariant.function registeredAction _) as [[r|s|d c e g|]|err];
    simpl; by eexists.
Qed.

(** A name that is neither registered nor inherited from
    [Object.prototype] gives the "not found" result. *)
Lemma TsVariant_executeAction_not_found (this : TsVariant.Controller)
    (action : TsVariant.ActionModel) (browser : option Browser) :
  TsVariant._actions this !! TsVariant.name action = None ->
  TsVariant.name action ∉ TsVariant.Object_prototype_properties ->
  TsVariant.executeAction this action browser =
    Returned (TsVariant.mkActionResult false None
      (Some ("Action " +:+ TsVariant.name action +:+ " not found")) false).
Proof.
  intros Hnone Hproto. unfold TsVariant.executeAction, TsVariant.read_action.
  cbv zeta. rewrite Hnone. by rewrite bool_decide_eq_false_2.
Qed.

(** A registered handler that throws gives an error result. *)
Lemma TsVariant_executeAction_handler_throws (this : TsVariant.Controller)
    (action : TsVariant.ActionModel) (browser : option Browser)
    (registeredAction : TsVariant.Action) (err : thrown) :
  TsVariant._actions this !! TsVariant.name action = Some registeredAction ->
  (forall kwargs, TsVariant.function registeredAction kwargs = Thrown err) ->
  TsVariant.executeAction this action browser =
    Returned (TsVariant.mkActionResult false None
      (Some ("Error executing action " +:+ TsVariant.name action +:+ ": "
             +:+ error_message err)) false).
Proof.
  intros Hsome Hthrows. unfold TsVariant.executeAction, TsVariant.read_action.
  cbv zeta. rewrite Hsome. by rewrite Hthrows.
Qed.

(** An unregistered name that [Object.prototype] defines is found, called,
    and reported as a failed execution. *)
Lemma TsVariant_executeAction_inherited_name :
  TsVariant.executeAction (TsVariant.mkController ∅ [])
    (TsVariant.mkActionModel "toString" []) None =
  Returned (TsVariant.mkActionResult false None
    (Some "Error executing action toString: registeredAction.function is not a function")
    false).
Proof. reflexivity. Qed.

(** The IndexTs dispatcher throws on every unregistered name. *)
Lemma IndexTs_executeAction_not_found (this : IndexTs.Controller)
    (action : IndexTs.ActionModel) (browser : option Browser) :
  IndexTs.actions this !! IndexTs.name action = None ->
  IndexTs.executeAction this action browser =
    Thrown (ErrorObject ("Action " +:+ IndexTs.name action +:+ " not found")).
Proof. intros H. unfold IndexTs.executeAction. cbv zeta. by rewrite H. Qed.

(** The IndexTs dispatcher rethrows what a handler throws. *)
Lemma IndexTs_executeAction_handler_throws (this : IndexTs.Controller)
    (action : IndexTs.ActionModel) (browser : option Browser)
    (actionDef : IndexTs.Action) (err : thrown) :
  IndexTs.actions this !! IndexTs.name action = Some actionDef ->
  (forall kwargs, IndexTs.function actionDef kwargs = Thrown err) ->
  IndexTs.executeAction this action browser =
    Thrown (ErrorObject ("Error executing action " +:+ IndexTs.name action
                         +:+ ": " +:+ error_message err)).
Proof.
  intros Hsome Hthrows. unfold IndexTs.executeAction. cbv zeta.
  rewrite Hsome. by rewrite Hthrows.
Qed.

(** C1 fails on the IndexTs dispatcher: with nothing registered under
    the name it throws "Action ... not found", and a handler that throws
    makes it throw again. *)
Theorem IndexTs_executeAction_throws :
  let controller := IndexTs.mkController ∅ [] in
  let failing :=
    IndexTs.registerAction controller "click_element" "Click on element"
      (fun _ => Thrown (ErrorObject "element is stale")) true in
  IndexTs.executeAction controller
    (IndexTs.mkActionModel "open_sesame" []) (Some 0%nat)
  = Thrown (ErrorObject "Action open_sesame not found") /\
  IndexTs.executeAction failing
    (IndexTs.mkActionModel "click_element" []) (Some 0%nat)
  = Thrown (ErrorObject
      "Error executing action click_element: element is stale").
Proof. split; vm_compute; reflexivity. Qed.

(** ** Lists: the last element with a property *)

Lemma last_true_split {A : Type} (P : A -> bool) (l : list A) :
  (forall x, x ∈ l -> P x = false) \/
  exists pre m post, l = pre ++ m :: post /\ P m = true /\
    forall x, x ∈ post -> P x = false.
Proof.
  induction l as [|x l IH] using rev_ind.
  { left. intros x. by rewrite elem_of_nil. }
  destruct (P x) eqn:Ex.
  - right. exists l, x, []. split; [done|]. split; [done|].
    intros y. by rewrite elem_of_nil.
  - destruct IH as [Hnone|(pre & m & post & -> & Hm & Hpost)].
    + left. intros y [Hy| ->%list_elem_of_singleton]%elem_of_app; auto.
    + right. exists pre, m, (post ++ [x]).
      rewrite <- (assoc_L (++)). split; [done|]. split; [done|].
      intros y [Hy| ->%list_elem_of_singleton]%elem_of_app; auto.
Qed.

Lemma lookup_at_length {A : Type} (l1 l2 : list A) (x : A) :
  (l1 ++ x :: l2) !! length l1 = Some x.
Proof. by apply list_lookup_middle. Qed.

Lemma insert_at_length {A : Type} (l1 l2 : list A) (x y : A) :
  <[length l1 := y]> (l1 ++ x :: l2) = l1 ++ y :: l2.
Proof. rewrite insert_app_r_alt by done. by rewrite Nat.sub_diag. Qed.

Lemma delete_at_length {A : Type} (l1 l2 : list A) (x : A) :
  delete (length l1) (l1 ++ x :: l2) = l1 ++ l2.
Proof. by rewrite delete_middle. Qed.

(** ** TsVariant: getMessages *)

Section TsVariantGetMessages.
Import TsVariant.Llm TsVariant.MessageManager.
Implicit Types (m : Message) (msgs pre post : list Message).

Lemma tsv_loop_app (found : bool) pre post :
  getMessages_loop (length pre) found (pre ++ post)
  = getMessages_loop (length pre) found pre ++ post.
Proof.
  revert found post. induction pre as [|m pre IH] using rev_ind;
    intros found post; [done|].
  rewrite length_app, Nat.add_1_r. simpl.
  rewrite <- (assoc_L (++)). simpl. rewrite !lookup_at_length.
  destruct (String.eqb (role m) "system").
  - rewrite IH. rewrite (IH found [m]). by rewrite <- (assoc_L (++)).
  - rewrite !insert_at_length.
    set (m1 := if found then removeCacheControl m else m).
    rewrite IH, (IH _ [m1]). by rewrite <- (assoc_L (++)).
Qed.

Lemma tsv_loop_snoc (found : bool) pre m :
  getMessages_loop (length (pre ++ [m])) found (pre ++ [m])
  = if tsv_non_system m
    then
      let m1 := if found then removeCacheControl m else m in
      getMessages_loop (length pre)
        (if hasCacheControl m1 then true else found) pre ++ [m1]
    else getMessages_loop (length pre) found pre ++ [m].
Proof.
  rewrite length_app, Nat.add_1_r. simpl.
  rewrite lookup_at_length. unfold tsv_non_system.
  destruct (String.eqb (role m) "system"); simpl.
  - apply tsv_loop_app.
  - rewrite insert_at_length. apply tsv_loop_app.
Qed.

(** Once a marker has been found, every earlier non-system message is
    cleared. *)
Lemma tsv_loop_found pre :
  getMessages_loop (length pre) true pre = tsv_cleared pre.
Proof.
  induction pre as [|m pre IH] using rev_ind; [done|].
  rewrite tsv_loop_snoc. unfold tsv_cleared. rewrite map_app. simpl.
  destruct (tsv_non_system m); simpl.
  - destruct (hasCacheControl _); by rewrite IH.
  - by rewrite IH.
Qed.

(** Without any marker the history is returned as it is. *)
Lemma tsv_loop_none post :
  (forall x, x ∈ post -> tsv_has_marker x = false) ->
  getMessages_loop (length post) false post = post.
Proof.
  induction post as [|m post IH] using rev_ind; [done|].
  intros Hnone. rewrite tsv_loop_snoc.
  assert (tsv_has_marker m = false) as Hm.
  { apply Hnone, elem_of_app. right. by apply list_elem_of_singleton. }
  assert (getMessages_loop (length post) false post = post) as IH'.
  { apply IH. intros x Hx. apply Hnone, elem_of_app. by left. }
  unfold tsv_has_marker in Hm. destruct (tsv_non_system m); simpl in *.
  - by rewrite Hm, IH'.
  - by rewrite IH'.
Qed.

(** The message that holds the last marker and everything after it stay
    as they are; everything before it is cleared. *)
Lemma tsv_getMessages_split pre m post :
  tsv_has_marker m = true ->
  (forall x, x ∈ post -> tsv_has_marker x = false) ->
  getMessages (pre ++ m :: post) = tsv_cleared pre ++ m :: post.
Proof.
  intros Hm. unfold getMessages.
  induction post as [|x post IH] using rev_ind; intros Hpost.
  - rewrite tsv_loop_snoc. apply andb_true_iff in Hm as [-> Hm]. simpl.
    by rewrite Hm, tsv_loop_found.
  - replace (pre ++ m :: post ++ [x]) with ((pre ++ m :: post) ++ [x])
      by (by rewrite <- (assoc_L (++))).
    rewrite tsv_loop_snoc.
    assert (tsv_has_marker x = false) as Hx.
    { apply Hpost, elem_of_app. right. by apply list_elem_of_singleton. }
    assert (getMessages_loop (length (pre ++ m :: post)) false
              (pre ++ m :: post) = tsv_cleared pre ++ m :: post) as IH'.
    { apply IH. intros y Hy. apply Hpost, elem_of_app. by left. }
    unfold tsv_has_marker in Hx. destruct (tsv_non_system x); simpl in *.
    + rewrite Hx, IH'. by rewrite <- (assoc_L (++)).
    + rewrite IH'. by rewrite <- (assoc_L (++)).
Qed.

Lemma tsv_getMessages_none msgs :
  (forall x, x ∈ msgs -> tsv_has_marker x = false) -> getMessages msgs = msgs.
Proof. apply tsv_loop_none. Qed.
End TsVariantGetMessages.

Section TsVariantMarkers.
Import TsVariant.Llm TsVariant.MessageManager.
Implicit Types (m : Message) (msgs pre post : list Message).

Lemma tsv_marked_blocks_app pre post :
  tsv_marked_blocks (pre ++ post)
  = (tsv_marked_blocks pre + tsv_marked_blocks post)%nat.
Proof. apply sum_list_with_app. Qed.

Lemma tsv_marked_blocks_zero msgs :
  (forall m, m ∈ msgs -> tsv_non_system m = true -> tsv_marked_in m = 0%nat) ->
  tsv_marked_blocks msgs = 0%nat.
Proof.
  induction msgs as [|m msgs IH]; [done|]. intros H.
  unfold tsv_marked_blocks. simpl. fold (tsv_marked_blocks msgs).
  rewrite IH by (intros; apply H; [by right|done]).
  destruct (tsv_non_system m) eqn:E; [|done].
  rewrite H; [done|by left|done].
Qed.

(** Clearing removes every marker that sits on a text block. *)
Lemma tsv_marked_in_removed m :
  (forall c, c ∈ content m -> tsv_marked c = true -> is_marked_text c = true) ->
  tsv_marked_in (removeCacheControl m) = 0%nat.
Proof.
  unfold tsv_marked_in. simpl. induction (content m) as [|c cs IH]; [done|].
  intros H. simpl. rewrite filter_cons.
  rewrite decide_False.
  { apply IH. intros c' Hc'. apply H. by right. }
  specialize (H c (list_elem_of_here _ _)).
  destruct c as [t [[|]|]|u b [[|]|]|t s [[|]|]]; simpl in *;
    try done; by specialize (H eq_refl).
Qed.

Lemma tsv_marked_in_unmarked m :
  (forall c, c ∈ content m -> tsv_marked c = true -> is_marked_text c = true) ->
  hasCacheControl m = false -> tsv_marked_in m = 0%nat.
Proof.
  unfold tsv_marked_in, hasCacheControl.
  induction (content m) as [|c cs IH]; [done|].
  intros H [Hc Hcs]%orb_false_iff. rewrite filter_cons.
  rewrite decide_False.
  { apply IH; [|done]. intros c' Hc'. apply H. by right. }
  intros Hm. apply (H c) in Hm; [congruence|by left].
Qed.

Lemma tsv_marked_in_marked m :
  hasCacheControl m = true -> (1 <= tsv_marked_in m)%nat.
Proof.
  unfold tsv_marked_in, hasCacheControl.
  induction (content m) as [|c cs IH]; [done|].
  simpl. rewrite filter_cons. intros [Hc|Hcs]%orb_true_iff.
  - rewrite decide_True; [simpl; lia|].
    by destruct c as [t [[|]|]|u b [[|]|]|t s [[|]|]].
  - specialize (IH Hcs). destruct (decide _); simpl; lia.
Qed.

Lemma tsv_markers_wf_app pre post :
  tsv_markers_wf (pre ++ post) <-> tsv_markers_wf pre /\ tsv_markers_wf post.
Proof.
  unfold tsv_markers_wf. split.
  - intros H. split; intros m Hm; apply H, elem_of_app; auto.
  - intros [H1 H2] m [Hm|Hm]%elem_of_app; auto.
Qed.

Lemma tsv_cleared_no_markers pre :
  tsv_markers_wf pre -> tsv_marked_blocks (tsv_cleared pre) = 0%nat.
Proof.
  intros Hwf. apply tsv_marked_blocks_zero.
  intros m' (m & -> & Hm)%list_elem_of_fmap Hns.
  destruct (tsv_non_system m) eqn:E; [|congruence].
  apply tsv_marked_in_removed. by apply Hwf.
Qed.

Lemma tsv_unmarked_no_markers post :
  tsv_markers_wf post ->
  (forall x, x ∈ post -> tsv_has_marker x = false) ->
  tsv_marked_blocks post = 0%nat.
Proof.
  intros Hwf Hnone. apply tsv_marked_blocks_zero. intros m Hm Hns.
  apply tsv_marked_in_unmarked; [by apply Hwf|].
  specialize (Hnone m Hm). unfold tsv_has_marker in Hnone.
  by rewrite Hns in Hnone.
Qed.

(** After [getMessages] at most one block of the non-system messages is
    marked: the one of the last message that carried a marker. That
    message and the later ones are untouched, the earlier ones cleared. *)
Lemma tsv_getMessages_singleton msgs :
  tsv_markers_wf msgs ->
  (tsv_marked_blocks (getMessages msgs) <= 1)%nat /\
  ( (tsv_marked_blocks msgs = 0%nat /\ getMessages msgs = msgs) \/
    exists pre m post,
      msgs = pre ++ m :: post /\
      getMessages msgs = tsv_cleared pre ++ m :: post /\
      tsv_non_system m = true /\ tsv_marked_in m = 1%nat /\
      tsv_marked_blocks (tsv_cleared pre) = 0%nat /\
      tsv_marked_blocks post = 0%nat ).
Proof.
  intros Hwf.
  destruct (last_true_split tsv_has_marker msgs)
    as [Hnone|(pre & m & post & -> & Hm & Hpost)].
  - rewrite tsv_getMessages_none by done.
    rewrite tsv_unmarked_no_markers by done. split; [lia|by left].
  - rewrite tsv_getMessages_split by done.
    apply tsv_markers_wf_app in Hwf as [Hpre Hmpost].
    apply (tsv_markers_wf_app [m] post) in Hmpost as [Hm' Hpost'].
    pose proof (tsv_cleared_no_markers pre Hpre) as Hc.
    pose proof (tsv_unmarked_no_markers post Hpost' Hpost) as Hp.
    apply andb_true_iff in Hm as [Hns Hhas].
    destruct (Hm' m (list_elem_of_here _ _) Hns) as [Hle _].
    pose proof (tsv_marked_in_marked m Hhas) as Hge.
    assert (tsv_marked_in m = 1%nat) as H1 by lia.
    split.
    + rewrite tsv_marked_blocks_app, Hc. unfold tsv_marked_blocks. simpl.
      fold (tsv_marked_blocks post). rewrite Hns, Hp. lia.
    + right. by exists pre, m, post.
Qed.
End TsVariantMarkers.

(** ** IndexTs: getMessages *)

Section IndexTsGetMessages.
Import IndexTs.Llm IndexTs.MessageManager.
Implicit Types (m : Message) (msgs pre post : list Message).

Lemma idx_loop_app (last : option nat) pre post :
  getMessages_loop (length pre) last (pre ++ post)
  = getMessages_loop (length pre) last pre ++ post.
Proof.
  revert last post. induction pre as [|m pre IH] using rev_ind;
    intros last post; [done|].
  rewrite length_app, Nat.add_1_r. simpl.
  rewrite <- (assoc_L (++)). simpl. rewrite !lookup_at_length.
  destruct (eligible m); [destruct last|].
  - rewrite !insert_at_length.
    rewrite IH, (IH _ [clearMessage m]). by rewrite <- (assoc_L (++)).
  - rewrite IH, (IH _ [m]). by rewrite <- (assoc_L (++)).
  - rewrite IH, (IH _ [m]). by rewrite <- (assoc_L (++)).
Qed.

Lemma idx_loop_snoc (last : option nat) pre m :
  getMessages_loop (length (pre ++ [m])) last (pre ++ [m])
  = if eligible m then
      match last with
      | None => getMessages_loop (length pre) (Some (length pre)) pre ++ [m]
      | Some _ => getMessages_loop (length pre) last pre ++ [clearMessage m]
      end
    else getMessages_loop (length pre) last pre ++ [m].
Proof.
  rewrite length_app, Nat.add_1_r. simpl. rewrite lookup_at_length.
  destruct (eligible m); [destruct last|].
  - rewrite insert_at_length. apply idx_loop_app.
  - apply idx_loop_app.
  - apply idx_loop_app.
Qed.

(** Once the last state message has been passed, every earlier state
    message is cleared. *)
Lemma idx_loop_found (k : nat) pre :
  getMessages_loop (length pre) (Some k) pre = idx_cleared pre.
Proof.
  induction pre as [|m pre IH] using rev_ind; [done|].
  rewrite idx_loop_snoc. unfold idx_cleared. rewrite map_app. simpl.
  destruct (eligible m); by rewrite IH.
Qed.

Lemma idx_loop_none post :
  (forall x, x ∈ post -> eligible x = false) ->
  getMessages_loop (length post) None post = post.
Proof.
  induction post as [|m post IH] using rev_ind; [done|].
  intros Hnone. rewrite idx_loop_snoc.
  rewrite (Hnone m) by (apply elem_of_app; right; by apply list_elem_of_singleton).
  rewrite IH; [done|]. intros x Hx. apply Hnone, elem_of_app. by left.
Qed.

(** The last state message and everything after it stay as they are;
    every state message before it is cleared. *)
Lemma idx_getMessages_split pre m post :
  eligible m = true ->
  (forall x, x ∈ post -> eligible x = false) ->
  getMessages (pre ++ m :: post) = idx_cleared pre ++ m :: post.
Proof.
  intros Hm. unfold getMessages.
  induction post as [|x post IH] using rev_ind; intros Hpost.
  - rewrite idx_loop_snoc, Hm. by rewrite idx_loop_found.
  - replace (pre ++ m :: post ++ [x]) with ((pre ++ m :: post) ++ [x])
      by (by rewrite <- (assoc_L (++))).
    rewrite idx_loop_snoc.
    rewrite (Hpost x) by (apply elem_of_app; right; by apply list_elem_of_singleton).
    rewrite IH; [by rewrite <- (assoc_L (++))|].
    intros y Hy. apply Hpost, elem_of_app. by left.
Qed.

Lemma idx_marked_blocks_app pre post :
  idx_marked_blocks (pre ++ post)
  = (idx_marked_blocks pre + idx_marked_blocks post)%nat.
Proof. apply sum_list_with_app. Qed.

Lemma idx_marked_blocks_zero msgs :
  (forall m, m ∈ msgs -> idx_non_system m = true -> idx_marked_in m = 0%nat) ->
  idx_marked_blocks msgs = 0%nat.
Proof.
  induction msgs as [|m msgs IH]; [done|]. intros H.
  unfold idx_marked_blocks. simpl. fold (idx_marked_blocks msgs).
  rewrite IH by (intros; apply H; [by right|done]).
  destruct (idx_non_system m) eqn:E; [|done].
  rewrite H; [done|by left|done].
Qed.

Lemma idx_marked_in_cleared m : idx_marked_in (clearMessage m) = 0%nat.
Proof.
  unfold idx_marked_in, clearMessage.
  destruct (content m) as [s|blocks] eqn:E; simpl; [by rewrite E|].
  clear E. induction blocks as [|c cs IH]; [done|]. simpl.
  rewrite filter_cons, decide_False; [done|]. by destruct c.
Qed.

(** A state message whose content is an empty array or a string holds no
    block at all. *)
Lemma idx_marked_in_ineligible m :
  eligible m = false -> IndexTs.Llm.is_state_message m = true ->
  idx_marked_in m = 0%nat.
Proof.
  unfold eligible, idx_marked_in. intros H Hs. rewrite Hs in H. simpl in H.
  by destruct (content m) as [s|[|c cs]].
Qed.

Lemma idx_markers_wf_app pre post :
  idx_markers_wf (pre ++ post) <-> idx_markers_wf pre /\ idx_markers_wf post.
Proof.
  unfold idx_markers_wf. split.
  - intros H. split; intros m Hm; apply H, elem_of_app; auto.
  - intros [H1 H2] m [Hm|Hm]%elem_of_app; auto.
Qed.

Lemma idx_wf_ineligible m :
  idx_markers_wf [m] -> idx_non_system m = true -> eligible m = false ->
  idx_marked_in m = 0%nat.
Proof.
  intros Hwf Hns He.
  destruct (Hwf m (list_elem_of_here _ _) Hns) as [_ Hstate].
  destruct (idx_marked_in m) as [|n] eqn:E; [done|].
  rewrite idx_marked_in_ineligible in E; [done..|]. apply Hstate. lia.
Qed.

Lemma idx_cleared_no_markers pre :
  idx_markers_wf pre -> idx_marked_blocks (idx_cleared pre) = 0%nat.
Proof.
  intros Hwf. apply idx_marked_blocks_zero.
  intros m' (m & -> & Hm)%list_elem_of_fmap Hns.
  destruct (eligible m) eqn:E; [apply idx_marked_in_cleared|].
  apply idx_wf_ineligible; [|done..].
  intros x ->%list_elem_of_singleton. by apply Hwf.
Qed.

Lemma idx_ineligible_no_markers post :
  idx_markers_wf post ->
  (forall x, x ∈ post -> eligible x = false) ->
  idx_marked_blocks post = 0%nat.
Proof.
  intros Hwf Hnone. apply idx_marked_blocks_zero. intros m Hm Hns.
  apply idx_wf_ineligible; [|done|by apply Hnone].
  intros x ->%list_elem_of_singleton. by apply Hwf.
Qed.

(** After [getMessages] at most one block of the non-system messages is
    marked, and it sits in the last state message. That message and the
    later ones are untouched, the earlier state messages cleared. *)
Lemma idx_getMessages_singleton msgs :
  idx_markers_wf msgs ->
  (idx_marked_blocks (getMessages msgs) <= 1)%nat /\
  ( (idx_marked_blocks msgs = 0%nat /\ getMessages msgs = msgs) \/
    exists pre m post,
      msgs = pre ++ m :: post /\
      getMessages msgs = idx_cleared pre ++ m :: post /\
      eligible m = true /\
      (forall x, x ∈ post -> eligible x = false) /\
      idx_marked_blocks (idx_cleared pre) = 0%nat /\
      idx_marked_blocks post = 0%nat ).
Proof.
  intros Hwf.
  destruct (last_true_split eligible msgs)
    as [Hnone|(pre & m & post & -> & Hm & Hpost)].
  - unfold getMessages. rewrite idx_loop_none by done.
    rewrite idx_ineligible_no_markers by done. split; [lia|by left].
  - rewrite idx_getMessages_split by done.
    apply idx_markers_wf_app in Hwf as [Hpre Hmpost].
    apply (idx_markers_wf_app [m] post) in Hmpost as [Hm' Hpost'].
    pose proof (idx_cleared_no_markers pre Hpre) as Hc.
    pose proof (idx_ineligible_no_markers post Hpost' Hpost) as Hp.
    split.
    + rewrite idx_marked_blocks_app, Hc. unfold idx_marked_blocks. simpl.
      fold (idx_marked_blocks post). rewrite Hp.
      destruct (idx_non_system m) eqn:Hns; [|lia].
      destruct (Hm' m (list_elem_of_here _ _) Hns) as [Hle _]. lia.
    + right. by exists pre, m, post.
Qed.
End IndexTsGetMessages.

(** ** Checking the conditions on a history *)

Lemma tsv_markers_wfb_correct (msgs : list TsVariant.Llm.Message) :
  tsv_markers_wfb msgs = true -> tsv_markers_wf msgs.
Proof.
  unfold tsv_markers_wfb, tsv_markers_wf. rewrite forallb_forall.
  intros H m Hm Hns. apply list_elem_of_In, H in Hm. rewrite Hns in Hm.
  apply andb_true_iff in Hm as [Hle Hall]. split; [by apply Nat.leb_le|].
  intros c Hc Hmarked. rewrite forallb_forall in Hall.
  apply list_elem_of_In, Hall in Hc. by rewrite Hmarked in Hc.
Qed.

Lemma idx_markers_wfb_correct (msgs : list IndexTs.Llm.Message) :
  idx_markers_wfb msgs = true -> idx_markers_wf msgs.
Proof.
  unfold idx_markers_wfb, idx_markers_wf. rewrite forallb_forall.
  intros H m Hm Hns. apply list_elem_of_In, H in Hm. rewrite Hns in Hm.
  apply andb_true_iff in Hm as [Hle Himp]. split; [by apply Nat.leb_le|].
  intros Hpos. apply Nat.ltb_lt in Hpos. by rewrite Hpos in Himp.
Qed.

(** ** The managers keep their histories well formed *)

Lemma filter_take_length {A : Type} (P : A -> Prop) `{!forall x, Decision (P x)}
    (n : nat) (l : list A) :
  (length (filter P (take n l)) <= length (filter P l))%nat.
Proof.
  rewrite <- (take_drop n l) at 2. rewrite filter_app, length_app. lia.
Qed.

Lemma NoDup_submseteq_inv {A : Type} (l k : list A) :
  l ⊆+ k -> NoDup k -> NoDup l.
Proof.
  intros [k' Hk]%submseteq_Permutation Hnd. rewrite Hk in Hnd.
  by apply NoDup_app in Hnd as [? _].
Qed.

Lemma removelast_sublist {A : Type} (l : list A) : removelast l `sublist_of` l.
Proof.
  induction l as [|x [|y l] IH]; simpl; [done|by constructor|].
  by constructor.
Qed.

Section TsVariantInvariant.
Import TsVariant.Llm TsVariant.MessageManager.
Context (texts : Texts).
Implicit Types (m : Message) (msgs : list Message).

Lemma tsv_markers_wf_sublist msgs msgs' :
  msgs' `sublist_of` msgs -> tsv_markers_wf msgs -> tsv_markers_wf msgs'.
Proof.
  intros Hs Hwf m Hm. apply Hwf. by eapply sublist_subseteq.
Qed.

Lemma tsv_wf_addSystemMessageAndUserPrompt msgs (prompt : string) :
  tsv_markers_wf msgs ->
  tsv_markers_wf (addSystemMessageAndUserPrompt texts msgs prompt).
Proof.
  intros Hwf. unfold addSystemMessageAndUserPrompt.
  apply tsv_markers_wf_app. split; [done|].
  by apply tsv_markers_wfb_correct.
Qed.

Lemma tsv_wf_addCurrentStateMessage msgs state previousResult followUp :
  tsv_markers_wf msgs ->
  tsv_markers_wf (addCurrentStateMessage texts msgs state previousResult
                    followUp).
Proof.
  intros Hwf. unfold addCurrentStateMessage.
  apply tsv_markers_wf_app. split; [done|].
  by apply tsv_markers_wfb_correct.
Qed.

Lemma tsv_wf_resetStateContent msgs :
  tsv_markers_wf msgs -> tsv_markers_wf (map resetStateContent msgs).
Proof.
  intros Hwf m' (m & -> & Hm)%list_elem_of_fmap. unfold resetStateContent.
  destruct (_ && _); [|by apply Hwf].
  unfold tsv_non_system, tsv_marked_in. simpl. intros Hns.
  destruct (Hwf m Hm Hns) as [Hle Htext]. split.
  - etrans; [apply filter_take_length|done].
  - intros c Hc. apply Htext. by eapply (subseteq_take 1).
Qed.

Lemma tsv_wf_addMessageFromModelOutput msgs (step : Z) previousResult
    modelOutput screenshot :
  (forall block, TsVariant.thinkingBlock modelOutput = Some block ->
     tsv_marked block = false) ->
  tsv_markers_wf msgs ->
  tsv_markers_wf (addMessageFromModelOutput texts msgs step previousResult
                    modelOutput screenshot).
Proof.
  intros Hthinking Hwf. unfold addMessageFromModelOutput. cbv zeta.
  apply tsv_markers_wf_app. split.
  - destruct previousResult as [previous|];
      [destruct (truthy_string screenshot)|];
      try by apply tsv_wf_resetStateContent.
    apply tsv_markers_wf_app. split; [by apply tsv_wf_resetStateContent|].
    by apply tsv_markers_wfb_correct.
  - destruct (TsVariant.thinkingBlock modelOutput) as [block|] eqn:E;
      [|by apply tsv_markers_wfb_correct].
    specialize (Hthinking block eq_refl).
    intros m ->%list_elem_of_singleton _. unfold tsv_marked_in. simpl.
    rewrite filter_cons, decide_False by by rewrite Hthinking.
    split; [simpl; lia|].
    intros c [->|[->|[]%elem_of_nil]%elem_of_cons]%elem_of_cons;
      [by rewrite Hthinking|done].
Qed.

Lemma tsv_wf_removeLastMessage msgs :
  tsv_markers_wf msgs -> tsv_markers_wf (removeLastMessage msgs).
Proof.
  unfold removeLastMessage. case_bool_decide; [|done].
  apply tsv_markers_wf_sublist, removelast_sublist.
Qed.

Lemma tsv_wf_cleared msgs :
  tsv_markers_wf msgs -> tsv_markers_wf (tsv_cleared msgs).
Proof.
  intros Hwf m' (m & -> & Hm)%list_elem_of_fmap.
  destruct (tsv_non_system m) eqn:E; [|congruence]. intros _.
  destruct (Hwf m Hm E) as [_ Htext].
  pose proof (tsv_marked_in_removed m Htext) as H0. split; [lia|].
  intros c Hc Hmarked. exfalso. unfold tsv_marked_in in H0.
  apply length_zero_iff_nil in H0.
  assert (c ∈ filter (fun c => tsv_marked c = true)
                     (content (removeCacheControl m))) as Hin
    by by apply list_elem_of_filter.
  rewrite H0 in Hin. by apply elem_of_nil in Hin.
Qed.

Lemma tsv_wf_getMessages msgs :
  tsv_markers_wf msgs -> tsv_markers_wf (getMessages msgs).
Proof.
  intros Hwf.
  destruct (tsv_getMessages_singleton msgs Hwf)
    as [_ [[_ ->]|(pre & m & post & -> & -> & _)]]; [done|].
  apply tsv_markers_wf_app in Hwf as [Hpre Hpost].
  apply tsv_markers_wf_app. split; [by apply tsv_wf_cleared|done].
Qed.
End TsVariantInvariant.

Section IndexTsInvariant.
Import IndexTs.Llm IndexTs.MessageManager.
Context (texts : Texts).
Implicit Types (m : Message) (msgs : list Message).

Lemma idx_wf_addSystemMessageAndUserPrompt msgs (userPrompt : string) :
  idx_markers_wf msgs ->
  idx_markers_wf (addSystemMessageAndUserPrompt texts msgs userPrompt).
Proof.
  intros Hwf. unfold addSystemMessageAndUserPrompt.
  apply idx_markers_wf_app. split; [done|].
  by apply idx_markers_wfb_correct.
Qed.

Lemma idx_wf_addCurrentStateMessage msgs state previousActionResult :
  idx_markers_wf msgs ->
  idx_markers_wf (addCurrentStateMessage texts msgs state previousActionResult).
Proof.
  intros Hwf. unfold addCurrentStateMessage. cbv zeta.
  apply idx_markers_wf_app. split; [done|].
  apply idx_markers_wfb_correct.
  by destruct (truthy_string (IndexTs.Models.screenshot state)),
    (truthy_string (IndexTs.Models.screenshot_with_highlights state)).
Qed.

Lemma idx_marked_in_dropImages m :
  (idx_marked_in (dropImages m) <= idx_marked_in m)%nat.
Proof.
  unfold dropImages, idx_marked_in.
  destruct (content m) as [s|blocks] eqn:E; [by rewrite E|].
  destruct (_ && _); simpl; [|by rewrite E].
  induction blocks as [|c cs IH] in |- *; [done|].
  rewrite !filter_cons. destruct (decide (is_text c = true)).
  - rewrite filter_cons. destruct (decide (idx_marked c = true)); simpl; lia.
  - destruct (decide (idx_marked c = true)); simpl; lia.
Qed.

Lemma idx_wf_dropImages msgs :
  idx_markers_wf msgs -> idx_markers_wf (map dropImages msgs).
Proof.
  intros Hwf m' (m & -> & Hm)%list_elem_of_fmap Hns.
  assert (role (dropImages m) = role m /\
          is_state_message (dropImages m) = is_state_message m) as [Hr Hs].
  { unfold dropImages. destruct (content m); [done|]. by destruct (_ && _). }
  assert (idx_non_system m = true) as Hns'
    by (unfold idx_non_system in *; by rewrite <- Hr).
  destruct (Hwf m Hm Hns') as [Hle Hstate].
  pose proof (idx_marked_in_dropImages m). split; [lia|].
  intros Hpos. rewrite Hs. apply Hstate. lia.
Qed.

Lemma idx_wf_addMessageFromModelOutput msgs modelOutput stateScreenshot
    thinking :
  idx_markers_wf msgs ->
  idx_markers_wf (addMessageFromModelOutput texts msgs modelOutput
                    stateScreenshot thinking).
Proof.
  intros Hwf. unfold addMessageFromModelOutput. cbv zeta.
  assert (idx_markers_wf
    (map dropImages msgs ++
     [mkMessage ASSISTANT
        (ContentArray
           (match thinking with
            | Some (thinking0, signature) =>
                [ThinkingBlock thinking0 signature None]
            | None => []
            end ++
            [text_block ("<output_step>" +:+ nl +:+ outputJson texts modelOutput
                         +:+ nl +:+ "</output_step>")]))
        None None false])) as H.
  { apply idx_markers_wf_app. split; [by apply idx_wf_dropImages|].
    apply idx_markers_wfb_correct. by destruct thinking as [[? ?]|]. }
  destruct (truthy_string stateScreenshot); [|done].
  apply idx_markers_wf_app. split; [done|].
  by apply idx_markers_wfb_correct.
Qed.

Lemma idx_wf_cleared msgs :
  idx_markers_wf msgs -> idx_markers_wf (idx_cleared msgs).
Proof.
  intros Hwf m' (m & -> & Hm)%list_elem_of_fmap.
  destruct (eligible m) eqn:E; [|by apply Hwf].
  intros _. rewrite idx_marked_in_cleared. split; lia.
Qed.

Lemma idx_wf_getMessages msgs :
  idx_markers_wf msgs -> idx_markers_wf (getMessages msgs).
Proof.
  intros Hwf.
  destruct (idx_getMessages_singleton msgs Hwf)
    as [_ [[_ ->]|(pre & m & post & -> & -> & _)]]; [done|].
  apply idx_markers_wf_app in Hwf as [Hpre Hpost].
  apply idx_markers_wf_app. split; [by apply idx_wf_cleared|done].
Qed.
End IndexTsInvariant.

(** ** Rolling back the last message *)

Lemma removelast_take {A : Type} (l : list A) :
  removelast l = take (length l - 1) l.
Proof.
  induction l as [|x [|y l] IH]; [done..|].
  change (removelast (x :: y :: l)) with (x :: removelast (y :: l)).
  rewrite IH. simpl. by rewrite Nat.sub_0_r.
Qed.

Lemma tsv_removeLastMessage_head (msgs : list TsVariant.Llm.Message) :
  head (TsVariant.MessageManager.removeLastMessage msgs) = head msgs.
Proof.
  unfold TsVariant.MessageManager.removeLastMessage.
  case_bool_decide as Hlen; [|done].
  destruct msgs as [|m [|m' msgs]]; simpl in *; [lia..|done].
Qed.

(** C10. [removeLastMessage] pops the last message exactly when the
    history holds more than one message and otherwise leaves the history
    as it is; whatever the number of rollbacks, the first message of a
    history (the system message) stays in place. *)
Theorem removeLastMessage_keeps_first (msgs : list TsVariant.Llm.Message) :
  ((length msgs <= 1)%nat ->
     TsVariant.MessageManager.removeLastMessage msgs = msgs) /\
  ((1 < length msgs)%nat ->
     TsVariant.MessageManager.removeLastMessage msgs
       = take (length msgs - 1) msgs /\
     length (TsVariant.MessageManager.removeLastMessage msgs)
       = (length msgs - 1)%nat) /\
  (forall n : nat,
     head (Nat.iter n TsVariant.MessageManager.removeLastMessage msgs)
       = head msgs).
Proof.
  unfold TsVariant.MessageManager.removeLastMessage at 1 2 3.
  split; [|split].
  - intros Hlen. case_bool_decide; [lia|done].
  - intros Hlen. rewrite bool_decide_eq_true_2 by done.
    rewrite removelast_take. split; [done|]. rewrite length_take. lia.
  - induction n as [|n IH]; [done|]. simpl.
    by rewrite tsv_removeLastMessage_head.
Qed.

Lemma removeLastMessage_keeps_first_witness :
  TsVariant.MessageManager.removeLastMessage (take 1 tsv_history)
    = take 1 tsv_history /\
  length (TsVariant.MessageManager.removeLastMessage tsv_history) = 3%nat /\
  head (Nat.iter 10 TsVariant.MessageManager.removeLastMessage tsv_history)
    = head tsv_history.
Proof.
  destruct (removeLastMessage_keeps_first (take 1 tsv_history)) as [H1 _].
  destruct (removeLastMessage_keeps_first tsv_history) as (_ & H2 & H3).
  split; [apply H1; simpl; lia|]. split; [|apply H3].
  destruct H2 as [_ ->]; simpl; lia.
Defined.

(** ** A step whose model call fails *)

Lemma tsv_getMessages_length (msgs : list TsVariant.Llm.Message) :
  length (TsVariant.MessageManager.getMessages msgs) = length msgs.
Proof.
  unfold TsVariant.MessageManager.getMessages.
  generalize (length msgs) at 1 as n. generalize false as found.
  intros found n. revert found msgs.
  induction n as [|n IH]; intros found msgs; simpl; [done|].
  destruct (msgs !! n) as [m|]; [|done].
  destruct (String.eqb _ _); [done|]. by rewrite IH, length_insert.
Qed.

Lemma idx_getMessages_length (msgs : list IndexTs.Llm.Message) :
  length (IndexTs.MessageManager.getMessages msgs) = length msgs.
Proof.
  unfold IndexTs.MessageManager.getMessages.
  generalize (length msgs) at 1 as n. generalize (@None nat) as last.
  intros last n. revert last msgs.
  induction n as [|n IH]; intros last msgs; simpl; [done|].
  destruct (msgs !! n) as [m|]; [|done].
  destruct (IndexTs.MessageManager.eligible m); [destruct last|]; try done.
  by rewrite IH, length_insert.
Qed.

(** IndexTs: when the model call fails, [step] leaves the state message it
    appended in the history, which is one message longer than before. *)
Lemma IndexTs_step_keeps_state_message (texts : IndexTs.MessageManager.Texts)
    (env : IndexTs.Agent.StepEnv) (msgs : list IndexTs.Llm.Message)
    (prev : option IndexTs.ActionResult) (state : IndexTs.Models.BrowserState)
    (error : thrown) :
  IndexTs.Agent.updateState env = Returned state ->
  (forall sent, IndexTs.Agent.generateAction env sent = Thrown error) ->
  let after := (IndexTs.Agent.step texts env true msgs prev).2 in
  (IndexTs.Agent.step texts env true msgs prev).1 = Thrown error /\
  after = IndexTs.MessageManager.getMessages
            (IndexTs.MessageManager.addCurrentStateMessage texts msgs state prev)
  /\ length after = S (length msgs).
Proof.
  intros Hstate Hllm. unfold IndexTs.Agent.step. simpl.
  rewrite Hstate, Hllm. simpl. repeat split.
  rewrite idx_getMessages_length.
  unfold IndexTs.MessageManager.addCurrentStateMessage.
  rewrite length_app. simpl. lia.
Qed.

(** TsVariant, first step (no previous result): no state message was
    appended, and the rollback pops the last message of the history that
    was there. *)
Lemma TsVariant_step_first_pops (texts : TsVariant.MessageManager.Texts)
    (env : TsVariant.Agent.StepEnv) (msgs : list TsVariant.Llm.Message)
    (n : Z) (state : TsVariant.Models.BrowserState) (error : thrown) :
  TsVariant.Agent.updateState env = Returned state ->
  (forall sent, TsVariant.Agent.generateAction env sent = Thrown error) ->
  TsVariant.Agent.step texts env msgs n None
  = (Thrown error,
     TsVariant.MessageManager.removeLastMessage
       (TsVariant.MessageManager.getMessages msgs)).
Proof.
  intros Hstate Hllm. unfold TsVariant.Agent.step. by rewrite Hstate, Hllm.
Qed.

(** TsVariant, later steps: the state message is appended and rolled
    back; what is left is the history as [getMessages] returns it. *)
Lemma TsVariant_step_rolls_back (texts : TsVariant.MessageManager.Texts)
    (env : TsVariant.Agent.StepEnv) (msgs : list TsVariant.Llm.Message)
    (n : Z) (previous : TsVariant.ActionResult)
    (state : TsVariant.Models.BrowserState) (error : thrown) :
  msgs <> [] ->
  TsVariant.Agent.updateState env = Returned state ->
  (forall sent, TsVariant.Agent.generateAction env sent = Thrown error) ->
  TsVariant.Agent.step texts env msgs n (Some previous)
  = (Thrown error, TsVariant.MessageManager.getMessages msgs).
Proof.
  intros Hne Hstate Hllm. unfold TsVariant.Agent.step.
  rewrite Hstate, Hllm. f_equal.
  unfold TsVariant.MessageManager.addCurrentStateMessage.
  unfold TsVariant.MessageManager.getMessages at 1.
  rewrite tsv_loop_snoc. simpl.
  fold (TsVariant.MessageManager.getMessages msgs).
  unfold TsVariant.MessageManager.removeLastMessage.
  rewrite bool_decide_eq_true_2.
  - by rewrite removelast_last.
  - rewrite length_app, tsv_getMessages_length. simpl.
    destruct msgs; [done|simpl; lia].
Qed.

(** C4 fails on both code bases. IndexTs: [step] has no rollback, a
    failed model call leaves the appended state message in the history
    (two messages before, three after). TsVariant: on the first step no
    state message is appended, yet the rollback pops a message, and the
    user prompt is gone (two messages before, the system message alone
    after). *)
Theorem step_failure_changes_history :
  length idx_bootstrap = 2%nat /\
  (IndexTs.Agent.step idx_texts idx_llm_fails true idx_bootstrap None).1
    = Thrown (ErrorObject "Failed to generate action") /\
  length (IndexTs.Agent.step idx_texts idx_llm_fails true idx_bootstrap None).2
    = 3%nat /\
  length tsv_bootstrap = 2%nat /\
  (TsVariant.Agent.step tsv_texts tsv_llm_fails tsv_bootstrap 0 None).1
    = Thrown (ErrorObject "Could not parse response") /\
  (TsVariant.Agent.step tsv_texts tsv_llm_fails tsv_bootstrap 0 None).2
    = take 1 tsv_bootstrap.
Proof. repeat split. Qed.

(** ** Streaming runs that hit the timeout *)

Section TsVariantTimeout.
Import TsVariant.Agent.
Context {W : Type} (texts : TsVariant.MessageManager.Texts)
        (outside : Outside W) (options : RunStreamOptions).




End TsVariantTimeout.

Section IndexTsTimeout.
Import IndexTs.Agent.
Context {W : Type} (texts : IndexTs.MessageManager.Texts)
        (outside : Outside W) (options : RunStreamOptions).


End IndexTsTimeout.






(** ** The image utilities *)





(** ** TsVariant: the fusion entry point under the store *)

Section TsVariantFusion.
Import TsVariant.
Implicit Types (s : st) (els : list eref).

Section Passes.
Context {A : Type} (rectOf : A -> Rect) (weightOf : A -> Q) (zIndexOf : A -> Z).

Lemma scanFiltered_sublist (thr : Q) (current : A) (done rest : list A) :
  (scanFiltered rectOf weightOf zIndexOf thr current done rest).2
    `sublist_of` done ++ rest.
Proof.
  revert done. induction rest as [|existing rest IH]; intros done; simpl.
  { by rewrite app_nil_r. }
  destruct (Qltb _ _); [done|].
  destruct (isFullyContained _ _).
  - destruct (_ && _); [done|].
    destruct (Qle_bool _ _).
    + simpl. apply sublist_app; [done|]. by apply sublist_cons.
    + specialize (IH (done ++ [existing])).
      by rewrite <- (assoc_L (++)) in IH.
  - specialize (IH (done ++ [existing])).
    by rewrite <- (assoc_L (++)) in IH.
Qed.

Lemma addStep_sublist (thr : Q) (ff : list A) (current : A) :
  addStep rectOf weightOf zIndexOf thr ff current `sublist_of` ff ++ [current].
Proof.
  unfold addStep.
  pose proof (scanFiltered_sublist thr current [] ff) as H.
  destruct (scanFiltered _ _ _ _ _ _ _) as [shouldAdd fe]. simpl in H.
  destruct shouldAdd.
  - by apply sublist_app.
  - by apply sublist_inserts_r.
Qed.

Lemma foldl_addStep_sublist (thr : Q) (l ff walked : list A) :
  ff `sublist_of` walked ->
  foldl (addStep rectOf weightOf zIndexOf thr) ff l `sublist_of` walked ++ l.
Proof.
  revert ff walked. induction l as [|c l IH]; simpl; intros ff walked Hs.
  { by rewrite app_nil_r. }
  rewrite (cons_middle c walked l), (assoc_L (++)). apply IH.
  etrans; [apply addStep_sublist|]. by apply sublist_app.
Qed.

(** The filter returns part of its input, each occurrence at most once. *)
Lemma TsVariant_filter_submseteq (elements : list A) (thr : Q) :
  filter_result rectOf weightOf zIndexOf elements thr ⊆+ elements.
Proof.
  unfold filter_result. destruct elements as [|e els]; [done|].
  etrans.
  - apply sublist_submseteq, (foldl_addStep_sublist thr _ [] []). done.
  - rewrite app_nil_l. by rewrite Array_sort_Permutation.
Qed.

Lemma foldl_groupStep_concat (l : list A) (rows : list (list A))
    (currentRow : list A) :
  let out := foldl (groupStep rectOf) (rows, currentRow) l in
  concat out.1 ++ out.2 = concat rows ++ currentRow ++ l.
Proof.
  revert rows currentRow. induction l as [|e l IH]; intros rows currentRow.
  { simpl. by rewrite app_nil_r. }
  simpl. unfold groupStep at 2.
  destruct (last currentRow) as [lastElement|] eqn:E.
  - destruct (Qle_bool _ _).
    + rewrite IH. by rewrite <- (assoc_L (++)).
    + rewrite IH. rewrite concat_app. simpl.
      by rewrite app_nil_r, <- !(assoc_L (++)).
  - apply last_None in E as ->. by rewrite IH.
Qed.

(** [sortElementsByPosition] orders the elements it is given: nothing is
    lost or added. *)
Lemma position_order_Permutation (elements : list A) :
  position_order rectOf elements ≡ₚ elements.
Proof.
  unfold position_order.
  pose proof (foldl_groupStep_concat
    (Array_sort (fun a b => y (rectOf a) - y (rectOf b)) elements) [] []) as H.
  destruct (foldl _ _ _) as [rows0 currentRow]. simpl in H.
  etrans; [|apply (Array_sort_Permutation
                     (fun a b => y (rectOf a) - y (rectOf b)) elements)].
  rewrite <- H.
  assert (forall rows : list (list A),
    concat (map (Array_sort (fun a b => x (rectOf a) - x (rectOf b))) rows)
    ≡ₚ concat rows) as Hrows.
  { induction rows as [|r rows IH]; simpl; [done|].
    by rewrite Array_sort_Permutation, IH. }
  rewrite Hrows. destruct currentRow as [|e row].
  - by rewrite app_nil_r.
  - by rewrite concat_app; simpl; rewrite app_nil_r.
Qed.
End Passes.

Lemma write_indices_elems_length s els (i : nat) :
  length (elems (write_indices s els i)) = length (elems s).
Proof.
  revert s i. induction els as [|l els IH]; intros s i; simpl; [done|].
  rewrite IH. simpl. by rewrite length_insert.
Qed.

Lemma write_indices_arrays s els (i : nat) :
  arrays (write_indices s els i) = arrays s.
Proof.
  revert s i. induction els as [|l els IH]; intros s i; simpl; [done|].
  by rewrite IH.
Qed.

Lemma get_elem_set_elem s (l l' : eref) (e : InteractiveElement) :
  get_elem (set_elem s l e) l'
  = if decide (l = l' /\ (l < length (elems s))%nat) then e else get_elem s l'.
Proof.
  unfold get_elem, set_elem. simpl.
  destruct (decide (l = l' /\ (l < length (elems s))%nat)) as [[-> Hl]|Hn].
  - apply list_lookup_total_correct. by apply list_lookup_insert_eq.
  - destruct (decide (l = l')) as [->|Hne].
    + rewrite list_insert_ge; [done|]. lia.
    + by rewrite list_lookup_total_insert_ne.
Qed.

(** The index loop writes nothing but indices. *)
Lemma write_indices_but_index s els (i : nat) (l : eref) :
  tsv_but_index (get_elem (write_indices s els i) l)
  = tsv_but_index (get_elem s l).
Proof.
  revert s i. induction els as [|l0 els IH]; intros s i; simpl; [done|].
  rewrite IH, get_elem_set_elem. by destruct (decide _) as [[-> _]|_].
Qed.

Lemma write_indices_other s els (i : nat) (l : eref) :
  l ∉ els -> get_elem (write_indices s els i) l = get_elem s l.
Proof.
  revert s i. induction els as [|l0 els IH]; intros s i Hl; simpl; [done|].
  apply not_elem_of_cons in Hl as [Hne Hl].
  rewrite IH by done. rewrite get_elem_set_elem.
  destruct (decide _) as [[-> _]|_]; done.
Qed.

(** When no reference occurs twice, every element ends up with its
    position as index. *)
Lemma write_indices_positions s els (i k : nat) (l : eref) :
  NoDup els -> (forall l', l' ∈ els -> (l' < length (elems s))%nat) ->
  els !! k = Some l ->
  index (get_elem (write_indices s els i) l) = Z.of_nat (i + k).
Proof.
  revert s i k. induction els as [|l0 els IH]; intros s i k Hnd Hvalid Hk;
    [done|].
  apply NoDup_cons in Hnd as [Hl0 Hnd]. simpl.
  destruct k as [|k]; simpl in Hk.
  - injection Hk as ->. rewrite write_indices_other by done.
    rewrite get_elem_set_elem, decide_True; [simpl; f_equal; lia|].
    split; [done|]. apply Hvalid. by left.
  - rewrite (IH _ (S i) k); [f_equal; lia|done| |done].
    intros l' Hl'. simpl. rewrite length_insert. apply Hvalid. by right.
Qed.

Lemma TsVariant_sort_result s a :
  get_array (sortElementsByPosition s a).1 (sortElementsByPosition s a).2
  ≡ₚ get_array s a.
Proof.
  unfold sortElementsByPosition. destruct (get_array s a) as [|e els] eqn:E.
  { simpl. by rewrite get_array_alloc. }
  simpl. unfold get_array at 1. rewrite write_indices_arrays. simpl.
  rewrite lookup_at_length. simpl. apply position_order_Permutation.
Qed.

(** The TsVariant entry point keeps the array cells and the number of
    objects, and changes no field of any object but its index. *)
Lemma TsVariant_combine_only_index s browserElements cvElements thr :
  let s' := (combineAndFilterElements s browserElements cvElements thr).1 in
  arrays s `prefix_of` arrays s' /\
  length (elems s') = length (elems s) /\
  forall l, tsv_but_index (get_elem s' l) = tsv_but_index (get_elem s l).
Proof.
  unfold combineAndFilterElements, filterOverlappingElements,
    sortElementsByPosition. simpl.
  rewrite !get_array_alloc.
  destruct (filter_result _ _ _ _ _) as [|e els]; simpl.
  - split; [|done]. rewrite <- !(assoc_L (++)). by apply prefix_app_r.
  - rewrite write_indices_arrays, write_indices_elems_length. simpl.
    split; [|split; [done|]].
    + rewrite <- !(assoc_L (++)). by apply prefix_app_r.
    + intros l. by rewrite write_indices_but_index.
Qed.

(** When no object is handed in twice, the TsVariant entry point does
    assign every returned element its position. *)
Lemma TsVariant_combine_indices_distinct s browserElements cvElements thr
    (k : nat) (l : eref) :
  store_wf s ->
  NoDup (get_array s browserElements ++ get_array s cvElements) ->
  let out := combineAndFilterElements s browserElements cvElements thr in
  get_array out.1 out.2 !! k = Some l ->
  index (get_elem out.1 l) = Z.of_nat k.
Proof.
  intros Hwf Hnd. unfold combineAndFilterElements, filterOverlappingElements.
  simpl. rewrite get_array_alloc.
  set (input := get_array s browserElements ++ get_array s cvElements) in *.
  set (s1 := mkStore (elems s) (arrays s ++ [input])).
  set (filtered := filter_result _ _ _ input thr).
  assert (filtered ⊆+ input) as Hsub by apply TsVariant_filter_submseteq.
  assert (forall l', l' ∈ input -> (l' < length (elems s))%nat) as Hvalid.
  { intros l' [Hl'|Hl']%elem_of_app; unfold get_array in Hl'.
    - destruct (arrays s !! browserElements) as [v|] eqn:E;
        [by eapply Hwf|by apply elem_of_nil in Hl'].
    - destruct (arrays s !! cvElements) as [v|] eqn:E;
        [by eapply Hwf|by apply elem_of_nil in Hl']. }
  unfold sortElementsByPosition. rewrite get_array_alloc.
  destruct filtered as [|e els] eqn:Ef.
  { simpl. by rewrite get_array_alloc, lookup_nil. }
  rewrite <- Ef in *. clear Ef. simpl.
  unfold get_array at 1. rewrite write_indices_arrays. simpl.
  rewrite lookup_at_length. simpl. intros Hk.
  set (rectOf := fun l0 : eref => rect (get_elem _ l0)) in *.
  pose proof (position_order_Permutation rectOf filtered) as Hperm.
  rewrite (write_indices_positions _ _ 0 k l); [done| | |done].
  - rewrite Hperm. by eapply NoDup_submseteq_inv.
  - intros l' Hl'. simpl. apply Hvalid.
    rewrite Hperm in Hl'. by eapply elem_of_submseteq.
Qed.
End TsVariantFusion.

(** ** The claim on the cache marker *)

Lemma tsv_reachable_wf (texts : TsVariant.MessageManager.Texts)
    (h : list TsVariant.Llm.Message) :
  tsv_reachable texts h -> tsv_markers_wf h.
Proof.
  induction 1.
  - intros m Hm. by apply elem_of_nil in Hm.
  - by apply tsv_wf_addSystemMessageAndUserPrompt.
  - by apply tsv_wf_addCurrentStateMessage.
  - by apply tsv_wf_addMessageFromModelOutput.
  - by apply tsv_wf_removeLastMessage.
  - by apply tsv_wf_getMessages.
  - done.
Qed.

Lemma idx_markers_wf_sublist (msgs msgs' : list IndexTs.Llm.Message) :
  msgs' `sublist_of` msgs -> idx_markers_wf msgs -> idx_markers_wf msgs'.
Proof.
  intros Hs Hwf m Hm. apply Hwf. by eapply sublist_subseteq.
Qed.

Lemma idx_reachable_wf (texts : IndexTs.MessageManager.Texts)
    (h : list IndexTs.Llm.Message) :
  idx_reachable texts h -> idx_markers_wf h.
Proof.
  induction 1.
  - intros m Hm. by apply elem_of_nil in Hm.
  - by apply idx_wf_addSystemMessageAndUserPrompt.
  - by apply idx_wf_addCurrentStateMessage.
  - by apply idx_wf_addMessageFromModelOutput.
  - by apply idx_wf_getMessages.
  - eapply idx_markers_wf_sublist; [apply removelast_sublist|done].
  - done.
Qed.



Lemma idx_history_reachable : idx_reachable idx_texts idx_history.
Proof.
  apply idx_reach_state, idx_reach_output, idx_reach_prompt, idx_reach_new.
Defined.




(** ** The claim on the indices *)

Lemma map_by_position {A B : Type} (f : A -> B) (g : nat -> B) (l : list A) :
  (forall k x, l !! k = Some x -> f x = g k) ->
  map f l = map g (seq 0 (length l)).
Proof.
  intros H. apply list_eq. intros k.
  rewrite !list_lookup_fmap.
  destruct (l !! k) as [x|] eqn:E; simpl.
  - rewrite lookup_seq_lt by (by eapply lookup_lt_Some). simpl.
    f_equal. by apply H.
  - rewrite lookup_seq_ge; [done|]. by apply lookup_ge_None.
Qed.

Lemma store_of_inputs_wf {E : Type} (b c : list E) : store_wf (store_of_inputs b c).
Proof.
  intros a v l Ha Hl. simpl in *. rewrite length_app.
  destruct a as [|[|a]]; simpl in Ha; [| |done].
  - injection Ha as <-. apply elem_of_seq in Hl. lia.
  - injection Ha as <-. apply elem_of_seq in Hl. lia.
Qed.

Lemma store_of_inputs_NoDup {E : Type} (b c : list E) :
  NoDup (get_array (store_of_inputs b c) 0%nat
         ++ get_array (store_of_inputs b c) 1%nat).
Proof.
  unfold get_array. simpl. rewrite <- seq_app. apply NoDup_seq.
Qed.

(** C7. Whatever elements the DOM script and the detector deliver, and in
    whatever order, the entry point returns an array whose k-th element
    has index k: read along the array, the indices are 0, 1, ..., n-1. *)
Theorem fusion_indices_are_positions
    (browserElements cvElements : list IndexTs.InteractiveElement)
    (browserElements' cvElements' : list TsVariant.InteractiveElement)
    (iouThreshold : Q) :
  let out :=
    IndexTs.combineAndFilterElements
      (store_of_inputs browserElements cvElements) 0%nat 1%nat iouThreshold in
  let out' :=
    TsVariant.combineAndFilterElements
      (store_of_inputs browserElements' cvElements') 0%nat 1%nat iouThreshold in
  idx_indices out.1 out.2
    = map Z.of_nat (seq 0 (length (get_array out.1 out.2))) /\
  tsv_indices out'.1 out'.2
    = map Z.of_nat (seq 0 (length (get_array out'.1 out'.2))).
Proof.
  intros out out'. split.
  - unfold idx_indices. apply map_by_position. intros k l Hk.
    by apply IndexTs_combine_indices.
  - unfold tsv_indices. apply map_by_position. intros k l Hk.
    apply (TsVariant_combine_indices_distinct _ 0%nat 1%nat iouThreshold);
      [apply store_of_inputs_wf|apply store_of_inputs_NoDup|done].
Qed.

(** * Further properties of the code *)

(** ** Geometry: the range of the IoU, containment *)

(** The overlap of two intervals, once accepted, is no longer than either
    of them. *)
Lemma overlap_bounds (l1 r1 l2 r2 : Q) :
  Qltb (Math_min r1 r2) (Math_max l1 l2) = false ->
  0 <= Math_min r1 r2 - Math_max l1 l2 /\
  Math_min r1 r2 - Math_max l1 l2 <= r1 - l1 /\
  Math_min r1 r2 - Math_max l1 l2 <= r2 - l2.
Proof.
  intros E. apply Qltb_ge in E. revert E.
  destruct (Math_min_spec r1 r2) as [[? ->]|[? ->]],
           (Math_max_spec l1 l2) as [[? ->]|[? ->]]; intros; lra.
Qed.

Lemma ratio_or_zero_range (i u : Q) :
  0 <= i -> i <= u -> 0 <= ratio_or_zero i u /\ ratio_or_zero i u <= 1.
Proof.
  intros Hi Hu. unfold ratio_or_zero. destruct (Qltb 0 u) eqn:E; [|lra].
  apply Qltb_lt in E. split.
  - apply Qle_shift_div_l; [done|lra].
  - apply Qle_shift_div_r; [done|lra].
Qed.

Lemma area_bounds (iw ih w1 h1 w2 h2 : Q) :
  0 <= iw -> iw <= w1 -> iw <= w2 -> 0 <= ih -> ih <= h1 -> ih <= h2 ->
  0 <= iw * ih /\ iw * ih <= w1 * h1 + w2 * h2 - iw * ih.
Proof. intros. split; nra. Qed.

Lemma calculateIou_range (a b : IndexTs.Rect) :
  IndexTs.Rect_inv a -> IndexTs.Rect_inv b ->
  0 <= IndexTs.calculateIou a b /\ IndexTs.calculateIou a b <= 1.
Proof.
  intros (_ & _ & Hwa & Hha) (_ & _ & Hwb & Hhb).
  unfold IndexTs.calculateIou. cbv zeta.
  destruct (Qltb (Math_min (IndexTs.right a) (IndexTs.right b)) _) eqn:E1;
    [simpl; lra|].
  destruct (Qltb (Math_min (IndexTs.bottom a) (IndexTs.bottom b)) _) eqn:E2;
    [simpl; lra|].
  simpl.
  apply overlap_bounds in E1 as (? & ? & ?), E2 as (? & ? & ?).
  destruct (area_bounds
    (Math_min (IndexTs.right a) (IndexTs.right b)
     - Math_max (IndexTs.left a) (IndexTs.left b))
    (Math_min (IndexTs.bottom a) (IndexTs.bottom b)
     - Math_max (IndexTs.top a) (IndexTs.top b))
    (IndexTs.width a) (IndexTs.height a) (IndexTs.width b) (IndexTs.height b))
    as [? ?]; [lra..|].
  by apply ratio_or_zero_range.
Qed.

Lemma calculateIOU_range (a b : TsVariant.Edges) :
  0 <= TsVariant.calculateIOU a b /\ TsVariant.calculateIOU a b <= 1.
Proof.
  unfold TsVariant.calculateIOU. cbv zeta.
  destruct (Qltb (Math_min (TsVariant.right a) (TsVariant.right b)) _) eqn:E1;
    [simpl; lra|].
  destruct (Qltb (Math_min (TsVariant.bottom a) (TsVariant.bottom b)) _) eqn:E2;
    [simpl; lra|].
  simpl.
  apply overlap_bounds in E1 as (? & ? & ?), E2 as (? & ? & ?).
  destruct (area_bounds
    (Math_min (TsVariant.right a) (TsVariant.right b)
     - Math_max (TsVariant.left a) (TsVariant.left b))
    (Math_min (TsVariant.bottom a) (TsVariant.bottom b)
     - Math_max (TsVariant.top a) (TsVariant.top b))
    (TsVariant.right a - TsVariant.left a) (TsVariant.bottom a - TsVariant.top a)
    (TsVariant.right b - TsVariant.left b) (TsVariant.bottom b - TsVariant.top b))
    as [? ?]; [lra..|].
  by apply ratio_or_zero_range.
Qed.

(** X1. The IoU is a number between 0 and 1: for the IndexTs function on
    rectangles that satisfy the [Rect] invariant (its areas are read from
    the [width] and [height] fields), for the TsVariant function on any
    two edge records (its areas are computed from the edges). *)
Theorem iou_between_0_and_1 (a b : IndexTs.Rect) (a' b' : TsVariant.Edges) :
  IndexTs.Rect_inv a -> IndexTs.Rect_inv b ->
  (0 <= IndexTs.calculateIou a b /\ IndexTs.calculateIou a b <= 1) /\
  (0 <= TsVariant.calculateIOU a' b' /\ TsVariant.calculateIOU a' b' <= 1).
Proof.
  intros Ha Hb. split; [by apply calculateIou_range|apply calculateIOU_range].
Qed.

Lemma iou_between_0_and_1_witness :
  let a := IndexTs.mkRect 0 0 10 10 10 10 in
  let b := IndexTs.mkRect 5 0 15 10 10 10 in
  (IndexTs.Rect_inv a /\ IndexTs.Rect_inv b) /\
  0 <= IndexTs.calculateIou a b /\ IndexTs.calculateIou a b <= 1.
Proof.
  intros a b.
  assert (Ha : IndexTs.Rect_inv a) by (unfold IndexTs.Rect_inv; simpl; lra).
  assert (Hb : IndexTs.Rect_inv b) by (unfold IndexTs.Rect_inv; simpl; lra).
  split; [done|].
  exact (proj1 (iou_between_0_and_1 a b (TsVariant.mkEdges 0 0 1 1)
                  (TsVariant.mkEdges 0 0 1 1) Ha Hb)).
Defined.

(** Without the invariant the IndexTs function leaves the range: a
    rectangle whose [width] field understates its extent has an IoU of 2
    with itself. *)
Lemma calculateIou_above_1 :
  IndexTs.calculateIou (IndexTs.mkRect 0 0 10 10 (15 # 2) 10)
                       (IndexTs.mkRect 0 0 10 10 (15 # 2) 10) == 2.
Proof. vm_compute. done. Qed.

Lemma IndexTs_isFullyContained_spec (r1 r2 : IndexTs.Rect) :
  IndexTs.isFullyContained r1 r2 = true <->
  IndexTs.left r2 <= IndexTs.left r1 /\ IndexTs.right r1 <= IndexTs.right r2 /\
  IndexTs.top r2 <= IndexTs.top r1 /\ IndexTs.bottom r1 <= IndexTs.bottom r2.
Proof.
  unfold IndexTs.isFullyContained.
  rewrite !andb_true_iff, !Qle_bool_iff. tauto.
Qed.

Lemma TsVariant_isFullyContained_spec (r1 r2 : TsVariant.Edges) :
  TsVariant.isFullyContained r1 r2 = true <->
  TsVariant.left r2 <= TsVariant.left r1 /\
  TsVariant.right r1 <= TsVariant.right r2 /\
  TsVariant.top r2 <= TsVariant.top r1 /\
  TsVariant.bottom r1 <= TsVariant.bottom r2.
Proof.
  unfold TsVariant.isFullyContained.
  rewrite !andb_true_iff, !Qle_bool_iff. tauto.
Qed.

Lemma Math_max_l (a b : Q) : b <= a -> Math_max a b == a.
Proof. destruct (Math_max_spec a b) as [[? ->]|[? ->]]; lra. Qed.

Lemma Math_min_l (a b : Q) : a <= b -> Math_min a b == a.
Proof. destruct (Math_min_spec a b) as [[? ->]|[? ->]]; lra. Qed.

Lemma calculateIou_contained (r1 r2 : IndexTs.Rect) :
  IndexTs.Rect_inv r1 -> IndexTs.Rect_inv r2 ->
  IndexTs.isFullyContained r1 r2 = true ->
  0 < IndexTs.width r2 * IndexTs.height r2 ->
  IndexTs.calculateIou r1 r2
  == IndexTs.width r1 * IndexTs.height r1
     / (IndexTs.width r2 * IndexTs.height r2).
Proof.
  intros (Hlr1 & Htb1 & Hw1 & Hh1) (Hlr2 & Htb2 & Hw2 & Hh2)
         (Hl & Hr & Ht & Hb)%IndexTs_isFullyContained_spec Hpos.
  unfold IndexTs.calculateIou. cbv zeta.
  pose proof (Math_max_l _ _ Hl) as EL. pose proof (Math_max_l _ _ Ht) as ET.
  pose proof (Math_min_l _ _ Hr) as ER. pose proof (Math_min_l _ _ Hb) as EB.
  rewrite (Qltb_proper _ _ ER _ _ EL), (Qltb_proper _ _ EB _ _ ET).
  destruct (Qltb (IndexTs.right r1) (IndexTs.left r1)) eqn:E1.
  { apply Qltb_lt in E1. lra. }
  destruct (Qltb (IndexTs.bottom r1) (IndexTs.top r1)) eqn:E2.
  { apply Qltb_lt in E2. lra. }
  simpl. rewrite EL, ET, ER, EB, <- Hw1, <- Hh1.
  unfold ratio_or_zero.
  destruct (Qltb 0 _) eqn:E.
  - apply Qltb_lt in E. field. repeat split; nra.
  - apply Qltb_ge in E. lra.
Qed.

Lemma calculateIOU_contained (r1 r2 : TsVariant.Edges) :
  TsVariant.Edges_inv r1 ->
  TsVariant.isFullyContained r1 r2 = true ->
  0 < TsVariant_area r2 ->
  TsVariant.calculateIOU r1 r2 == TsVariant_area r1 / TsVariant_area r2.
Proof.
  intros (Hlr1 & Htb1) (Hl & Hr & Ht & Hb)%TsVariant_isFullyContained_spec Hpos.
  unfold TsVariant.calculateIOU. cbv zeta.
  pose proof (Math_max_l _ _ Hl) as EL. pose proof (Math_max_l _ _ Ht) as ET.
  pose proof (Math_min_l _ _ Hr) as ER. pose proof (Math_min_l _ _ Hb) as EB.
  rewrite (Qltb_proper _ _ ER _ _ EL), (Qltb_proper _ _ EB _ _ ET).
  destruct (Qltb (TsVariant.right r1) (TsVariant.left r1)) eqn:E1.
  { apply Qltb_lt in E1. lra. }
  destruct (Qltb (TsVariant.bottom r1) (TsVariant.top r1)) eqn:E2.
  { apply Qltb_lt in E2. lra. }
  simpl. rewrite EL, ET, ER, EB.
  fold (TsVariant_area r1) (TsVariant_area r2). unfold ratio_or_zero.
  destruct (Qltb 0 _) eqn:E.
  - apply Qltb_lt in E. field. lra.
  - apply Qltb_ge in E. lra.
Qed.

Lemma IndexTs_unionArea_contained (r1 r2 : IndexTs.Rect) :
  IndexTs.Rect_inv r1 ->
  IndexTs.isFullyContained r1 r2 = true ->
  IndexTs_unionArea r1 r2 == IndexTs.width r2 * IndexTs.height r2.
Proof.
  intros (Hlr1 & Htb1 & Hw1 & Hh1)
         (Hl & Hr & Ht & Hb)%IndexTs_isFullyContained_spec.
  unfold IndexTs_unionArea.
  rewrite (Math_max_l _ _ Hl), (Math_max_l _ _ Ht), (Math_min_l _ _ Hr),
    (Math_min_l _ _ Hb), <- Hw1, <- Hh1.
  ring.
Qed.

Lemma TsVariant_unionArea_contained (r1 r2 : TsVariant.Edges) :
  TsVariant.isFullyContained r1 r2 = true ->
  TsVariant_unionArea r1 r2 == TsVariant_area r2.
Proof.
  intros (Hl & Hr & Ht & Hb)%TsVariant_isFullyContained_spec.
  unfold TsVariant_unionArea.
  rewrite (Math_max_l _ _ Hl), (Math_max_l _ _ Ht), (Math_min_l _ _ Hr),
    (Math_min_l _ _ Hb).
  unfold TsVariant_area. ring.
Qed.

(** X2. Containment and IoU agree. [isFullyContained] is reflexive and
    transitive, and when one rectangle lies fully inside another of
    positive area, both with coordinates where the doubles compute the
    areas exactly ([js_exact]: multiples of 1/64 of magnitude at most
    2^18), their IoU is the quotient of the two areas: the inner
    rectangle is the whole intersection, the union area the code
    computes is the area of the outer one, and both areas are multiples
    of 1/4096 below 2^53/4096, which the doubles hold exactly. The code
    returns this quotient as the double division rounds it. *)
Theorem contained_iou_is_area_ratio (r1 r2 r3 : IndexTs.Rect)
    (e1 e2 e3 : TsVariant.Edges) :
  IndexTs.Rect_inv r1 -> IndexTs.Rect_inv r2 -> TsVariant.Edges_inv e1 ->
  ( IndexTs.isFullyContained r1 r1 = true /\
    (IndexTs.isFullyContained r1 r2 = true ->
     IndexTs.isFullyContained r2 r3 = true ->
     IndexTs.isFullyContained r1 r3 = true) /\
    (IndexTs_exact r1 -> IndexTs_exact r2 ->
     IndexTs.isFullyContained r1 r2 = true ->
     0 < IndexTs.width r2 * IndexTs.height r2 ->
     IndexTs.calculateIou r1 r2
     == IndexTs.width r1 * IndexTs.height r1
        / (IndexTs.width r2 * IndexTs.height r2) /\
     IndexTs_unionArea r1 r2 == IndexTs.width r2 * IndexTs.height r2 /\
     on_grid 4096 (2 ^ 50) (IndexTs.width r1 * IndexTs.height r1) /\
     on_grid 4096 (2 ^ 50) (IndexTs.width r2 * IndexTs.height r2)) ) /\
  ( TsVariant.isFullyContained e1 e1 = true /\
    (TsVariant.isFullyContained e1 e2 = true ->
     TsVariant.isFullyContained e2 e3 = true ->
     TsVariant.isFullyContained e1 e3 = true) /\
    (TsVariant_exact e1 -> TsVariant_exact e2 ->
     TsVariant.isFullyContained e1 e2 = true ->
     0 < TsVariant_area e2 ->
     TsVariant.calculateIOU e1 e2 == TsVariant_area e1 / TsVariant_area e2 /\
     TsVariant_unionArea e1 e2 == TsVariant_area e2 /\
     on_grid 4096 (2 ^ 50) (TsVariant_area e1) /\
     on_grid 4096 (2 ^ 50) (TsVariant_area e2)) ).
Proof.
  intros Hr1 Hr2 He1. split; (split; [|split]).
  - apply IndexTs_isFullyContained_spec. repeat split; lra.
  - rewrite !IndexTs_isFullyContained_spec. intros; repeat split; lra.
  - intros Hx1 Hx2 Hin Hpos. split; [by apply calculateIou_contained|].
    split; [by apply IndexTs_unionArea_contained|].
    destruct (calculateIou_operands_exact r1 r2 Hr1 Hr2 Hx1 Hx2)
      as (H1 & H2 & _). by split.
  - apply TsVariant_isFullyContained_spec. repeat split; lra.
  - rewrite !TsVariant_isFullyContained_spec. intros; repeat split; lra.
  - intros Hx1 Hx2 Hin Hpos. split; [by apply calculateIOU_contained|].
    split; [by apply TsVariant_unionArea_contained|].
    destruct (calculateIOU_operands_exact e1 e2 Hx1 Hx2) as (H1 & H2 & _).
    by split.
Qed.

Lemma contained_iou_is_area_ratio_witness :
  let inner := IndexTs.mkRect 2 2 7 6 5 4 in
  let outer := IndexTs.mkRect 0 0 10 10 10 10 in
  let inner' := TsVariant.mkEdges 2 2 7 6 in
  let outer' := TsVariant.mkEdges 0 0 10 10 in
  IndexTs.isFullyContained inner outer = true /\
  IndexTs.calculateIou inner outer == 1 # 5 /\
  TsVariant.calculateIOU inner' outer' == 1 # 5.
Proof.
  intros inner outer inner' outer'.
  assert (Hi : IndexTs.Rect_inv inner) by (unfold IndexTs.Rect_inv; simpl; lra).
  assert (Ho : IndexTs.Rect_inv outer) by (unfold IndexTs.Rect_inv; simpl; lra).
  assert (Hi' : TsVariant.Edges_inv inner')
    by (unfold TsVariant.Edges_inv; simpl; lra).
  destruct (contained_iou_is_area_ratio inner outer outer inner' outer' outer'
              Hi Ho Hi') as [(_ & _ & H) (_ & _ & H')].
  split; [reflexivity|]. split.
  - destruct H as [-> _]; [by repeat split..|reflexivity|simpl; lra|].
    reflexivity.
  - destruct H' as [-> _];
      [by repeat split..|reflexivity|unfold TsVariant_area; simpl; lra|].
    reflexivity.
Defined.

(** ** The overlap filters: what they return *)

Lemma ordered_lookup {A : Type} (R : A -> A -> Prop) (l : list A)
    (i j : nat) (a b : A) :
  ordered R l -> (i < j)%nat -> l !! i = Some a -> l !! j = Some b -> R a b.
Proof.
  revert i j. induction l as [|x l IH]; intros i j; [by rewrite lookup_nil|].
  simpl. intros [Hx Hl] Hij Hi Hj.
  destruct j as [|j]; [lia|]. simpl in Hj. destruct i as [|i]; simpl in Hi.
  - injection Hi as ->. eapply Forall_forall in Hx; [done|].
    by eapply list_elem_of_lookup_2.
  - apply (IH i j); [done|lia|done..].
Qed.

Lemma ordered_impl {A : Type} (R R' : A -> A -> Prop) (l : list A) :
  (forall a b, R a b -> R' a b) -> ordered R l -> ordered R' l.
Proof.
  intros HR. induction l as [|x l IH]; simpl; [done|].
  intros [Hx Hl]. split; [|by apply IH].
  eapply Forall_impl; [exact Hx|]. intros b. apply HR.
Qed.

Section IndexTsFilterMore.
Import IndexTs.
Context {A : Type} (rectOf : A -> Rect) (weightOf : A -> Q).
Context (iouThreshold : Q).

(** A scan that reports an overlap stopped at an element it left in the
    list. *)
Lemma scanKept_overlap_nonempty (current : A) (n : nat) (ff ff' : list A) :
  scanKept rectOf iouThreshold current n ff = (true, ff') -> ff' <> [].
Proof.
  revert ff. induction n as [|i IH]; intros ff; simpl; [done|].
  destruct (ff !! i) as [existing|] eqn:Ei; [|apply IH].
  destruct (Qltb _ _).
  { intros [= <-] ->. by rewrite lookup_nil in Ei. }
  destruct (isFullyContained (rectOf current) _).
  { intros [= <-] ->. by rewrite lookup_nil in Ei. }
  destruct (isFullyContained _ _); apply IH.
Qed.

Lemma keepStep_nonempty (ff : list A) (current : A) :
  keepStep rectOf iouThreshold ff current <> [].
Proof.
  unfold keepStep.
  destruct (scanKept _ _ _ _ _) as [[] ff'] eqn:E.
  - by eapply scanKept_overlap_nonempty.
  - by destruct ff'.
Qed.

Lemma foldl_keepStep_nonempty (l ff : list A) :
  l <> [] -> foldl (keepStep rectOf iouThreshold) ff l <> [].
Proof.
  revert ff. induction l as [|c l IH]; intros ff Hl; [done|]. simpl.
  destruct l as [|c' l]; [apply keepStep_nonempty|by apply IH].
Qed.

Lemma filter_result_empty (elements : list A) :
  filter_result rectOf weightOf elements iouThreshold = [] <-> elements = [].
Proof.
  split; [|by intros ->].
  destruct elements as [|e els]; [done|]. unfold filter_result. intros H.
  exfalso. revert H. apply foldl_keepStep_nonempty. unfold filter_sorted.
  intros H. apply (f_equal length) in H.
  by rewrite Array_sort_length in H.
Qed.

Lemma filter_result_quiet (elements : list A) :
  ordered (IndexTs_quiet rectOf iouThreshold)
          (filter_result rectOf weightOf elements iouThreshold).
Proof.
  unfold filter_result. destruct elements; [done|].
  by apply foldl_keepStep_quiet.
Qed.

Lemma filter_result_by_priority (elements : list A) :
  ordered (cmp_le (priority_cmp rectOf weightOf))
          (filter_result rectOf weightOf elements iouThreshold).
Proof.
  eapply ordered_sublist; [apply filter_result_sublist|].
  apply Array_sort_in_order, priority_cmp_consistent.
Qed.
End IndexTsFilterMore.

(** X3. No two elements the IndexTs filter returns are in conflict: for
    any two of them the IoU is at most the threshold and neither
    rectangle lies fully inside the other. *)
Theorem IndexTs_filter_pairwise_apart
    (elements : list IndexTs.InteractiveElement) (iouThreshold : Q)
    (i j : nat) (a b : IndexTs.InteractiveElement) :
  let out := IndexTs.filterOverlappingElements_pure elements iouThreshold in
  (i < j)%nat -> out !! i = Some a -> out !! j = Some b ->
  IndexTs.calculateIou (IndexTs.rect b) (IndexTs.rect a) <= iouThreshold /\
  IndexTs.calculateIou (IndexTs.rect a) (IndexTs.rect b) <= iouThreshold /\
  IndexTs.isFullyContained (IndexTs.rect b) (IndexTs.rect a) = false /\
  IndexTs.isFullyContained (IndexTs.rect a) (IndexTs.rect b) = false.
Proof.
  intros out Hij Hi Hj.
  destruct (ordered_lookup _ _ _ _ _ _
              (filter_result_quiet IndexTs.rect IndexTs.weight iouThreshold
                 elements) Hij Hi Hj) as (Hiou & Hba & Hab).
  apply Qltb_ge in Hiou. repeat split; [done| |done..].
  by rewrite calculateIou_sym.
Qed.

Lemma IndexTs_filter_pairwise_apart_witness :
  let a := idx_element 0 0 100 100 0 in
  let b := idx_element 50 50 150 150 0 in
  let c := idx_element 10 10 40 40 0 in
  IndexTs.filterOverlappingElements_pure [c; a; b] (7 # 10) = [a; b] /\
  IndexTs.calculateIou (IndexTs.rect b) (IndexTs.rect a) <= 7 # 10 /\
  IndexTs.isFullyContained (IndexTs.rect b) (IndexTs.rect a) = false.
Proof.
  intros a b c. split; [vm_compute; reflexivity|].
  destruct (IndexTs_filter_pairwise_apart [c; a; b] (7 # 10) 0 1 a b)
    as (H1 & _ & H2 & _); [lia|vm_compute; reflexivity..|].
  by split.
Defined.

(** X4. The IndexTs filter returns a sub-sequence of its input sorted by
    priority: every returned element is an input element, the returned
    areas never increase along the list, and the list is empty only
    when the input is. *)
Theorem IndexTs_filter_subsequence
    (elements : list IndexTs.InteractiveElement) (iouThreshold : Q) :
  let area e := IndexTs.width (IndexTs.rect e) * IndexTs.height (IndexTs.rect e) in
  let out := IndexTs.filterOverlappingElements_pure elements iouThreshold in
  out `sublist_of`
    Array_sort (IndexTs.priority_cmp IndexTs.rect IndexTs.weight) elements /\
  out ⊆+ elements /\
  ordered (fun a b => area b <= area a) out /\
  (out = [] <-> elements = []).
Proof.
  intros area out. split; [apply filter_result_sublist|]. split; [|split].
  - etrans; [apply sublist_submseteq, filter_result_sublist|].
    unfold IndexTs.filter_sorted. by rewrite Array_sort_Permutation.
  - eapply ordered_impl; [|apply filter_result_by_priority].
    intros a b [H|[H _]]%priority_cmp_le; unfold area; lra.
  - apply filter_result_empty.
Qed.

Section TsVariantFilterMore.
Import TsVariant.
Context {A : Type} (rectOf : A -> Rect) (weightOf : A -> Q) (zIndexOf : A -> Z).
Context (iouThreshold : Q).

(** A scan that says not to add [current] stopped at an element it left
    in the list. *)
Lemma scanFiltered_reject_nonempty (current : A) (seen rest fe : list A) :
  scanFiltered rectOf weightOf zIndexOf iouThreshold current seen rest
    = (false, fe) -> fe <> [].
Proof.
  revert seen. induction rest as [|existing rest IH]; intros seen; simpl;
    [done|].
  destruct (Qltb _ _).
  { intros [= <-]. by destruct seen. }
  destruct (isFullyContained _ _); [|apply IH].
  destruct (_ && _).
  { intros [= <-]. by destruct seen. }
  destruct (Qle_bool _ _); [done|apply IH].
Qed.

Lemma addStep_nonempty (ff : list A) (current : A) :
  addStep rectOf weightOf zIndexOf iouThreshold ff current <> [].
Proof.
  unfold addStep.
  destruct (scanFiltered _ _ _ _ _ _ _) as [[] fe] eqn:E.
  - by destruct fe.
  - by eapply scanFiltered_reject_nonempty.
Qed.

Lemma foldl_addStep_nonempty (l ff : list A) :
  l <> [] -> foldl (addStep rectOf weightOf zIndexOf iouThreshold) ff l <> [].
Proof.
  revert ff. induction l as [|c l IH]; intros ff Hl; [done|]. simpl.
  destruct l as [|c' l]; [apply addStep_nonempty|by apply IH].
Qed.

Lemma TsVariant_filter_result_empty (elements : list A) :
  filter_result rectOf weightOf zIndexOf elements iouThreshold = []
  <-> elements = [].
Proof.
  split; [|by intros ->].
  destruct elements as [|e els]; [done|]. unfold filter_result. intros H.
  exfalso. revert H. apply foldl_addStep_nonempty.
  intros H. apply (f_equal length) in H.
  by rewrite Array_sort_length in H.
Qed.

Lemma TsVariant_filter_result_sublist (elements : list A) :
  filter_result rectOf weightOf zIndexOf elements iouThreshold
    `sublist_of` Array_sort (priority_cmp rectOf weightOf) elements.
Proof.
  unfold filter_result. destruct elements as [|e els]; [apply sublist_nil_l|].
  by apply (foldl_addStep_sublist _ _ _ iouThreshold _ [] []).
Qed.
End TsVariantFilterMore.

(** X5. The TsVariant filter returns a sub-sequence of a copy of its
    input sorted by priority: every returned element is an input
    element, none is returned more often than it was handed in, and
    the list is empty only when the input is. *)
Theorem TsVariant_filter_subsequence
    (elements : list TsVariant.InteractiveElement) (iouThreshold : Q) :
  let out := TsVariant.filterOverlappingElements_pure elements iouThreshold in
  out `sublist_of`
    Array_sort (TsVariant.priority_cmp TsVariant.rect TsVariant.weight)
               elements /\
  out ⊆+ elements /\
  (length out <= length elements)%nat /\
  (out = [] <-> elements = []).
Proof.
  intros out. split; [apply TsVariant_filter_result_sublist|].
  split; [apply TsVariant_filter_submseteq|].
  split; [apply submseteq_length, TsVariant_filter_submseteq|].
  apply TsVariant_filter_result_empty.
Qed.

(** ** The fusion passes on values and under the store *)

Section SortMap.
Context {A B : Type} (h : B -> A) (cmp : A -> A -> Q).

Lemma sort_insert_map (b : B) (l : list B) :
  map h (sort_insert (fun x y => cmp (h x) (h y)) b l)
  = sort_insert cmp (h b) (map h l).
Proof.
  induction l as [|b' l IH]; simpl; [done|].
  destruct (Qltb 0 (cmp (h b) (h b'))); simpl; [by rewrite IH|done].
Qed.

(** Sorting commutes with reading the elements through [h]. *)
Lemma Array_sort_map (l : list B) :
  map h (Array_sort (fun x y => cmp (h x) (h y)) l) = Array_sort cmp (map h l).
Proof.
  induction l as [|b l IH]; [done|].
  change (map h (sort_insert (fun x y => cmp (h x) (h y)) b
                   (Array_sort (fun x y => cmp (h x) (h y)) l))
          = sort_insert cmp (h b) (Array_sort cmp (map h l))).
  by rewrite sort_insert_map, IH.
Qed.
End SortMap.

Section IndexTsPassesMap.
Import IndexTs.
Context {A B : Type} (h : B -> A) (rectOf : A -> Rect) (weightOf : A -> Q).
Context (thr : Q).

Lemma scanKept_map (c : B) (n : nat) (ff : list B) :
  scanKept rectOf thr (h c) n (map h ff)
  = ((scanKept (fun b => rectOf (h b)) thr c n ff).1,
     map h (scanKept (fun b => rectOf (h b)) thr c n ff).2).
Proof.
  revert ff. induction n as [|i IH]; intros ff; simpl; [done|].
  rewrite list_lookup_fmap.
  destruct (ff !! i) as [existing|]; simpl; [|apply IH].
  destruct (Qltb _ _); [done|].
  destruct (isFullyContained (rectOf (h c)) _); [done|].
  destruct (isFullyContained _ _); [|apply IH].
  rewrite <- list_fmap_delete. apply IH.
Qed.

Lemma keepStep_map (ff : list B) (c : B) :
  map h (keepStep (fun b => rectOf (h b)) thr ff c)
  = keepStep rectOf thr (map h ff) (h c).
Proof.
  unfold keepStep. rewrite length_map, scanKept_map.
  destruct (scanKept _ _ _ _ _) as [[] ff']; simpl; [done|].
  by rewrite map_app.
Qed.

Lemma foldl_keepStep_map (l ff : list B) :
  map h (foldl (keepStep (fun b => rectOf (h b)) thr) ff l)
  = foldl (keepStep rectOf thr) (map h ff) (map h l).
Proof.
  revert ff. induction l as [|c l IH]; intros ff; simpl; [done|].
  by rewrite IH, keepStep_map.
Qed.

(** The filter commutes with reading the elements through [h]. *)
Lemma filter_result_map (l : list B) :
  map h (filter_result (fun b => rectOf (h b)) (fun b => weightOf (h b)) l thr)
  = filter_result rectOf weightOf (map h l) thr.
Proof.
  assert (map h (filter_sorted (fun b => rectOf (h b))
                               (fun b => weightOf (h b)) l)
          = filter_sorted rectOf weightOf (map h l)) as Hs
    by apply (Array_sort_map h (priority_cmp rectOf weightOf)).
  unfold filter_result. destruct l as [|b l]; [done|].
  by rewrite foldl_keepStep_map, Hs.
Qed.
End IndexTsPassesMap.

Section IndexTsStoreValues.
Import IndexTs.
Implicit Types (s : st) (els : list eref).

Lemma IndexTs_filter_elems s a thr :
  elems (filterOverlappingElements s a thr).1 = elems s.
Proof.
  unfold filterOverlappingElements. by destruct (get_array s a).
Qed.

Lemma IndexTs_filter_array s a thr :
  get_array (filterOverlappingElements s a thr).1
            (filterOverlappingElements s a thr).2
  = filter_result (fun l => rect (get_elem s l))
                  (fun l => weight (get_elem s l)) (get_array s a) thr.
Proof.
  unfold filterOverlappingElements.
  destruct (get_array s a) as [|e els].
  - simpl. by rewrite get_array_alloc.
  - simpl. by rewrite get_array_alloc.
Qed.

(** Under the store the filter returns the elements the filter on values
    returns. *)
Lemma IndexTs_filter_elements s a thr :
  elements_of (filterOverlappingElements s a thr).1
              (filterOverlappingElements s a thr).2
  = filterOverlappingElements_pure (elements_of s a) thr.
Proof.
  unfold elements_of. rewrite IndexTs_filter_array.
  unfold get_elem. rewrite IndexTs_filter_elems.
  apply (filter_result_map (get_elem s) rect weight).
Qed.

Lemma map_reindex_elements s els (i : nat) :
  Forall (fun l => (l < length (elems s))%nat) els ->
  map (get_elem (map_reindex s els i).1) (map_reindex s els i).2
  = imap (fun k l => set_index (get_elem s l) (Z.of_nat (i + k))) els.
Proof.
  revert s i. induction els as [|l0 els IH]; intros s i Hvalid; [done|].
  apply Forall_cons in Hvalid as [Hl0 Hvalid]. simpl.
  pose proof (map_reindex_spec
    (mkStore (elems s ++ [set_index (get_elem s l0) (Z.of_nat i)]) (arrays s))
    els (S i)) as [Hext _].
  specialize (IH
    (mkStore (elems s ++ [set_index (get_elem s l0) (Z.of_nat i)]) (arrays s))
    (S i)).
  destruct (map_reindex _ els (S i)) as [s2 r]. simpl in *.
  f_equal.
  - erewrite extends_get_elem; [|exact Hext|simpl; rewrite length_app; simpl; lia].
    unfold get_elem. simpl.
    rewrite (list_lookup_total_middle (elems s) []) by done.
    by rewrite Nat.add_0_r.
  - rewrite IH.
    + apply imap_ext. intros k l Hk. simpl.
      assert (l < length (elems s))%nat as Hl.
      { eapply Forall_forall in Hvalid; [done|]. by eapply list_elem_of_lookup_2. }
      unfold get_elem. simpl. rewrite lookup_total_app_l by done.
      f_equal. lia.
    + eapply Forall_impl; [exact Hvalid|]. intros l Hl. simpl in *.
      rewrite length_app. simpl. lia.
Qed.

(** Under the store the position sort returns the elements the sort on
    values returns, as long as the array holds no dangling reference. *)
Lemma IndexTs_sort_elements s a :
  Forall (fun l => (l < length (elems s))%nat) (get_array s a) ->
  elements_of (sortElementsByPosition s a).1 (sortElementsByPosition s a).2
  = sortElementsByPosition_pure (elements_of s a).
Proof.
  intros Hvalid. unfold elements_of, sortElementsByPosition.
  destruct (get_array s a) as [|e els] eqn:E.
  { simpl. by rewrite get_array_alloc. }
  set (sorted := Array_sort (position_cmp (fun l => rect (get_elem s l)))
                            (e :: els)).
  pose proof (map_reindex_elements (set_array s a sorted) sorted 0) as H.
  destruct (map_reindex _ sorted 0) as [s2 r]. simpl in H. simpl.
  rewrite get_array_alloc.
  change (map (get_elem s2) r = sortElementsByPosition_pure
                                  (map (get_elem s) (e :: els))).
  rewrite H.
  - unfold sortElementsByPosition_pure. simpl map.
    change (get_elem s e :: map (get_elem s) els)
      with (map (get_elem s) (e :: els)).
    rewrite <- (Array_sort_map (get_elem s) (position_cmp rect)).
    by rewrite imap_fmap.
  - unfold sorted. eapply Forall_forall. intros l Hl.
    rewrite Array_sort_Permutation in Hl.
    eapply Forall_forall in Hvalid; done.
Qed.

Lemma store_of_inputs_elements {E : Type} `{!Inhabited E} (b c : list E) :
  elements_of (store_of_inputs b c) 0%nat = b /\
  elements_of (store_of_inputs b c) 1%nat = c.
Proof.
  unfold elements_of, get_array, get_elem. simpl. split.
  - apply list_eq. intros k. rewrite list_lookup_fmap.
    destruct (decide (k < length b)%nat) as [Hk|Hk].
    + rewrite lookup_seq_lt by done. simpl.
      destruct (lookup_lt_is_Some_2 b k Hk) as [x Hx]. rewrite Hx. f_equal.
      apply list_lookup_total_correct. by apply lookup_app_l_Some.
    + rewrite lookup_seq_ge by lia. symmetry. apply lookup_ge_None. lia.
  - apply list_eq. intros k. rewrite list_lookup_fmap.
    destruct (decide (k < length c)%nat) as [Hk|Hk].
    + rewrite lookup_seq_lt by done. simpl.
      destruct (lookup_lt_is_Some_2 c k Hk) as [x Hx]. rewrite Hx. f_equal.
      apply list_lookup_total_correct. rewrite lookup_app_r by lia.
      by replace (length b + k - length b)%nat with k by lia.
    + rewrite lookup_seq_ge by lia. symmetry. apply lookup_ge_None. lia.
Qed.

(** The entry point under the store, on arrays of distinct objects,
    returns the elements the entry point on values returns. *)
Lemma IndexTs_combine_elements (browserElements cvElements : list InteractiveElement)
    (thr : Q) :
  let out := combineAndFilterElements
               (store_of_inputs browserElements cvElements) 0%nat 1%nat thr in
  elements_of out.1 out.2
  = combineAndFilterElements_pure browserElements cvElements thr.
Proof.
  intros out. unfold out. clear out.
  set (s := store_of_inputs browserElements cvElements).
  destruct (store_of_inputs_elements browserElements cvElements) as [Hb Hc].
  fold s in Hb, Hc.
  set (all := get_array s 0%nat ++ get_array s 1%nat).
  set (s1 := mkStore (elems s) (arrays s ++ [all])).
  set (f := filterOverlappingElements s1 (length (arrays s)) thr).
  assert (combineAndFilterElements s 0%nat 1%nat thr
          = sortElementsByPosition f.1 f.2) as ->.
  { unfold combineAndFilterElements. fold all.
    change (alloc_array s all) with (s1, length (arrays s)).
    cbv beta iota. fold f. by destruct f. }
  pose proof (IndexTs_filter_elements s1 (length (arrays s)) thr) as Hf.
  pose proof (IndexTs_filter_elems s1 (length (arrays s)) thr) as He.
  pose proof (IndexTs_filter_array s1 (length (arrays s)) thr) as Ha.
  fold f in Hf, He, Ha.
  rewrite IndexTs_sort_elements.
  - rewrite Hf. unfold combineAndFilterElements_pure. do 2 f_equal.
    unfold elements_of. unfold s1 at 2. rewrite get_array_alloc.
    unfold all. rewrite map_app. by rewrite <- Hb, <- Hc.
  - rewrite Ha, He. eapply Forall_forall. intros l Hl.
    eapply elem_of_submseteq in Hl;
      [|etrans; [apply sublist_submseteq, filter_result_sublist|];
        unfold filter_sorted; by rewrite Array_sort_Permutation].
    unfold s1 in Hl. rewrite get_array_alloc in Hl.
    pose proof (store_of_inputs_wf browserElements cvElements) as Hwf.
    apply elem_of_app in Hl as [Hl|Hl]; unfold get_array in Hl.
    + by eapply (Hwf 0%nat).
    + by eapply (Hwf 1%nat).
Qed.
End IndexTsStoreValues.

Section TsVariantPassesMap.
Import TsVariant.
Context {A B : Type} (h : B -> A).
Context (rectOf : A -> Rect) (weightOf : A -> Q) (zIndexOf : A -> Z).
Context (thr : Q).

Lemma scanFiltered_map (c : B) (seen rest : list B) :
  scanFiltered rectOf weightOf zIndexOf thr (h c) (map h seen) (map h rest)
  = ((scanFiltered (fun b => rectOf (h b)) (fun b => weightOf (h b))
        (fun b => zIndexOf (h b)) thr c seen rest).1,
     map h (scanFiltered (fun b => rectOf (h b)) (fun b => weightOf (h b))
              (fun b => zIndexOf (h b)) thr c seen rest).2).
Proof.
  revert seen. induction rest as [|existing rest IH]; intros seen; simpl;
    [done|].
  destruct (Qltb _ _); simpl.
  { by rewrite map_app. }
  destruct (isFullyContained _ _).
  - destruct (_ && _); simpl.
    { by rewrite map_app. }
    destruct (Qle_bool _ _); simpl.
    + by rewrite map_app.
    + specialize (IH (seen ++ [existing])). by rewrite map_app in IH.
  - specialize (IH (seen ++ [existing])). by rewrite map_app in IH.
Qed.

Lemma addStep_map (ff : list B) (c : B) :
  map h (addStep (fun b => rectOf (h b)) (fun b => weightOf (h b))
           (fun b => zIndexOf (h b)) thr ff c)
  = addStep rectOf weightOf zIndexOf thr (map h ff) (h c).
Proof.
  unfold addStep.
  pose proof (scanFiltered_map c [] ff) as H. simpl in H. rewrite H. clear H.
  destruct (scanFiltered _ _ _ _ _ _ _) as [[] fe]; simpl; [|done].
  by rewrite map_app.
Qed.

Lemma foldl_addStep_map (l ff : list B) :
  map h (foldl (addStep (fun b => rectOf (h b)) (fun b => weightOf (h b))
                  (fun b => zIndexOf (h b)) thr) ff l)
  = foldl (addStep rectOf weightOf zIndexOf thr) (map h ff) (map h l).
Proof.
  revert ff. induction l as [|c l IH]; intros ff; simpl; [done|].
  by rewrite IH, addStep_map.
Qed.

(** The filter commutes with reading the elements through [h]. *)
Lemma TsVariant_filter_result_map (l : list B) :
  map h (filter_result (fun b => rectOf (h b)) (fun b => weightOf (h b))
           (fun b => zIndexOf (h b)) l thr)
  = filter_result rectOf weightOf zIndexOf (map h l) thr.
Proof.
  assert (map h (Array_sort (priority_cmp (fun b => rectOf (h b))
                                           (fun b => weightOf (h b))) l)
          = Array_sort (priority_cmp rectOf weightOf) (map h l)) as Hs
    by apply (Array_sort_map h (priority_cmp rectOf weightOf)).
  unfold filter_result. destruct l as [|b l]; [done|].
  cbv zeta. by rewrite foldl_addStep_map, Hs.
Qed.

Lemma groupStep_map (rows : list (list B)) (currentRow : list B) (e : B) :
  let out := groupStep (fun b => rectOf (h b)) (rows, currentRow) e in
  groupStep rectOf (map (map h) rows, map h currentRow) (h e)
  = (map (map h) out.1, map h out.2).
Proof.
  unfold groupStep. rewrite fmap_last.
  destruct (last currentRow) as [lastElement|]; simpl; [|done].
  destruct (Qle_bool _ _); simpl; by rewrite !map_app.
Qed.

Lemma foldl_groupStep_map (l : list B) (rows : list (list B))
    (currentRow : list B) :
  let out := foldl (groupStep (fun b => rectOf (h b))) (rows, currentRow) l in
  foldl (groupStep rectOf) (map (map h) rows, map h currentRow) (map h l)
  = (map (map h) out.1, map h out.2).
Proof.
  revert rows currentRow. induction l as [|e l IH]; intros rows currentRow;
    [done|].
  cbn [map foldl]. rewrite groupStep_map.
  destruct (groupStep _ (rows, currentRow) e) as [rows' row']. apply IH.
Qed.

(** The position order commutes with reading the elements through [h]. *)
Lemma position_order_map (l : list B) :
  map h (position_order (fun b => rectOf (h b)) l)
  = position_order rectOf (map h l).
Proof.
  unfold position_order.
  rewrite <- (Array_sort_map h (fun a b => y (rectOf a) - y (rectOf b))).
  pose proof (foldl_groupStep_map
    (Array_sort (fun a b => y (rectOf (h a)) - y (rectOf (h b))) l) [] [])
    as H. simpl in H. rewrite H. clear H.
  destruct (foldl _ _ _) as [rows0 currentRow]. simpl.
  rewrite concat_map. f_equal.
  assert (forall rows : list (list B),
    map (map h) (map (Array_sort (fun a b => x (rectOf (h a)) - x (rectOf (h b))))
                     rows)
    = map (Array_sort (fun a b => x (rectOf a) - x (rectOf b)))
          (map (map h) rows)) as Hrows.
  { intros rows. rewrite !map_map. apply map_ext. intros row.
    apply (Array_sort_map h (fun a b => x (rectOf a) - x (rectOf b))). }
  rewrite Hrows. f_equal.
  destruct currentRow; simpl; [done|]. by rewrite map_app.
Qed.
End TsVariantPassesMap.

Section TsVariantStoreValues.
Import TsVariant.
Implicit Types (s : st) (els : list eref).

Lemma tsv_set_index_eq (e e' : InteractiveElement) (n : Z) :
  tsv_but_index e' = tsv_but_index e -> index e' = n -> e' = set_index e n.
Proof.
  destruct e, e'. unfold tsv_but_index, set_index. simpl.
  intros [= -> -> -> -> -> -> -> -> -> -> ->] ->. done.
Qed.

Lemma write_indices_elements s els (i : nat) :
  NoDup els -> (forall l, l ∈ els -> (l < length (elems s))%nat) ->
  map (get_elem (write_indices s els i)) els
  = imap (fun k l => set_index (get_elem s l) (Z.of_nat (i + k))) els.
Proof.
  intros Hnd Hvalid. apply list_eq. intros k.
  rewrite list_lookup_fmap, list_lookup_imap.
  destruct (els !! k) as [l|] eqn:Hk; simpl; [|done]. f_equal.
  apply tsv_set_index_eq.
  - apply write_indices_but_index.
  - by apply write_indices_positions.
Qed.

Lemma TsVariant_filter_elements s a thr :
  elements_of (filterOverlappingElements s a thr).1
              (filterOverlappingElements s a thr).2
  = filterOverlappingElements_pure (elements_of s a) thr.
Proof.
  unfold elements_of, filterOverlappingElements. simpl.
  rewrite get_array_alloc.
  apply (TsVariant_filter_result_map (get_elem s) rect weight zIndex).
Qed.

(** Under the store the position sort returns the elements the sort on
    values returns, as long as the array holds every object once and no
    dangling reference. *)
Lemma TsVariant_sort_elements s a :
  NoDup (get_array s a) ->
  (forall l, l ∈ get_array s a -> (l < length (elems s))%nat) ->
  elements_of (sortElementsByPosition s a).1 (sortElementsByPosition s a).2
  = sortElementsByPosition_pure (elements_of s a).
Proof.
  intros Hnd Hvalid. unfold elements_of, sortElementsByPosition.
  destruct (get_array s a) as [|e els] eqn:E.
  { simpl. by rewrite get_array_alloc. }
  set (sorted := position_order (fun l => rect (get_elem s l)) (e :: els)).
  assert (sorted ≡ₚ e :: els) as Hperm by apply position_order_Permutation.
  simpl. unfold get_array at 1. rewrite write_indices_arrays. simpl.
  rewrite lookup_at_length. simpl.
  pose proof (write_indices_elements
    (mkStore (elems s) (arrays s ++ [sorted])) sorted 0) as H.
  simpl in H. rewrite H.
  - unfold sortElementsByPosition_pure.
    change (get_elem s e :: map (get_elem s) els)
      with (map (get_elem s) (e :: els)).
    rewrite <- (position_order_map (get_elem s) rect).
    by rewrite imap_fmap.
  - by rewrite Hperm.
  - intros l Hl. apply Hvalid. by rewrite <- Hperm.
Qed.

(** The entry point under the store, on arrays of distinct objects,
    returns the elements the entry point on values returns. *)
Lemma TsVariant_combine_elements
    (browserElements cvElements : list InteractiveElement) (thr : Q) :
  let out := combineAndFilterElements
               (store_of_inputs browserElements cvElements) 0%nat 1%nat thr in
  elements_of out.1 out.2
  = combineAndFilterElements_pure browserElements cvElements thr.
Proof.
  intros out. unfold out. clear out.
  set (s := store_of_inputs browserElements cvElements).
  destruct (store_of_inputs_elements browserElements cvElements) as [Hb Hc].
  fold s in Hb, Hc.
  set (all := get_array s 0%nat ++ get_array s 1%nat).
  set (s1 := mkStore (elems s) (arrays s ++ [all])).
  set (f := filterOverlappingElements s1 (length (arrays s)) thr).
  assert (combineAndFilterElements s 0%nat 1%nat thr
          = sortElementsByPosition f.1 f.2) as ->.
  { unfold combineAndFilterElements. fold all.
    change (alloc_array s all) with (s1, length (arrays s)).
    cbv beta iota. fold f. by destruct f. }
  pose proof (TsVariant_filter_elements s1 (length (arrays s)) thr) as Hf.
  fold f in Hf.
  assert (get_array f.1 f.2 ⊆+ all /\ elems f.1 = elems s) as [Hsub He].
  { unfold f, filterOverlappingElements, alloc_array. cbn [fst snd].
    rewrite get_array_alloc. split; [|done].
    etrans; [apply TsVariant_filter_submseteq|].
    unfold s1. by rewrite get_array_alloc. }
  assert (NoDup all) as Hnd by apply store_of_inputs_NoDup.
  rewrite TsVariant_sort_elements.
  - rewrite Hf. unfold combineAndFilterElements_pure. do 2 f_equal.
    unfold elements_of. unfold s1 at 2. rewrite get_array_alloc.
    unfold all. rewrite map_app. by rewrite <- Hb, <- Hc.
  - by eapply NoDup_submseteq_inv.
  - intros l Hl. rewrite He. eapply elem_of_submseteq in Hl; [|done].
    pose proof (store_of_inputs_wf browserElements cvElements) as Hwf.
    apply elem_of_app in Hl as [Hl|Hl]; unfold get_array in Hl.
    + by eapply (Hwf 0%nat).
    + by eapply (Hwf 1%nat).
Qed.
End TsVariantStoreValues.

(** ** Fusion: what comes back, and in which order *)

Lemma ordered_map {A B : Type} (f : A -> B) (R : B -> B -> Prop) (l : list A) :
  ordered R (map f l) <-> ordered (fun a b => R (f a) (f b)) l.
Proof.
  induction l as [|a l IH]; simpl; [done|].
  rewrite IH, Forall_fmap. done.
Qed.

Lemma ordered_app {A : Type} (R : A -> A -> Prop) (l k : list A) :
  ordered R (l ++ k) <->
  ordered R l /\ ordered R k /\ forall a b, a ∈ l -> b ∈ k -> R a b.
Proof.
  induction l as [|x l IH]; simpl.
  - split; [intros H; repeat split; [done|]|tauto].
    intros a b Ha. by apply elem_of_nil in Ha.
  - rewrite IH, Forall_app, !Forall_forall. split.
    + intros [[Hxl Hxk] (Hl & Hk & Hlk)]. repeat split; [done..|].
      intros a b [->|Ha]%elem_of_cons Hb; [by apply Hxk|by apply Hlk].
    + intros [[Hxl Hl] [Hk Hlk]]. repeat split; [done| |done..|].
      * intros b Hb. apply Hlk; [by left|done].
      * intros a b Ha Hb. apply Hlk; [by right|done].
Qed.

(** A list of rows reads in order when every row does and every row
    stands wholly before the later ones. *)
Lemma ordered_concat {A : Type} (R : A -> A -> Prop) (rows : list (list A)) :
  Forall (ordered R) rows ->
  ordered (fun r r' => forall a b, a ∈ r -> b ∈ r' -> R a b) rows ->
  ordered R (concat rows).
Proof.
  induction rows as [|r rows IH]; simpl; [done|].
  intros [Hr Hrows]%Forall_cons [Hfirst Hrest].
  apply ordered_app. split; [done|]. split; [by apply IH|].
  intros a b Ha (r' & Hr' & Hb)%list_elem_of_In%in_concat.
  eapply Forall_forall in Hfirst; [|by apply list_elem_of_In].
  apply Hfirst; [done|by apply list_elem_of_In].
Qed.

Section TsVariantReadingOrder.
Import TsVariant.
Context {A : Type} (rectOf : A -> Rect).

Abbreviation Y := (fun a : A => y (rectOf a)).
Abbreviation X := (fun a : A => x (rectOf a)).

Abbreviation rows_apart := (tsv_rows_apart rectOf).
Abbreviation grouping_inv := (tsv_grouping_inv rectOf).

Lemma by_y_consistent : consistent_cmp (fun a b : A => Y a - Y b).
Proof. split; intros; cbv beta in *; lra. Qed.

Lemma by_x_consistent : consistent_cmp (fun a b : A => X a - X b).
Proof. split; intros; cbv beta in *; lra. Qed.

Lemma groupStep_inv (acc : list (list A) * list A) (e : A) (rest : list A) :
  grouping_inv acc (e :: rest) -> grouping_inv (groupStep rectOf acc e) rest.
Proof.
  destruct acc as [rows cur]. unfold tsv_grouping_inv. simpl.
  intros (Hwalked & [He Hrest] & Hlast & Hapart & Hempty).
  rewrite Forall_forall in He.
  assert (forall a, a ∈ concat rows ++ cur -> Y a <= Y e) as Hle.
  { intros a Ha. apply Hwalked; [done|by left]. }
  destruct (last cur) as [lastElement|] eqn:El.
  - assert (Y lastElement <= Y e) as Hl.
    { apply Hle, elem_of_app. right.
      apply last_Some in El as [cur' ->]. apply elem_of_app. right. by left. }
    apply ordered_snoc in Hapart as [Hrows Hcur].
    rewrite Forall_forall in Hcur.
    destruct (Qle_bool _ _) eqn:E; simpl.
    + split; [|split; [done|split; [|split; [|by destruct cur]]]].
      * intros a b Ha Hb. rewrite (assoc_L (++)) in Ha.
        apply elem_of_app in Ha as [Ha|Ha%list_elem_of_singleton].
        -- apply Hwalked; [done|by right].
        -- subst a. by apply He.
      * intros a l' Ha. rewrite last_snoc. intros [= <-].
        apply elem_of_app in Ha as [Ha|Ha%list_elem_of_singleton].
        -- apply Hle, elem_of_app. by right.
        -- subst a. (cbv beta in *; lra).
      * apply ordered_snoc. split; [done|]. apply Forall_forall.
        intros r Hr a b Ha Hb.
        apply elem_of_app in Hb as [Hb|Hb%list_elem_of_singleton].
        -- by apply (Hcur r Hr).
        -- subst b. pose proof (Hcur r Hr a lastElement Ha) as H.
           assert (lastElement ∈ cur) as Hin.
           { apply last_Some in El as [cur' ->]. apply elem_of_app.
             right. by left. }
           specialize (H Hin). (cbv beta in *; lra).
    + assert (Y lastElement + ROW_THRESHOLD < Y e) as Hgap.
      { assert (~ Qabs (y (rectOf e) - y (rectOf lastElement)) <= ROW_THRESHOLD)
          as Hn.
        { intros Hc. apply Qle_bool_iff in Hc. simpl in Hc. congruence. }
        rewrite Qabs_pos in Hn by (cbv beta in *; lra). (cbv beta in *; lra). }
      split; [|split; [done|split; [|split; [|done]]]].
      * intros a b Ha Hb. rewrite concat_app in Ha. simpl in Ha.
        rewrite app_nil_r in Ha.
        apply elem_of_app in Ha as [Ha|Ha%list_elem_of_singleton].
        -- apply Hwalked; [done|by right].
        -- subst a. by apply He.
      * intros a l' Ha%list_elem_of_singleton. subst a. simpl.
        intros [= <-]. (cbv beta in *; lra).
      * apply ordered_snoc.
        split; [apply ordered_snoc; split; [done|by apply Forall_forall]|].
        apply Forall_app. split; [|apply Forall_singleton].
        -- apply Forall_forall. intros r Hr a b Ha Hb%list_elem_of_singleton.
           subst b. pose proof (Hcur r Hr a lastElement Ha) as H.
           assert (lastElement ∈ cur) as Hin.
           { apply last_Some in El as [cur' ->]. apply elem_of_app.
             right. by left. }
           specialize (H Hin). (cbv beta in *; lra).
        -- intros a b Ha Hb%list_elem_of_singleton. subst b.
           specialize (Hlast a lastElement Ha eq_refl). (cbv beta in *; lra).
  - apply last_None in El as ->. rewrite (Hempty eq_refl) in *. simpl.
    split; [|split; [done|split; [|split; [by repeat split|done]]]].
    + intros a b Ha%list_elem_of_singleton Hb. subst a. by apply He.
    + intros a l' Ha%list_elem_of_singleton. subst a. simpl.
      intros [= <-]. (cbv beta in *; lra).
Qed.

Lemma foldl_groupStep_inv (l : list A) (acc : list (list A) * list A) :
  grouping_inv acc l -> grouping_inv (foldl (groupStep rectOf) acc l) [].
Proof.
  revert acc. induction l as [|e l IH]; intros acc H; simpl; [done|].
  by apply IH, groupStep_inv.
Qed.

Lemma ordered_rows_sorted (f : list A -> list A) (rows : list (list A)) :
  (forall r, f r ≡ₚ r) ->
  ordered rows_apart rows -> ordered rows_apart (map f rows).
Proof.
  intros Hf H. apply ordered_map. eapply ordered_impl; [|exact H].
  intros r r' Hrr a b Ha Hb. rewrite Hf in Ha, Hb. by apply Hrr.
Qed.

(** The order [sortElementsByPosition] computes is a reading order: of
    two elements the earlier one starts no further right (they share a
    row) or lies more than the row threshold above. *)
Lemma position_order_reads (elements : list A) :
  ordered (fun a b => tsv_reads_before (rectOf a) (rectOf b))
          (position_order rectOf elements).
Proof.
  unfold position_order.
  set (sortedByY := Array_sort (fun a b => Y a - Y b) elements).
  assert (grouping_inv ([], []) sortedByY) as Hinv.
  { unfold tsv_grouping_inv. simpl.
    split; [|split; [|split; [|split; [by repeat split|done]]]].
    - intros a b Ha. by apply elem_of_nil in Ha.
    - eapply ordered_impl;
        [|apply (Array_sort_in_order _ by_y_consistent elements)].
      intros a b. unfold cmp_le. (cbv beta in *; lra).
    - intros a l' Ha. by apply elem_of_nil in Ha. }
  apply foldl_groupStep_inv in Hinv.
  destruct (foldl _ _ sortedByY) as [rows0 currentRow].
  destruct Hinv as (_ & _ & _ & Hapart & Hempty). simpl in *.
  set (rows := match currentRow with [] => rows0 | _ => rows0 ++ [currentRow] end).
  assert (ordered rows_apart rows) as Hrows.
  { unfold rows. destruct currentRow; [|done].
    by rewrite (Hempty eq_refl). }
  apply ordered_concat.
  - apply Forall_forall. intros r (r0 & -> & _)%list_elem_of_fmap.
    eapply ordered_impl;
      [|apply (Array_sort_in_order _ by_x_consistent r0)].
    intros a b Hab. left. unfold cmp_le in Hab. (cbv beta in *; lra).
  - eapply ordered_impl;
      [|apply ordered_rows_sorted; [apply Array_sort_Permutation|exact Hrows]].
    intros r r' Hrr a b Ha Hb. right. by apply Hrr.
Qed.
End TsVariantReadingOrder.

Lemma idx_but_index_imap (l : list IndexTs.InteractiveElement) :
  map idx_but_index
      (imap (fun i e => IndexTs.set_index e (Z.of_nat i)) l)
  = map idx_but_index l.
Proof.
  apply list_eq. intros i.
  rewrite !list_lookup_fmap, list_lookup_imap. by destruct (l !! i) as [[]|].
Qed.

Lemma tsv_but_index_imap (l : list TsVariant.InteractiveElement) :
  map tsv_but_index
      (imap (fun i e => TsVariant.set_index e (Z.of_nat i)) l)
  = map tsv_but_index l.
Proof.
  apply list_eq. intros i.
  rewrite !list_lookup_fmap, list_lookup_imap. by destruct (l !! i) as [[]|].
Qed.

Lemma imap_nil_inv {A B : Type} (f : nat -> A -> B) (l : list A) :
  imap f l = [] <-> l = [].
Proof. by destruct l. Qed.

Lemma IndexTs_combine_pure_inputs
    (b c : list IndexTs.InteractiveElement) (thr : Q) :
  let out := IndexTs.combineAndFilterElements_pure b c thr in
  map idx_but_index out ⊆+ map idx_but_index (b ++ c) /\
  (out = [] <-> b ++ c = []).
Proof.
  unfold IndexTs.combineAndFilterElements_pure,
    IndexTs.sortElementsByPosition_pure. cbv zeta.
  pose proof (proj2 (proj2 (IndexTs_filter_subsequence (b ++ c) thr)))
    as [_ Hempty].
  pose proof (proj1 (proj2 (IndexTs_filter_subsequence (b ++ c) thr))) as Hsub.
  cbv zeta in Hempty, Hsub.
  destruct (IndexTs.filterOverlappingElements_pure (b ++ c) thr)
    as [|e els] eqn:E.
  - split; [apply submseteq_nil_l|]. by rewrite <- Hempty.
  - split.
    + rewrite idx_but_index_imap, Array_sort_Permutation.
      by apply fmap_submseteq.
    + rewrite imap_nil_inv. split.
      * intros H. apply (f_equal length) in H.
        by rewrite Array_sort_length in H.
      * intros H. by apply Hempty in H.
Qed.

Lemma TsVariant_combine_pure_inputs
    (b c : list TsVariant.InteractiveElement) (thr : Q) :
  let out := TsVariant.combineAndFilterElements_pure b c thr in
  map tsv_but_index out ⊆+ map tsv_but_index (b ++ c) /\
  (out = [] <-> b ++ c = []).
Proof.
  unfold TsVariant.combineAndFilterElements_pure,
    TsVariant.sortElementsByPosition_pure. cbv zeta.
  pose proof (proj2 (proj2 (TsVariant_filter_subsequence (b ++ c) thr)))
    as [_ Hempty].
  pose proof (proj1 (proj2 (TsVariant_filter_subsequence (b ++ c) thr)))
    as Hsub.
  cbv zeta in Hempty, Hsub.
  destruct (TsVariant.filterOverlappingElements_pure (b ++ c) thr)
    as [|e els] eqn:E.
  - split; [apply submseteq_nil_l|]. by rewrite <- Hempty.
  - split.
    + rewrite tsv_but_index_imap, position_order_Permutation.
      by apply fmap_submseteq.
    + rewrite imap_nil_inv. split.
      * intros H. apply (f_equal length) in H.
        by rewrite position_order_Permutation in H.
      * intros H. by apply Hempty in H.
Qed.

(** X6. Fusion returns nothing but what it was handed. Whatever the
    DOM-derived and the vision-derived elements, every element the entry
    point returns is one of them with a new index, none is returned more
    often than it was handed in, and the result is empty only when both
    inputs are. *)
Theorem fusion_returns_inputs
    (browserElements cvElements : list IndexTs.InteractiveElement)
    (browserElements' cvElements' : list TsVariant.InteractiveElement)
    (iouThreshold : Q) :
  let out :=
    IndexTs.combineAndFilterElements
      (store_of_inputs browserElements cvElements) 0%nat 1%nat iouThreshold in
  let out' :=
    TsVariant.combineAndFilterElements
      (store_of_inputs browserElements' cvElements') 0%nat 1%nat iouThreshold in
  ( map idx_but_index (elements_of out.1 out.2)
      ⊆+ map idx_but_index (browserElements ++ cvElements) /\
    (elements_of out.1 out.2 = [] <-> browserElements ++ cvElements = []) ) /\
  ( map tsv_but_index (elements_of out'.1 out'.2)
      ⊆+ map tsv_but_index (browserElements' ++ cvElements') /\
    (elements_of out'.1 out'.2 = [] <-> browserElements' ++ cvElements' = []) ).
Proof.
  intros out out'. unfold out, out'.
  rewrite IndexTs_combine_elements, TsVariant_combine_elements.
  split; [apply IndexTs_combine_pure_inputs|apply TsVariant_combine_pure_inputs].
Qed.

(** X7. The TsVariant entry point returns the elements in reading order:
    of any two returned elements the earlier one starts no further right
    than the later one, or lies more than the row threshold of 20 pixels
    above it. *)
Theorem TsVariant_fusion_reading_order
    (browserElements cvElements : list TsVariant.InteractiveElement)
    (iouThreshold : Q) :
  let out :=
    TsVariant.combineAndFilterElements
      (store_of_inputs browserElements cvElements) 0%nat 1%nat iouThreshold in
  ordered tsv_reads_before (map TsVariant.rect (elements_of out.1 out.2)).
Proof.
  intros out. unfold out. rewrite TsVariant_combine_elements.
  unfold TsVariant.combineAndFilterElements_pure,
    TsVariant.sortElementsByPosition_pure. cbv zeta.
  destruct (TsVariant.filterOverlappingElements_pure _ _) as [|e els]; [done|].
  set (sorted := TsVariant.position_order TsVariant.rect (e :: els)).
  assert (map TsVariant.rect
            (imap (fun i e => TsVariant.set_index e (Z.of_nat i)) sorted)
          = map TsVariant.rect sorted) as ->.
  { apply list_eq. intros i.
    rewrite !list_lookup_fmap, list_lookup_imap.
    by destruct (sorted !! i) as [[]|]. }
  apply ordered_map. apply position_order_reads.
Qed.

(** ** The highlight overlays *)

Lemma highlightStep_spec (imageWidth imageHeight : Z)
    (acc : list IndexTs.OverlayOptions * list IndexTs.PlacedLabel)
    (entry : nat * IndexTs.InteractiveElement) :
  exists new,
    (IndexTs.highlightStep imageWidth imageHeight acc entry).1 = acc.1 ++ new /\
    length new = (if idx_is_sheet_element entry.2 then 0 else 2)%nat /\
    Forall (overlay_in_image imageWidth imageHeight) new.
Proof.
  destruct acc as [ops labels], entry as [i e].
  unfold IndexTs.highlightStep, idx_is_sheet_element. simpl.
  destruct (_ || _).
  { exists []. simpl. by rewrite app_nil_r. }
  eexists. split; [reflexivity|]. split; [done|].
  apply Forall_cons. split.
  { unfold overlay_in_image. cbn [IndexTs.input]. lia. }
  apply Forall_singleton. unfold overlay_in_image. simpl.
  split; intros Hfits; repeat case_bool_decide; lia.
Qed.

Lemma foldl_highlightStep_spec (imageWidth imageHeight : Z)
    (elements : list (nat * IndexTs.InteractiveElement))
    (acc : list IndexTs.OverlayOptions * list IndexTs.PlacedLabel) :
  exists new,
    (foldl (IndexTs.highlightStep imageWidth imageHeight) acc elements).1
      = acc.1 ++ new /\
    length new
      = (2 * length (filter (fun entry => idx_is_sheet_element entry.2 = false)
                            elements))%nat /\
    Forall (overlay_in_image imageWidth imageHeight) new.
Proof.
  revert acc. induction elements as [|entry elements IH]; intros acc; simpl.
  { exists []. by rewrite app_nil_r. }
  destruct (highlightStep_spec imageWidth imageHeight acc entry)
    as (new1 & E1 & L1 & F1).
  destruct (IH (IndexTs.highlightStep imageWidth imageHeight acc entry))
    as (new2 & E2 & L2 & F2).
  exists (new1 ++ new2). rewrite E2, E1, (assoc_L (++)). split; [done|].
  split; [|by apply Forall_app].
  rewrite length_app, L1, L2, filter_cons.
  destruct (idx_is_sheet_element entry.2) eqn:E.
  - by rewrite decide_False.
  - rewrite decide_True by done. simpl. lia.
Qed.

(** X8. The overlays of [putHighlightElementsOnScreenshot]. When the image
    decodes, the function composes onto it the overlays computed from its
    size and the elements, and returns the original string if composing
    throws. There are two overlays (border, label) for every element that
    is not a spreadsheet row or column, none for those; every border is at
    least one pixel wide and high, and every label that is smaller than
    the image is placed fully inside it. *)
Theorem highlight_overlays_in_image (sharp : IndexTs.Sharp)
    (elements : list (nat * IndexTs.InteractiveElement)) (image : string)
    (metadata : IndexTs.Metadata) :
  let imageWidth := default 0%Z (IndexTs.metadata_width metadata) in
  let imageHeight := default 0%Z (IndexTs.metadata_height metadata) in
  let overlays := highlight_overlays imageWidth imageHeight elements in
  (IndexTs.sharp_metadata sharp image = Returned metadata ->
   IndexTs.putHighlightElementsOnScreenshot sharp elements image
   = try_catch (IndexTs.sharp_composite sharp image overlays)
               (fun _ => Returned image)) /\
  length overlays
    = (2 * length (filter (fun entry => idx_is_sheet_element entry.2 = false)
                          elements))%nat /\
  Forall (overlay_in_image imageWidth imageHeight) overlays.
Proof.
  intros imageWidth imageHeight overlays. split.
  - intros Hm. unfold IndexTs.putHighlightElementsOnScreenshot.
    rewrite Hm. simpl. unfold overlays, highlight_overlays.
    fold imageWidth imageHeight.
    by destruct (foldl _ _ elements).
  - destruct (foldl_highlightStep_spec imageWidth imageHeight elements ([], []))
      as (new & E & L & F).
    unfold overlays, highlight_overlays. rewrite E. simpl. by split.
Qed.

Lemma highlight_overlays_in_image_witness :
  IndexTs.putHighlightElementsOnScreenshot example_sharp
    [(0%nat, idx_element 1010 10 1030 40 0)] "png"
  = Returned "png+boxes" /\
  highlight_overlays 1024 768 [(0%nat, idx_element 1010 10 1030 40 0)]
  = [IndexTs.mkOverlayOptions (IndexTs.BorderSvg 20 30 (204, 0, 0)%nat) 1010 10;
     IndexTs.mkOverlayOptions (IndexTs.LabelSvg 14 20 (204, 0, 0)%nat "0")
                              1009 10].
Proof.
  destruct (highlight_overlays_in_image example_sharp
              [(0%nat, idx_element 1010 10 1030 40 0)] "png"
              (IndexTs.mkMetadata (Some 1024%Z) (Some 768%Z))) as [H _].
  split; [|vm_compute; reflexivity]. rewrite H; [|reflexivity].
  vm_compute. reflexivity.
Defined.

(** ** The message managers: reading the history *)

Section TsVariantGetMessagesMore.
Import TsVariant.Llm TsVariant.MessageManager.
Implicit Types (m : Message) (msgs pre post : list Message).

Lemma tsv_clear_text_idem (c : ContentType) :
  clear_text (clear_text c) = clear_text c.
Proof. by destruct c as [text [cc|]| |]. Qed.

Lemma tsv_removeCacheControl_idem m :
  removeCacheControl (removeCacheControl m) = removeCacheControl m.
Proof.
  unfold removeCacheControl. simpl. f_equal.
  rewrite map_map. apply map_ext. apply tsv_clear_text_idem.
Qed.

Lemma tsv_cleared_idem pre : tsv_cleared (tsv_cleared pre) = tsv_cleared pre.
Proof.
  unfold tsv_cleared. rewrite map_map. apply map_ext. intros m.
  destruct (tsv_non_system m) eqn:E; [|by rewrite E].
  assert (tsv_non_system (removeCacheControl m) = true) as -> by done.
  apply tsv_removeCacheControl_idem.
Qed.

Lemma tsv_getMessages_idem msgs :
  getMessages (getMessages msgs) = getMessages msgs.
Proof.
  destruct (last_true_split tsv_has_marker msgs)
    as [Hnone|(pre & m & post & -> & Hm & Hpost)].
  - by rewrite !(tsv_getMessages_none msgs Hnone).
  - rewrite (tsv_getMessages_split pre m post Hm Hpost).
    rewrite (tsv_getMessages_split (tsv_cleared pre) m post Hm Hpost).
    by rewrite tsv_cleared_idem.
Qed.

Lemma tsv_unmark_clear_text (c : ContentType) :
  tsv_unmark_block (clear_text c) = tsv_unmark_block c.
Proof. by destruct c as [text [cc|]| |]. Qed.

Lemma tsv_unmark_removeCacheControl m :
  tsv_unmark (removeCacheControl m) = tsv_unmark m.
Proof.
  unfold tsv_unmark, removeCacheControl. simpl. f_equal.
  rewrite map_map. apply map_ext. apply tsv_unmark_clear_text.
Qed.

Lemma tsv_unmark_cleared pre :
  map tsv_unmark (tsv_cleared pre) = map tsv_unmark pre.
Proof.
  unfold tsv_cleared. rewrite map_map. apply map_ext. intros m.
  destruct (tsv_non_system m); [apply tsv_unmark_removeCacheControl|done].
Qed.

Lemma tsv_getMessages_unmark msgs :
  map tsv_unmark (getMessages msgs) = map tsv_unmark msgs.
Proof.
  destruct (last_true_split tsv_has_marker msgs)
    as [Hnone|(pre & m & post & -> & Hm & Hpost)].
  - by rewrite tsv_getMessages_none.
  - rewrite tsv_getMessages_split by done.
    by rewrite !map_app, tsv_unmark_cleared.
Qed.
End TsVariantGetMessagesMore.

Section IndexTsGetMessagesMore.
Import IndexTs.Llm IndexTs.MessageManager.
Implicit Types (m : Message) (msgs pre post : list Message).

Lemma idx_clear_block_idem (c : MessageContent) :
  clear_block (clear_block c) = clear_block c.
Proof. by destruct c. Qed.

Lemma idx_clearMessage_idem m : clearMessage (clearMessage m) = clearMessage m.
Proof.
  unfold clearMessage. destruct (content m) as [s|blocks] eqn:E; simpl.
  - by rewrite E.
  - f_equal. f_equal. rewrite map_map. apply map_ext. apply idx_clear_block_idem.
Qed.

Lemma idx_eligible_clearMessage m : eligible (clearMessage m) = eligible m.
Proof.
  unfold eligible, clearMessage.
  destruct (content m) as [s|[|c blocks]] eqn:E; simpl; by rewrite ?E.
Qed.

Lemma idx_cleared_idem pre : idx_cleared (idx_cleared pre) = idx_cleared pre.
Proof.
  unfold idx_cleared. rewrite map_map. apply map_ext. intros m.
  destruct (eligible m) eqn:E; [|by rewrite E].
  by rewrite idx_eligible_clearMessage, E, idx_clearMessage_idem.
Qed.

Lemma idx_getMessages_none msgs :
  (forall x, x ∈ msgs -> eligible x = false) -> getMessages msgs = msgs.
Proof. apply idx_loop_none. Qed.

Lemma idx_getMessages_idem msgs :
  getMessages (getMessages msgs) = getMessages msgs.
Proof.
  destruct (last_true_split eligible msgs)
    as [Hnone|(pre & m & post & -> & Hm & Hpost)].
  - by rewrite !(idx_getMessages_none msgs Hnone).
  - rewrite (idx_getMessages_split pre m post Hm Hpost).
    rewrite (idx_getMessages_split (idx_cleared pre) m post Hm Hpost).
    by rewrite idx_cleared_idem.
Qed.

Lemma idx_clearMessage_cleared pre :
  map clearMessage (idx_cleared pre) = map clearMessage pre.
Proof.
  unfold idx_cleared. rewrite map_map. apply map_ext. intros m.
  destruct (eligible m); [apply idx_clearMessage_idem|done].
Qed.

Lemma idx_getMessages_unmark msgs :
  map clearMessage (getMessages msgs) = map clearMessage msgs.
Proof.
  destruct (last_true_split eligible msgs)
    as [Hnone|(pre & m & post & -> & Hm & Hpost)].
  - by rewrite idx_getMessages_none.
  - rewrite idx_getMessages_split by done.
    by rewrite !map_app, idx_clearMessage_cleared.
Qed.
End IndexTsGetMessagesMore.

(** X9. Reading the history twice changes nothing more: on every history,
    in both managers, [getMessages] applied to its own result returns it
    unchanged. *)
Theorem getMessages_idempotent (tsv : list TsVariant.Llm.Message)
    (idx : list IndexTs.Llm.Message) :
  TsVariant.MessageManager.getMessages (TsVariant.MessageManager.getMessages tsv)
  = TsVariant.MessageManager.getMessages tsv /\
  IndexTs.MessageManager.getMessages (IndexTs.MessageManager.getMessages idx)
  = IndexTs.MessageManager.getMessages idx.
Proof. split; [apply tsv_getMessages_idem|apply idx_getMessages_idem]. Qed.

(** X10. [getMessages] touches nothing but cache markers: it returns as
    many messages as the history holds, and with all markers taken off
    the returned messages are the messages of the history, block for
    block (roles, texts, images, thinking blocks and state flags are
    those of the history). *)
Theorem getMessages_changes_markers_only (tsv : list TsVariant.Llm.Message)
    (idx : list IndexTs.Llm.Message) :
  ( length (TsVariant.MessageManager.getMessages tsv) = length tsv /\
    map tsv_unmark (TsVariant.MessageManager.getMessages tsv)
    = map tsv_unmark tsv ) /\
  ( length (IndexTs.MessageManager.getMessages idx) = length idx /\
    map IndexTs.MessageManager.clearMessage
        (IndexTs.MessageManager.getMessages idx)
    = map IndexTs.MessageManager.clearMessage idx ).
Proof.
  split; split.
  - apply tsv_getMessages_length.
  - apply tsv_getMessages_unmark.
  - apply idx_getMessages_length.
  - apply idx_getMessages_unmark.
Qed.

(** ** The message managers: recording a model output *)

Section IndexTsRecord.
Import IndexTs.Llm IndexTs.MessageManager.
Context (texts : Texts).
Implicit Types (m : Message) (msgs : list Message).

Lemma idx_dropImages_no_image m :
  idx_user_state (dropImages m) -> idx_no_image (dropImages m).
Proof.
  unfold idx_user_state, idx_no_image, dropImages.
  destruct (content m) as [s|blocks] eqn:E; [by rewrite E|].
  destruct (bool_decide (role m = USER) && is_state_message m) eqn:Eb; simpl.
  - intros _. apply Forall_forall. intros c Hc.
    by apply list_elem_of_filter in Hc as [? _].
  - rewrite E. intros [Hr Hs]. rewrite Hs, bool_decide_eq_true_2 in Eb; done.
Qed.

Lemma idx_addMessageFromModelOutput_shape msgs (modelOutput : IndexTs.AgentLLMOutput)
    (stateScreenshot : option string) (thinking : option (string * option string)) :
  exists assistant rest,
    addMessageFromModelOutput texts msgs modelOutput stateScreenshot thinking
    = map dropImages msgs ++ assistant :: rest /\
    role assistant = ASSISTANT /\
    length rest = match truthy_string stateScreenshot with
                  | Some _ => 1%nat
                  | None => 0%nat
                  end.
Proof.
  unfold addMessageFromModelOutput. cbv zeta.
  destruct (truthy_string stateScreenshot) as [shot|].
  - eexists _, [_]. rewrite <- (assoc_L (++)). simpl. by repeat split.
  - eexists _, []. by repeat split.
Qed.
End IndexTsRecord.

Section TsVariantRecord.
Import TsVariant.Llm TsVariant.MessageManager.
Context (texts : Texts).
Implicit Types (m : Message) (msgs : list Message).

Lemma tsv_resetStateContent_short m :
  isStateMessage (resetStateContent m) = true ->
  (length (content (resetStateContent m)) <= 1)%nat.
Proof.
  unfold resetStateContent.
  destruct (isStateMessage m) eqn:Es; simpl; [|by rewrite Es].
  case_bool_decide as Hlen; simpl; [rewrite length_take|]; lia.
Qed.

Lemma tsv_addMessageFromModelOutput_shape msgs (step : Z)
    (previousResult : option TsVariant.ActionResult)
    (modelOutput : TsVariant.AgentLLMOutput) (screenshot : option string) :
  exists state assistant,
    addMessageFromModelOutput texts msgs step previousResult modelOutput
      screenshot
    = map resetStateContent msgs ++ state ++ [assistant] /\
    role assistant = "assistant" /\
    Forall (fun m => isStateMessage m = true) state /\
    length state = (if bool_decide (is_Some previousResult)
                       && truthy_string screenshot then 1 else 0)%nat.
Proof.
  unfold addMessageFromModelOutput. cbv zeta.
  destruct previousResult as [previous|]; simpl.
  - destruct (truthy_string screenshot).
    + eexists [_], _. rewrite <- (assoc_L (++)). simpl.
      split; [done|]. split; [done|]. split; [|done].
      by apply Forall_singleton.
    + eexists [], _. simpl. by repeat split.
  - eexists [], _. simpl. by repeat split.
Qed.
End TsVariantRecord.

(** X11. Recording a model output keeps the history lean. IndexTs: the
    history grows by the assistant message and, when there is a
    screenshot, one state message; afterwards no earlier state message of
    the user holds an image. TsVariant: the history grows by the
    assistant message, preceded by one state message when there is a
    previous result and a screenshot; afterwards every earlier state
    message holds at most one content block. *)
Theorem addMessageFromModelOutput_keeps_history_lean
    (itexts : IndexTs.MessageManager.Texts)
    (idx : list IndexTs.Llm.Message) (output : IndexTs.AgentLLMOutput)
    (stateScreenshot : option string)
    (thinking : option (string * option string))
    (ttexts : TsVariant.MessageManager.Texts)
    (tsv : list TsVariant.Llm.Message) (step : Z)
    (previousResult : option TsVariant.ActionResult)
    (modelOutput : TsVariant.AgentLLMOutput) (screenshot : option string) :
  let idx' :=
    IndexTs.MessageManager.addMessageFromModelOutput itexts idx output
      stateScreenshot thinking in
  let tsv' :=
    TsVariant.MessageManager.addMessageFromModelOutput ttexts tsv step
      previousResult modelOutput screenshot in
  ( length idx'
    = (length idx
       + match IndexTs.MessageManager.truthy_string stateScreenshot with
         | Some _ => 2
         | None => 1
         end)%nat /\
    (exists assistant, idx' !! length idx = Some assistant /\
       IndexTs.Llm.role assistant = IndexTs.Llm.ASSISTANT) /\
    Forall (fun m => idx_user_state m -> idx_no_image m)
           (take (length idx) idx') ) /\
  ( length tsv'
    = (length tsv
       + if bool_decide (is_Some previousResult)
            && TsVariant.MessageManager.truthy_string screenshot
         then 2 else 1)%nat /\
    (exists assistant, last tsv' = Some assistant /\
       TsVariant.Llm.role assistant = "assistant") /\
    Forall (fun m => TsVariant.Llm.isStateMessage m = true ->
                     (length (TsVariant.Llm.content m) <= 1)%nat)
           (take (length tsv) tsv') ).
Proof.
  intros idx' tsv'. split.
  - destruct (idx_addMessageFromModelOutput_shape itexts idx output
                stateScreenshot thinking) as (assistant & rest & E & Hr & Hl).
    unfold idx'. rewrite E. split; [|split].
    + rewrite length_app, length_map. simpl. rewrite Hl.
      destruct (IndexTs.MessageManager.truthy_string _); lia.
    + exists assistant. split; [|done].
      rewrite <- (length_map IndexTs.MessageManager.dropImages idx).
      apply lookup_at_length.
    + rewrite <- (length_map IndexTs.MessageManager.dropImages idx) at 1.
      rewrite take_app_length. apply Forall_forall.
      intros m' (m & -> & _)%list_elem_of_fmap.
      apply idx_dropImages_no_image.
  - destruct (tsv_addMessageFromModelOutput_shape ttexts tsv step
                previousResult modelOutput screenshot)
      as (state & assistant & E & Hr & _ & Hl).
    unfold tsv'. rewrite E. split; [|split].
    + rewrite !length_app, length_map, Hl. simpl.
      destruct (_ && _); lia.
    + exists assistant. split; [|done].
      by rewrite (assoc_L (++)), last_snoc.
    + rewrite <- (length_map TsVariant.MessageManager.resetStateContent tsv) at 1.
      rewrite take_app_length. apply Forall_forall.
      intros m' (m & -> & _)%list_elem_of_fmap.
      apply tsv_resetStateContent_short.
Qed.

(** ** A step that succeeds *)



Lemma idx_getMessages_snoc_plain (msgs : list IndexTs.Llm.Message)
    (m : IndexTs.Llm.Message) :
  IndexTs.Llm.is_state_message m = false ->
  IndexTs.MessageManager.getMessages (msgs ++ [m])
  = IndexTs.MessageManager.getMessages msgs ++ [m].
Proof.
  intros Hm. unfold IndexTs.MessageManager.getMessages at 1.
  rewrite idx_loop_snoc. unfold IndexTs.MessageManager.eligible.
  by rewrite Hm.
Qed.





(** ** Runs and the chunks they yield *)

Section OnlyLast.
Context {A : Type} (stops : A -> bool).

Lemma only_last_nil : only_last stops [].
Proof. by intros i c H. Qed.

Lemma only_last_singleton (c : A) : only_last stops [c].
Proof. intros [|i] c' H Hs; [done|by destruct i]. Qed.

Lemma only_last_cons (c : A) (l : list A) :
  stops c = false -> only_last stops l -> only_last stops (c :: l).
Proof.
  intros Hc Hl [|i] c' H Hs; simpl in *.
  - injection H as ->. congruence.
  - f_equal. by eapply Hl.
Qed.
End OnlyLast.

Section IndexTsRuns.
Import IndexTs.Agent.
Context {W : Type} (texts : IndexTs.MessageManager.Texts)
        (outside : Outside W).

Lemma idx_loop_shape (options : RunStreamOptions) (fuel : nat)
    (st : LoopState) :
  exists chunks timedOut st',
    runStream_loop texts outside options fuel st = (chunks, timedOut, st') /\
    (length chunks <= fuel)%nat /\
    ls_stepCount st'
    = (ls_stepCount st
       + length (filter (fun c => idx_isStepOrError c = true) chunks))%nat /\
    ls_actionResult st' = idx_last_result (ls_actionResult st) chunks /\
    Forall (fun c => isFinalOutputChunk c = false) chunks /\
    only_last idx_reports_done chunks /\
    only_last isTimeoutChunk chunks.
Proof.
  revert st. induction fuel as [|fuel IH]; intros st; simpl.
  - eexists [], _, _. split; [done|]. simpl.
    repeat split; first [lia|done|apply only_last_nil|idtac].
  - destruct (executeStepWithTimeout _ _ _ _ _ _) as [out messages1].
    destruct out as [[[r s]|data]|error].
    + destruct (IndexTs.is_done r) eqn:Hd.
      * eexists [_], _, _. split; [done|].
        rewrite filter_cons_True by done. simpl.
        repeat split; first [lia|done|apply only_last_singleton|idtac].
        by repeat constructor.
      * match goal with |- context [runStream_loop _ _ _ _ ?s] =>
          destruct (IH s) as (chunks & timedOut & st' & -> & Hlen & Hcount
                              & Hres & Hfin & Hdone & Htime) end.
        eexists (_ :: chunks), _, _. split; [done|].
        rewrite filter_cons_True by done. simpl in *.
        split; [lia|]. split; [lia|]. split; [done|].
        split; [by constructor|].
        split; by apply only_last_cons.
    + eexists [_], _, _. split; [done|].
      rewrite filter_cons_False by done. simpl.
      repeat split; first [lia|done|apply only_last_singleton|idtac].
      by repeat constructor.
    + match goal with |- context [runStream_loop _ _ _ _ ?s] =>
        destruct (IH s) as (chunks & timedOut & st' & -> & Hlen & Hcount
                            & Hres & Hfin & Hdone & Htime) end.
      eexists (_ :: chunks), _, _. split; [done|].
      rewrite filter_cons_True by done. simpl in *.
      split; [lia|]. split; [lia|]. split; [done|].
      split; [by constructor|].
      split; by apply only_last_cons.
Qed.

Lemma idx_getState_fixed (messages : list IndexTs.Llm.Message) :
  IndexTs.MessageManager.getMessages (getState messages) = getState messages.
Proof. apply idx_getMessages_idem. Qed.

(** The shape of everything [runStream] yields. *)
Lemma idx_runStream_shape (w : W) (messages : list IndexTs.Llm.Message)
    (prompt : string) (options : RunStreamOptions) :
  exists body closing,
    runStream texts outside w messages prompt options = body ++ [closing] /\
    (length body <= maxSteps options - prevStep options)%nat /\
    Forall (fun c => isFinalOutputChunk c = false) body /\
    only_last idx_reports_done body /\
    only_last isTimeoutChunk body /\
    ((exists message, closing = StepChunkError message) \/
     exists out, closing = FinalOutputChunk out /\
       step_count out
       = (prevStep options
          + length (filter (fun c => idx_isStepOrError c = true) body))%nat /\
       result out
       = default (IndexTs.mkActionResult false None
                    (Some "No action result") false)
                 (idx_last_result (prevActionResult options) body) /\
       IndexTs.MessageManager.getMessages (agent_state out) = agent_state out) /\
    (idx_teardown_ok outside ->
     (exists messages0,
        setup texts outside w messages prompt (agentState options)
        = Returned messages0) ->
     exists out, closing = FinalOutputChunk out).
Proof.
  unfold runStream.
  destruct (setup texts outside w messages prompt (agentState options))
    as [messages0|error] eqn:Hsetup.
  - destruct (idx_loop_shape options (maxSteps options - prevStep options)
                (loopStart options w messages0))
      as (chunks & timedOut & st' & -> & Hlen & Hcount & Hres & Hfin & Hdone
          & Htime).
    exists chunks.
    destruct (getStorageState outside (ls_world st')) as [storage|error] eqn:Es;
      [destruct (close outside (ls_world st')) as [u|error] eqn:Ec|].
    + eexists. split; [done|]. do 4 (split; [done|]). split.
      * right. eexists. split; [done|]. simpl.
        split; [done|]. split; [by rewrite Hres|]. apply idx_getState_fixed.
      * intros _ _. by eexists.
    + eexists. split; [done|]. do 4 (split; [done|]). split.
      * left. by eexists.
      * intros [_ Hclose] _. rewrite Hclose in Ec. done.
    + eexists. split; [done|]. do 4 (split; [done|]). split.
      * left. by eexists.
      * intros [Hstorage _] _. destruct (Hstorage (ls_world st')) as [s Hs].
        rewrite Hs in Es. done.
  - exists [], (StepChunkError ("Error in runStream: " +:+ error_message error)).
    split; [done|]. split; [simpl; lia|]. split; [done|].
    split; [apply only_last_nil|]. split; [apply only_last_nil|]. split.
    + left. by eexists.
    + intros _ [messages0 H]. done.
Qed.

Lemma idx_run_loop_stream (options : RunStreamOptions) (fuel : nat)
    (st st' : LoopState) :
  truthy_timeout (timeout options) = None ->
  run_loop texts outside fuel st = Returned st' ->
  exists chunks,
    runStream_loop texts outside options fuel st = (chunks, false, st') /\
    Forall (fun c => idx_isStepChunk c = true) chunks /\
    (ls_stepCount st + length chunks = ls_stepCount st')%nat.
Proof.
  intros Ht. revert st. induction fuel as [|fuel IH]; intros st; simpl.
  - intros [= <-]. exists []. simpl. split; [done|]. split; [done|lia].
  - unfold executeStepWithTimeout. rewrite Ht.
    destruct (step texts _ true _ _) as [out messages1].
    destruct out as [[r s]|error]; simpl; [|done].
    destruct (IndexTs.is_done r) eqn:Hd.
    + intros [= <-]. eexists [_]. simpl. split; [done|].
      split; [by repeat constructor|lia].
    + intros Hrun. destruct (IH _ Hrun) as (chunks & -> & Hall & Hcount).
      eexists (_ :: chunks). split; [done|]. split; [by constructor|].
      simpl in *. lia.
Qed.
End IndexTsRuns.

(** X13. IndexTs: [run] returns what the stream ends with. Whenever
    [run] returns an output, [runStream] called with the same step limit
    and agent state (and no timeout, nothing to resume from) yields one
    step chunk for each step counted in that output, none of them an
    error chunk, and then a final output chunk that carries exactly that
    output. *)
Theorem IndexTs_run_returns_stream_final {W : Type}
    (texts : IndexTs.MessageManager.Texts) (outside : IndexTs.Agent.Outside W)
    (w : W) (messages : list IndexTs.Llm.Message) (prompt : string)
    (maxSteps : nat) (agentState : option (outcome (list IndexTs.Llm.Message)))
    (out : IndexTs.Agent.AgentOutput) :
  IndexTs.Agent.run texts outside w messages prompt maxSteps agentState
    = Returned out ->
  exists chunks,
    IndexTs.Agent.runStream texts outside w messages prompt
      (IndexTs.Agent.mkRunStreamOptions maxSteps 0 None None agentState)
    = chunks ++ [IndexTs.Agent.FinalOutputChunk out] /\
    Forall (fun c => idx_isStepChunk c = true) chunks /\
    length chunks = IndexTs.Agent.step_count out.
Proof.
  unfold IndexTs.Agent.run, IndexTs.Agent.runStream. simpl.
  destruct (IndexTs.Agent.setup texts outside w messages prompt agentState)
    as [messages0|error]; simpl; [|done].
  destruct (IndexTs.Agent.run_loop texts outside maxSteps _)
    as [st|error] eqn:Hloop; simpl; [|done].
  destruct (idx_run_loop_stream texts outside
              (IndexTs.Agent.mkRunStreamOptions maxSteps 0 None None agentState)
              _ _ _ eq_refl Hloop) as (chunks & Hchunks & Hall & Hcount).
  rewrite Nat.sub_0_r. unfold IndexTs.Agent.loopStart. simpl.
  rewrite Hchunks.
  destruct (IndexTs.Agent.getStorageState outside _); simpl; [|done].
  destruct (IndexTs.Agent.close outside _); simpl; [|done].
  intros [= <-]. exists chunks. simpl in *. split; [done|]. split; [done|lia].
Qed.

Lemma IndexTs_run_returns_stream_final_witness :
  exists out chunks,
    IndexTs.Agent.runStream idx_texts idx_slow_world 0%nat [] "book a table"
      (IndexTs.Agent.mkRunStreamOptions 2 0 None None None)
    = chunks ++ [IndexTs.Agent.FinalOutputChunk out] /\
    length chunks = 2%nat.
Proof.
  eexists.
  edestruct (IndexTs_run_returns_stream_final idx_texts idx_slow_world 0%nat []
               "book a table" 2 None) as (chunks & H & _ & Hlen).
  - vm_compute. reflexivity.
  - exists chunks. split; [exact H|exact Hlen].
Defined.

Section TsVariantRuns.
Import TsVariant.Agent.
Context {W : Type} (texts : TsVariant.MessageManager.Texts)
        (outside : Outside W).

Lemma tsv_loop_shape (options : RunStreamOptions) (startTime : option Z)
    (fuel : nat) (st : LoopState) :
  exists chunks exit st',
    runStream_loop texts outside options startTime fuel st
    = (chunks, exit, st') /\
    (length chunks <= fuel)%nat /\
    ls_step st' = (ls_step st + length chunks)%nat /\
    ls_result st' = tsv_last_result (ls_result st) chunks /\
    Forall (fun c => tsv_isStepOrTimeout c = true) chunks /\
    only_last tsv_reports_done chunks /\
    only_last isTimeoutChunk chunks /\
    (exit = LoopEnded false ->
     length chunks = fuel /\
     Forall (fun c => tsv_isStepChunk c = true /\ tsv_reports_done c = false)
            chunks).
Proof.
  revert st. induction fuel as [|fuel IH]; intros st; simpl.
  - eexists [], _, _. split; [done|]. simpl.
    repeat split; first [lia|done|apply only_last_nil|idtac].
  - destruct (step texts _ _ _ _) as [out messages1].
    destruct out as [[r s]|error].
    + destruct (match timeout options, startTime with
                | Some limit, Some start => _
                | _, _ => false
                end).
      * eexists [_], _, _. split; [done|]. simpl.
        repeat split; first [lia|done|apply only_last_singleton|idtac].
        by repeat constructor.
      * destruct (TsVariant.isDone r) eqn:Hd.
        -- eexists [_], _, _. split; [done|]. simpl.
           repeat split; first [lia|done|apply only_last_singleton|idtac].
           by repeat constructor.
        -- match goal with |- context [runStream_loop _ _ _ _ _ ?s] =>
             destruct (IH s) as (chunks & exit & st' & -> & Hlen & Hcount
                                 & Hres & Hall & Hdone & Htime & Hend) end.
           eexists (_ :: chunks), _, _. split; [done|]. simpl in *.
           split; [lia|]. split; [lia|]. split; [done|].
           split; [by constructor|].
           split; [by apply only_last_cons|].
           split; [by apply only_last_cons|].
           intros Hexit. destruct (Hend Hexit) as [Hfuel Hquiet].
           split; [lia|]. by constructor.
    + eexists [], _, _. split; [done|]. simpl.
      repeat split; first [lia|done|apply only_last_nil|idtac].
Qed.

(** The shape of everything [runStream] yields, and how it completes. *)
Lemma tsv_runStream_shape (options : RunStreamOptions) (w : W)
    (msgs : list TsVariant.Llm.Message) :
  exists body err fin completion,
    runStream texts outside options w msgs = (body ++ err ++ fin, completion) /\
    (length body <= maxSteps options - step0 options)%nat /\
    Forall (fun c => tsv_isStepOrTimeout c = true) body /\
    only_last tsv_reports_done body /\
    only_last isTimeoutChunk body /\
    (err = [] \/
     err = [StepChunkError ("Maximum number of steps reached: "
                            +:+ pretty (maxSteps options))] /\
     length body = (maxSteps options - step0 options)%nat /\
     Forall (fun c => tsv_isStepChunk c = true /\ tsv_reports_done c = false)
            body) /\
    ((fin = [] /\ exists error, completion = Thrown error) \/
     exists out, fin = [FinalOutputChunk out] /\ completion = Returned tt /\
       stepCount out = (step0 options + length body)%nat /\
       result out = tsv_last_result (prevActionResult options) body /\
       TsVariant.MessageManager.getMessages (agentState out) = agentState out).
Proof.
  unfold runStream.
  destruct (runStream_start texts outside options w msgs)
    as [messages0|error] eqn:Hstart.
  - destruct (tsv_loop_shape options (startTime outside options w)
                (maxSteps options - step0 options)
                (loopStart options w messages0))
      as (chunks & exit & st' & -> & Hlen & Hcount & Hres & Hall & Hdone
          & Htime & Hend).
    unfold runStream_finally.
    exists chunks,
      (match exit with
       | LoopEnded false =>
           [StepChunkError ("Maximum number of steps reached: "
                            +:+ pretty (maxSteps options))]
       | _ => []
       end).
    assert (match exit with
            | LoopEnded false =>
                [StepChunkError ("Maximum number of steps reached: "
                                 +:+ pretty (maxSteps options))]
            | _ => []
            end = [] \/
            match exit with
            | LoopEnded false =>
                [StepChunkError ("Maximum number of steps reached: "
                                 +:+ pretty (maxSteps options))]
            | _ => []
            end = [StepChunkError ("Maximum number of steps reached: "
                                   +:+ pretty (maxSteps options))] /\
            length chunks = (maxSteps options - step0 options)%nat /\
            Forall (fun c => tsv_isStepChunk c = true
                             /\ tsv_reports_done c = false) chunks) as Herr.
    { destruct exit as [|[]|]; [by left|by left| |by left].
      right. split; [done|]. by apply Hend. }
    destruct (getStorageState outside (ls_world st')) as [storage|error];
      [destruct (if closeContext options then close outside (ls_world st')
                 else Returned tt) as [u|error]|].
    + eexists _, _. split; [done|]. do 4 (split; [done|]). split; [done|].
      right. eexists. split; [done|]. split; [done|]. simpl.
      split; [done|]. split; [done|]. apply tsv_getMessages_idem.
    + eexists _, _. split; [done|]. do 4 (split; [done|]). split; [done|].
      left. split; [done|]. by eexists.
    + eexists _, _. split; [done|]. do 4 (split; [done|]). split; [done|].
      left. split; [done|]. by eexists.
  - exists [], [], [], (Thrown error). split; [done|].
    split; [simpl; lia|]. split; [done|].
    split; [apply only_last_nil|]. split; [apply only_last_nil|].
    split; [by left|]. left. split; [done|]. by eexists.
Qed.

Lemma tsv_run_loop_stream (options : RunStreamOptions) (fuel : nat)
    (st : LoopState) :
  timeout options = None ->
  exists chunks exit,
    runStream_loop texts outside options None fuel st
    = (chunks, exit, run_loop texts outside fuel st) /\
    Forall (fun c => tsv_isStepChunk c = true) chunks.
Proof.
  intros Ht. revert st. induction fuel as [|fuel IH]; intros st; simpl.
  - by eexists [], _.
  - destruct (step texts _ _ _ _) as [out messages1].
    destruct out as [[r s]|error]; [|by eexists [], _].
    rewrite Ht. destruct (TsVariant.isDone r).
    + eexists [_], _. split; [done|]. by repeat constructor.
    + match goal with |- context [run_loop _ _ _ ?s] =>
        destruct (IH s) as (chunks & exit & -> & Hall) end.
      eexists (_ :: chunks), _. split; [done|]. by constructor.
Qed.

Lemma tsv_run_loop_bound (fuel : nat) (st : LoopState) :
  (ls_step (run_loop texts outside fuel st) <= ls_step st + fuel)%nat.
Proof.
  revert st. induction fuel as [|fuel IH]; intros st; simpl; [lia|].
  destruct (step texts _ _ _ _) as [out messages1].
  destruct out as [[r s]|error]; simpl; [|lia].
  destruct (TsVariant.isDone r); simpl; [lia|].
  etrans; [apply IH|]. simpl. lia.
Qed.

(** After the set-up, [run] and [runStream] go through the same loop and
    the same [finally] block. *)
Lemma tsv_run_stream_after_setup (options : RunStreamOptions) (w : W)
    (messages0 : list TsVariant.Llm.Message) :
  timeout options = None ->
  prevStep options = None ->
  let finish (st : LoopState) : outcome AgentOutput :=
    bind (getStorageState outside (ls_world st)) (fun storageState =>
    bind (if closeContext options then close outside (ls_world st)
          else Returned tt) (fun _ =>
      Returned
        (mkAgentOutput (getState (ls_messages st)) (ls_result st)
           (ls_step st) storageState (uuid outside)))) in
  let streamed :=
    let '(chunks, exit, st) :=
      runStream_loop texts outside options (startTime outside options w)
        (maxSteps options - step0 options) (loopStart options w messages0) in
    let tail :=
      match exit with
      | LoopEnded false =>
          [StepChunkError ("Maximum number of steps reached: "
                           +:+ pretty (maxSteps options))]
      | _ => []
      end in
    let '(final, completion) := runStream_finally outside options st in
    (chunks ++ tail ++ final, completion) in
  match finish (run_loop texts outside (maxSteps options)
                  (mkLoopState w messages0 0 (prevActionResult options))) with
  | Returned out =>
      exists chunks,
        streamed = (chunks ++ [FinalOutputChunk out], Returned tt) /\
        Forall (fun c => isFinalOutputChunk c = false /\
                         isTimeoutChunk c = false) chunks
  | Thrown error =>
      streamed.2 = Thrown error /\
      Forall (fun c => isFinalOutputChunk c = false) streamed.1
  end.
Proof.
  intros Ht Hp. cbv zeta.
  destruct (tsv_run_loop_stream options (maxSteps options)
              (mkLoopState w messages0 0 (prevActionResult options)) Ht)
    as (chunks & exit & Hloop & Hall).
  unfold startTime, loopStart, step0. rewrite Ht, Hp. simpl.
  rewrite Nat.sub_0_r, Hloop.
  unfold runStream_finally.
  set (tail := match exit with LoopEnded false => _ | _ => [] end).
  assert (Forall (fun c => isFinalOutputChunk c = false /\
                           isTimeoutChunk c = false) (chunks ++ tail))
    as Hquiet.
  { apply Forall_app. split.
    - eapply Forall_impl; [exact Hall|]. by intros [] ?.
    - subst tail. destruct exit as [|[]|]; by repeat constructor. }
  destruct (getStorageState outside _) as [storage|error]; simpl.
  - destruct (if closeContext options then _ else _) as [u|error]; simpl.
    + exists (chunks ++ tail). by rewrite <- (assoc_L (++)).
    + split; [done|]. rewrite app_nil_r.
      eapply Forall_impl; [exact Hquiet|]. by intros ? [? ?].
  - split; [done|]. rewrite app_nil_r.
    eapply Forall_impl; [exact Hquiet|]. by intros ? [? ?].
Qed.
End TsVariantRuns.

(** X14. TsVariant: [run] returns what the stream ends with. Called with
    the same options (and no timeout, no step to resume from),
    [runStream] yields step chunks, possibly the error chunk for the step
    limit, and then a final output chunk that carries exactly the output
    [run] returns; when [run] throws, the stream throws the same error
    and yields no final output chunk. *)
Theorem TsVariant_run_returns_stream_final {W : Type}
    (texts : TsVariant.MessageManager.Texts)
    (outside : TsVariant.Agent.Outside W)
    (prompt : option string) (maxSteps : nat)
    (agentState : option (outcome (list TsVariant.Llm.Message)))
    (closeContext : bool) (prevActionResult : option TsVariant.ActionResult)
    (returnScreenshots : bool) (w : W) (msgs : list TsVariant.Llm.Message) :
  let streamed :=
    TsVariant.Agent.runStream texts outside
      (TsVariant.Agent.mkRunStreamOptions prompt maxSteps agentState
         closeContext prevActionResult None None returnScreenshots) w msgs in
  match TsVariant.Agent.run texts outside prompt maxSteps agentState
          closeContext prevActionResult w msgs with
  | Returned out =>
      exists chunks,
        streamed = (chunks ++ [TsVariant.Agent.FinalOutputChunk out],
                    Returned tt) /\
        Forall (fun c => TsVariant.Agent.isFinalOutputChunk c = false /\
                         TsVariant.Agent.isTimeoutChunk c = false) chunks
  | Thrown error =>
      streamed.2 = Thrown error /\
      Forall (fun c => TsVariant.Agent.isFinalOutputChunk c = false)
             streamed.1
  end.
Proof.
  cbv zeta.
  pose proof (tsv_run_stream_after_setup texts outside
                (TsVariant.Agent.mkRunStreamOptions prompt maxSteps agentState
                   closeContext prevActionResult None None returnScreenshots)
                w) as Hsame.
  unfold TsVariant.Agent.run, TsVariant.Agent.runStream,
    TsVariant.Agent.runStream_start.
  cbn [TsVariant.Agent.prompt TsVariant.Agent.agentStateOpt
       TsVariant.Agent.prevStep].
  destruct prompt as [p|], agentState as [parsed|]; try done;
    (destruct (TsVariant.Agent._setupMessages texts outside w msgs _ _)
       as [messages0|error]; [|done]);
    apply (Hsame messages0 eq_refl eq_refl).
Qed.

(** X15. IndexTs: the protocol of a streaming run. Whatever happens
    outside, [runStream] yields at least one chunk and never more than
    one chunk per step left plus a closing chunk. The closing chunk is
    the final output chunk or an error chunk, and it is the final output
    chunk whenever the set-up and the teardown succeed; no final output
    chunk comes before it; a step chunk that reports the task done and a
    timeout chunk are each followed by the closing chunk only. *)
Theorem IndexTs_runStream_protocol {W : Type}
    (texts : IndexTs.MessageManager.Texts) (outside : IndexTs.Agent.Outside W)
    (w : W) (messages : list IndexTs.Llm.Message) (prompt : string)
    (options : IndexTs.Agent.RunStreamOptions) :
  exists body closing,
    IndexTs.Agent.runStream texts outside w messages prompt options
    = body ++ [closing] /\
    (length body
     <= IndexTs.Agent.maxSteps options - IndexTs.Agent.prevStep options)%nat /\
    Forall (fun c => IndexTs.Agent.isFinalOutputChunk c = false) body /\
    only_last idx_reports_done body /\
    only_last IndexTs.Agent.isTimeoutChunk body /\
    ((exists out, closing = IndexTs.Agent.FinalOutputChunk out) \/
     (exists message, closing = IndexTs.Agent.StepChunkError message)) /\
    (idx_teardown_ok outside ->
     (exists messages0,
        IndexTs.Agent.setup texts outside w messages prompt
          (IndexTs.Agent.agentState options) = Returned messages0) ->
     exists out, closing = IndexTs.Agent.FinalOutputChunk out).
Proof.
  destruct (idx_runStream_shape texts outside w messages prompt options)
    as (body & closing & Hrun & Hlen & Hfin & Hdone & Htime & Hclosing & Hok).
  exists body, closing. do 5 (split; [done|]). split; [|done].
  destruct Hclosing as [[message ->]|(out & -> & _)]; [right|left]; by eexists.
Qed.

(** X16. TsVariant: the protocol of a streaming run. What [runStream]
    yields is, in this order: at most one chunk per step left, each a
    step chunk or a timeout chunk, where a step chunk that reports the
    task done and a timeout chunk can only come last; then possibly the
    error chunk for the step limit, which appears only when every step
    left was taken and none reported the task done; then the final
    output chunk, which is there exactly when the generator completes
    without throwing. *)
Theorem TsVariant_runStream_protocol {W : Type}
    (texts : TsVariant.MessageManager.Texts)
    (outside : TsVariant.Agent.Outside W)
    (options : TsVariant.Agent.RunStreamOptions) (w : W)
    (msgs : list TsVariant.Llm.Message) :
  exists body err fin,
    (TsVariant.Agent.runStream texts outside options w msgs).1
    = body ++ err ++ fin /\
    (length body
     <= TsVariant.Agent.maxSteps options - TsVariant.Agent.step0 options)%nat /\
    Forall (fun c => tsv_isStepOrTimeout c = true) body /\
    only_last tsv_reports_done body /\
    only_last TsVariant.Agent.isTimeoutChunk body /\
    (err = [] \/
     err = [TsVariant.Agent.StepChunkError
              ("Maximum number of steps reached: "
               +:+ pretty (TsVariant.Agent.maxSteps options))] /\
     length body
     = (TsVariant.Agent.maxSteps options - TsVariant.Agent.step0 options)%nat /\
     Forall (fun c => tsv_isStepChunk c = true /\ tsv_reports_done c = false)
            body) /\
    ((fin = [] /\
      exists error,
        (TsVariant.Agent.runStream texts outside options w msgs).2
        = Thrown error) \/
     (exists out, fin = [TsVariant.Agent.FinalOutputChunk out]) /\
     (TsVariant.Agent.runStream texts outside options w msgs).2 = Returned tt).
Proof.
  destruct (tsv_runStream_shape texts outside options w msgs)
    as (body & err & fin & completion & -> & Hlen & Hall & Hdone & Htime
        & Herr & Hfin).
  exists body, err, fin. simpl. do 6 (split; [done|]).
  destruct Hfin as [[-> [error ->]]|(out & -> & -> & _)].
  - left. split; [done|]. by eexists.
  - right. split; [by eexists|done].
Qed.

Lemma filter_all {A : Type} (f : A -> bool) (l : list A) :
  Forall (fun a => f a = true) l -> filter (fun a => f a = true) l = l.
Proof.
  induction 1 as [|a l Ha _ IH]; [done|].
  rewrite filter_cons_True by done. by rewrite IH.
Qed.

Lemma tsv_final_chunk {W : Type} (texts : TsVariant.MessageManager.Texts)
    (outside : TsVariant.Agent.Outside W)
    (options : TsVariant.Agent.RunStreamOptions) (w : W)
    (msgs : list TsVariant.Llm.Message)
    (before : list TsVariant.Agent.AgentStreamChunk)
    (out : TsVariant.Agent.AgentOutput) :
  (TsVariant.Agent.runStream texts outside options w msgs).1
  = before ++ [TsVariant.Agent.FinalOutputChunk out] ->
  TsVariant.Agent.stepCount out
  = (TsVariant.Agent.step0 options
     + length (filter (fun c => tsv_isStepOrTimeout c = true) before))%nat /\
  TsVariant.Agent.result out
  = tsv_last_result (TsVariant.Agent.prevActionResult options) before /\
  TsVariant.MessageManager.getMessages (TsVariant.Agent.agentState out)
  = TsVariant.Agent.agentState out.
Proof.
  destruct (tsv_runStream_shape texts outside options w msgs)
    as (body & err & fin & completion & -> & Hlen & Hall & Hdone & Htime
        & Herr & Hfin).
  simpl. intros Hchunks.
  assert (filter (fun c => tsv_isStepOrTimeout c = true) (body ++ err)
          = body /\
          tsv_last_result (TsVariant.Agent.prevActionResult options)
            (body ++ err)
          = tsv_last_result (TsVariant.Agent.prevActionResult options) body /\
          Forall (fun c => TsVariant.Agent.isFinalOutputChunk c = false)
                 (body ++ err)) as (Hfilter & Hlast & Hquiet).
  { assert (Forall (fun c => TsVariant.Agent.isFinalOutputChunk c = false)
                   body) as Hbody.
    { eapply Forall_impl; [exact Hall|]. by intros []. }
    destruct Herr as [->|(-> & _)].
    - rewrite app_nil_r. split; [by apply filter_all|done].
    - rewrite filter_app, filter_all by done.
      unfold tsv_last_result. rewrite foldl_app. simpl.
      split; [by rewrite app_nil_r|]. split; [done|].
      apply Forall_app. split; [done|by repeat constructor]. }
  destruct Hfin as [[-> _]|(out' & -> & _ & Hcount & Hres & Hstate)].
  - rewrite app_nil_r in Hchunks. rewrite Hchunks in Hquiet.
    apply Forall_app in Hquiet as [_ Hquiet].
    by inversion Hquiet.
  - rewrite (assoc_L (++)) in Hchunks.
    apply app_inj_tail in Hchunks as [<- [= <-]].
    rewrite Hfilter, Hlast. done.
Qed.

Lemma idx_final_chunk {W : Type} (texts : IndexTs.MessageManager.Texts)
    (outside : IndexTs.Agent.Outside W) (w : W)
    (messages : list IndexTs.Llm.Message) (prompt : string)
    (options : IndexTs.Agent.RunStreamOptions)
    (before : list IndexTs.Agent.AgentStreamChunk)
    (out : IndexTs.Agent.AgentOutput) :
  IndexTs.Agent.runStream texts outside w messages prompt options
  = before ++ [IndexTs.Agent.FinalOutputChunk out] ->
  IndexTs.Agent.step_count out
  = (IndexTs.Agent.prevStep options
     + length (filter (fun c => idx_isStepOrError c = true) before))%nat /\
  IndexTs.Agent.result out
  = default (IndexTs.mkActionResult false None (Some "No action result") false)
      (idx_last_result (IndexTs.Agent.prevActionResult options) before) /\
  IndexTs.MessageManager.getMessages (IndexTs.Agent.agent_state out)
  = IndexTs.Agent.agent_state out.
Proof.
  destruct (idx_runStream_shape texts outside w messages prompt options)
    as (body & closing & -> & _ & _ & _ & _ & Hclosing & _).
  intros Hchunks. apply app_inj_tail in Hchunks as [<- ->].
  destruct Hclosing as [[message [=]]|(out' & [= <-] & H)]. exact H.
Qed.

(** X17. The final output accounts for the chunks before it. When a
    streaming run ends with a final output chunk, the step count in it
    is the step the run resumed from plus the number of chunks yielded
    for steps (TsVariant: step and timeout chunks; IndexTs: step and
    step error chunks, the timeout chunk does not count), its result is
    the action result reported last (the one resumed from when no step
    reported any; in IndexTs an error result when there is none), and
    its agent state is a history that [getMessages] leaves as it is. *)
Theorem runStream_final_accounts_for_steps {Wt Wi : Type}
    (ttexts : TsVariant.MessageManager.Texts)
    (toutside : TsVariant.Agent.Outside Wt)
    (toptions : TsVariant.Agent.RunStreamOptions) (tw : Wt)
    (tmsgs : list TsVariant.Llm.Message)
    (tbefore : list TsVariant.Agent.AgentStreamChunk)
    (tout : TsVariant.Agent.AgentOutput)
    (itexts : IndexTs.MessageManager.Texts)
    (ioutside : IndexTs.Agent.Outside Wi) (iw : Wi)
    (imsgs : list IndexTs.Llm.Message) (prompt : string)
    (ioptions : IndexTs.Agent.RunStreamOptions)
    (ibefore : list IndexTs.Agent.AgentStreamChunk)
    (iout : IndexTs.Agent.AgentOutput) :
  (TsVariant.Agent.runStream ttexts toutside toptions tw tmsgs).1
  = tbefore ++ [TsVariant.Agent.FinalOutputChunk tout] ->
  IndexTs.Agent.runStream itexts ioutside iw imsgs prompt ioptions
  = ibefore ++ [IndexTs.Agent.FinalOutputChunk iout] ->
  (TsVariant.Agent.stepCount tout
   = (TsVariant.Agent.step0 toptions
      + length (filter (fun c => tsv_isStepOrTimeout c = true) tbefore))%nat /\
   TsVariant.Agent.result tout
   = tsv_last_result (TsVariant.Agent.prevActionResult toptions) tbefore /\
   TsVariant.MessageManager.getMessages (TsVariant.Agent.agentState tout)
   = TsVariant.Agent.agentState tout) /\
  (IndexTs.Agent.step_count iout
   = (IndexTs.Agent.prevStep ioptions
      + length (filter (fun c => idx_isStepOrError c = true) ibefore))%nat /\
   IndexTs.Agent.result iout
   = default (IndexTs.mkActionResult false None (Some "No action result")
                false)
       (idx_last_result (IndexTs.Agent.prevActionResult ioptions) ibefore) /\
   IndexTs.MessageManager.getMessages (IndexTs.Agent.agent_state iout)
   = IndexTs.Agent.agent_state iout).
Proof.
  intros Ht Hi. split.
  - by eapply tsv_final_chunk.
  - by eapply idx_final_chunk.
Qed.

Lemma runStream_final_accounts_for_steps_witness :
  TsVariant.Agent.stepCount
    (tsv_final_output
       (TsVariant.Agent.runStream tsv_texts tsv_slow_world tsv_slow_options
          0%nat []).1) = 2%nat /\
  IndexTs.Agent.step_count
    (idx_final_output
       (IndexTs.Agent.runStream idx_texts idx_slow_world 0%nat []
          "find the cheapest flight" idx_slow_options)) = 2%nat.
Proof.
  destruct (runStream_final_accounts_for_steps
              tsv_texts tsv_slow_world tsv_slow_options 0%nat []
              (removelast (TsVariant.Agent.runStream tsv_texts tsv_slow_world
                             tsv_slow_options 0%nat []).1)
              (tsv_final_output
                 (TsVariant.Agent.runStream tsv_texts tsv_slow_world
                    tsv_slow_options 0%nat []).1)
              idx_texts idx_slow_world 0%nat [] "find the cheapest flight"
              idx_slow_options
              (removelast (IndexTs.Agent.runStream idx_texts idx_slow_world
                             0%nat [] "find the cheapest flight"
                             idx_slow_options))
              (idx_final_output
                 (IndexTs.Agent.runStream idx_texts idx_slow_world 0%nat []
                    "find the cheapest flight" idx_slow_options)))
    as [(Ht & _) (Hi & _)].
  - vm_compute. reflexivity.
  - vm_compute. reflexivity.
  - rewrite Ht, Hi. split; vm_compute; reflexivity.
Defined.

Section TsVariantRunTotal.
Import TsVariant.Agent.
Context {W : Type} (texts : TsVariant.MessageManager.Texts)
        (outside : Outside W).

Lemma tsv_run_loop_first_fails (fuel : nat) (st : LoopState) (error : thrown) :
  (step texts (stepEnv outside (ls_world st)) (ls_messages st)
        (Z.of_nat (ls_step st)) (ls_result st)).1 = Thrown error ->
  ls_step (run_loop texts outside fuel st) = ls_step st /\
  ls_result (run_loop texts outside fuel st) = ls_result st.
Proof.
  destruct fuel as [|fuel]; simpl; [done|].
  destruct (step texts _ _ _ _) as [out messages1]. simpl. by intros ->.
Qed.
End TsVariantRunTotal.

(** X18. TsVariant: [run] does not fail because a step fails. Once the
    set-up has succeeded and provided the teardown succeeds, [run]
    returns an output whatever the steps do: it has counted at most
    [maxSteps] steps, its agent state is a history that [getMessages]
    leaves as it is, and when the very first step throws it reports no
    step and the result the run was started with. *)
Theorem TsVariant_run_survives_failing_steps {W : Type}
    (texts : TsVariant.MessageManager.Texts)
    (outside : TsVariant.Agent.Outside W)
    (prompt : option string) (maxSteps : nat)
    (agentState : option (outcome (list TsVariant.Llm.Message)))
    (closeContext : bool) (prevActionResult : option TsVariant.ActionResult)
    (w : W) (msgs messages0 : list TsVariant.Llm.Message) :
  tsv_teardown_ok outside ->
  TsVariant.Agent._setupMessages texts outside w msgs prompt agentState
    = Returned messages0 ->
  exists out,
    TsVariant.Agent.run texts outside prompt maxSteps agentState closeContext
      prevActionResult w msgs = Returned out /\
    (TsVariant.Agent.stepCount out <= maxSteps)%nat /\
    TsVariant.MessageManager.getMessages (TsVariant.Agent.agentState out)
    = TsVariant.Agent.agentState out /\
    (forall error,
       (TsVariant.Agent.step texts (TsVariant.Agent.stepEnv outside w)
          messages0 0 prevActionResult).1 = Thrown error ->
       TsVariant.Agent.stepCount out = 0%nat /\
       TsVariant.Agent.result out = prevActionResult).
Proof.
  intros [Hstorage Hclose] Hsetup. unfold TsVariant.Agent.run.
  assert (match prompt, agentState with
          | None, None => False
          | _, _ => True
          end) as Hgiven.
  { by destruct prompt as [p|], agentState as [parsed|]. }
  set (st := TsVariant.Agent.run_loop texts outside maxSteps
               (TsVariant.Agent.mkLoopState w messages0 0 prevActionResult)).
  exists (TsVariant.Agent.mkAgentOutput
            (TsVariant.Agent.getState (TsVariant.Agent.ls_messages st))
            (TsVariant.Agent.ls_result st) (TsVariant.Agent.ls_step st)
            (match TsVariant.Agent.getStorageState outside
                     (TsVariant.Agent.ls_world st) with
             | Returned s => s
             | Thrown _ => ""
             end) (TsVariant.Agent.uuid outside)).
  split.
  - destruct prompt as [p|], agentState as [parsed|]; try done;
      rewrite Hsetup; simpl; fold st;
      destruct (Hstorage (TsVariant.Agent.ls_world st)) as [s ->]; simpl;
      rewrite Hclose; by destruct closeContext.
  - simpl. split.
    + pose proof (tsv_run_loop_bound texts outside maxSteps
                    (TsVariant.Agent.mkLoopState w messages0 0
                       prevActionResult)) as Hbound.
      simpl in Hbound. exact Hbound.
    + split; [apply tsv_getMessages_idem|].
      intros error Hstep.
      by apply (tsv_run_loop_first_fails texts outside maxSteps
                  (TsVariant.Agent.mkLoopState w messages0 0 prevActionResult)
                  error).
Qed.

Lemma TsVariant_run_survives_failing_steps_witness :
  exists out,
    TsVariant.Agent.run tsv_texts tsv_failing_world
      (Some "find the cheapest flight") 5 None true None 0%nat []
    = Returned out /\
    TsVariant.Agent.stepCount out = 0%nat.
Proof.
  destruct (TsVariant_run_survives_failing_steps tsv_texts tsv_failing_world
              (Some "find the cheapest flight") 5 None true None 0%nat []
              (TsVariant.MessageManager.addSystemMessageAndUserPrompt
                 tsv_texts [] "find the cheapest flight"))
    as (out & Hrun & _ & _ & Hfirst).
  - split; [intros w; by eexists|done].
  - reflexivity.
  - exists out. split; [exact Hrun|].
    by apply (Hfirst (ErrorObject "Could not parse response")).
Defined.

(** ** The registries of the controllers *)

Section IndexTsRegistry.
Import IndexTs.

Lemma idx_executeAction_lookup (c1 c2 : Controller) (action : ActionModel)
    (browser : option Browser) :
  actions c1 !! name action = actions c2 !! name action ->
  executeAction c1 action browser = executeAction c2 action browser.
Proof. intros H. unfold executeAction. by rewrite H. Qed.

Lemma idx_register_all_exclude (this : Controller) (regs : list Action) :
  excludeActions (idx_register_all this regs) = excludeActions this.
Proof.
  induction regs as [|a regs IH] using rev_ind; [done|].
  unfold idx_register_all in *. rewrite foldl_app. simpl.
  unfold registerAction at 1. by case_bool_decide.
Qed.

Lemma idx_register_all_lookup (this : Controller) (regs : list Action)
    (n : string) :
  actions (idx_register_all this regs) !! n
  = match idx_newest n regs with
    | Some a =>
        if bool_decide (n ∈ excludeActions this) then actions this !! n
        else Some a
    | None => actions this !! n
    end.
Proof.
  induction regs as [|a regs IH] using rev_ind; [done|].
  pose proof (idx_register_all_exclude this regs) as Hexcl.
  unfold idx_newest in *. rewrite filter_app.
  unfold idx_register_all in *. rewrite foldl_app. simpl.
  unfold registerAction at 1. rewrite Hexcl.
  destruct (decide (action_name a = n)) as [Hn|Hn].
  - rewrite filter_cons_True, filter_nil, last_snoc by done.
    rewrite Hn. case_bool_decide as He; simpl.
    + rewrite IH. by destruct (last _).
    + rewrite <- Hn, lookup_insert_eq. by destruct a.
  - rewrite filter_cons_False, filter_nil, app_nil_r by done.
    destruct (bool_decide (action_name a ∈ excludeActions this)); simpl;
      [exact IH|by rewrite lookup_insert_ne].
Qed.
End IndexTsRegistry.

Section TsVariantRegistry.
Import TsVariant.

Lemma tsv_executeAction_lookup (c1 c2 : Controller) (action : ActionModel)
    (browser : option Browser) :
  _actions c1 !! name action = _actions c2 !! name action ->
  executeAction c1 action browser = executeAction c2 action browser.
Proof. intros H. unfold executeAction, read_action. by rewrite H. Qed.

Lemma tsv_register_all_exclude (this : Controller) (regs : list Action) :
  excludeActions (tsv_register_all this regs) = excludeActions this.
Proof.
  induction regs as [|a regs IH] using rev_ind; [done|].
  unfold tsv_register_all in *. rewrite foldl_app. simpl.
  unfold registerAction at 1. by case_bool_decide.
Qed.

Lemma tsv_register_all_lookup (this : Controller) (regs : list Action)
    (n : string) :
  _actions (tsv_register_all this regs) !! n
  = match tsv_newest n regs with
    | Some a =>
        if bool_decide (n ∈ excludeActions this) then _actions this !! n
        else Some a
    | None => _actions this !! n
    end.
Proof.
  induction regs as [|a regs IH] using rev_ind; [done|].
  pose proof (tsv_register_all_exclude this regs) as Hexcl.
  unfold tsv_newest in *. rewrite filter_app.
  unfold tsv_register_all in *. rewrite foldl_app. simpl.
  unfold registerAction at 1. rewrite Hexcl.
  destruct (decide (action_name a = n)) as [Hn|Hn].
  - rewrite filter_cons_True, filter_nil, last_snoc by done.
    rewrite Hn. case_bool_decide as He; simpl.
    + rewrite IH. by destruct (last _).
    + rewrite <- Hn, lookup_insert_eq. by destruct a.
  - rewrite filter_cons_False, filter_nil, app_nil_r by done.
    destruct (bool_decide (action_name a ∈ excludeActions this)); simpl;
      [exact IH|by rewrite lookup_insert_ne].
Qed.
End TsVariantRegistry.

(** X19. Dispatch after any sequence of registrations. Executing an
    action on a controller on which actions were registered one after
    the other behaves as follows: when the action's name is excluded or
    no registration was made under it, as on the controller before the
    registrations (so no handler registered under an excluded name ever
    runs); otherwise as on a controller that holds the newest
    registration under that name alone. (TsVariant keeps the actions in
    a plain object, so no registration may be named [__proto__].) *)
Theorem dispatch_after_registrations
    (ithis : IndexTs.Controller) (iregs : list IndexTs.Action)
    (iaction : IndexTs.ActionModel)
    (tthis : TsVariant.Controller) (tregs : list TsVariant.Action)
    (taction : TsVariant.ActionModel) (browser : option Browser) :
  Forall (fun a => TsVariant.action_name a <> "__proto__") tregs ->
  IndexTs.executeAction (idx_register_all ithis iregs) iaction browser
  = match idx_newest (IndexTs.name iaction) iregs with
    | Some a =>
        if bool_decide (IndexTs.name iaction ∈ IndexTs.excludeActions ithis)
        then IndexTs.executeAction ithis iaction browser
        else IndexTs.executeAction
               (idx_register_all (IndexTs.mkController ∅ []) [a])
               iaction browser
    | None => IndexTs.executeAction ithis iaction browser
    end /\
  TsVariant.executeAction (tsv_register_all tthis tregs) taction browser
  = match tsv_newest (TsVariant.name taction) tregs with
    | Some a =>
        if bool_decide (TsVariant.name taction
                        ∈ TsVariant.excludeActions tthis)
        then TsVariant.executeAction tthis taction browser
        else TsVariant.executeAction
               (tsv_register_all (TsVariant.mkController ∅ []) [a])
               taction browser
    | None => TsVariant.executeAction tthis taction browser
    end.
Proof.
  intros _. split.
  - pose proof (idx_register_all_lookup ithis iregs (IndexTs.name iaction))
      as Hlookup.
    destruct (idx_newest (IndexTs.name iaction) iregs) as [a|] eqn:Hnewest;
      [case_bool_decide|]; apply idx_executeAction_lookup; rewrite Hlookup;
      try done.
    assert (IndexTs.action_name a = IndexTs.name iaction) as Ha.
    { unfold idx_newest in Hnewest. apply last_Some_elem_of in Hnewest.
      by apply list_elem_of_filter in Hnewest as [? _]. }
    unfold idx_register_all, IndexTs.registerAction. simpl.
    rewrite <- Ha, lookup_insert_eq. by destruct a.
  - pose proof (tsv_register_all_lookup tthis tregs (TsVariant.name taction))
      as Hlookup.
    destruct (tsv_newest (TsVariant.name taction) tregs) as [a|] eqn:Hnewest;
      [case_bool_decide|]; apply tsv_executeAction_lookup; rewrite Hlookup;
      try done.
    assert (TsVariant.action_name a = TsVariant.name taction) as Ha.
    { unfold tsv_newest in Hnewest. apply last_Some_elem_of in Hnewest.
      by apply list_elem_of_filter in Hnewest as [? _]. }
    unfold tsv_register_all, TsVariant.registerAction. simpl.
    rewrite <- Ha, lookup_insert_eq. by destruct a.
Qed.

Lemma dispatch_after_registrations_witness :
  IndexTs.executeAction
    (idx_register_all (IndexTs.mkController ∅ ["done"]) idx_registrations)
    (IndexTs.mkActionModel "wait" []) None
  = Returned (IndexTs.mkActionResult false (Some "waited 3s") None false) /\
  TsVariant.executeAction
    (tsv_register_all (TsVariant.mkController ∅ ["done"]) tsv_registrations)
    (TsVariant.mkActionModel "done" []) None
  = Returned (TsVariant.new_ActionResult (Some false) None
                (Some "Action done not found") None).
Proof.
  destruct (dispatch_after_registrations
              (IndexTs.mkController ∅ ["done"]) idx_registrations
              (IndexTs.mkActionModel "wait" [])
              (TsVariant.mkController ∅ ["done"]) tsv_registrations
              (TsVariant.mkActionModel "done" []) None) as [-> ->].
  - by repeat constructor.
  - split; vm_compute; reflexivity.
Defined.

(** ** Retries: the detector and the browser state *)

(** X20. TsVariant: a detection calls the endpoint at most three times
    and never fails. [detectFromImage] returns the elements of the first
    call that succeeds among the first three and makes no call after it;
    when all three fail it returns no element. Before the second call it
    waits 500 ms, before the third 1000 ms. *)
Theorem detectFromImage_retries (endpoints : TsVariant.Detector.Endpoints)
    (imageB64 : string) (detectSheets : bool) (k : nat) :
  let d := TsVariant.Detector.detectFromImage endpoints imageB64 detectSheets k in
  let call (j : nat) :=
    TsVariant.Detector.callEndpoint endpoints detectSheets (k + j) imageB64 in
  exists n : nat,
    TsVariant.Detector.calls d = (k + n)%nat /\
    (1 <= n <= 3)%nat /\
    (forall j : nat, (S j < n)%nat -> exists error, call j = Thrown error) /\
    (call (n - 1)%nat = Returned (TsVariant.Detector.detected d) \/
     n = 3%nat /\ TsVariant.Detector.detected d = [] /\
     exists error, call 2%nat = Thrown error) /\
    TsVariant.Detector.delays d = take (n - 1) [500; 1000].
Proof.
  intros d call. subst d.
  unfold TsVariant.Detector.detectFromImage, TsVariant.Detector.retryDetection.
  assert (call 0%nat
          = TsVariant.Detector.callEndpoint endpoints detectSheets k imageB64)
    as Hc0 by (unfold call; f_equal; lia).
  assert (call 1%nat
          = TsVariant.Detector.callEndpoint endpoints detectSheets (S k)
              imageB64) as Hc1 by (unfold call; f_equal; lia).
  assert (call 2%nat
          = TsVariant.Detector.callEndpoint endpoints detectSheets (S (S k))
              imageB64) as Hc2 by (unfold call; f_equal; lia).
  clearbody call.
  destruct (TsVariant.Detector.callEndpoint endpoints detectSheets k imageB64)
    as [els0|e0].
  { exists 1%nat. cbn. split; [lia|]. split; [lia|]. split; [intros j; lia|].
    split; [by left|done]. }
  cbn [Nat.sub TsVariant.Detector.retryDetection_loop].
  destruct (TsVariant.Detector.callEndpoint endpoints detectSheets (S k)
              imageB64) as [els1|e1].
  { exists 2%nat. cbn. split; [lia|]. split; [lia|]. split.
    - intros [|j] Hj; [by eexists|lia].
    - split; [by left|done]. }
  destruct (TsVariant.Detector.callEndpoint endpoints detectSheets (S (S k))
              imageB64) as [els2|e2].
  { exists 3%nat. cbn. split; [lia|]. split; [lia|]. split.
    - intros [|[|j]] Hj; [by eexists|by eexists|lia].
    - split; [by left|done]. }
  exists 3%nat. cbn. split; [lia|]. split; [lia|]. split.
  - intros [|[|j]] Hj; [by eexists|by eexists|lia].
  - split; [|done]. right. split; [done|]. split; [done|]. by eexists.
Qed.

(** X21. TsVariant: [updateState] tries up to three times and then falls
    back on the state it has. It returns and stores the state of the
    first attempt that succeeds, having waited 500 ms, 1000 ms, ... after
    each failed one. When all three attempts fail it has waited 500,
    1000 and 2000 ms and returns the stored state as it is, or, when
    none is stored, throws the error of the last attempt. So once a
    state is stored, [updateState] never throws. *)
Theorem updateState_retries_then_falls_back
    (attemptBody : nat -> outcome TsVariant.Models.BrowserState)
    (this : TsVariant.BrowserClass.Fields) :
  let out := TsVariant.BrowserClass.updateState attemptBody this in
  let attempt (j : nat) :=
    attemptBody (TsVariant.BrowserClass.attemptsMade this + j)%nat in
  (exists n : nat,
     TsVariant.BrowserClass.attemptsMade out.2
     = (TsVariant.BrowserClass.attemptsMade this + n)%nat /\
     (1 <= n <= 3)%nat /\
     (forall j : nat, (S j < n)%nat -> exists error, attempt j = Thrown error) /\
     ((exists state,
         attempt (n - 1)%nat = Returned state /\
         out.1 = Returned state /\
         TsVariant.BrowserClass._state out.2 = Some state /\
         TsVariant.BrowserClass.waited out.2
         = TsVariant.BrowserClass.waited this
           ++ take (n - 1) [500; 1000; 2000]) \/
      (n = 3%nat /\
       exists error,
         attempt 2%nat = Thrown error /\
         TsVariant.BrowserClass.waited out.2
         = TsVariant.BrowserClass.waited this ++ [500; 1000; 2000] /\
         TsVariant.BrowserClass._state out.2
         = TsVariant.BrowserClass._state this /\
         out.1 = match TsVariant.BrowserClass._state this with
                 | Some state => Returned state
                 | None => Thrown (TsVariant.BrowserClass.asError error)
                 end))) /\
  (TsVariant.BrowserClass._state this <> None ->
   exists state,
     out.1 = Returned state /\
     TsVariant.BrowserClass._state out.2 = Some state).
Proof.
  intros out attempt. subst out.
  unfold TsVariant.BrowserClass.updateState, TsVariant.BrowserClass._updateState,
    TsVariant.BrowserClass.retryGetStableState.
  cbv zeta.
  set (k := TsVariant.BrowserClass.attemptsMade this).
  assert (attempt 0%nat = attemptBody k) as Hc0
    by (unfold attempt; f_equal; lia).
  assert (attempt 1%nat = attemptBody (S k)) as Hc1
    by (unfold attempt; f_equal; lia).
  assert (attempt 2%nat = attemptBody (S (S k))) as Hc2
    by (unfold attempt; f_equal; lia).
  clearbody attempt.
  cbn [TsVariant.BrowserClass.retryGetStableState_loop].
  destruct (attemptBody k) as [s0|e0].
  { cbn. split; [|intros _; by eexists].
    exists 1%nat. split; [lia|]. split; [lia|]. split; [intros j; lia|].
    left. exists s0. by cbn. }
  destruct (attemptBody (S k)) as [s1|e1].
  { cbn. split; [|intros _; by eexists].
    exists 2%nat. split; [lia|]. split; [lia|]. split.
    - intros [|j] Hj; [by eexists|lia].
    - left. exists s1. by cbn. }
  destruct (attemptBody (S (S k))) as [s2|e2].
  { cbn. split; [|intros _; by eexists].
    exists 3%nat. split; [lia|]. split; [lia|]. split.
    - intros [|[|j]] Hj; [by eexists|by eexists|lia].
    - left. exists s2. by cbn. }
  cbn. destruct (TsVariant.BrowserClass._state this) as [state|] eqn:Hstate;
    cbn.
  - split; [|intros _; by eexists].
    exists 3%nat. split; [lia|]. split; [lia|]. split.
    + intros [|[|j]] Hj; [by eexists|by eexists|lia].
    + right. split; [done|]. by exists e2.
  - split; [|done].
    exists 3%nat. split; [lia|]. split; [lia|]. split.
    + intros [|[|j]] Hj; [by eexists|by eexists|lia].
    + right. split; [done|]. by exists e2.
Qed.

(** ** The record of elements in a browser state *)

Lemma record_of_positions {E : Type} (indexOf : E -> Z) (l : list E) (k : Z) :
  (forall (i : nat) (e : E), l !! i = Some e -> indexOf e = Z.of_nat i) ->
  foldl (fun (record : gmap Z E) e => <[indexOf e := e]> record) ∅ l !! k
  = if bool_decide (0 <= k)%Z then l !! Z.to_nat k else None.
Proof.
  induction l as [|a l IH] using rev_ind; intros Hpos.
  - simpl. rewrite lookup_empty. by case_bool_decide.
  - rewrite foldl_app. simpl.
    assert (indexOf a = Z.of_nat (length l)) as Ha.
    { apply Hpos. by rewrite lookup_app_r, Nat.sub_diag by lia. }
    rewrite Ha. destruct (decide (k = Z.of_nat (length l))) as [->|Hk].
    + rewrite lookup_insert_eq, bool_decide_eq_true_2 by lia.
      by rewrite Nat2Z.id, lookup_app_r, Nat.sub_diag by lia.
    + rewrite lookup_insert_ne by done. rewrite IH.
      * case_bool_decide; [|done].
        destruct (decide (Z.to_nat k < length l)%nat).
        -- by rewrite lookup_app_l by done.
        -- rewrite !lookup_ge_None_2; [done| |lia].
           rewrite length_app. simpl. lia.
      * intros i e Hi. apply Hpos. by apply lookup_app_l_Some.
Qed.

(** X22. The record of elements that a browser state carries, built from
    the elements the fusion returned, holds under each key from 0 to
    n-1 the element at that position of the fused array and nothing
    under any other key: looking an element up by the index shown for it
    gives that element back, and no fused element is lost. *)
Theorem state_record_holds_fused_elements
    (browserElements cvElements : list IndexTs.InteractiveElement)
    (browserElements' cvElements' : list TsVariant.InteractiveElement)
    (iouThreshold : Q) (k : Z) :
  let out :=
    IndexTs.combineAndFilterElements
      (store_of_inputs browserElements cvElements) 0%nat 1%nat iouThreshold in
  let out' :=
    TsVariant.combineAndFilterElements
      (store_of_inputs browserElements' cvElements') 0%nat 1%nat iouThreshold in
  IndexTs.interactiveElementsRecord (elements_of out.1 out.2) !! k
  = (if bool_decide (0 <= k)%Z then elements_of out.1 out.2 !! Z.to_nat k
     else None) /\
  TsVariant.interactiveElementsRecord (elements_of out'.1 out'.2) !! k
  = (if bool_decide (0 <= k)%Z then elements_of out'.1 out'.2 !! Z.to_nat k
     else None).
Proof.
  intros out out'. unfold out, out'.
  rewrite IndexTs_combine_elements, TsVariant_combine_elements.
  split.
  - apply (record_of_positions IndexTs.index). intros i e.
    unfold IndexTs.combineAndFilterElements_pure,
      IndexTs.sortElementsByPosition_pure. cbv zeta.
    destruct (IndexTs.filterOverlappingElements_pure _ _); [done|].
    rewrite list_lookup_imap.
    destruct (_ !! i) as [e'|]; simpl; [|done]. by intros [= <-].
  - apply (record_of_positions TsVariant.index). intros i e.
    unfold TsVariant.combineAndFilterElements_pure,
      TsVariant.sortElementsByPosition_pure. cbv zeta.
    destruct (TsVariant.filterOverlappingElements_pure _ _); [done|].
    rewrite list_lookup_imap.
    destruct (_ !! i) as [e'|]; simpl; [|done]. by intros [= <-].
Qed.

(** ** Resuming a run *)

Section IndexTsResume.
Import IndexTs.Agent.
Context {W : Type} (texts : IndexTs.MessageManager.Texts)
        (outside : Outside W).

Lemma idx_addCurrentStateMessage_snoc (state : IndexTs.Models.BrowserState)
    (previous : option IndexTs.ActionResult) :
  exists stateMsg,
    IndexTs.Llm.is_state_message stateMsg = false /\
    forall msgs,
      IndexTs.MessageManager.addCurrentStateMessage texts msgs state previous
      = msgs ++ [stateMsg].
Proof.
  unfold IndexTs.MessageManager.addCurrentStateMessage. cbv zeta.
  eexists. split; [|intros msgs; reflexivity]. reflexivity.
Qed.

(** A step reads the history through [getMessages] only. *)
Lemma idx_step_related (env : StepEnv) (m1 m2 : list IndexTs.Llm.Message)
    (previous : option IndexTs.ActionResult) :
  IndexTs.MessageManager.getMessages m1 = IndexTs.MessageManager.getMessages m2 ->
  (step texts env true m1 previous).1 = (step texts env true m2 previous).1 /\
  IndexTs.MessageManager.getMessages (step texts env true m1 previous).2
  = IndexTs.MessageManager.getMessages (step texts env true m2 previous).2.
Proof.
  intros Hm. unfold step. simpl.
  destruct (updateState env) as [state|error]; [|done].
  destruct (idx_addCurrentStateMessage_snoc state previous)
    as (stateMsg & Hplain & Hadd).
  rewrite !Hadd, !idx_getMessages_snoc_plain, Hm by done.
  destruct (generateAction env _) as [output|error]; [|done].
  by destruct (executeAction env _).
Qed.

Lemma idx_loop_related (options : RunStreamOptions) (fuel : nat) (w : W)
    (m1 m2 : list IndexTs.Llm.Message) (n : nat)
    (r : option IndexTs.ActionResult) :
  truthy_timeout (timeout options) = None ->
  IndexTs.MessageManager.getMessages m1 = IndexTs.MessageManager.getMessages m2 ->
  exists chunks timedOut w' m1' m2' n' r',
    runStream_loop texts outside options fuel (mkLoopState w m1 n r)
    = (chunks, timedOut, mkLoopState w' m1' n' r') /\
    runStream_loop texts outside options fuel (mkLoopState w m2 n r)
    = (chunks, timedOut, mkLoopState w' m2' n' r') /\
    IndexTs.MessageManager.getMessages m1'
    = IndexTs.MessageManager.getMessages m2'.
Proof.
  intros Ht. revert w m1 m2 n r.
  induction fuel as [|fuel IH]; intros w m1 m2 n r Hm; simpl.
  - by eexists [], _, _, _, _, _, _.
  - unfold executeStepWithTimeout. rewrite Ht. simpl.
    destruct (idx_step_related (stepEnv outside w) m1 m2 r Hm) as [Hout Hhist].
    destruct (step texts (stepEnv outside w) true m1 r) as [out1 h1].
    destruct (step texts (stepEnv outside w) true m2 r) as [out2 h2].
    simpl in Hout, Hhist. subst out2.
    destruct out1 as [[result summary]|error]; simpl.
    + destruct (IndexTs.is_done result).
      * by eexists [_], _, _, _, _, _, _.
      * destruct (IH (afterStep outside w) h1 h2 (S n) (Some result) Hhist)
          as (chunks & timedOut & w' & m1' & m2' & n' & r' & -> & -> & H).
        by eexists (_ :: chunks), _, _, _, _, _, _.
    + destruct (IH (afterStep outside w) h1 h2 (S n) r Hhist)
        as (chunks & timedOut & w' & m1' & m2' & n' & r' & -> & -> & H).
      by eexists (_ :: chunks), _, _, _, _, _, _.
Qed.

(** A loop that no step ends early is the loop of its first [a]
    iterations followed by the loop of the remaining ones. *)
Lemma idx_loop_split (options : RunStreamOptions) (a b : nat) (st : LoopState) :
  truthy_timeout (timeout options) = None ->
  Forall (fun c => idx_reports_done c = false)
         (runStream_loop texts outside options a st).1.1 ->
  exists st1,
    (runStream_loop texts outside options a st).2 = st1 /\
    ls_world st1 = Nat.iter a (afterStep outside) (ls_world st) /\
    ls_stepCount st1 = (ls_stepCount st + a)%nat /\
    runStream_loop texts outside options (a + b) st
    = ((runStream_loop texts outside options a st).1.1
       ++ (runStream_loop texts outside options b st1).1.1,
       (runStream_loop texts outside options b st1).1.2,
       (runStream_loop texts outside options b st1).2).
Proof.
  intros Ht. revert st. induction a as [|a IH]; intros st Hquiet.
  - eexists. split; [done|]. simpl. split; [done|]. split; [lia|].
    by destruct (runStream_loop texts outside options b st) as [[? ?] ?].
  - simpl in *. unfold executeStepWithTimeout in *. rewrite Ht in *.
    destruct (step texts (stepEnv outside (ls_world st)) true (ls_messages st)
                (ls_actionResult st)) as [out h].
    destruct out as [[result summary]|error]; simpl in *.
    + destruct (IndexTs.is_done result) eqn:Hd.
      * simpl in Hquiet. apply Forall_cons in Hquiet as [Hq _].
        simpl in Hq. congruence.
      * match goal with |- context [runStream_loop _ _ _ a ?s] =>
          specialize (IH s); set (next := s) in * end.
        destruct (runStream_loop texts outside options a next)
          as [[chunks timedOut] st1] eqn:Eloop.
        simpl in *. apply Forall_cons in Hquiet as [_ Hquiet].
        destruct (IH Hquiet) as (st1' & <- & Hw & Hn & ->).
        exists st1. split; [done|].
        split; [rewrite Hw; subst next; simpl; by rewrite <- Nat.iter_succ_r|].
        split; [simpl in Hn; lia|].
        done.
    + match goal with |- context [runStream_loop _ _ _ a ?s] =>
        specialize (IH s); set (next := s) in * end.
      destruct (runStream_loop texts outside options a next)
        as [[chunks timedOut] st1] eqn:Eloop.
      simpl in *. apply Forall_cons in Hquiet as [_ Hquiet].
      destruct (IH Hquiet) as (st1' & <- & Hw & Hn & ->).
      exists st1. split; [done|].
      split; [rewrite Hw; subst next; simpl; by rewrite <- Nat.iter_succ_r|].
      split; [simpl in Hn; lia|].
      done.
Qed.
End IndexTsResume.

Section IndexTsResumeRun.
Import IndexTs.Agent.
Context {W : Type} (texts : IndexTs.MessageManager.Texts)
        (outside : Outside W).

(** The loop reads the options for the timeout only. *)
Lemma idx_loop_timeout_only (o1 o2 : RunStreamOptions) (fuel : nat)
    (st : LoopState) :
  timeout o1 = timeout o2 ->
  runStream_loop texts outside o1 fuel st
  = runStream_loop texts outside o2 fuel st.
Proof.
  intros Ht. revert st. induction fuel as [|fuel IH]; intros st; simpl; [done|].
  rewrite Ht.
  destruct (executeStepWithTimeout _ _ _ _ _ _) as [out h].
  destruct out as [[[result summary]|data]|error]; [|done|by rewrite IH].
  destruct (IndexTs.is_done result); [done|by rewrite IH].
Qed.

Lemma idx_last_result_snoc (previous : option IndexTs.ActionResult)
    (chunks : list AgentStreamChunk) (chunk : AgentStreamChunk) :
  idx_reports_done chunk = true ->
  exists r,
    idx_last_result previous (chunks ++ [chunk]) = Some r /\
    IndexTs.is_done r = true.
Proof.
  intros Hdone. unfold idx_last_result. rewrite foldl_app. simpl.
  destruct chunk as [r s sc| | |]; try done. by exists r.
Qed.

(** When the result reported last does not report the task done, no
    chunk of the loop does. *)
Lemma idx_loop_quiet (options : RunStreamOptions) (fuel : nat)
    (st : LoopState) (r : IndexTs.ActionResult) :
  ls_actionResult (runStream_loop texts outside options fuel st).2 = Some r ->
  IndexTs.is_done r = false ->
  Forall (fun c => idx_reports_done c = false)
         (runStream_loop texts outside options fuel st).1.1.
Proof.
  intros Hr Hd.
  destruct (idx_loop_shape texts outside options fuel st)
    as (chunks & timedOut & st' & E & _ & _ & Hres & _ & Hdone & _).
  rewrite E in *. simpl in *. apply Forall_forall. intros c Hc.
  destruct (idx_reports_done c) eqn:Hcd; [|done].
  apply list_elem_of_lookup in Hc as [i Hi].
  pose proof (Hdone i c Hi Hcd) as Hlast.
  assert (chunks = take i chunks ++ [c]) as Hsplit.
  { rewrite <- (take_drop i chunks) at 1. f_equal.
    rewrite (drop_S _ c) by done. rewrite drop_ge by lia. done. }
  destruct (idx_last_result_snoc (ls_actionResult st) (take i chunks) c Hcd)
    as (r' & Hr' & Hd').
  rewrite <- Hsplit, <- Hres, Hr in Hr'. congruence.
Qed.
End IndexTsResumeRun.

(** X23. IndexTs: a run can be resumed from its final output. Take a
    streaming run without timeout that ends with a final output whose
    result does not report the task done and in which some step
    succeeded. A second [runStream] that is handed the agent state, the
    result and the step count of that output, in the outside world as
    the first run's steps left it, yields exactly the chunks by which
    one run with the larger step limit goes beyond the first run: such a
    run yields the first run's chunks up to its final output, then the
    chunks of the resumed run. *)
Theorem IndexTs_resume_continues_run {W : Type}
    (texts : IndexTs.MessageManager.Texts) (outside : IndexTs.Agent.Outside W)
    (w : W) (messages messages' : list IndexTs.Llm.Message)
    (prompt prompt' : string) (a b : nat)
    (chunks : list IndexTs.Agent.AgentStreamChunk)
    (out : IndexTs.Agent.AgentOutput) :
  let w' :=
    Nat.iter (IndexTs.Agent.step_count out) (IndexTs.Agent.afterStep outside) w in
  IndexTs.Agent.runStream texts outside w messages prompt
    (IndexTs.Agent.mkRunStreamOptions a 0 None None None)
  = chunks ++ [IndexTs.Agent.FinalOutputChunk out] ->
  IndexTs.is_done (IndexTs.Agent.result out) = false ->
  idx_last_result None chunks <> None ->
  IndexTs.Agent.browserInit outside w' = Returned tt ->
  IndexTs.Agent.runStream texts outside w messages prompt
    (IndexTs.Agent.mkRunStreamOptions (a + b) 0 None None None)
  = chunks
    ++ IndexTs.Agent.runStream texts outside w' messages' prompt'
         (IndexTs.Agent.mkRunStreamOptions (a + b)
            (IndexTs.Agent.step_count out)
            (Some (IndexTs.Agent.result out)) None
            (Some (Returned (IndexTs.Agent.agent_state out)))).
Proof.
  intros w' Hfirst Hdone Hsome Hinit. subst w'.
  unfold IndexTs.Agent.runStream in *. simpl in *.
  destruct (IndexTs.Agent.setup texts outside w messages prompt None)
    as [messages0|error] eqn:Hsetup.
  2:{ apply (app_inj_tail [] chunks) in Hfirst as [_ [=]]. }
  rewrite Nat.sub_0_r in *.
  set (first := IndexTs.Agent.mkRunStreamOptions a 0 None None None) in *.
  set (single := IndexTs.Agent.mkRunStreamOptions (a + b) 0 None None None).
  set (st := IndexTs.Agent.loopStart first w messages0) in *.
  assert (IndexTs.Agent.loopStart single w messages0 = st) as -> by done.
  rewrite (idx_loop_timeout_only texts outside single first) by done.
  pose proof (idx_loop_shape texts outside first a st)
    as (c1 & t1 & st1 & E1 & _ & _ & Hres & _ & _ & _).
  pose proof (idx_loop_quiet texts outside first a st) as Hquiet.
  pose proof (idx_loop_split texts outside first a b st eq_refl) as Hsplit.
  rewrite E1 in *. simpl in Hquiet, Hsplit.
  assert (exists storage,
            IndexTs.Agent.getStorageState outside (IndexTs.Agent.ls_world st1)
            = Returned storage /\
            IndexTs.Agent.close outside (IndexTs.Agent.ls_world st1)
            = Returned tt /\
            chunks = c1 /\
            out = IndexTs.Agent.mkAgentOutput
                    (IndexTs.Agent.getState (IndexTs.Agent.ls_messages st1))
                    (default (IndexTs.mkActionResult false None
                                (Some "No action result") false)
                             (IndexTs.Agent.ls_actionResult st1))
                    (IndexTs.Agent.ls_stepCount st1) (Some storage))
    as (storage & Hstorage & Hclose & -> & ->).
  { destruct (IndexTs.Agent.getStorageState outside _) as [storage|error];
      [destruct (IndexTs.Agent.close outside _) as [[]|error]|];
      apply app_inj_tail in Hfirst as [<- [=]].
    by exists storage. }
  clear Hfirst. simpl in *.
  destruct (IndexTs.Agent.ls_actionResult st1) as [r|] eqn:Hr.
  2:{ rewrite Hres in Hr. done. }
  simpl in Hdone.
  destruct (Hsplit (Hquiet r eq_refl Hdone)) as (st1' & <- & Hw & Hn & ->).
  simpl in Hw, Hn. rewrite Hn, <- Hw.
  unfold IndexTs.Agent.setup. rewrite Hn, <- Hw in Hinit. rewrite Hinit. simpl.
  unfold IndexTs.MessageManager.setMessages.
  replace (a + b - a)%nat with b by lia.
  unfold IndexTs.Agent.loopStart. simpl.
  destruct (idx_loop_related texts outside first b (IndexTs.Agent.ls_world st1)
              (IndexTs.Agent.ls_messages st1)
              (IndexTs.Agent.getState (IndexTs.Agent.ls_messages st1))
              a (Some r) eq_refl)
    as (c2 & t2 & w2 & m2 & m2' & n2 & r2 & Eleft & Eright & Hrel).
  { unfold IndexTs.Agent.getState. by rewrite idx_getMessages_idem. }
  assert (st1 = IndexTs.Agent.mkLoopState (IndexTs.Agent.ls_world st1)
                  (IndexTs.Agent.ls_messages st1) a (Some r)) as Hst1.
  { destruct st1. simpl in *. by subst. }
  rewrite <- Hst1 in Eleft. rewrite Eleft. simpl.
  rewrite (idx_loop_timeout_only texts outside
             (IndexTs.Agent.mkRunStreamOptions (a + b) a (Some r) None
                (Some (Returned
                   (IndexTs.Agent.getState (IndexTs.Agent.ls_messages st1)))))
             first) by done.
  rewrite Eright. simpl. unfold IndexTs.Agent.getState. rewrite Hrel.
  destruct (IndexTs.Agent.getStorageState outside w2) as [storage2|error];
    [destruct (IndexTs.Agent.close outside w2) as [[]|error]|];
    by rewrite <- (assoc_L (++)).
Qed.

Lemma IndexTs_resume_continues_run_witness :
  IndexTs.Agent.runStream idx_texts idx_slow_world 0%nat []
    "find the cheapest flight"
    (IndexTs.Agent.mkRunStreamOptions (2 + 1) 0 None None None)
  = removelast idx_first_run
    ++ IndexTs.Agent.runStream idx_texts idx_slow_world
         (Nat.iter (IndexTs.Agent.step_count (idx_final_output idx_first_run))
            (IndexTs.Agent.afterStep idx_slow_world) 0%nat)
         [] "go on"
         (IndexTs.Agent.mkRunStreamOptions (2 + 1)
            (IndexTs.Agent.step_count (idx_final_output idx_first_run))
            (Some (IndexTs.Agent.result (idx_final_output idx_first_run)))
            None
            (Some (Returned
               (IndexTs.Agent.agent_state (idx_final_output idx_first_run))))).
Proof.
  apply (IndexTs_resume_continues_run idx_texts idx_slow_world 0%nat [] []
           "find the cheapest flight" "go on" 2 1 (removelast idx_first_run)
           (idx_final_output idx_first_run)).
  - vm_compute. reflexivity.
  - vm_compute. reflexivity.
  - vm_compute. discriminate.
  - reflexivity.
Defined.

(** ** The request sent to the model *)

Section AnthropicRequest.
Import IndexTs.Llm IndexTs.MessageManager IndexTs.AnthropicProvider.
Implicit Types (m : Message) (msgs : list Message).

Lemma anthropic_marked_in_format m :
  anthropic_marked_in
    (mkAnthropicMessage (role m)
       match content m with
       | ContentArray blocks =>
           AnthropicBlocks (map (toAnthropicBlock true) blocks)
       | ContentString s => AnthropicString s
       end)
  = idx_marked_in m.
Proof.
  unfold anthropic_marked_in, idx_marked_in. simpl.
  destruct (content m) as [s|blocks]; [done|].
  induction blocks as [|c cs IH]; [done|]. simpl.
  assert (anthropic_marked_block (toAnthropicBlock true c) = idx_marked c) as Hc.
  { unfold idx_marked. by destruct c as [? [[]|]|? ? ? [[]|]|? ? [[]|]]. }
  rewrite !filter_cons. rewrite Hc.
  destruct (decide (idx_marked c = true)); simpl; by rewrite IH.
Qed.

Lemma anthropic_marked_toAnthropicFormat msgs :
  anthropic_marked_blocks (toAnthropicFormat msgs true)
  = sum_list_with idx_marked_in msgs.
Proof.
  unfold anthropic_marked_blocks, toAnthropicFormat.
  induction msgs as [|m msgs IH]; [done|]. simpl.
  by rewrite anthropic_marked_in_format, IH.
Qed.

Lemma idx_marked_prepareMessages msgs :
  sum_list_with idx_marked_in (prepareMessages msgs)
  = sum_list_with idx_marked_in msgs.
Proof.
  unfold prepareMessages. induction msgs as [|m msgs IH]; [done|]. simpl.
  rewrite IH. f_equal. unfold idx_marked_in.
  by destruct (content m) as [s|blocks] eqn:E; simpl; rewrite ?E.
Qed.

Lemma prepareMessages_role msgs :
  map role (prepareMessages msgs) = map role msgs.
Proof.
  unfold prepareMessages. rewrite map_map. apply map_ext. intros m.
  by destruct (content m).
Qed.

(** When no system message carries a marker, counting over all messages
    is counting over the messages that are not system messages. *)
Lemma idx_marked_all msgs :
  (forall m, m ∈ msgs -> role m = SYSTEM -> idx_marked_in m = 0%nat) ->
  sum_list_with idx_marked_in msgs = idx_marked_blocks msgs.
Proof.
  unfold idx_marked_blocks. induction msgs as [|m msgs IH]; intros H; [done|].
  simpl. rewrite IH by (intros x Hx; apply H; by right).
  f_equal. unfold idx_non_system. case_bool_decide; simpl; [|done].
  apply H; [by left|done].
Qed.

Lemma idx_getMessages_elem_of msgs m :
  m ∈ getMessages msgs ->
  m ∈ msgs \/ exists m', m' ∈ msgs /\ m = clearMessage m'.
Proof.
  destruct (last_true_split eligible msgs)
    as [Hnone|(pre & x & post & -> & Hx & Hpost)].
  - rewrite idx_getMessages_none by done. by left.
  - rewrite idx_getMessages_split by done.
    intros [Hm|Hm]%elem_of_app.
    + unfold idx_cleared in Hm.
      apply list_elem_of_fmap in Hm as (m' & -> & Hm').
      destruct (eligible m').
      * right. exists m'. split; [|done]. apply elem_of_app. by left.
      * left. apply elem_of_app. by left.
    + left. apply elem_of_app. by right.
Qed.

Lemma dropImages_role m : role (dropImages m) = role m.
Proof.
  unfold dropImages. destruct (content m); [done|]. by destruct (_ && _).
Qed.

(** In the histories a manager builds, system messages carry no marker. *)
Lemma idx_reachable_system_unmarked (texts : Texts) (h : list Message) :
  idx_reachable texts h ->
  forall m, m ∈ h -> role m = SYSTEM -> idx_marked_in m = 0%nat.
Proof.
  induction 1 as [|h userPrompt _ IH|h state previous _ IH
                 |h modelOutput shot thinking _ IH|h _ IH|h _ IH|h h' _ _ _ IH].
  - intros m Hm. by apply elem_of_nil in Hm.
  - intros m. unfold addSystemMessageAndUserPrompt. cbv zeta.
    rewrite !elem_of_app, !list_elem_of_singleton.
    intros [Hm|[->| ->]]; [by apply IH|done|done].
  - intros m. unfold addCurrentStateMessage. cbv zeta.
    rewrite elem_of_app, list_elem_of_singleton.
    intros [Hm| ->]; [by apply IH|done].
  - intros m. unfold addMessageFromModelOutput. cbv zeta.
    assert (forall x, x ∈ map dropImages h -> role x = SYSTEM ->
                      idx_marked_in x = 0%nat) as Hdrop.
    { intros x (x' & -> & Hx')%list_elem_of_fmap Hrole.
      rewrite dropImages_role in Hrole.
      pose proof (idx_marked_in_dropImages x') as Hle.
      pose proof (IH x' Hx' Hrole) as Hzero. lia. }
    destruct (truthy_string shot) as [s|];
      rewrite !elem_of_app, !list_elem_of_singleton.
    + intros [[Hm| ->]| ->]; [by apply Hdrop|done|done].
    + intros [Hm| ->]; [by apply Hdrop|done].
  - intros m [Hm|(m' & Hm' & ->)]%idx_getMessages_elem_of Hrole;
      [by apply IH|apply idx_marked_in_cleared].
  - intros m Hm. apply IH.
    by eapply (sublist_subseteq _ _ (removelast_sublist h)).
  - done.
Qed.

Lemma idx_getMessages_roles msgs :
  map role (getMessages msgs) = map role msgs.
Proof.
  assert (forall l, map role (map clearMessage l) = map role l) as Hclear.
  { intros l. rewrite map_map. apply map_ext. intros m. unfold clearMessage.
    by destruct (content m). }
  by rewrite <- (Hclear (getMessages msgs)), idx_getMessages_unmark, Hclear.
Qed.

Lemma idx_starts_with_system_roles msgs msgs' :
  map role msgs = map role msgs' ->
  idx_starts_with_system msgs = idx_starts_with_system msgs'.
Proof.
  destruct msgs as [|m l], msgs' as [|m' l']; try done. simpl.
  by intros [= -> _].
Qed.
End AnthropicRequest.

(** X24. IndexTs: the request built for Anthropic from a history read
    through [getMessages]. For every history the manager can hold, at
    most one content block of the request's messages carries
    [cache_control]; a leading system message is taken out of the
    messages, every other message is sent; and when thinking is enabled
    the request's [max_tokens] exceeds the thinking budget. *)
Theorem anthropic_request_from_history (texts : IndexTs.MessageManager.Texts)
    (this : IndexTs.AnthropicProvider.Provider)
    (options : IndexTs.AnthropicProvider.CallOptions)
    (history : list IndexTs.Llm.Message) :
  idx_reachable texts history ->
  let request :=
    IndexTs.AnthropicProvider.call_requestBody this
      (IndexTs.MessageManager.getMessages history) options in
  (anthropic_marked_blocks
     (IndexTs.AnthropicProvider.request_messages request) <= 1)%nat /\
  map IndexTs.AnthropicProvider.anthropic_role
      (IndexTs.AnthropicProvider.request_messages request)
  = map IndexTs.Llm.role
        (if idx_starts_with_system history then drop 1 history else history) /\
  (IndexTs.AnthropicProvider.enableThinking this = true ->
   (IndexTs.AnthropicProvider.thinkingTokenBudget this
    < IndexTs.AnthropicProvider.request_max_tokens request)%Z).
Proof.
  intros Hreach request. subst request.
  unfold IndexTs.AnthropicProvider.call_requestBody.
  set (sent := IndexTs.MessageManager.getMessages history).
  set (prepared := IndexTs.AnthropicProvider.prepareMessages sent).
  assert (map IndexTs.Llm.role prepared = map IndexTs.Llm.role history) as Hroles.
  { unfold prepared, sent.
    by rewrite prepareMessages_role, idx_getMessages_roles. }
  assert (sum_list_with idx_marked_in prepared <= 1)%nat as Hmarked.
  { unfold prepared. rewrite idx_marked_prepareMessages.
    rewrite idx_marked_all.
    - apply idx_getMessages_singleton. by eapply idx_reachable_wf.
    - apply (idx_reachable_system_unmarked texts). by constructor. }
  rewrite (idx_starts_with_system_roles history prepared) by done.
  assert (map IndexTs.Llm.role
            (if idx_starts_with_system prepared then drop 1 history
             else history)
          = map IndexTs.Llm.role
              (if idx_starts_with_system prepared then drop 1 prepared
               else prepared)) as ->.
  { destruct (idx_starts_with_system prepared); [|done].
    change (map IndexTs.Llm.role (drop 1 history))
      with (IndexTs.Llm.role <$> drop 1 history).
    change (map IndexTs.Llm.role (drop 1 prepared))
      with (IndexTs.Llm.role <$> drop 1 prepared).
    rewrite !fmap_drop. by f_equal. }
  clearbody prepared. clear Hroles.
  assert (forall budget max0 : Z, (budget < Z.max (budget + 1) max0)%Z)
    as Hmax by lia.
  destruct prepared as [|systemMsg rest].
  - simpl. split; [lia|]. split; [done|]. by intros ->.
  - cbn [idx_starts_with_system].
    destruct (bool_decide (IndexTs.Llm.role systemMsg = IndexTs.Llm.SYSTEM));
      cbv beta iota zeta;
      cbn [IndexTs.AnthropicProvider.request_messages
           IndexTs.AnthropicProvider.request_max_tokens].
    + split.
      * rewrite anthropic_marked_toAnthropicFormat. simpl in Hmarked. lia.
      * split; [|by intros ->].
        unfold IndexTs.AnthropicProvider.toAnthropicFormat.
        rewrite map_map. simpl. by rewrite drop_0.
    + split.
      * by rewrite anthropic_marked_toAnthropicFormat.
      * split; [|by intros ->].
        unfold IndexTs.AnthropicProvider.toAnthropicFormat.
        by rewrite map_map.
Qed.

Lemma anthropic_request_from_history_witness :
  (anthropic_marked_blocks
     (IndexTs.AnthropicProvider.request_messages
        (IndexTs.AnthropicProvider.call_requestBody
           (IndexTs.AnthropicProvider.mkProvider "claude" true 2048)
           (IndexTs.MessageManager.getMessages idx_history)
           (IndexTs.AnthropicProvider.mkCallOptions None (Some 1024%Z))))
   <= 1)%nat /\
  IndexTs.AnthropicProvider.request_max_tokens
    (IndexTs.AnthropicProvider.call_requestBody
       (IndexTs.AnthropicProvider.mkProvider "claude" true 2048)
       (IndexTs.MessageManager.getMessages idx_history)
       (IndexTs.AnthropicProvider.mkCallOptions None (Some 1024%Z)))
  = 2049%Z.
Proof.
  destruct (anthropic_request_from_history idx_texts
              (IndexTs.AnthropicProvider.mkProvider "claude" true 2048)
              (IndexTs.AnthropicProvider.mkCallOptions None (Some 1024%Z))
              idx_history idx_history_reachable) as (Hmarked & _ & _).
  split; [exact Hmarked|reflexivity].
Defined.

(** ** The histories of a run *)

Section TsVariantRunHistories.
Import TsVariant.Agent.
Context {W : Type} (texts : TsVariant.MessageManager.Texts)
        (outside : Outside W) (options : RunStreamOptions).
Hypothesis Hplain : tsv_plain_thinking outside.

Lemma tsv_step_reachable (w : W) (msgs : list TsVariant.Llm.Message) (n : Z)
    (previous : option TsVariant.ActionResult) :
  tsv_reachable texts msgs ->
  tsv_reachable texts (step texts (stepEnv outside w) msgs n previous).2.
Proof.
  intros Hmsgs. unfold step.
  destruct (updateState (stepEnv outside w)) as [state|error]; [|done].
  set (messages1 := match previous with Some _ => _ | None => msgs end).
  assert (tsv_reachable texts messages1) as H1.
  { unfold messages1. destruct previous; [by constructor|done]. }
  destruct (generateAction (stepEnv outside w) _) as [modelOutput|error] eqn:E.
  - set (messages2 := match previous with Some _ => _ | None => _ end).
    assert (tsv_reachable texts messages2) as H2.
    { unfold messages2. destruct previous; by repeat constructor. }
    assert (tsv_reachable texts
              (TsVariant.MessageManager.addMessageFromModelOutput texts
                 messages2 n previous modelOutput
                 (TsVariant.Models.screenshot state))) as H3.
    { constructor; [done|]. intros block. by eapply Hplain. }
    destruct (executeAction (stepEnv outside w) _); simpl; [done|].
    by constructor.
  - simpl. by repeat constructor.
Qed.

Lemma tsv_loop_reachable (startTime : option Z) (fuel : nat) (st : LoopState) :
  tsv_reachable texts (ls_messages st) ->
  tsv_reachable texts
    (ls_messages (runStream_loop texts outside options startTime fuel st).2) /\
  forall chunk state,
    chunk ∈ (runStream_loop texts outside options startTime fuel st).1.1 ->
    tsv_chunk_state chunk = Some state ->
    exists h, tsv_reachable texts h /\
              state = TsVariant.MessageManager.getMessages h.
Proof.
  revert st. induction fuel as [|fuel IH]; intros st Hst; simpl.
  - split; [done|]. intros chunk state Hc. by apply elem_of_nil in Hc.
  - pose proof (tsv_step_reachable (ls_world st) (ls_messages st)
                  (Z.of_nat (ls_step st)) (ls_result st) Hst) as Hstep.
    destruct (step texts _ _ _ _) as [out messages1]. simpl in Hstep.
    destruct out as [[r s]|error]; simpl.
    + destruct (match timeout options, startTime with
                | Some limit, Some start => _
                | _, _ => false
                end); simpl.
      * split; [by constructor|].
        intros chunk state ->%list_elem_of_singleton [= <-]. by eexists.
      * destruct (TsVariant.isDone r); simpl.
        -- split; [done|].
           by intros chunk state ->%list_elem_of_singleton.
        -- match goal with |- context [runStream_loop _ _ _ _ _ ?s] =>
             destruct (IH s Hstep) as [Hlast Hchunks] end.
           destruct (runStream_loop _ _ _ _ _ _) as [[chunks exit] st'].
           simpl in *. split; [done|].
           intros chunk state [->|Hc]%elem_of_cons; [done|].
           by apply Hchunks.
    + split; [done|]. intros chunk state Hc. by apply elem_of_nil in Hc.
Qed.

Lemma tsv_runStream_reachable (w : W) (msgs : list TsVariant.Llm.Message) :
  tsv_reachable texts msgs ->
  (forall restored, agentStateOpt options = Some (Returned restored) ->
                    tsv_reachable texts restored) ->
  forall chunk state,
    chunk ∈ (runStream texts outside options w msgs).1 ->
    tsv_chunk_state chunk = Some state ->
    exists h, tsv_reachable texts h /\
              state = TsVariant.MessageManager.getMessages h.
Proof.
  intros Hmsgs Hrestored chunk state. unfold runStream.
  destruct (runStream_start texts outside options w msgs)
    as [messages0|error] eqn:Hstart; [|intros Hc; by apply elem_of_nil in Hc].
  assert (tsv_reachable texts messages0) as H0.
  { unfold runStream_start, _setupMessages in Hstart.
    destruct (prompt options) as [p|], (agentStateOpt options) as [parsed|];
      try done.
    all: try (destruct (match prevStep options with Some _ => _ | None => _ end);
              [done|]).
    all: try (destruct parsed as [restored|error]; simpl in Hstart; [|done];
              destruct (updateState (stepEnv outside w)); simpl in Hstart;
              [|done]; injection Hstart as <-; constructor;
              unfold TsVariant.MessageManager.setMessages; by apply Hrestored).
    destruct (truthy_prompt _); [|done]. injection Hstart as <-.
    by constructor. }
  destruct (tsv_loop_reachable (startTime outside options w)
              (maxSteps options - step0 options)
              (loopStart options w messages0) H0) as [Hlast Hchunks].
  destruct (runStream_loop _ _ _ _ _ _) as [[chunks exit] st']. simpl in *.
  unfold runStream_finally.
  destruct (getStorageState outside _) as [storage|error];
    [destruct (if closeContext options then _ else _) as [u|error]|]; simpl.
  - rewrite !elem_of_app. intros [Hc|[Hc|Hc]].
    + by apply Hchunks.
    + destruct exit as [|[]|]; try by apply elem_of_nil in Hc.
      by apply list_elem_of_singleton in Hc as ->.
    + apply list_elem_of_singleton in Hc as ->. intros [= <-]. by eexists.
  - rewrite app_nil_r, elem_of_app. intros [Hc|Hc].
    + by apply Hchunks.
    + destruct exit as [|[]|]; try by apply elem_of_nil in Hc.
      by apply list_elem_of_singleton in Hc as ->.
  - rewrite app_nil_r, elem_of_app. intros [Hc|Hc].
    + by apply Hchunks.
    + destruct exit as [|[]|]; try by apply elem_of_nil in Hc.
      by apply list_elem_of_singleton in Hc as ->.
Qed.
End TsVariantRunHistories.

Section IndexTsRunHistories.
Import IndexTs.Agent.
Context {W : Type} (texts : IndexTs.MessageManager.Texts)
        (outside : Outside W) (options : RunStreamOptions).
Hypothesis Hseen :
  forall w h, idx_reachable texts h ->
              idx_reachable texts (seenAtTimeout outside w h).

Lemma idx_step_reachable (w : W) (msgs : list IndexTs.Llm.Message)
    (previous : option IndexTs.ActionResult) :
  idx_reachable texts msgs ->
  idx_reachable texts (step texts (stepEnv outside w) true msgs previous).2.
Proof.
  intros Hmsgs. unfold step. simpl.
  destruct (updateState (stepEnv outside w)) as [state|error]; [|done].
  destruct (generateAction (stepEnv outside w) _) as [output|error]; simpl.
  - assert (idx_reachable texts
              (IndexTs.MessageManager.addMessageFromModelOutput texts
                 (IndexTs.MessageManager.setMessages
                    (IndexTs.MessageManager.getMessages
                       (IndexTs.MessageManager.addCurrentStateMessage texts
                          msgs state previous))
                    (removelast
                       (IndexTs.MessageManager.getMessages
                          (IndexTs.MessageManager.getMessages
                             (IndexTs.MessageManager.addCurrentStateMessage
                                texts msgs state previous)))))
                 output (IndexTs.Models.screenshot state)
                 (IndexTs.thinking output))) as H3.
    { unfold IndexTs.MessageManager.setMessages. by repeat constructor. }
    by destruct (executeAction (stepEnv outside w) _).
  - by repeat constructor.
Qed.

Lemma idx_loop_reachable (fuel : nat) (st : LoopState) :
  idx_reachable texts (ls_messages st) ->
  idx_reachable texts
    (ls_messages (runStream_loop texts outside options fuel st).2) /\
  forall chunk state,
    chunk ∈ (runStream_loop texts outside options fuel st).1.1 ->
    idx_chunk_state chunk = Some state ->
    exists h, idx_reachable texts h /\
              state = IndexTs.MessageManager.getMessages h.
Proof.
  revert st. induction fuel as [|fuel IH]; intros st Hst; simpl.
  - split; [done|]. intros chunk state Hc. by apply elem_of_nil in Hc.
  - pose proof (idx_step_reachable (ls_world st) (ls_messages st)
                  (ls_actionResult st) Hst) as Hstep.
    assert (idx_reachable texts
              (executeStepWithTimeout texts outside (ls_world st)
                 (ls_messages st) (ls_actionResult st) (timeout options)).2 /\
            forall data,
              (executeStepWithTimeout texts outside (ls_world st)
                 (ls_messages st) (ls_actionResult st) (timeout options)).1
              = Returned (StepTimeout data) ->
              exists h, idx_reachable texts h /\
                        timeout_agent_state data
                        = IndexTs.MessageManager.getMessages h)
      as [Hafter Htimeout].
    { unfold executeStepWithTimeout.
      destruct (truthy_timeout (timeout options)) as [t|].
      - destruct (timerFirst outside (ls_world st) t); simpl.
        + split; [constructor; by apply Hseen|].
          intros data [= <-]. simpl. eexists. split; [|done]. by apply Hseen.
        + destruct (step texts _ true _ _) as [out h]. simpl in *.
          split; [done|]. by destruct out.
      - destruct (step texts _ true _ _) as [out h]. simpl in *.
        split; [done|]. by destruct out. }
    destruct (executeStepWithTimeout _ _ _ _ _ _) as [out messages1].
    simpl in Hafter, Htimeout.
    destruct out as [[[r s]|data]|error]; simpl.
    + destruct (IndexTs.is_done r); simpl.
      * split; [done|]. by intros chunk state ->%list_elem_of_singleton.
      * match goal with |- context [runStream_loop _ _ _ _ ?s] =>
          destruct (IH s Hafter) as [Hlast Hchunks] end.
        destruct (runStream_loop _ _ _ _ _) as [[chunks timedOut] st'].
        simpl in *. split; [done|].
        intros chunk state [->|Hc]%elem_of_cons; [done|]. by apply Hchunks.
    + split; [done|].
      intros chunk state ->%list_elem_of_singleton [= <-].
      by apply Htimeout.
    + match goal with |- context [runStream_loop _ _ _ _ ?s] =>
        destruct (IH s Hafter) as [Hlast Hchunks] end.
      destruct (runStream_loop _ _ _ _ _) as [[chunks timedOut] st'].
      simpl in *. split; [done|].
      intros chunk state [->|Hc]%elem_of_cons; [done|]. by apply Hchunks.
Qed.

Lemma idx_runStream_reachable (w : W) (msgs : list IndexTs.Llm.Message)
    (prompt : string) :
  idx_reachable texts msgs ->
  (forall restored, agentState options = Some (Returned restored) ->
                    idx_reachable texts restored) ->
  forall chunk state,
    chunk ∈ runStream texts outside w msgs prompt options ->
    idx_chunk_state chunk = Some state ->
    exists h, idx_reachable texts h /\
              state = IndexTs.MessageManager.getMessages h.
Proof.
  intros Hmsgs Hrestored chunk state. unfold runStream.
  destruct (setup texts outside w msgs prompt (agentState options))
    as [messages0|error] eqn:Hsetup.
  2:{ by intros ->%list_elem_of_singleton. }
  assert (idx_reachable texts messages0) as H0.
  { unfold setup in Hsetup.
    destruct (browserInit outside w); simpl in Hsetup; [|done].
    destruct (agentState options) as [[restored|error]|];
      injection Hsetup as <-; [by apply Hrestored| |]; by constructor. }
  destruct (idx_loop_reachable (maxSteps options - prevStep options)
              (loopStart options w messages0) H0) as [Hlast Hchunks].
  destruct (runStream_loop _ _ _ _ _) as [[chunks timedOut] st']. simpl in *.
  destruct (getStorageState outside _) as [storage|error];
    [destruct (close outside _) as [u|error]|];
    rewrite elem_of_app; (intros [Hc|Hc]; [by apply Hchunks|]);
    apply list_elem_of_singleton in Hc as ->; [|done|done].
  intros [= <-]. by eexists.
Qed.
End IndexTsRunHistories.

(** X25. The agent states a run hands out hold at most one cache marker.
    In a streaming run that starts from a history the manager can hold
    (and, when it resumes, from a state of that kind), every agent state
    carried by a final output chunk or a timeout chunk is a history read
    through [getMessages] and holds at most one marked block outside
    system messages. (TsVariant: the thinking blocks that come with the
    model outputs carry no marker. IndexTs: what the timer callback sees
    is a history the manager can hold.) *)
Theorem run_states_hold_one_marker {Wt Wi : Type}
    (ttexts : TsVariant.MessageManager.Texts)
    (toutside : TsVariant.Agent.Outside Wt)
    (toptions : TsVariant.Agent.RunStreamOptions) (tw : Wt)
    (tmsgs : list TsVariant.Llm.Message)
    (itexts : IndexTs.MessageManager.Texts)
    (ioutside : IndexTs.Agent.Outside Wi) (iw : Wi)
    (imsgs : list IndexTs.Llm.Message) (prompt : string)
    (ioptions : IndexTs.Agent.RunStreamOptions) :
  tsv_reachable ttexts tmsgs ->
  (forall restored,
     TsVariant.Agent.agentStateOpt toptions = Some (Returned restored) ->
     tsv_reachable ttexts restored) ->
  tsv_plain_thinking toutside ->
  idx_reachable itexts imsgs ->
  (forall restored,
     IndexTs.Agent.agentState ioptions = Some (Returned restored) ->
     idx_reachable itexts restored) ->
  (forall w h, idx_reachable itexts h ->
               idx_reachable itexts (IndexTs.Agent.seenAtTimeout ioutside w h)) ->
  (forall chunk state,
     chunk ∈ (TsVariant.Agent.runStream ttexts toutside toptions tw tmsgs).1 ->
     tsv_chunk_state chunk = Some state ->
     TsVariant.MessageManager.getMessages state = state /\
     (tsv_marked_blocks state <= 1)%nat) /\
  (forall chunk state,
     chunk ∈ IndexTs.Agent.runStream itexts ioutside iw imsgs prompt ioptions ->
     idx_chunk_state chunk = Some state ->
     IndexTs.MessageManager.getMessages state = state /\
     (idx_marked_blocks state <= 1)%nat).
Proof.
  intros Htmsgs Htrestored Hplain Himsgs Hirestored Hseen. split.
  - intros chunk state Hc Hs.
    destruct (tsv_runStream_reachable ttexts toutside toptions Hplain tw tmsgs
                Htmsgs Htrestored chunk state Hc Hs) as (h & Hh & ->).
    split; [apply tsv_getMessages_idem|].
    apply tsv_getMessages_singleton. by eapply tsv_reachable_wf.
  - intros chunk state Hc Hs.
    destruct (idx_runStream_reachable itexts ioutside ioptions Hseen iw imsgs
                prompt Himsgs Hirestored chunk state Hc Hs) as (h & Hh & ->).
    split; [apply idx_getMessages_idem|].
    apply idx_getMessages_singleton. by eapply idx_reachable_wf.
Qed.

Lemma run_states_hold_one_marker_witness :
  (tsv_marked_blocks
     (TsVariant.Agent.agentState
        (tsv_final_output
           (TsVariant.Agent.runStream tsv_texts tsv_slow_world tsv_slow_options
              0%nat []).1)) <= 1)%nat /\
  (idx_marked_blocks
     (IndexTs.Agent.agent_state
        (idx_final_output
           (IndexTs.Agent.runStream idx_texts idx_slow_world 0%nat []
              "find the cheapest flight" idx_slow_options))) <= 1)%nat.
Proof.
  destruct (run_states_hold_one_marker tsv_texts tsv_slow_world
              tsv_slow_options 0%nat [] idx_texts idx_slow_world 0%nat []
              "find the cheapest flight" idx_slow_options) as [Ht Hi].
  - constructor.
  - intros restored. simpl. done.
  - intros w sent modelOutput block. simpl. by intros [= <-].
  - constructor.
  - intros restored. simpl. done.
  - intros w h Hh. exact Hh.
  - split.
    + apply (Ht (TsVariant.Agent.FinalOutputChunk
                   (tsv_final_output
                      (TsVariant.Agent.runStream tsv_texts tsv_slow_world
                         tsv_slow_options 0%nat []).1))); [|reflexivity].
      apply list_elem_of_lookup. exists 2%nat. vm_compute. reflexivity.
    + apply (Hi (IndexTs.Agent.FinalOutputChunk
                   (idx_final_output
                      (IndexTs.Agent.runStream idx_texts idx_slow_world 0%nat
                         [] "find the cheapest flight" idx_slow_options))));
        [|reflexivity].
      apply list_elem_of_lookup. exists 3%nat. vm_compute. reflexivity.
Defined.
